(** * PintOS file system: buffer cache, indexed inodes, directories

    A shallow embedding of the file-system core of the repository
    (filesys/cache.c, filesys/inode.c, filesys/directory.c,
    filesys/filesys.c) and the properties its specification states.

    Conventions of the embedding.
    - C integers are [Z]; conversions to [size_t] and [block_sector_t]
      are written out as reductions modulo [2^32], signed division and
      remainder are [Z.quot] and [Z.rem].
    - A sector is its 512 bytes, [Z -> Z] from byte offset to byte; a
      32-bit word of a sector is decoded little-endian, as on the
      80x86 PintOS runs on.
    - The inode layer reaches the disk only through [set_inode_data]
      and [set_block_data], that is through [allocate_buffer] /
      [deallocate_buffer]. It is modelled against the cache's contract:
      [store w s] is the content of sector [s] as the cache serves it,
      and a pointer into a cache slot is the number of the sector the
      slot was acquired for; what is stored through such a pointer is
      what the next call finds there, whatever flag the slot was
      released with. The cache itself is modelled on its own in the
      second half of the definitions.
    - [malloc] and [calloc] are taken to succeed.
    - An [ASSERT] that fails, and a store or a read through a pointer
      that points nowhere, end the run: a function that can come to
      one returns an [option], and [None] is the run that does not
      return. *)

From Stdlib Require Import ZArith List Bool Lia String Ascii.
Import ListNotations.
Local Open Scope Z_scope.

(** ** Constants *)

(** devices/block.h *)
Definition BLOCK_SECTOR_SIZE : Z := 512.
(** filesys/inode.h *)
Definition MAX_FILE_SIZE : Z := 8127488.
Definition DIRECT_BLOCKS : Z := 124.
Definition BLOCKS_PER_SECTOR : Z := 125.
(** [uint32_t NO_SECTOR = -1;] *)
Definition NO_SECTOR : Z := 2 ^ 32 - 1.
(** filesys/directory.h and filesys/filesys.h *)
Definition NAME_MAX : Z := 14.
Definition ROOT_DIR_SECTOR : Z := 1.
(** filesys/cache.h *)
Definition CACHE_SIZE : nat := 64.

(** Conversion of an [int] to [size_t] (32 bits, unsigned). *)
Definition to_size_t (z : Z) : Z := z mod 2 ^ 32.

(** Reading an [off_t] (32 bits, signed) out of a stored word. *)
Definition to_off_t (z : Z) : Z := if z <? 2 ^ 31 then z else z - 2 ^ 32.

(** ** Sectors as bytes, words inside a sector *)

Definition sector_data : Type := Z -> Z.

Definition zero_sector : sector_data := fun _ => 0.

Definition byte_at (d : sector_data) (k : Z) : Z := d k mod 256.

(** The [i]-th [uint32_t] of a sector. *)
Definition get_word (d : sector_data) (i : Z) : Z :=
  byte_at d (4 * i) + 256 * byte_at d (4 * i + 1)
  + 65536 * byte_at d (4 * i + 2) + 16777216 * byte_at d (4 * i + 3).

Definition set_word (d : sector_data) (i v : Z) : sector_data :=
  fun k =>
    if (4 * i <=? k) && (k <? 4 * i + 4)
    then (v / 256 ^ (k - 4 * i)) mod 256
    else d k.

(** [memcpy (dst + ofs, src + from, n)] into a sector. *)
Definition blit (d : sector_data) (ofs : Z) (src : list Z) (from n : Z) : sector_data :=
  fun k =>
    if (ofs <=? k) && (k <? ofs + n)
    then nth (Z.to_nat (from + (k - ofs))) src 0
    else d k.

(** [memcpy (dst, src + ofs, n)] out of a sector. *)
Definition slice (d : sector_data) (ofs n : Z) : list Z :=
  map (fun j => d (ofs + Z.of_nat j)) (seq 0 (Z.to_nat n)).

(** [struct inode_disk]: [length] at byte 0, [is_dir] at byte 4,
    [sectors[DIRECT_BLOCKS + 2]] from byte 8 on. *)
Definition disk_length (d : sector_data) : Z := to_off_t (get_word d 0).
Definition disk_is_dir (d : sector_data) : bool := negb (byte_at d 4 =? 0).
Definition disk_sectors (d : sector_data) (idx : Z) : Z := get_word d (2 + idx).
Definition set_disk_length (d : sector_data) (len : Z) : sector_data := set_word d 0 len.
Definition set_disk_sectors (d : sector_data) (idx v : Z) : sector_data :=
  set_word d (2 + idx) v.

(** ** The free map *)

(** Modelled from the spec: the free-sector bitmap allocator
    (filesys/free-map.c is not among the sources). [allocate] hands out
    one free sector or fails, [release] marks a sector free. The bitmap
    has one bit per sector of the device, [true] for a sector in use;
    the lowest free sector is the one handed out. *)
Definition bitmap : Type := list bool.

Fixpoint bitmap_scan (b : bitmap) : option nat :=
  match b with
  | [] => None
  | used :: r => if used then option_map S (bitmap_scan r) else Some 0%nat
  end.

Fixpoint bitmap_set (b : bitmap) (n : nat) (v : bool) : bitmap :=
  match b, n with
  | [], _ => []
  | _ :: r, O => v :: r
  | x :: r, S m => x :: bitmap_set r m v
  end.

Definition bitmap_test (b : bitmap) (s : Z) : bool :=
  (0 <=? s) && nth (Z.to_nat s) b false.

(** What the file system asked of the free map, latest call first. *)
Inductive fm_event : Type :=
| FmAlloc (s : Z)
| FmFail
| FmRelease (s : Z).

(** ** In-memory inodes and the state of the file system *)

(** [struct inode]; [i_addr] is the address [malloc] returned for it,
    [data] is re-read from the cache at every use and [lock] plays no
    part in a sequential run. *)
Record inode : Type := mk_inode {
  i_addr : nat;
  i_sector : Z;
  open_cnt : Z;
  removed : bool;
  deny_write_cnt : Z
}.

Record world : Type := mk_world {
  store : Z -> sector_data;          (* sector contents, through the cache *)
  free_map : bitmap;
  fm_log : list fm_event;
  open_inodes : list inode;     (* [static struct list open_inodes] *)
  next_addr : nat;              (* the next address [malloc] returns *)
  curr_inode : option nat       (* [thread_current ()->curr_inode] *)
}.

Definition set_store (w : world) (st : Z -> sector_data) : world :=
  mk_world st (free_map w) (fm_log w) (open_inodes w) (next_addr w)
    (curr_inode w).

Definition set_open_inodes (w : world) (l : list inode) : world :=
  mk_world (store w) (free_map w) (fm_log w) l (next_addr w) (curr_inode w).

Definition upd (st : Z -> sector_data) (s : Z) (d : sector_data) : Z -> sector_data :=
  fun s' => if s' =? s then d else st s'.

Definition write_sector (w : world) (s : Z) (d : sector_data) : world :=
  set_store w (upd (store w) s d).

(** [free_map_allocate (1, &sector)]: [None] is the [false] return. *)
Definition free_map_allocate (w : world) : option Z * world :=
  match bitmap_scan (free_map w) with
  | None =>
      (None,
       mk_world (store w) (free_map w) (FmFail :: fm_log w) (open_inodes w)
         (next_addr w) (curr_inode w))
  | Some n =>
      (Some (Z.of_nat n),
       mk_world (store w) (bitmap_set (free_map w) n true)
         (FmAlloc (Z.of_nat n) :: fm_log w) (open_inodes w) (next_addr w)
         (curr_inode w))
  end.

(** [free_map_release (sector, 1)] *)
Definition free_map_release (s : Z) (w : world) : world :=
  mk_world (store w)
    (if 0 <=? s then bitmap_set (free_map w) (Z.to_nat s) false
     else free_map w)
    (FmRelease s :: fm_log w) (open_inodes w) (next_addr w) (curr_inode w).

(** ** The buffer cache (filesys/cache.c) *)

(** [struct cache]; [c_id] is the address of the slot. *)
Record cache : Type := mk_cache {
  c_id : nat;
  c_data : sector_data;         (* [block_data] *)
  disk_sector : Z;
  accessed : bool;
  is_available : bool;
  is_dirty : bool
}.

(** What the cache asked of the block device, latest call first. *)
Inductive dev_event : Type :=
| BlockRead (s : Z)
| BlockWrite (s : Z) (data : sector_data).

Record cache_state : Type := mk_cache_state {
  cache_list : list cache;      (* [static struct list cache_list] *)
  disk : Z -> sector_data;      (* [fs_device] *)
  dev_log : list dev_event
}.

(** [init_cache ()]. The slots come from [malloc]: [junk k] is what
    the memory of slot [k] holds before [disk_sector] and
    [is_available] are set. *)
Definition init_cache (junk : nat -> cache) (d : Z -> sector_data)
    : cache_state :=
  mk_cache_state
    (map
       (fun k =>
          mk_cache k (c_data (junk k)) (2 ^ 32 - 1) (accessed (junk k)) true
            (is_dirty (junk k)))
       (seq 0 CACHE_SIZE))
    d [].

(** One pass of the inner [while] of [find_buffer] over the slots from
    [l] on: the slots afterwards, the slot that holds [sector] if the
    pass met one, and [temp_buf]. *)
Fixpoint scan (sector : Z) (l : list cache) (temp_buf : option nat)
    : list cache * (option nat * option nat) :=
  match l with
  | [] => ([], (None, temp_buf))
  | buf :: rest =>
      if sector =? disk_sector buf then (l, (Some (c_id buf), temp_buf))
      else if is_available buf then
        if accessed buf then
          let (rest', r) := scan sector rest temp_buf in
          (mk_cache (c_id buf) (c_data buf) (disk_sector buf) false
             (is_available buf) (is_dirty buf) :: rest', r)
        else
          let temp_buf :=
            match temp_buf with None => Some (c_id buf) | Some _ => temp_buf end
          in
          let (rest', r) := scan sector rest temp_buf in (buf :: rest', r)
      else
        let (rest', r) := scan sector rest temp_buf in (buf :: rest', r)
  end.

(** [find_buffer (sector)]. A pass that ends with [temp_buf] unset has
    cleared every [accessed] bit it could; when the pass after it ends
    the same way no later pass differs, and the outer [while] never
    ends: [None]. *)
Definition find_buffer (sector : Z) (l : list cache)
    : option (nat * list cache) :=
  let (l1, r1) := scan sector l None in
  match r1 with
  | (Some b, _) => Some (b, l1)
  | (None, Some t) => Some (t, l1)
  | (None, None) =>
      let (l2, r2) := scan sector l1 None in
      match r2 with
      | (Some b, _) => Some (b, l2)
      | (None, Some t) => Some (t, l2)
      | (None, None) => None
      end
  end.

Definition find_slot (b : nat) (l : list cache) : option cache :=
  find (fun c => Nat.eqb (c_id c) b) l.

Definition update_slot (b : nat) (f : cache -> cache) (l : list cache)
    : list cache :=
  map (fun c => if Nat.eqb (c_id c) b then f c else c) l.

(** [allocate_buffer (sector)]: the slot returned. [cond_wait] on a
    slot that is not available has nobody to wake it in a sequential
    run: [None]. *)
Definition allocate_buffer (sector : Z) (st : cache_state)
    : option (nat * cache_state) :=
  match find_buffer sector (cache_list st) with
  | None => None
  | Some (b, l) =>
      match find_slot b l with
      | None => None
      | Some buf =>
          if sector =? disk_sector buf then
            if is_available buf then
              Some (b,
                    mk_cache_state
                      (update_slot b
                         (fun c =>
                            mk_cache (c_id c) (c_data c) (disk_sector c) true
                              (is_available c) (is_dirty c)) l)
                      (disk st) (dev_log st))
            else None
          else
            let d1 :=
              if is_dirty buf then upd (disk st) (disk_sector buf) (c_data buf)
              else disk st in
            let log1 :=
              if is_dirty buf
              then BlockWrite (disk_sector buf) (c_data buf) :: dev_log st
              else dev_log st in
            Some (b,
                  mk_cache_state
                    (update_slot b
                       (fun c => mk_cache (c_id c) (d1 sector) sector true true
                                   false) l)
                    d1 (BlockRead sector :: log1))
      end
  end.

(** [deallocate_buffer (buf, is_dirty)] *)
Definition deallocate_buffer (b : nat) (dirty : bool) (st : cache_state)
    : option cache_state :=
  match find_slot b (cache_list st) with
  | None => None
  | Some buf =>
      Some
        (mk_cache_state
           (filter (fun c => negb (Nat.eqb (c_id c) b)) (cache_list st)
            ++ [mk_cache (c_id buf) (c_data buf) (disk_sector buf)
                  (accessed buf) true (if dirty then true else is_dirty buf)])
           (disk st) (dev_log st))
  end.

(** The walk of [write_dirty_to_disk] up to the first dirty slot. *)
Definition first_dirty (l : list cache) : option cache :=
  find is_dirty l.

(** [write_dirty_to_disk ()]: after a dirty slot is written the walk
    starts over, with one dirty slot less; a slot per turn is enough. *)
Fixpoint write_dirty_loop (fuel : nat) (st : cache_state)
    : option cache_state :=
  match first_dirty (cache_list st) with
  | None => Some st
  | Some buf =>
      match fuel with
      | O => None
      | S fuel' =>
          if is_available buf then
            let st1 :=
              mk_cache_state
                (update_slot (c_id buf)
                   (fun c =>
                      mk_cache (c_id c) (c_data c) (disk_sector c)
                        (accessed c) false false) (cache_list st))
                (upd (disk st) (disk_sector buf) (c_data buf))
                (BlockWrite (disk_sector buf) (c_data buf) :: dev_log st) in
            match deallocate_buffer (c_id buf) false st1 with
            | Some st2 => write_dirty_loop fuel' st2
            | None => None
            end
          else None
      end
  end.

Definition write_dirty_to_disk (st : cache_state) : option cache_state :=
  write_dirty_loop (List.length (cache_list st)) st.

(** A caller with a slot in hand copies into its [block_data]. *)
Definition store_data (b : nat) (d : sector_data) (st : cache_state)
    : option cache_state :=
  match find_slot b (cache_list st) with
  | None => None
  | Some _ =>
      Some
        (mk_cache_state
           (update_slot b
              (fun c =>
                 mk_cache (c_id c) d (disk_sector c) (accessed c)
                   (is_available c) (is_dirty c)) (cache_list st))
           (disk st) (dev_log st))
  end.

(** The operations on the cache, and a run of a sequence of them. *)
Inductive cache_op : Type :=
| Allocate (sector : Z)
| Deallocate (b : nat) (dirty : bool)
| StoreData (b : nat) (d : sector_data)
| WriteDirty.

Definition run_op (op : cache_op) (st : cache_state) : option cache_state :=
  match op with
  | Allocate s => option_map snd (allocate_buffer s st)
  | Deallocate b dirty => deallocate_buffer b dirty st
  | StoreData b d => store_data b d st
  | WriteDirty => write_dirty_to_disk st
  end.

Fixpoint run_ops (ops : list cache_op) (st : cache_state)
    : option cache_state :=
  match ops with
  | [] => Some st
  | op :: rest =>
      match run_op op st with
      | Some st' => run_ops rest st'
      | None => None
      end
  end.

(** ** The inode layer (filesys/inode.c) *)

Section Filesys.

(** What the code reads where C leaves it undefined.
    [wild k] is the word found at index [k] through a pointer that was
    never set, or past the 512 bytes of a cache slot. [stack_buff]
    tells whether the local [buff] of [byte_to_sector], which is passed
    on before it is ever assigned, happens to be non-null. *)
Variable wild : Z -> Z.
Variable stack_buff : bool.

(** The read of word [idx] through [block_data], which points to the
    slot of sector [s] ([Some s]) or was never set ([None]). *)
Definition load (w : world) (block_data : option Z) (idx : Z) : Z :=
  match block_data with
  | Some s => if idx <? 128 then get_word (store w s) idx else wild idx
  | None => wild idx
  end.

(** The assignment of [v] to word [idx] through [block_data]; a store
    outside the slot's data is lost to the model. *)
Definition poke (w : world) (block_data : option Z) (idx v : Z) : world :=
  match block_data with
  | Some s =>
      if idx <? 128 then write_sector w s (set_word (store w s) idx v) else w
  | None => w
  end.

(** [inode_length] *)
Definition inode_length (i : inode) (w : world) : Z :=
  disk_length (store w (i_sector i)).

(** [is_directory] *)
Definition is_directory (i : inode) (w : world) : bool :=
  disk_is_dir (store w (i_sector i)).

(** [byte_to_indirect_sector (buff, inode, &block_data, &sector, idx)].
    The result is the returned [buff] (is it non-null), the caller's
    [block_data] and [sector] afterwards, and the new state. When
    [free_map_allocate] fails, [sector = NO_SECTOR] only rebinds the
    parameter: the caller's [sector] keeps the 0 just read and its
    [block_data] stays unset. *)
Definition byte_to_indirect_sector (buff : bool) (i : inode) (idx : Z)
    (w : world) : bool * option Z * Z * world :=
  let idx := if idx >=? DIRECT_BLOCKS then DIRECT_BLOCKS else idx in
  let sector := disk_sectors (store w (i_sector i)) idx in
  if sector =? 0 then
    match free_map_allocate w with
    | (None, w1) => (false, None, sector, w1)
    | (Some s, w1) =>
        let w2 :=
          write_sector w1 (i_sector i)
            (set_disk_sectors (store w1 (i_sector i)) idx s) in
        (buff, Some s, s, write_sector w2 s zero_sector)
    end
  else (buff, Some sector, sector, w).

(** [byte_to_double_indirect_sec (buff, &block_data, &sector, idx)] *)
Definition byte_to_double_indirect_sec (buff : bool) (block_data : option Z)
    (sector idx : Z) (w : world) : option Z * Z * world :=
  let new_sector := sector in
  let sector := load w block_data idx in
  if sector =? 0 then
    match free_map_allocate w with
    | (None, w1) => (block_data, sector, w1)
    | (Some s, w1) =>
        let w2 := if buff then poke w1 (Some new_sector) idx s else w1 in
        (Some s, s, write_sector w2 s zero_sector)
    end
  else (Some sector, sector, w).

(** [byte_to_sector (inode, pos)] *)
Definition byte_to_sector (i : inode) (pos : Z) (w : world) : Z * world :=
  let idx := to_size_t (Z.quot pos BLOCK_SECTOR_SIZE) in
  let '(buff, block_data, sector, w1) :=
    byte_to_indirect_sector stack_buff i idx w in
  if sector =? NO_SECTOR then (sector, w1)
  else if idx >=? DIRECT_BLOCKS then
    let idx1 :=
      to_size_t (pos - BLOCK_SECTOR_SIZE * DIRECT_BLOCKS)
      / (BLOCKS_PER_SECTOR * BLOCK_SECTOR_SIZE) in
    let '(block_data1, sector1, w2) :=
      byte_to_double_indirect_sec buff block_data sector idx1 w1 in
    if sector1 =? NO_SECTOR then (sector1, w2)
    else
      let idx2 :=
        (to_size_t (pos - BLOCK_SECTOR_SIZE * DIRECT_BLOCKS)
         / BLOCK_SECTOR_SIZE) mod BLOCKS_PER_SECTOR in
      let '(_, sector2, w3) :=
        byte_to_double_indirect_sec buff block_data1 sector1 idx2 w2 in
      (sector2, w3)
  else (sector, w1).

(** [start_read_ahead]: the sector after the one just read is walked
    to, and nominated to the cache's read-ahead thread. *)
Definition start_read_ahead (i : inode) (offset : Z) (w : world) : world :=
  if offset + BLOCK_SECTOR_SIZE - 1 <? inode_length i w
  then snd (byte_to_sector i (offset + BLOCK_SECTOR_SIZE - 1) w)
  else w.

(** The [while (size > 0)] loop of [inode_read_at]. Every turn takes
    at least one byte off [size], so [Z.to_nat size] turns are enough. *)
Fixpoint read_loop (fuel : nat) (i : inode) (size offset : Z) (out : list Z)
    (w : world) : list Z * Z * world :=
  match fuel with
  | O => (out, offset, w)
  | S fuel' =>
      if size >? 0 then
        let (sector_idx, w1) := byte_to_sector i offset w in
        if sector_idx =? NO_SECTOR then (out, offset, w1)
        else
          let sector_ofs := Z.rem offset BLOCK_SECTOR_SIZE in
          let inode_left := inode_length i w1 - offset in
          let sector_left := BLOCK_SECTOR_SIZE - sector_ofs in
          let min_left :=
            if inode_left <? sector_left then inode_left else sector_left in
          let chunk_size := if size <? min_left then size else min_left in
          if chunk_size <=? 0 then (out, offset, w1)
          else
            read_loop fuel' i (size - chunk_size) (offset + chunk_size)
              (out ++ slice (store w1 sector_idx) sector_ofs chunk_size) w1
      else (out, offset, w)
  end.

(** [off_t inode_read_at (inode, buffer, size, offset)]: the bytes
    copied to [buffer], whose number is the value returned. *)
Definition inode_read_at (i : inode) (size offset : Z) (w : world)
    : list Z * world :=
  if offset >=? inode_length i w then ([], w)
  else
    let '(out, offset', w1) := read_loop (Z.to_nat size) i size offset [] w in
    (out, start_read_ahead i offset' w1).

(** The [while (size > 0)] loop of [inode_write_at]. *)
Fixpoint write_loop (fuel : nat) (i : inode) (buffer : list Z)
    (size offset bytes_written : Z) (w : world) : Z * Z * world :=
  match fuel with
  | O => (bytes_written, offset, w)
  | S fuel' =>
      if size >? 0 then
        let (sector_idx, w1) := byte_to_sector i offset w in
        if sector_idx =? NO_SECTOR then (bytes_written, offset, w1)
        else
          let sector_ofs := Z.rem offset BLOCK_SECTOR_SIZE in
          let inode_left := MAX_FILE_SIZE - offset in
          let sector_left := BLOCK_SECTOR_SIZE - sector_ofs in
          let min_left :=
            if inode_left <? sector_left then inode_left else sector_left in
          let chunk_size := if size <? min_left then size else min_left in
          if chunk_size <=? 0 then (bytes_written, offset, w1)
          else
            let w2 :=
              write_sector w1 sector_idx
                (blit (store w1 sector_idx) sector_ofs buffer bytes_written
                   chunk_size) in
            write_loop fuel' i buffer (size - chunk_size)
              (offset + chunk_size) (bytes_written + chunk_size) w2
      else (bytes_written, offset, w)
  end.

(** [off_t inode_write_at (inode, buffer, size, offset)] *)
Definition inode_write_at (i : inode) (buffer : list Z) (size offset : Z)
    (w : world) : Z * world :=
  if negb (deny_write_cnt i =? 0) then (0, w)
  else
    let '(bytes_written, offset', w1) :=
      write_loop (Z.to_nat size) i buffer size offset 0 w in
    let d := store w1 (i_sector i) in
    (bytes_written,
     if offset' >? disk_length d
     then write_sector w1 (i_sector i) (set_disk_length d offset')
     else w1).

(** The record [inode_create] fills in: zeroed, with [length] and
    [is_dir] set. *)
Definition new_inode_disk (length : Z) (dir : bool) : sector_data :=
  let d := set_disk_length zero_sector length in
  fun k => if k =? 4 then (if dir then 1 else 0) else d k.

(** [bool inode_create (sector, length, dir)]: the record is copied
    into the slot of [sector]. [None] is the failure of
    [ASSERT (length >= 0)], which does not return. *)
Definition inode_create (sector length : Z) (dir : bool) (w : world)
    : option (bool * world) :=
  if length <? 0 then None
  else Some (true, write_sector w sector (new_inode_disk length dir)).

Definition find_inode (a : nat) (w : world) : option inode :=
  find (fun i => Nat.eqb (i_addr i) a) (open_inodes w).

Definition update_inode (a : nat) (f : inode -> inode) (w : world) : world :=
  set_open_inodes w
    (map (fun i => if Nat.eqb (i_addr i) a then f i else i) (open_inodes w)).

(** [inode_reopen] *)
Definition inode_reopen (p : option nat) (w : world) : option nat * world :=
  match p with
  | None => (None, w)
  | Some a =>
      (Some a,
       update_inode a
         (fun i =>
            mk_inode (i_addr i) (i_sector i) (open_cnt i + 1) (removed i)
              (deny_write_cnt i)) w)
  end.

(** [inode_open (sector)] *)
Definition inode_open (sector : Z) (w : world) : option nat * world :=
  match find (fun i => i_sector i =? sector) (open_inodes w) with
  | Some i => inode_reopen (Some (i_addr i)) w
  | None =>
      let a := next_addr w in
      (Some a,
       mk_world (store w) (free_map w) (fm_log w)
         (mk_inode a sector 1 false 0 :: open_inodes w) (S a) (curr_inode w))
  end.

(** [inode_get_inumber] *)
Definition inode_get_inumber (i : inode) : Z := i_sector i.

(** The release of a removed inode's blocks in [inode_close]: the
    loop over the direct pointers. *)
Definition release_direct (i : inode) (w : world) : world :=
  fold_left
    (fun w k =>
       let s := disk_sectors (store w (i_sector i)) (Z.of_nat k) in
       if s =? 0 then w else free_map_release s w)
    (seq 0 (Z.to_nat DIRECT_BLOCKS)) w.

(** The release of a removed inode's blocks. When
    [single_indirect_block] is not 0 the loop that follows declares
    [block_data] and hands it, by value and before it points anywhere,
    to [set_block_data], which stores through it; [block_data[i]] is
    then read through the same pointer. Nothing defines that store and
    that read: the run does not go on from there, which is [None]. *)
Definition release_blocks (i : inode) (w : world) : option world :=
  let single_indirect_block :=
    disk_sectors (store w (i_sector i)) DIRECT_BLOCKS in
  let w1 := release_direct i w in
  if single_indirect_block =? 0 then Some w1 else None.

(** [inode_close]; [None] when it does not return. A pointer to an
    inode that was freed already is not followed. *)
Definition inode_close (p : option nat) (w : world) : option world :=
  match p with
  | None => Some w
  | Some a =>
      match find_inode a w with
      | None => Some w
      | Some i =>
          if open_cnt i - 1 =? 0 then
            let w1 :=
              set_open_inodes w
                (filter (fun j => negb (Nat.eqb (i_addr j) a))
                   (open_inodes w)) in
            if removed i then release_blocks i w1 else Some w1
          else
            Some
              (update_inode a
                 (fun i =>
                    mk_inode (i_addr i) (i_sector i) (open_cnt i - 1)
                      (removed i) (deny_write_cnt i)) w)
      end
  end.

(** [inode_remove] *)
Definition inode_remove (a : nat) (w : world) : world :=
  update_inode a
    (fun i =>
       mk_inode (i_addr i) (i_sector i) (open_cnt i) true (deny_write_cnt i))
    w.

(** [inode_deny_write]; [None] is the failure of
    [ASSERT (inode->deny_write_cnt <= inode->open_cnt)] after the
    increment, or a pointer that leads to no inode. *)
Definition inode_deny_write (a : nat) (w : world) : option world :=
  match find_inode a w with
  | None => None
  | Some i =>
      if deny_write_cnt i + 1 <=? open_cnt i then
        Some
          (update_inode a
             (fun i =>
                mk_inode (i_addr i) (i_sector i) (open_cnt i) (removed i)
                  (deny_write_cnt i + 1)) w)
      else None
  end.

(** [inode_allow_write]; [None] is the failure of
    [ASSERT (inode->deny_write_cnt > 0)] or of
    [ASSERT (inode->deny_write_cnt <= inode->open_cnt)]. *)
Definition inode_allow_write (a : nat) (w : world) : option world :=
  match find_inode a w with
  | None => None
  | Some i =>
      if (deny_write_cnt i >? 0) && (deny_write_cnt i <=? open_cnt i) then
        Some
          (update_inode a
             (fun i =>
                mk_inode (i_addr i) (i_sector i) (open_cnt i) (removed i)
                  (deny_write_cnt i - 1)) w)
      else None
  end.

(** ** Directories (filesys/directory.c) *)

(** State passing with a way out: [None] stands for a run that does
    not return (a null or dangling pointer is followed, an assertion
    fails). *)
Definition M (A : Type) : Type := world -> option (A * world).

Definition ret {A : Type} (a : A) : M A := fun w => Some (a, w).

Definition bind {A B : Type} (m : M A) (k : A -> M B) : M B :=
  fun w => match m w with Some (a, w') => k a w' | None => None end.

Definition crash {A : Type} : M A := fun _ => None.

Definition lift {A : Type} (f : world -> A * world) : M A :=
  fun w => Some (f w).

Definition modify (f : world -> world) : M unit := fun w => Some (tt, f w).

(** A call that returns nothing, when it returns. *)
Definition attempt (f : world -> option world) : M unit :=
  fun w => match f w with Some w' => Some (tt, w') | None => None end.

(** Following a [struct inode *]. *)
Definition deref (a : nat) : M inode :=
  fun w => match find_inode a w with Some i => Some (i, w) | None => None end.

Local Notation "x <- m ;; k" := (bind m (fun x => k))
  (at level 61, m at next level, right associativity).

(** [struct dir]: the inode it wraps and the read position. *)
Record dir : Type := mk_dir { d_inode : nat; d_pos : Z }.

(** [struct dir_entry] (filesys/directory.h): [inode_sector] in bytes
    0 to 3, [name[NAME_MAX + 1]] in bytes 4 to 18, [in_use] in byte 19. *)
Definition DIR_ENTRY_SIZE : Z := 20.

Definition e_inode_sector (e : list Z) : Z :=
  get_word (fun k => nth (Z.to_nat k) e 0) 0.

Fixpoint cstring (b : list Z) : list Z :=
  match b with
  | [] => []
  | c :: r => if c =? 0 then [] else c :: cstring r
  end.

Definition e_name (e : list Z) : list Z := cstring (firstn 15 (skipn 4 e)).

Definition e_in_use (e : list Z) : bool := negb (nth 19 e 0 =? 0).

(** Bytes [src] laid over [e] from position [ofs] on. *)
Definition put (e : list Z) (ofs : nat) (src : list Z) : list Z :=
  firstn ofs e ++ src ++ skipn (ofs + List.length src) e.

Definition word_bytes (v : Z) : list Z :=
  [v mod 256; (v / 256) mod 256; (v / 65536) mod 256; (v / 16777216) mod 256].

(** A C string, without its terminator. *)
Definition name_bytes (s : string) : list Z :=
  map (fun c => Z.of_nat (nat_of_ascii c)) (list_ascii_of_string s).

Fixpoint bytes_eqb (a b : list Z) : bool :=
  match a, b with
  | [], [] => true
  | x :: a', y :: b' => (x =? y) && bytes_eqb a' b'
  | _, _ => false
  end.

(** [inode_read_at] and [inode_write_at] through a [struct inode *]. *)
Definition read_at (a : nat) (size offset : Z) : M (list Z) :=
  i <- deref a ;; lift (inode_read_at i size offset).

Definition write_at (a : nat) (buffer : list Z) (size offset : Z) : M Z :=
  i <- deref a ;; lift (inode_write_at i buffer size offset).

(** Turns enough for a scan of the entries of a directory: one read
    per entry within the length, and the read that comes back short. *)
Definition scan_fuel (a : nat) : M nat :=
  i <- deref a ;;
  fun w => Some (S (Z.to_nat (inode_length i w / DIR_ENTRY_SIZE)), w).

(** [dir_create (sector, entry_cnt)] *)
Definition dir_create (sector entry_cnt : Z) : M bool :=
  inode_create sector (entry_cnt * DIR_ENTRY_SIZE) true.

(** [dir_open (inode)] *)
Definition dir_open (inode : option nat) : M (option dir) :=
  match inode with
  | Some a => ret (Some (mk_dir a 0))
  | None => _ <- attempt (inode_close None) ;; ret None
  end.

(** [dir_open_root ()] *)
Definition dir_open_root : M (option dir) :=
  p <- lift (inode_open ROOT_DIR_SECTOR) ;; dir_open p.

(** [dir_reopen (dir)] *)
Definition dir_reopen (d : dir) : M (option dir) :=
  p <- lift (inode_reopen (Some (d_inode d))) ;; dir_open p.

(** [dir_close (dir)] *)
Definition dir_close (d : option dir) : M unit :=
  match d with
  | Some d => attempt (inode_close (Some (d_inode d)))
  | None => ret tt
  end.

(** The [for] loop of [lookup]: the entry found and its offset. *)
Fixpoint lookup_loop (fuel : nat) (a : nat) (name : list Z) (ofs : Z)
    : M (option (list Z * Z)) :=
  match fuel with
  | O => crash
  | S fuel' =>
      e <- read_at a DIR_ENTRY_SIZE ofs ;;
      if Z.of_nat (List.length e) =? DIR_ENTRY_SIZE then
        if e_in_use e && bytes_eqb name (e_name e) then ret (Some (e, ofs))
        else lookup_loop fuel' a name (ofs + DIR_ENTRY_SIZE)
      else ret None
  end.

(** [lookup (dir, name, ep, ofsp)] *)
Definition lookup (d : dir) (name : string) : M (option (list Z * Z)) :=
  fuel <- scan_fuel (d_inode d) ;;
  lookup_loop fuel (d_inode d) (name_bytes name) 0.

(** [dir_lookup (dir, name, &inode)]: the inode opened, if any. *)
Definition dir_lookup (d : dir) (name : string) : M (option nat) :=
  r <- lookup d name ;;
  match r with
  | Some (e, _) => lift (inode_open (e_inode_sector e))
  | None => ret None
  end.

(** The [for] loop of [dir_add] that looks for a free slot; [e] is the
    entry buffer, which a short read fills in part only. *)
Fixpoint free_slot_loop (fuel : nat) (a : nat) (e : list Z) (ofs : Z)
    : M (list Z * Z) :=
  match fuel with
  | O => crash
  | S fuel' =>
      r <- read_at a DIR_ENTRY_SIZE ofs ;;
      let e := put e 0 r in
      if Z.of_nat (List.length r) =? DIR_ENTRY_SIZE then
        if negb (e_in_use e) then ret (e, ofs)
        else free_slot_loop fuel' a e (ofs + DIR_ENTRY_SIZE)
      else ret (e, ofs)
  end.

(** [dir_add (dir, name, inode_sector)]. The bytes of [e] that no read
    has filled are taken as zero; the only ones to reach the disk come
    after the terminator of the name, where nothing reads them. *)
Definition dir_add (d : dir) (name : string) (inode_sector : Z) : M bool :=
  if (Nat.eqb (String.length name) 0)
     || (Z.of_nat (String.length name) >? NAME_MAX)
  then ret false
  else
    r <- lookup d name ;;
    match r with
    | Some _ => ret false
    | None =>
        fuel <- scan_fuel (d_inode d) ;;
        r <- free_slot_loop fuel (d_inode d) (repeat 0 20) 0 ;;
        let '(e, ofs) := r in
        let e := put e 19 [1] in
        let e := put e 4 (name_bytes name ++ [0]) in
        let e := put e 0 (word_bytes inode_sector) in
        n <- write_at (d_inode d) e DIR_ENTRY_SIZE ofs ;;
        ret (n =? DIR_ENTRY_SIZE)
    end.

(** [dir_remove (dir, name)] *)
Definition dir_remove (d : dir) (name : string) : M bool :=
  r <- lookup d name ;;
  match r with
  | None => _ <- attempt (inode_close None) ;; ret false
  | Some (e, ofs) =>
      p <- lift (inode_open (e_inode_sector e)) ;;
      match p with
      | None => _ <- attempt (inode_close None) ;; ret false
      | Some a =>
          let e := put e 19 [0] in
          n <- write_at (d_inode d) e DIR_ENTRY_SIZE ofs ;;
          if negb (n =? DIR_ENTRY_SIZE) then
            _ <- attempt (inode_close (Some a)) ;; ret false
          else
            _ <- modify (inode_remove a) ;;
            _ <- attempt (inode_close (Some a)) ;; ret true
      end
  end.

(** The separators skipped and the component scanned by [trace_path];
    a path is a C string, the end of the [string] is its terminator. *)
Fixpoint skip_slashes (path : string) : string :=
  match path with
  | String c rest => if Ascii.eqb c "/" then skip_slashes rest else path
  | EmptyString => path
  end.

Fixpoint component (path : string) : string * string :=
  match path with
  | EmptyString => (EmptyString, EmptyString)
  | String c rest =>
      if Ascii.eqb c "/" then (EmptyString, path)
      else let (name, rest') := component rest in (String c name, rest')
  end.

(** [trace_path (path, &too_long, dir_name)]: [None] for the null
    return, else what is left of the path, [too_long] and [dir_name]. *)
Definition trace_path (path : string) : option (string * bool * string) :=
  match path with
  | EmptyString => None
  | _ =>
      match skip_slashes path with
      | EmptyString => None
      | p =>
          let (name, rest) := component p in
          if Z.of_nat (String.length name) >? NAME_MAX
          then Some (rest, true, substring 0 (Z.to_nat NAME_MAX) name)
          else Some (rest, false, name)
      end
  end.

(** The [while (true)] loop of [retrieve_dir_from_location]. Every turn
    shortens the path, so one turn more than its length is enough. *)
Fixpoint retrieve_loop (fuel : nat) (d : option dir) (path file_name : string)
    (is_parent : bool) : M (option dir * string) :=
  match fuel with
  | O => crash
  | S fuel' =>
      match trace_path path with
      | None => ret (if is_parent then None else d, file_name)
      | Some (path, too_long, file_name) =>
          if too_long then ret (if is_parent then None else d, file_name)
          else
            match d with
            | None => crash
            | Some dd =>
                i <- deref (d_inode dd) ;;
                if removed i then ret (None, file_name)
                else if is_parent && Nat.eqb (String.length path) 0
                then ret (Some dd, file_name)
                else
                  temp <- dir_lookup dd file_name ;;
                  _ <- attempt (inode_close (Some (d_inode dd))) ;;
                  match temp with
                  | None => ret (None, file_name)
                  | Some a =>
                      retrieve_loop fuel' (Some (mk_dir a (d_pos dd))) path
                        file_name is_parent
                  end
            end
      end
  end.

(** [retrieve_dir_from_location (path, file_name, is_parent)]: the
    directory returned and [file_name] afterwards. [file_name] comes
    in unset; it is the empty string until a component is copied. *)
Definition retrieve_dir_from_location (path : string) (is_parent : bool)
    : M (option dir * string) :=
  match path with
  | EmptyString => ret (None, EmptyString)
  | String c _ =>
      d <- (if Ascii.eqb c "/"
            then p <- lift (inode_open ROOT_DIR_SECTOR) ;; dir_open p
            else
              cur <- (fun w => Some (curr_inode w, w)) ;;
              p <- lift (inode_reopen cur) ;; dir_open p) ;;
      retrieve_loop (S (String.length path)) d path EmptyString is_parent
  end.

(** The [for] loop of [is_empty_dir]. *)
Fixpoint is_empty_loop (fuel : nat) (i : inode) (ofs : Z) : M bool :=
  match fuel with
  | O => crash
  | S fuel' =>
      e <- lift (inode_read_at i DIR_ENTRY_SIZE ofs) ;;
      if Z.of_nat (List.length e) =? DIR_ENTRY_SIZE then
        if e_in_use e then ret false
        else is_empty_loop fuel' i (ofs + DIR_ENTRY_SIZE)
      else ret true
  end.

(** [is_empty_dir (dir)] *)
Definition is_empty_dir (a : nat) : M bool :=
  i <- deref a ;;
  fuel <- scan_fuel a ;;
  is_empty_loop fuel i (2 * DIR_ENTRY_SIZE).

(** [root_dir_init ()] *)
Definition root_dir_init : M unit :=
  d <- (p <- lift (inode_open ROOT_DIR_SECTOR) ;; dir_open p) ;;
  match d with
  | None => crash
  | Some d =>
      _ <- dir_add d "." ROOT_DIR_SECTOR ;;
      _ <- dir_add d ".." ROOT_DIR_SECTOR ;;
      ret tt
  end.

(** ** File system entry points (filesys/filesys.c) *)

(** Modelled from the spec: [file_open] of the file handle layer
    (filesys/file.c is not among the sources) returns a new handle on
    the inode; the handle is the inode it holds. *)
Definition file_open (a : nat) : M (option nat) := ret (Some a).

(** [filesys_create (name, initial_size)] *)
Definition filesys_create (name : string) (initial_size : Z) : M bool :=
  r <- retrieve_dir_from_location name true ;;
  let '(d, file_name) := r in
  match d with
  | None => ret false
  | Some dd =>
      s <- lift free_map_allocate ;;
      let inode_sector := match s with Some s => s | None => 0 end in
      success <-
        match s with
        | None => ret false
        | Some s =>
            ok <- inode_create s initial_size false ;;
            if ok then dir_add dd file_name s else ret false
        end ;;
      _ <- (if negb success && negb (inode_sector =? 0)
            then modify (free_map_release inode_sector) else ret tt) ;;
      _ <- dir_close (Some dd) ;;
      ret success
  end.

(** The last character of a non-empty C string, where the [while]
    loop of [filesys_open] leaves [name]. *)
Fixpoint last_char (name : string) : option ascii :=
  match name with
  | EmptyString => None
  | String c EmptyString => Some c
  | String _ rest => last_char rest
  end.

(** [filesys_open (name)] *)
Definition filesys_open (name : string) : M (option nat) :=
  r <- retrieve_dir_from_location name false ;;
  match fst r with
  | None => ret None
  | Some dd =>
      match last_char name with
      | Some c =>
          if Ascii.eqb c "/" then
            i <- deref (d_inode dd) ;;
            isdir <- (fun w => Some (is_directory i w, w)) ;;
            if negb isdir then _ <- dir_close (Some dd) ;; ret None
            else file_open (d_inode dd)
          else file_open (d_inode dd)
      | None => file_open (d_inode dd)
      end
  end.

(** [filesys_remove (name)] *)
Definition filesys_remove (name : string) : M bool :=
  r <- retrieve_dir_from_location name true ;;
  let '(d, file_name) := r in
  match d with
  | None => ret false
  | Some dd =>
      file <- dir_lookup dd file_name ;;
      match file with
      | None => _ <- dir_close (Some dd) ;; ret false
      | Some f =>
          i <- deref f ;;
          isdir <- (fun w => Some (is_directory i w, w)) ;;
          empty <- (if isdir then is_empty_dir f else ret true) ;;
          if isdir && negb empty then
            _ <- attempt (inode_close (Some f)) ;;
            _ <- dir_close (Some dd) ;; ret false
          else
            _ <- dir_remove dd file_name ;;
            _ <- attempt (inode_close (Some f)) ;;
            _ <- dir_close (Some dd) ;; ret true
      end
  end.

(** [inode_init ()] *)
Definition inode_init (w : world) : world := set_open_inodes w [].

(** Calls on the open-inode table, and a run of a sequence of them. *)
Inductive inode_op : Type :=
| Open (sector : Z)
| Reopen (a : nat)
| Close (a : nat).

Definition run_inode_op (w : world) (op : inode_op) : option world :=
  match op with
  | Open s => Some (snd (inode_open s w))
  | Reopen a => Some (snd (inode_reopen (Some a) w))
  | Close a => inode_close (Some a) w
  end.

Fixpoint run_inode_ops (ops : list inode_op) (w : world) : option world :=
  match ops with
  | [] => Some w
  | op :: ops' =>
      match run_inode_op w op with
      | Some w' => run_inode_ops ops' w'
      | None => None
      end
  end.

Definition has_sector (s : Z) (i : inode) : bool := i_sector i =? s.

(** A path made of separators only. *)
Fixpoint only_slashes (path : string) : bool :=
  match path with
  | EmptyString => true
  | String c rest => Ascii.eqb c "/" && only_slashes rest
  end.

(** ** The block tree of an inode, as the walker builds it *)

(** The sectors an inode has a use for: its own, those its direct
    pointers name, the sector at [sectors[DIRECT_BLOCKS]], the pointer
    sectors that one names in its slots, and the data sectors these
    name in theirs. *)
Inductive role : Type :=
| RInode
| RDirect (k : Z)
| RRoot
| ROuter (o : Z)
| RLeaf (o n : Z).

Definition valid_role (r : role) : Prop :=
  match r with
  | RInode => True
  | RDirect k => 0 <= k < DIRECT_BLOCKS
  | RRoot => True
  | ROuter o => 0 <= o < 126
  | RLeaf o n => 0 <= o < 126 /\ 0 <= n < BLOCKS_PER_SECTOR
  end.

(** Word [k] of sector [p], when there is a sector [p]. *)
Definition child (w : world) (p k : Z) : Z :=
  if p =? 0 then 0 else get_word (store w p) k.

(** The sector that plays a role for the inode in sector [isec];
    0 when it is not allocated. *)
Definition owner (w : world) (isec : Z) (r : role) : Z :=
  match r with
  | RInode => isec
  | RDirect k => child w isec (2 + k)
  | RRoot => child w isec (2 + DIRECT_BLOCKS)
  | ROuter o => child w (child w isec (2 + DIRECT_BLOCKS)) o
  | RLeaf o n => child w (child w (child w isec (2 + DIRECT_BLOCKS)) o) n
  end.

(** The role of the data sector of byte [pos] of the file. *)
Definition data_role (pos : Z) : role :=
  let idx := pos / BLOCK_SECTOR_SIZE in
  if idx <? DIRECT_BLOCKS then RDirect idx
  else
    RLeaf ((idx - DIRECT_BLOCKS) / BLOCKS_PER_SECTOR)
      ((idx - DIRECT_BLOCKS) mod BLOCKS_PER_SECTOR).

(** Every pointer on the way to byte [pos] is set, and none is
    [NO_SECTOR]: the walk to [pos] has nothing to allocate. *)
Definition present (w : world) (isec pos : Z) : Prop :=
  owner w isec (data_role pos) <> 0
  /\ (DIRECT_BLOCKS <= pos / BLOCK_SECTOR_SIZE ->
      owner w isec RRoot <> NO_SECTOR
      /\ owner w isec
           (ROuter ((pos / BLOCK_SECTOR_SIZE - DIRECT_BLOCKS)
                    / BLOCKS_PER_SECTOR)) <> NO_SECTOR
      /\ (pos / BLOCK_SECTOR_SIZE - DIRECT_BLOCKS) / BLOCKS_PER_SECTOR < 128).

(** Byte [pos] of the file, read without the walker. *)
Definition file_byte (w : world) (isec pos : Z) : Z :=
  store w (owner w isec (data_role pos)) (pos mod BLOCK_SECTOR_SIZE).

Definition file_bytes (w : world) (isec offset size : Z) : list Z :=
  map (fun j => file_byte w isec (offset + Z.of_nat j))
    (seq 0 (Z.to_nat size)).

(** The calls of [free_map_allocate] that failed so far. *)
Definition is_fail (e : fm_event) : bool :=
  match e with FmFail => true | _ => false end.

Definition alloc_failures (w : world) : nat :=
  List.length (filter is_fail (fm_log w)).

(** The block tree is well formed: sector 0 is never free, every
    sector number fits [block_sector_t] below [NO_SECTOR], the sectors
    in use by the inode are marked so in the free map, and no sector
    plays two roles. *)
Definition wf (w : world) (isec : Z) : Prop :=
  isec <> 0
  /\ bitmap_test (free_map w) 0 = true
  /\ Z.of_nat (List.length (free_map w)) <= NO_SECTOR
  /\ (forall r, valid_role r -> owner w isec r <> 0 ->
      bitmap_test (free_map w) (owner w isec r) = true)
  /\ (forall r1 r2, valid_role r1 -> valid_role r2 ->
      owner w isec r1 <> 0 -> owner w isec r1 = owner w isec r2 -> r1 = r2).

(** * Properties *)

(** ** Words and bytes *)

Lemma byte_at_range (d : sector_data) (k : Z) : 0 <= byte_at d k < 256.
Proof. unfold byte_at. apply Z.mod_pos_bound. lia. Qed.

Lemma get_word_range (d : sector_data) (i : Z) : 0 <= get_word d i < 2 ^ 32.
Proof.
  unfold get_word.
  pose proof (byte_at_range d (4 * i)).
  pose proof (byte_at_range d (4 * i + 1)).
  pose proof (byte_at_range d (4 * i + 2)).
  pose proof (byte_at_range d (4 * i + 3)).
  change (2 ^ 32) with 4294967296. lia.
Qed.

Lemma get_word_zero (i : Z) : get_word zero_sector i = 0.
Proof. reflexivity. Qed.

Lemma word_of_bytes (v : Z) :
  0 <= v < 2 ^ 32 ->
  v mod 256 + 256 * ((v / 256) mod 256) + 65536 * ((v / 65536) mod 256)
  + 16777216 * ((v / 16777216) mod 256) = v.
Proof.
  change (2 ^ 32) with 4294967296. intros Hv.
  pose proof (Z.div_mod v 256 ltac:(lia)).
  pose proof (Z.div_mod (v / 256) 256 ltac:(lia)).
  pose proof (Z.div_mod (v / 65536) 256 ltac:(lia)).
  pose proof (Z.div_mod (v / 16777216) 256 ltac:(lia)).
  replace (v / 65536) with (v / 256 / 256) in *
    by (rewrite Z.div_div by lia; reflexivity).
  replace (v / 16777216) with (v / 256 / 256 / 256) in *
    by (rewrite !Z.div_div by lia; reflexivity).
  assert (v / 256 / 256 / 256 / 256 = 0).
  { rewrite !Z.div_div by lia. apply Z.div_small. lia. }
  lia.
Qed.

Lemma get_set_word_same (d : sector_data) (i v : Z) :
  0 <= v < 2 ^ 32 -> get_word (set_word d i v) i = v.
Proof.
  intros Hv. unfold get_word, byte_at, set_word.
  replace ((4 * i <=? 4 * i) && (4 * i <? 4 * i + 4)) with true
    by (symmetry; apply andb_true_iff; split; [apply Z.leb_le|apply Z.ltb_lt]; lia).
  replace ((4 * i <=? 4 * i + 1) && (4 * i + 1 <? 4 * i + 4)) with true
    by (symmetry; apply andb_true_iff; split; [apply Z.leb_le|apply Z.ltb_lt]; lia).
  replace ((4 * i <=? 4 * i + 2) && (4 * i + 2 <? 4 * i + 4)) with true
    by (symmetry; apply andb_true_iff; split; [apply Z.leb_le|apply Z.ltb_lt]; lia).
  replace ((4 * i <=? 4 * i + 3) && (4 * i + 3 <? 4 * i + 4)) with true
    by (symmetry; apply andb_true_iff; split; [apply Z.leb_le|apply Z.ltb_lt]; lia).
  replace (4 * i - 4 * i) with 0 by lia.
  replace (4 * i + 1 - 4 * i) with 1 by lia.
  replace (4 * i + 2 - 4 * i) with 2 by lia.
  replace (4 * i + 3 - 4 * i) with 3 by lia.
  change (256 ^ 0) with 1. change (256 ^ 1) with 256.
  change (256 ^ 2) with 65536. change (256 ^ 3) with 16777216.
  rewrite Z.div_1_r, !Z.mod_mod by lia.
  apply word_of_bytes; assumption.
Qed.

Lemma set_word_outside (d : sector_data) (i v k : Z) :
  k < 4 * i \/ 4 * i + 4 <= k -> set_word d i v k = d k.
Proof.
  intros Hk. unfold set_word.
  destruct (4 * i <=? k) eqn:E1; destruct (k <? 4 * i + 4) eqn:E2; simpl;
    try reflexivity.
  apply Z.leb_le in E1. apply Z.ltb_lt in E2. lia.
Qed.

Lemma get_set_word_other (d : sector_data) (i j v : Z) :
  i <> j -> get_word (set_word d i v) j = get_word d j.
Proof.
  intros Hij. unfold get_word, byte_at.
  rewrite !set_word_outside by lia. reflexivity.
Qed.

(** ** The size ceiling of [inode_write_at] *)

(** The chunk of a turn of the read and write loops is the least of
    what is asked for, what the inode has left and what the sector has
    left. *)
Lemma chunk_min (size a b : Z) :
  (if size <? (if a <? b then a else b) then size
   else if a <? b then a else b) = Z.min size (Z.min a b).
Proof.
  destruct (Z.ltb_spec a b); destruct (Z.ltb_spec size (Z.min a b)) as [E|E];
    [rewrite Z.min_l in E by lia|rewrite Z.min_l in E by lia
    |rewrite Z.min_r in E by lia|rewrite Z.min_r in E by lia];
    (destruct (Z.ltb_spec size a); destruct (Z.ltb_spec size b); lia).
Qed.

Lemma write_loop_S (fuel : nat) (i : inode) (buffer : list Z)
    (size offset written : Z) (w : world) :
  write_loop (S fuel) i buffer size offset written w =
  if size >? 0 then
    let (sector_idx, w1) := byte_to_sector i offset w in
    if sector_idx =? NO_SECTOR then (written, offset, w1)
    else
      let chunk_size :=
        Z.min size
          (Z.min (MAX_FILE_SIZE - offset)
             (BLOCK_SECTOR_SIZE - Z.rem offset BLOCK_SECTOR_SIZE)) in
      if chunk_size <=? 0 then (written, offset, w1)
      else
        write_loop fuel i buffer (size - chunk_size) (offset + chunk_size)
          (written + chunk_size)
          (write_sector w1 sector_idx
             (blit (store w1 sector_idx) (Z.rem offset BLOCK_SECTOR_SIZE)
                buffer written chunk_size))
  else (written, offset, w).
Proof.
  cbn [write_loop]. destruct (size >? 0); [|reflexivity].
  destruct (byte_to_sector i offset w) as [sector_idx w1].
  cbv zeta. rewrite chunk_min. reflexivity.
Qed.




(** ** Paths made of separators *)

Lemma skip_only_slashes (path : string) :
  only_slashes path = true -> skip_slashes path = EmptyString.
Proof.
  induction path as [|c rest IH]; cbn [only_slashes skip_slashes];
    [reflexivity|].
  intros H. apply andb_true_iff in H. destruct H as [Hc Hrest].
  rewrite Hc. auto.
Qed.

Lemma trace_only_slashes (path : string) :
  only_slashes path = true -> trace_path path = None.
Proof.
  intros H. unfold trace_path. destruct path; [reflexivity|].
  rewrite (skip_only_slashes _ H). reflexivity.
Qed.

Lemma retrieve_only_slashes (path : string) (w : world) :
  only_slashes path = true ->
  exists w',
    retrieve_dir_from_location path true w = Some ((None, EmptyString), w').
Proof.
  intros H. destruct path as [|c rest]; [eexists; reflexivity|].
  unfold retrieve_dir_from_location.
  pose proof H as Hc. cbn [only_slashes] in Hc.
  apply andb_true_iff in Hc. destruct Hc as [Hc _]. rewrite Hc.
  unfold bind at 1.
  assert (Hd : exists d w1,
             bind (lift (inode_open ROOT_DIR_SECTOR)) (fun p => dir_open p) w
             = Some (d, w1)).
  { unfold bind, lift. destruct (inode_open ROOT_DIR_SECTOR w) as [[a|] w1];
      cbn [dir_open]; unfold ret, bind, attempt; cbn [inode_close]; eauto. }
  destruct Hd as (d & w1 & Hd). rewrite Hd.
  cbn [retrieve_loop]. rewrite (trace_only_slashes _ H).
  eexists. reflexivity.
Qed.

(** C10: on a path made of separators only, the resolution of the
    parent finds no leaf and returns null, and [filesys_create] and
    [filesys_remove] return false. *)
Theorem only_slashes_rejected (path : string) (initial_size : Z) (w : world) :
  only_slashes path = true ->
  (exists w',
     retrieve_dir_from_location path true w
     = Some ((None, EmptyString), w'))
  /\ (exists w', filesys_create path initial_size w = Some (false, w'))
  /\ (exists w', filesys_remove path w = Some (false, w')).
Proof.
  intros H. destruct (retrieve_only_slashes path w H) as [w' Hr].
  split; [eauto|]. split.
  - unfold filesys_create, bind. rewrite Hr. eexists. reflexivity.
  - unfold filesys_remove, bind. rewrite Hr. eexists. reflexivity.
Qed.

(** ** The open-inode table *)

Lemma find_map_stable {A : Type} (p : A -> bool) (f : A -> A) (l : list A) :
  (forall x, p (f x) = p x) -> find p (map f l) = option_map f (find p l).
Proof.
  intros Hp. induction l as [|x l IH]; cbn [map find option_map];
    [reflexivity|].
  rewrite Hp. destruct (p x); [reflexivity|exact IH].
Qed.

Lemma find_none_not_in (s : Z) (l : list inode) :
  find (has_sector s) l = None -> ~ In s (map i_sector l).
Proof using.
  clear wild stack_buff.
  induction l as [|x l IH]; cbn [find map In]; [tauto|].
  unfold has_sector at 1.
  destruct (Z.eqb_spec (i_sector x) s) as [Hx|Hx]; [discriminate|].
  intros H [E|E]; [exact (Hx E)|exact (IH H E)].
Qed.

Lemma sectors_update_inode (a : nat) (f : inode -> inode) (w : world) :
  (forall i, i_sector (f i) = i_sector i) ->
  map i_sector (open_inodes (update_inode a f w)) = map i_sector (open_inodes w).
Proof.
  intros Hf. unfold update_inode, set_open_inodes. cbn [open_inodes].
  rewrite map_map. apply map_ext. intros i.
  destruct (Nat.eqb (i_addr i) a); [apply Hf|reflexivity].
Qed.

Lemma NoDup_map_filter {A B : Type} (g : A -> B) (p : A -> bool) (l : list A) :
  NoDup (map g l) -> NoDup (map g (filter p l)).
Proof.
  induction l as [|x l IH]; cbn [map filter]; [auto|].
  intros H. inversion H as [|y ys Hnin Hnd]; subst.
  destruct (p x); cbn [map]; [|auto].
  constructor; [|auto]. intros Hin. apply Hnin.
  apply in_map_iff in Hin. destruct Hin as (z & Hz & Hin).
  apply filter_In in Hin. apply in_map_iff. exists z. tauto.
Qed.

Lemma open_inodes_release (l : list nat) (f : world -> nat -> Z) :
  forall w,
    open_inodes
      (fold_left (fun w k => free_map_release (f w k) w) l w) = open_inodes w.
Proof.
  induction l as [|k l IH]; intros w; cbn [fold_left]; [reflexivity|].
  rewrite IH. reflexivity.
Qed.

Lemma open_inodes_release_direct (i : inode) (w : world) :
  open_inodes (release_direct i w) = open_inodes w.
Proof.
  unfold release_direct. generalize (seq 0 (Z.to_nat DIRECT_BLOCKS)).
  intros l. revert w. induction l as [|k l IH]; intros w; cbn [fold_left];
    [reflexivity|].
  rewrite IH. destruct (_ =? 0); reflexivity.
Qed.

Lemma open_inodes_free_map_release (s : Z) (w : world) :
  open_inodes (free_map_release s w) = open_inodes w.
Proof. reflexivity. Qed.

Lemma some_inj {A : Type} (a b : A) : Some a = Some b -> a = b.
Proof. intros H. inversion H. reflexivity. Qed.

Lemma open_inodes_release_blocks (i : inode) (w w' : world) :
  release_blocks i w = Some w' -> open_inodes w' = open_inodes w.
Proof.
  unfold release_blocks.
  destruct (disk_sectors (store w (i_sector i)) DIRECT_BLOCKS =? 0);
    [|discriminate].
  intros H. apply some_inj in H. rewrite <- H.
  apply open_inodes_release_direct.
Qed.

(** No open inode is marked removed. *)
Definition none_removed (w : world) : Prop :=
  forall i, In i (open_inodes w) -> removed i = false.

(** [inode_close] of an inode that is not marked removed returns, and
    only the open table changes. *)
Lemma inode_close_kept (a : nat) (w : world) :
  (forall i, find_inode a w = Some i -> removed i = false) ->
  exists l,
    inode_close (Some a) w = Some (set_open_inodes w l)
    /\ forall j, In j l ->
                 exists j0, In j0 (open_inodes w) /\ i_addr j = i_addr j0
                            /\ i_sector j = i_sector j0
                            /\ removed j = removed j0
                            /\ deny_write_cnt j = deny_write_cnt j0.
Proof using.
  clear wild stack_buff.
  intros Hr. cbn [inode_close].
  destruct (find_inode a w) as [i|] eqn:E.
  - rewrite (Hr i eq_refl). destruct (open_cnt i - 1 =? 0).
    + eexists. split; [reflexivity|]. intros j Hj. apply filter_In in Hj.
      exists j. tauto.
    + eexists. split; [reflexivity|]. intros j Hj. apply in_map_iff in Hj.
      destruct Hj as (j0 & Ej & Hj0). exists j0.
      destruct (Nat.eqb (i_addr j0) a); subst j; cbn; tauto.
  - exists (open_inodes w). split; [destruct w; reflexivity|].
    intros j Hj. exists j. tauto.
Qed.

Lemma one_per_sector_step (op : inode_op) (w w' : world) :
  run_inode_op w op = Some w' ->
  NoDup (map i_sector (open_inodes w)) ->
  NoDup (map i_sector (open_inodes w')).
Proof using.
  intros Hrun H. destruct op as [s|a|a]; cbn [run_inode_op] in Hrun.
  - inversion Hrun; subst w'. unfold inode_open.
    destruct (find _ (open_inodes w)) as [i|] eqn:E.
    + cbn [inode_reopen snd]. rewrite sectors_update_inode; auto.
    + cbn [snd open_inodes map]. constructor; [|exact H].
      apply find_none_not_in. exact E.
  - inversion Hrun; subst w'. cbn [inode_reopen snd].
    rewrite sectors_update_inode; auto.
  - cbn [inode_close] in Hrun.
    destruct (find_inode a w) as [i|];
      [|inversion Hrun; subst w'; exact H].
    destruct (open_cnt i - 1 =? 0).
    + assert (Hf : NoDup
                     (map i_sector
                        (filter (fun j => negb (Nat.eqb (i_addr j) a))
                           (open_inodes w))))
        by (apply NoDup_map_filter; exact H).
      destruct (removed i).
      * rewrite (open_inodes_release_blocks _ _ _ Hrun). exact Hf.
      * inversion Hrun; subst w'. exact Hf.
    + inversion Hrun; subst w'. rewrite sectors_update_inode; auto.
Qed.

Lemma none_removed_step (op : inode_op) (w : world) :
  none_removed w ->
  exists w', run_inode_op w op = Some w' /\ none_removed w'.
Proof using.
  clear wild stack_buff.
  intros H. destruct op as [s|a|a]; cbn [run_inode_op].
  - eexists. split; [reflexivity|]. unfold inode_open.
    destruct (find _ (open_inodes w)) as [i|].
    + cbn [inode_reopen snd]. intros j Hj.
      unfold update_inode, set_open_inodes in Hj. cbn [open_inodes] in Hj.
      apply in_map_iff in Hj. destruct Hj as (j0 & Ej & Hj0).
      specialize (H j0 Hj0).
      destruct (Nat.eqb (i_addr j0) (i_addr i)); subst j; cbn; exact H.
    + cbn [snd]. intros j [Ej|Hj]; [subst j; reflexivity|exact (H j Hj)].
  - eexists. split; [reflexivity|]. cbn [inode_reopen snd]. intros j Hj.
    unfold update_inode, set_open_inodes in Hj. cbn [open_inodes] in Hj.
    apply in_map_iff in Hj. destruct Hj as (j0 & Ej & Hj0).
    specialize (H j0 Hj0).
    destruct (Nat.eqb (i_addr j0) a); subst j; cbn; exact H.
  - destruct (inode_close_kept a w) as (l & Hc & Hl).
    { intros i Hi. apply H. apply find_some in Hi. tauto. }
    exists (set_open_inodes w l). split; [exact Hc|].
    intros j Hj. cbn [set_open_inodes open_inodes] in Hj.
    destruct (Hl j Hj) as (j0 & Hj0 & _ & _ & Hrem & _).
    rewrite Hrem. exact (H j0 Hj0).
Qed.

Lemma one_per_sector_run (ops : list inode_op) :
  forall w,
    NoDup (map i_sector (open_inodes w)) -> none_removed w ->
    exists w',
      run_inode_ops ops w = Some w'
      /\ NoDup (map i_sector (open_inodes w')) /\ none_removed w'.
Proof using.
  induction ops as [|op ops IH]; intros w H Hn; cbn [run_inode_ops];
    [eauto|].
  destruct (none_removed_step op w Hn) as (w1 & Hrun & Hn1).
  rewrite Hrun. apply IH; [|exact Hn1].
  exact (one_per_sector_step op w w1 Hrun H).
Qed.

Lemma inode_open_hit (s : Z) (w : world) (i : inode) :
  find (has_sector s) (open_inodes w) = Some i ->
  fst (inode_open s w) = Some (i_addr i)
  /\ find (has_sector s) (open_inodes (snd (inode_open s w)))
     = Some
         (mk_inode (i_addr i) (i_sector i) (open_cnt i + 1) (removed i)
            (deny_write_cnt i))
  /\ List.length (open_inodes (snd (inode_open s w)))
     = List.length (open_inodes w).
Proof.
  intros E. unfold inode_open. fold (has_sector s). rewrite E.
  cbn [inode_reopen fst snd]. split; [reflexivity|].
  unfold update_inode, set_open_inodes. cbn [open_inodes].
  split; [|apply length_map].
  rewrite find_map_stable.
  - rewrite E. cbn [option_map]. rewrite Nat.eqb_refl. reflexivity.
  - intros x. unfold has_sector. destruct (Nat.eqb _ _); reflexivity.
Qed.

Lemma inode_open_miss (s : Z) (w : world) :
  find (has_sector s) (open_inodes w) = None ->
  inode_open s w
  = (Some (next_addr w),
     mk_world (store w) (free_map w) (fm_log w)
       (mk_inode (next_addr w) s 1 false 0 :: open_inodes w)
       (S (next_addr w)) (curr_inode w)).
Proof.
  intros E. unfold inode_open. fold (has_sector s). rewrite E. reflexivity.
Qed.

(** C8: at most one in-memory inode per sector. Whatever calls of
    [inode_open], [inode_reopen] and [inode_close] follow [inode_init],
    they all return and no two inodes of the table share a sector;
    [inode_open] of a sector
    that is in the table returns the inode that is there, with its
    [open_cnt] one higher, and adds no entry; on a miss it adds one
    entry with [open_cnt] 1; two opens of a sector that was not open
    return the same inode, whose [open_cnt] is then 2. *)
Theorem one_inode_per_sector :
  (forall ops w,
      exists w',
        run_inode_ops ops (inode_init w) = Some w'
        /\ NoDup (map i_sector (open_inodes w')))
  /\ (forall s w i,
         find (has_sector s) (open_inodes w) = Some i ->
         fst (inode_open s w) = Some (i_addr i)
         /\ find (has_sector s) (open_inodes (snd (inode_open s w)))
            = Some
                (mk_inode (i_addr i) (i_sector i) (open_cnt i + 1) (removed i)
                   (deny_write_cnt i))
         /\ List.length (open_inodes (snd (inode_open s w)))
            = List.length (open_inodes w))
  /\ (forall s w,
         find (has_sector s) (open_inodes w) = None ->
         fst (inode_open s w) = Some (next_addr w)
         /\ open_inodes (snd (inode_open s w))
            = mk_inode (next_addr w) s 1 false 0 :: open_inodes w
         /\ fst (inode_open s (snd (inode_open s w))) = fst (inode_open s w)
         /\ find (has_sector s)
              (open_inodes (snd (inode_open s (snd (inode_open s w)))))
            = Some (mk_inode (next_addr w) s 2 false 0)
         /\ List.length
              (open_inodes (snd (inode_open s (snd (inode_open s w)))))
            = S (List.length (open_inodes w))).
Proof using.
  split; [|split].
  - intros ops w.
    destruct (one_per_sector_run ops (inode_init w)) as (w' & Hrun & Hnd & _);
      [constructor|intros i []|].
    exists w'. split; [exact Hrun|exact Hnd].
  - intros s w i E. apply inode_open_hit. exact E.
  - intros s w E. rewrite (inode_open_miss s w E). cbn [fst snd open_inodes].
    split; [reflexivity|]. split; [reflexivity|].
    match goal with
    | |- context [inode_open s ?w1] =>
        destruct (inode_open_hit s w1 (mk_inode (next_addr w) s 1 false 0))
          as (H1 & H2 & H3)
    end.
    { cbn [open_inodes find]. unfold has_sector at 1. cbn [i_sector].
      rewrite Z.eqb_refl. reflexivity. }
    cbn [open_inodes] in H3. cbn [i_addr i_sector open_cnt removed
      deny_write_cnt] in H1, H2.
    split; [exact H1|]. split; [exact H2|]. rewrite H3. reflexivity.
Qed.

(** ** The walk to a byte whose pointers are all set *)

Ltac zdiv := Z.div_mod_to_equations; lia.

Lemma quot_idx (pos : Z) :
  0 <= pos < 2 ^ 31 ->
  to_size_t (Z.quot pos BLOCK_SECTOR_SIZE) = pos / BLOCK_SECTOR_SIZE.
Proof.
  try clear stack_buff; try clear wild.
  unfold to_size_t, BLOCK_SECTOR_SIZE. change (2 ^ 31) with 2147483648.
  change (2 ^ 32) with 4294967296. intros H.
  rewrite Z.quot_div_nonneg by lia. apply Z.mod_small. zdiv.
Qed.

Lemma rem_ofs (pos : Z) :
  0 <= pos -> Z.rem pos BLOCK_SECTOR_SIZE = pos mod BLOCK_SECTOR_SIZE.
Proof. unfold BLOCK_SECTOR_SIZE. intros H. apply Z.rem_mod_nonneg; lia. Qed.

Lemma outer_idx (pos : Z) :
  DIRECT_BLOCKS <= pos / BLOCK_SECTOR_SIZE -> pos < 2 ^ 31 ->
  to_size_t (pos - BLOCK_SECTOR_SIZE * DIRECT_BLOCKS)
  / (BLOCKS_PER_SECTOR * BLOCK_SECTOR_SIZE)
  = (pos / BLOCK_SECTOR_SIZE - DIRECT_BLOCKS) / BLOCKS_PER_SECTOR.
Proof.
  try clear stack_buff; try clear wild.
  unfold to_size_t, BLOCK_SECTOR_SIZE, DIRECT_BLOCKS, BLOCKS_PER_SECTOR.
  change (2 ^ 31) with 2147483648. change (2 ^ 32) with 4294967296.
  intros H1 H2.
  rewrite (Z.mod_small (pos - 512 * 124) 4294967296) by zdiv.
  change (125 * 512) with (512 * 125). rewrite <- Z.div_div by lia.
  f_equal. zdiv.
Qed.

Lemma inner_idx (pos : Z) :
  DIRECT_BLOCKS <= pos / BLOCK_SECTOR_SIZE -> pos < 2 ^ 31 ->
  (to_size_t (pos - BLOCK_SECTOR_SIZE * DIRECT_BLOCKS) / BLOCK_SECTOR_SIZE)
  mod BLOCKS_PER_SECTOR
  = (pos / BLOCK_SECTOR_SIZE - DIRECT_BLOCKS) mod BLOCKS_PER_SECTOR.
Proof.
  try clear stack_buff; try clear wild.
  unfold to_size_t, BLOCK_SECTOR_SIZE, DIRECT_BLOCKS, BLOCKS_PER_SECTOR.
  change (2 ^ 31) with 2147483648. change (2 ^ 32) with 4294967296.
  intros H1 H2.
  rewrite (Z.mod_small (pos - 512 * 124) 4294967296) by zdiv.
  f_equal. zdiv.
Qed.

Lemma child_nonzero (w : world) (p k : Z) :
  child w p k <> 0 -> p <> 0 /\ child w p k = get_word (store w p) k.
Proof.
  try clear stack_buff; try clear wild.
  unfold child. destruct (Z.eqb_spec p 0); [tauto|auto].
Qed.

Lemma child_of (w : world) (p k : Z) :
  p <> 0 -> child w p k = get_word (store w p) k.
Proof.
  try clear stack_buff; try clear wild.
  intros H. unfold child. destruct (Z.eqb_spec p 0); [tauto|reflexivity].
Qed.

Lemma byte_to_indirect_sector_set (buff : bool) (i : inode) (idx : Z)
    (w : world) :
  disk_sectors (store w (i_sector i))
    (if idx >=? DIRECT_BLOCKS then DIRECT_BLOCKS else idx) <> 0 ->
  byte_to_indirect_sector buff i idx w
  = (buff,
     Some (disk_sectors (store w (i_sector i))
             (if idx >=? DIRECT_BLOCKS then DIRECT_BLOCKS else idx)),
     disk_sectors (store w (i_sector i))
       (if idx >=? DIRECT_BLOCKS then DIRECT_BLOCKS else idx),
     w).
Proof.
  intros H. unfold byte_to_indirect_sector. cbv zeta.
  apply Z.eqb_neq in H. rewrite H. reflexivity.
Qed.

Lemma byte_to_double_indirect_sec_set (buff : bool) (block_data : option Z)
    (sector idx : Z) (w : world) :
  load w block_data idx <> 0 ->
  byte_to_double_indirect_sec buff block_data sector idx w
  = (Some (load w block_data idx), load w block_data idx, w).
Proof.
  intros H. unfold byte_to_double_indirect_sec. cbv zeta.
  apply Z.eqb_neq in H. rewrite H. reflexivity.
Qed.

Lemma data_role_direct (pos : Z) :
  pos / BLOCK_SECTOR_SIZE < DIRECT_BLOCKS ->
  data_role pos = RDirect (pos / BLOCK_SECTOR_SIZE).
Proof.
  intros H. unfold data_role. cbv zeta.
  destruct (Z.ltb_spec (pos / BLOCK_SECTOR_SIZE) DIRECT_BLOCKS); [reflexivity|lia].
Qed.

Lemma data_role_leaf (pos : Z) :
  DIRECT_BLOCKS <= pos / BLOCK_SECTOR_SIZE ->
  data_role pos
  = RLeaf ((pos / BLOCK_SECTOR_SIZE - DIRECT_BLOCKS) / BLOCKS_PER_SECTOR)
      ((pos / BLOCK_SECTOR_SIZE - DIRECT_BLOCKS) mod BLOCKS_PER_SECTOR).
Proof.
  intros H. unfold data_role. cbv zeta.
  destruct (Z.ltb_spec (pos / BLOCK_SECTOR_SIZE) DIRECT_BLOCKS); [lia|reflexivity].
Qed.

(** Where every pointer is set the walker returns the data sector and
    changes nothing. *)
Lemma byte_to_sector_present (i : inode) (pos : Z) (w : world) :
  0 <= pos < 2 ^ 31 ->
  present w (i_sector i) pos ->
  byte_to_sector i pos w = (owner w (i_sector i) (data_role pos), w).
Proof.
  intros Hpos [Hown Hind]. unfold byte_to_sector. cbv zeta.
  rewrite quot_idx by exact Hpos.
  destruct (Z.ltb_spec (pos / BLOCK_SECTOR_SIZE) DIRECT_BLOCKS) as [Hd|Hd].
  - rewrite data_role_direct in * by exact Hd. cbn [owner] in *.
    destruct (child_nonzero _ _ _ Hown) as [Hi Hc].
    assert (Hge : (pos / BLOCK_SECTOR_SIZE >=? DIRECT_BLOCKS) = false).
    { rewrite Z.geb_leb. apply Z.leb_gt. exact Hd. }
    rewrite byte_to_indirect_sector_set; rewrite Hge; unfold disk_sectors;
      rewrite <- Hc; [|exact Hown].
    destruct (_ =? NO_SECTOR); reflexivity.
  - rewrite data_role_leaf in * by exact Hd. cbn [owner] in *.
    destruct (Hind Hd) as (Hr & Ho & Hlt). cbn [owner] in Hr, Ho.
    set (r := child w (i_sector i) (2 + DIRECT_BLOCKS)) in *.
    set (o := (pos / BLOCK_SECTOR_SIZE - DIRECT_BLOCKS) / BLOCKS_PER_SECTOR) in *.
    set (n := (pos / BLOCK_SECTOR_SIZE - DIRECT_BLOCKS) mod BLOCKS_PER_SECTOR) in *.
    destruct (child_nonzero _ _ _ Hown) as [Hone Hc3].
    destruct (child_nonzero _ _ _ Hone) as [Hrne Hc2].
    destruct (child_nonzero _ _ _ Hrne) as [Hi Hc1].
    assert (Hge : (pos / BLOCK_SECTOR_SIZE >=? DIRECT_BLOCKS) = true).
    { rewrite Z.geb_leb. apply Z.leb_le. exact Hd. }
    rewrite byte_to_indirect_sector_set; rewrite Hge; unfold disk_sectors;
      fold r in Hc1; rewrite <- Hc1; [|exact Hrne].
    apply Z.eqb_neq in Hr. rewrite Hr.
    destruct Hpos as [Hp0 Hp1].
    rewrite outer_idx, inner_idx by assumption. fold o n.
    assert (Hl1 : load w (Some r) o = child w r o).
    { unfold load. apply Z.ltb_lt in Hlt. rewrite Hlt. symmetry. exact Hc2. }
    rewrite byte_to_double_indirect_sec_set; rewrite Hl1; [|exact Hone].
    apply Z.eqb_neq in Ho. rewrite Ho.
    assert (Hl2 : load w (Some (child w r o)) n = child w (child w r o) n).
    { unfold load.
      assert (Hn : n < 128) by (subst n; unfold BLOCKS_PER_SECTOR; zdiv).
      apply Z.ltb_lt in Hn. rewrite Hn. symmetry. exact Hc3. }
    rewrite byte_to_double_indirect_sec_set; rewrite Hl2; [reflexivity|].
    exact Hown.
Qed.

(** ** Reads where every pointer is set *)

Lemma disk_length_range (d : sector_data) :
  - 2 ^ 31 <= disk_length d < 2 ^ 31.
Proof.
  unfold disk_length, to_off_t. pose proof (get_word_range d 0) as H.
  change (2 ^ 32) with 4294967296 in *. change (2 ^ 31) with 2147483648.
  destruct (Z.ltb_spec (get_word d 0) 2147483648); lia.
Qed.

Lemma read_loop_S (fuel : nat) (i : inode) (size offset : Z) (out : list Z)
    (w : world) :
  read_loop (S fuel) i size offset out w =
  if size >? 0 then
    let (sector_idx, w1) := byte_to_sector i offset w in
    if sector_idx =? NO_SECTOR then (out, offset, w1)
    else
      let chunk_size :=
        Z.min size
          (Z.min (inode_length i w1 - offset)
             (BLOCK_SECTOR_SIZE - Z.rem offset BLOCK_SECTOR_SIZE)) in
      if chunk_size <=? 0 then (out, offset, w1)
      else
        read_loop fuel i (size - chunk_size) (offset + chunk_size)
          (out
           ++ slice (store w1 sector_idx) (Z.rem offset BLOCK_SECTOR_SIZE)
                chunk_size) w1
  else (out, offset, w).
Proof.
  cbn [read_loop]. destruct (size >? 0); [|reflexivity].
  destruct (byte_to_sector i offset w) as [sector_idx w1].
  cbv zeta. rewrite chunk_min. reflexivity.
Qed.

(** A read that finds every pointer set up to the end of the file
    leaves the state as it is. *)
Lemma read_loop_keeps_world (i : inode) (w : world) (fuel : nat) :
  forall size offset out,
    0 <= offset <= inode_length i w ->
    (forall pos,
        offset <= pos <= inode_length i w -> present w (i_sector i) pos) ->
    exists out' offset',
      read_loop fuel i size offset out w = (out', offset', w)
      /\ offset <= offset' <= inode_length i w.
Proof.
  induction fuel as [|fuel IH]; intros size offset out Hoff Hp.
  - exists out, offset. split; [reflexivity|lia].
  - rewrite read_loop_S. destruct (size >? 0);
      [|exists out, offset; split; [reflexivity|lia]].
    pose proof (disk_length_range (store w (i_sector i))) as Hlen.
    fold (inode_length i w) in Hlen.
    rewrite byte_to_sector_present by (try apply Hp; lia).
    destruct (_ =? NO_SECTOR);
      [exists out, offset; split; [reflexivity|lia]|].
    cbv zeta.
    match goal with
    | |- context [if ?c <=? 0 then _ else _] =>
        destruct (Z.leb_spec c 0) as [Hc|Hc]
    end; [exists out, offset; split; [reflexivity|lia]|].
    match goal with
    | |- context [read_loop fuel i ?sz ?o ?ou w] =>
        destruct (IH sz o ou) as (out' & off' & E & Hb)
    end.
    + lia.
    + intros pos Hpos. apply Hp. lia.
    + exists out', off'. split; [exact E|lia].
Qed.

Lemma inode_read_at_keeps_world (i : inode) (size offset : Z) (w : world) :
  0 <= offset ->
  (forall pos,
      offset <= pos <= inode_length i w -> present w (i_sector i) pos) ->
  snd (inode_read_at i size offset w) = w.
Proof.
  intros Hoff Hp. unfold inode_read_at.
  destruct (Z.geb_spec offset (inode_length i w)) as [Hge|Hlt];
    [reflexivity|].
  destruct (read_loop_keeps_world i w (Z.to_nat size) size offset [])
    as (out' & off' & E & Hb); [lia|exact Hp|].
  rewrite E. cbn [snd]. unfold start_read_ahead.
  destruct (Z.ltb_spec (off' + BLOCK_SECTOR_SIZE - 1) (inode_length i w))
    as [Hra|Hra]; [|reflexivity].
  pose proof (disk_length_range (store w (i_sector i))) as Hlen.
  fold (inode_length i w) in Hlen. unfold BLOCK_SECTOR_SIZE in *.
  rewrite byte_to_sector_present; [reflexivity|lia|apply Hp; lia].
Qed.

Lemma inode_read_at_past_end (i : inode) (size offset : Z) (w : world) :
  inode_length i w <= offset -> inode_read_at i size offset w = ([], w).
Proof.
  intros H. unfold inode_read_at.
  destruct (Z.geb_spec offset (inode_length i w)); [reflexivity|lia].
Qed.

(** ** The log of the free map only grows *)

Definition extends (w w' : world) : Prop :=
  exists l, fm_log w' = l ++ fm_log w.

Lemma extends_refl (w : world) : extends w w.
Proof. exists []. reflexivity. Qed.

Lemma extends_trans (w1 w2 w3 : world) :
  extends w1 w2 -> extends w2 w3 -> extends w1 w3.
Proof.
  intros [l1 H1] [l2 H2]. exists (l2 ++ l1). rewrite H2, H1.
  apply app_assoc.
Qed.

Lemma extends_same_log (w w' : world) : fm_log w' = fm_log w -> extends w w'.
Proof. intros H. exists []. exact H. Qed.

Lemma extends_write_sector (w : world) (s : Z) (d : sector_data) :
  extends w (write_sector w s d).
Proof. apply extends_same_log. reflexivity. Qed.

Lemma extends_poke (w : world) (bd : option Z) (idx v : Z) :
  extends w (poke w bd idx v).
Proof.
  unfold poke. destruct bd as [s|]; [|apply extends_refl].
  destruct (idx <? 128); [apply extends_write_sector|apply extends_refl].
Qed.

Lemma extends_allocate (w : world) :
  extends w (snd (free_map_allocate w)).
Proof.
  unfold free_map_allocate. destruct (bitmap_scan (free_map w)); cbn [snd].
  - exists [FmAlloc (Z.of_nat n)]. reflexivity.
  - exists [FmFail]. reflexivity.
Qed.

Lemma extends_indirect (buff : bool) (i : inode) (idx : Z) (w : world) :
  extends w (snd (byte_to_indirect_sector buff i idx w)).
Proof.
  unfold byte_to_indirect_sector. cbv zeta.
  destruct (_ =? 0); [|apply extends_refl].
  pose proof (extends_allocate w) as H.
  destruct (free_map_allocate w) as [[s|] w1]; cbn [snd] in *; [|exact H].
  eapply extends_trans; [exact H|].
  eapply extends_trans; apply extends_write_sector.
Qed.

Lemma extends_double (buff : bool) (bd : option Z) (sector idx : Z)
    (w : world) :
  extends w (snd (byte_to_double_indirect_sec buff bd sector idx w)).
Proof.
  unfold byte_to_double_indirect_sec. cbv zeta.
  destruct (_ =? 0); [|apply extends_refl].
  pose proof (extends_allocate w) as H.
  destruct (free_map_allocate w) as [[s|] w1]; cbn [snd] in *; [|exact H].
  eapply extends_trans; [exact H|].
  eapply extends_trans; [|apply extends_write_sector].
  destruct buff; [apply extends_poke|apply extends_refl].
Qed.

Lemma extends_byte_to_sector (i : inode) (pos : Z) (w : world) :
  extends w (snd (byte_to_sector i pos w)).
Proof.
  unfold byte_to_sector. cbv zeta.
  match goal with
  | |- context [byte_to_indirect_sector ?b ?i ?x ?w] =>
      pose proof (extends_indirect b i x w) as H1;
      destruct (byte_to_indirect_sector b i x w) as [[[bf bd] sec] w1]
  end.
  cbn [snd] in H1. destruct (sec =? NO_SECTOR); [exact H1|].
  destruct (_ >=? DIRECT_BLOCKS); [|exact H1].
  match goal with
  | |- context [byte_to_double_indirect_sec ?b ?d ?s ?x ?w] =>
      pose proof (extends_double b d s x w) as H2;
      destruct (byte_to_double_indirect_sec b d s x w) as [[bd1 sec1] w2]
  end.
  cbn [snd] in H2. destruct (sec1 =? NO_SECTOR);
    [eauto using extends_trans|].
  match goal with
  | |- context [byte_to_double_indirect_sec ?b ?d ?s ?x ?w] =>
      pose proof (extends_double b d s x w) as H3;
      destruct (byte_to_double_indirect_sec b d s x w) as [[bd2 sec2] w3]
  end.
  cbn [snd] in *. eauto using extends_trans.
Qed.

Lemma extends_read_loop (i : inode) (fuel : nat) :
  forall size offset out w,
    extends w (snd (read_loop fuel i size offset out w)).
Proof.
  induction fuel as [|fuel IH]; intros size offset out w.
  - apply extends_refl.
  - rewrite read_loop_S. destruct (size >? 0); [|apply extends_refl].
    pose proof (extends_byte_to_sector i offset w) as H.
    destruct (byte_to_sector i offset w) as [s w1]. cbn [snd] in H.
    destruct (s =? NO_SECTOR); [exact H|]. cbv zeta.
    destruct (_ <=? 0); [exact H|].
    eapply extends_trans; [exact H|apply IH].
Qed.

Lemma extends_inode_read_at (i : inode) (size offset : Z) (w : world) :
  extends w (snd (inode_read_at i size offset w)).
Proof.
  unfold inode_read_at. destruct (offset >=? inode_length i w);
    [apply extends_refl|].
  pose proof (extends_read_loop i (Z.to_nat size) size offset [] w) as H.
  destruct (read_loop (Z.to_nat size) i size offset [] w) as [[out off'] w1].
  cbn [snd] in *. eapply extends_trans; [exact H|].
  unfold start_read_ahead. destruct (_ <? _); [|apply extends_refl].
  apply extends_byte_to_sector.
Qed.

Lemma failures_extends (w w' : world) :
  extends w w' -> (alloc_failures w <= alloc_failures w')%nat.
Proof.
  intros [l H]. unfold alloc_failures. rewrite H, filter_app, length_app. lia.
Qed.

(** The read loop walks to [offset] only while bytes are asked for,
    and the read-ahead only below the length. *)
Lemma read_loop_keeps_world_within (i : inode) (w : world) (fuel : nat) :
  forall size offset out,
    0 <= offset <= inode_length i w ->
    (forall pos,
        offset <= pos <= inode_length i w ->
        pos < inode_length i w \/ pos < offset + size ->
        present w (i_sector i) pos) ->
    exists out' offset',
      read_loop fuel i size offset out w = (out', offset', w)
      /\ offset <= offset' <= inode_length i w.
Proof.
  induction fuel as [|fuel IH]; intros size offset out Hoff Hp.
  - exists out, offset. split; [reflexivity|lia].
  - rewrite read_loop_S. destruct (Z.gtb_spec size 0) as [Hs|Hs];
      [|exists out, offset; split; [reflexivity|lia]].
    pose proof (disk_length_range (store w (i_sector i))) as Hlen.
    fold (inode_length i w) in Hlen.
    rewrite byte_to_sector_present by (try apply Hp; lia).
    destruct (_ =? NO_SECTOR);
      [exists out, offset; split; [reflexivity|lia]|].
    cbv zeta.
    match goal with
    | |- context [if ?c <=? 0 then _ else _] =>
        destruct (Z.leb_spec c 0) as [Hc|Hc]
    end; [exists out, offset; split; [reflexivity|lia]|].
    match goal with
    | |- context [read_loop fuel i ?sz ?o ?ou w] =>
        destruct (IH sz o ou) as (out' & off' & E & Hb)
    end.
    + lia.
    + intros pos Hpos Hin. apply Hp; lia.
    + exists out', off'. split; [exact E|lia].
Qed.

Lemma inode_read_at_keeps_world_within (i : inode) (size offset : Z)
    (w : world) :
  0 <= offset ->
  (forall pos,
      offset <= pos <= inode_length i w ->
      pos < inode_length i w \/ pos < offset + size ->
      present w (i_sector i) pos) ->
  snd (inode_read_at i size offset w) = w.
Proof.
  intros Hoff Hp. unfold inode_read_at.
  destruct (Z.geb_spec offset (inode_length i w)) as [Hge|Hlt];
    [reflexivity|].
  destruct (read_loop_keeps_world_within i w (Z.to_nat size) size offset [])
    as (out' & off' & E & Hb); [lia|exact Hp|].
  rewrite E. cbn [snd]. unfold start_read_ahead.
  destruct (Z.ltb_spec (off' + BLOCK_SECTOR_SIZE - 1) (inode_length i w))
    as [Hra|Hra]; [|reflexivity].
  pose proof (disk_length_range (store w (i_sector i))) as Hlen.
  fold (inode_length i w) in Hlen. unfold BLOCK_SECTOR_SIZE in *.
  rewrite byte_to_sector_present; [reflexivity|lia|apply Hp; lia].
Qed.

Lemma allocate_logged (w w1 : world) (s : Z) :
  free_map_allocate w = (Some s, w1) -> In (FmAlloc s) (fm_log w1).
Proof.
  try clear stack_buff; try clear wild.
  unfold free_map_allocate. intros H.
  destruct (bitmap_scan (free_map w)); inversion H; subst.
  cbn [fm_log]. left. reflexivity.
Qed.

Lemma logged_extends (w w' : world) (s : Z) :
  In (FmAlloc s) (fm_log w) -> extends w w' -> In (FmAlloc s) (fm_log w').
Proof.
  try clear stack_buff; try clear wild.
  intros H [l E]. rewrite E. apply in_or_app. right. exact H.
Qed.

Lemma indirect_allocates (buff : bool) (i : inode) (idx : Z) (w w1 : world)
    (s : Z) :
  disk_sectors (store w (i_sector i))
    (if idx >=? DIRECT_BLOCKS then DIRECT_BLOCKS else idx) = 0 ->
  free_map_allocate w = (Some s, w1) ->
  In (FmAlloc s) (fm_log (snd (byte_to_indirect_sector buff i idx w))).
Proof.
  try clear stack_buff; try clear wild.
  intros Hz Ha. unfold byte_to_indirect_sector. cbv zeta.
  rewrite Hz, Z.eqb_refl, Ha. cbn [snd write_sector set_store fm_log].
  exact (allocate_logged _ _ _ Ha).
Qed.

Lemma double_allocates (buff : bool) (bd : option Z) (sector idx : Z)
    (w w1 : world) (s : Z) :
  load w bd idx = 0 ->
  free_map_allocate w = (Some s, w1) ->
  In (FmAlloc s)
    (fm_log (snd (byte_to_double_indirect_sec buff bd sector idx w))).
Proof.
  intros Hz Ha. unfold byte_to_double_indirect_sec. cbv zeta.
  rewrite Hz, Z.eqb_refl, Ha. cbn [snd].
  apply (logged_extends w1); [exact (allocate_logged _ _ _ Ha)|].
  eapply extends_trans; [|apply extends_write_sector].
  destruct buff; [apply extends_poke|apply extends_refl].
Qed.

(** The walk to a byte whose data sector pointer is 0 allocates. *)
Lemma byte_to_sector_hole (i : inode) (pos : Z) (w w1 : world) (s : Z) :
  0 <= pos < 2 ^ 31 ->
  free_map_allocate w = (Some s, w1) ->
  (pos / BLOCK_SECTOR_SIZE < DIRECT_BLOCKS
   /\ disk_sectors (store w (i_sector i)) (pos / BLOCK_SECTOR_SIZE) = 0)
  \/ (DIRECT_BLOCKS <= pos / BLOCK_SECTOR_SIZE
      /\ i_sector i <> 0
      /\ owner w (i_sector i) (data_role pos) = 0
      /\ owner w (i_sector i) RRoot <> NO_SECTOR
      /\ owner w (i_sector i)
           (ROuter ((pos / BLOCK_SECTOR_SIZE - DIRECT_BLOCKS)
                    / BLOCKS_PER_SECTOR)) <> NO_SECTOR
      /\ (pos / BLOCK_SECTOR_SIZE - DIRECT_BLOCKS) / BLOCKS_PER_SECTOR < 128) ->
  In (FmAlloc s) (fm_log (snd (byte_to_sector i pos w))).
Proof.
  intros Hpos Ha Hhole. unfold byte_to_sector. cbv zeta.
  rewrite quot_idx by exact Hpos.
  destruct Hhole as [[Hd Hz]|(Hd & Hi & Hz & Hr & Ho & Hlt)].
  - assert (Hge : (pos / BLOCK_SECTOR_SIZE >=? DIRECT_BLOCKS) = false).
    { rewrite Z.geb_leb. apply Z.leb_gt. exact Hd. }
    pose proof (indirect_allocates stack_buff i (pos / BLOCK_SECTOR_SIZE) w w1
                  s) as H1.
    rewrite Hge in H1. specialize (H1 Hz Ha).
    destruct (byte_to_indirect_sector stack_buff i (pos / BLOCK_SECTOR_SIZE) w)
      as [[[bf bd] sec] w2].
    cbn [snd] in H1. rewrite Hge.
    destruct (sec =? NO_SECTOR); exact H1.
  - assert (Hge : (pos / BLOCK_SECTOR_SIZE >=? DIRECT_BLOCKS) = true).
    { rewrite Z.geb_leb. apply Z.leb_le. exact Hd. }
    rewrite data_role_leaf in Hz by exact Hd. cbn [owner] in Hz, Hr, Ho.
    rewrite (child_of w (i_sector i)) in Hz, Hr, Ho by exact Hi.
    destruct Hpos as [Hp0 Hp1].
    rewrite outer_idx, inner_idx by assumption.
    set (r := get_word (store w (i_sector i)) (2 + DIRECT_BLOCKS)) in *.
    set (o := (pos / BLOCK_SECTOR_SIZE - DIRECT_BLOCKS) / BLOCKS_PER_SECTOR)
      in *.
    set (n := (pos / BLOCK_SECTOR_SIZE - DIRECT_BLOCKS) mod BLOCKS_PER_SECTOR)
      in *.
    assert (Hn : (n <? 128) = true)
      by (apply Z.ltb_lt; subst n; unfold BLOCKS_PER_SECTOR; zdiv).
    assert (Hrest : forall bf bd sec idx w2,
               In (FmAlloc s) (fm_log w2) ->
               In (FmAlloc s)
                 (fm_log
                    (snd (byte_to_double_indirect_sec bf bd sec idx w2)))).
    { intros bf bd sec idx w2 H2. apply (logged_extends w2); [exact H2|].
      apply extends_double. }
    destruct (Z.eq_dec r 0) as [Er|Er].
    + (* [sectors[DIRECT_BLOCKS]] is 0 *)
      pose proof (indirect_allocates stack_buff i (pos / BLOCK_SECTOR_SIZE) w
                    w1 s) as H1.
      rewrite Hge in H1. specialize (H1 Er Ha).
      destruct (byte_to_indirect_sector stack_buff i
                  (pos / BLOCK_SECTOR_SIZE) w) as [[[bf bd] sec] w2].
      cbn [snd] in H1. rewrite Hge.
      destruct (sec =? NO_SECTOR); [exact H1|].
      pose proof (Hrest bf bd sec o w2 H1) as H2.
      destruct (byte_to_double_indirect_sec bf bd sec o w2)
        as [[bd1 sec1] w3].
      cbn [snd] in H2. destruct (sec1 =? NO_SECTOR); [exact H2|].
      pose proof (Hrest bf bd1 sec1 n w3 H2) as H3.
      destruct (byte_to_double_indirect_sec bf bd1 sec1 n w3)
        as [[bd2 sec2] w4].
      exact H3.
    + rewrite byte_to_indirect_sector_set; rewrite Hge; unfold disk_sectors;
        fold r; [|exact Er].
      apply Z.eqb_neq in Hr. rewrite Hr.
      assert (Hl1 : load w (Some r) o = child w r o).
      { unfold load. apply Z.ltb_lt in Hlt. rewrite Hlt.
        symmetry. apply child_of. exact Er. }
      rewrite (child_of w r) in Hz, Ho by exact Er.
      rewrite (child_of w r) in Hl1 by exact Er.
      destruct (Z.eq_dec (get_word (store w r) o) 0) as [Eo|Eo].
      * (* the slot of the first pointer sector is 0 *)
        pose proof (double_allocates stack_buff (Some r) r o w w1 s
                      ltac:(rewrite Hl1; exact Eo) Ha) as H2.
        destruct (byte_to_double_indirect_sec stack_buff (Some r) r o w)
          as [[bd1 sec1] w3].
        cbn [snd] in H2. destruct (sec1 =? NO_SECTOR); [exact H2|].
        pose proof (Hrest stack_buff bd1 sec1 n w3 H2) as H3.
        destruct (byte_to_double_indirect_sec stack_buff bd1 sec1 n w3)
          as [[bd2 sec2] w4].
        exact H3.
      * rewrite byte_to_double_indirect_sec_set; rewrite Hl1; [|exact Eo].
        apply Z.eqb_neq in Ho. rewrite Ho.
        rewrite (child_of w (get_word (store w r) o)) in Hz by exact Eo.
        pose proof (double_allocates stack_buff
                      (Some (get_word (store w r) o))
                      (get_word (store w r) o) n w w1 s) as H3.
        unfold load in H3. rewrite Hn in H3. specialize (H3 Hz Ha).
        destruct (byte_to_double_indirect_sec stack_buff
                    (Some (get_word (store w r) o)) (get_word (store w r) o)
                    n w) as [[bd2 sec2] w4].
        exact H3.
Qed.

(** A read of at least one byte within the file walks to its offset. *)
Lemma read_walk_logged (i : inode) (size offset : Z) (w : world) (s : Z) :
  0 <= offset < inode_length i w -> 0 < size ->
  In (FmAlloc s) (fm_log (snd (byte_to_sector i offset w))) ->
  In (FmAlloc s) (fm_log (snd (inode_read_at i size offset w))).
Proof.
  intros Hoff Hsize Hin.
  unfold inode_read_at.
  destruct (Z.geb_spec offset (inode_length i w)) as [Hge|_]; [lia|].
  assert (Hfuel : exists f, Z.to_nat size = S f).
  { exists (Nat.pred (Z.to_nat size)). lia. }
  destruct Hfuel as [f Hf]. rewrite Hf, read_loop_S.
  assert (Hs : (size >? 0) = true) by (apply Z.gtb_lt; lia).
  rewrite Hs.
  destruct (byte_to_sector i offset w) as [sec w2]. cbn [snd] in Hin.
  assert (Hra : forall o w3,
             extends w2 w3 ->
             In (FmAlloc s) (fm_log (start_read_ahead i o w3))).
  { intros o w3 H3. apply (logged_extends w2); [exact Hin|].
    eapply extends_trans; [exact H3|].
    unfold start_read_ahead. destruct (_ <? _); [|apply extends_refl].
    apply extends_byte_to_sector. }
  destruct (sec =? NO_SECTOR);
    [cbn [snd]; apply Hra, extends_refl|].
  cbv zeta. destruct (_ <=? 0); [cbn [snd]; apply Hra, extends_refl|].
  match goal with
  | |- context [read_loop f i ?sz ?o ?ou w2] =>
      pose proof (extends_read_loop i f sz o ou w2) as Hl;
      destruct (read_loop f i sz o ou w2) as [[out' off'] w3]
  end.
  cbn [snd] in *. apply Hra. exact Hl.
Qed.

(** C3, as the code has it: [inode_read_at] leaves the state, and so
    the free map and every sector pointer, as it is when the offset is
    at or past the end of the file, and when every pointer is set on
    the way to each position from [offset] to the end of the file,
    the position of the end itself included when the read asks for
    bytes past it. A read of at least one byte at an offset within
    the file whose data sector pointer is 0 allocates a sector when
    one is free: in a direct block, and behind [sectors[DIRECT_BLOCKS]]
    when that pointer, the slot it leads to or the slot of the data
    sector is 0 and neither of the first two is [NO_SECTOR]. *)
Theorem inode_read_at_allocates_only_holes (i : inode) (size offset : Z)
    (w : world) :
  (inode_length i w <= offset -> snd (inode_read_at i size offset w) = w)
  /\ (0 <= offset ->
      (forall pos,
          offset <= pos <= inode_length i w ->
          pos < inode_length i w \/ pos < offset + size ->
          present w (i_sector i) pos) ->
      snd (inode_read_at i size offset w) = w)
  /\ (forall s w1,
         0 <= offset < inode_length i w -> 0 < size ->
         offset / BLOCK_SECTOR_SIZE < DIRECT_BLOCKS ->
         disk_sectors (store w (i_sector i)) (offset / BLOCK_SECTOR_SIZE) = 0 ->
         free_map_allocate w = (Some s, w1) ->
         In (FmAlloc s) (fm_log (snd (inode_read_at i size offset w))))
  /\ (forall s w1,
         0 <= offset < inode_length i w -> 0 < size ->
         DIRECT_BLOCKS <= offset / BLOCK_SECTOR_SIZE ->
         i_sector i <> 0 ->
         owner w (i_sector i) (data_role offset) = 0 ->
         owner w (i_sector i) RRoot <> NO_SECTOR ->
         owner w (i_sector i)
           (ROuter ((offset / BLOCK_SECTOR_SIZE - DIRECT_BLOCKS)
                    / BLOCKS_PER_SECTOR)) <> NO_SECTOR ->
         (offset / BLOCK_SECTOR_SIZE - DIRECT_BLOCKS) / BLOCKS_PER_SECTOR < 128 ->
         free_map_allocate w = (Some s, w1) ->
         In (FmAlloc s) (fm_log (snd (inode_read_at i size offset w)))).
Proof.
  pose proof (disk_length_range (store w (i_sector i))) as Hlen.
  fold (inode_length i w) in Hlen.
  split; [|split; [|split]].
  - intros H. rewrite inode_read_at_past_end by exact H. reflexivity.
  - apply inode_read_at_keeps_world_within.
  - intros s w1 Hoff Hsize Hidx Hptr Halloc.
    apply read_walk_logged; [exact Hoff|exact Hsize|].
    apply (byte_to_sector_hole i offset w w1 s); [lia|exact Halloc|].
    left. split; assumption.
  - intros s w1 Hoff Hsize Hidx Hi Hz Hr Ho Hlt Halloc.
    apply read_walk_logged; [exact Hoff|exact Hsize|].
    apply (byte_to_sector_hole i offset w w1 s); [lia|exact Halloc|].
    right. repeat split; assumption.
Qed.

(** ** What a read returns where the pointers are set *)

Lemma data_role_same_sector (pos pos' : Z) :
  pos / BLOCK_SECTOR_SIZE = pos' / BLOCK_SECTOR_SIZE ->
  data_role pos = data_role pos'.
Proof. intros H. unfold data_role. rewrite H. reflexivity. Qed.

Lemma map_seq_shift {A : Type} (f : Z -> A) (a : nat) (n : nat) :
  forall s,
    map (fun j => f (Z.of_nat j)) (seq (a + s) n)
    = map (fun j => f (Z.of_nat a + Z.of_nat j)) (seq s n).
Proof.
  induction n as [|n IH]; intros s; cbn [seq map]; [reflexivity|].
  rewrite Nat2Z.inj_add. f_equal.
  replace (S (a + s)) with (a + S s)%nat by lia. apply IH.
Qed.

Lemma file_bytes_split (w : world) (isec offset c m : Z) :
  0 <= c -> 0 <= m ->
  file_bytes w isec offset (c + m)
  = file_bytes w isec offset c ++ file_bytes w isec (offset + c) m.
Proof.
  intros Hc Hm. unfold file_bytes.
  rewrite Z2Nat.inj_add by assumption.
  rewrite seq_app, map_app. f_equal. cbn [Nat.add].
  replace (Z.to_nat c) with (Z.to_nat c + 0)%nat at 1 by lia.
  rewrite (map_seq_shift (fun z => file_byte w isec (offset + z))).
  apply map_ext. intros j. rewrite Z2Nat.id by assumption.
  f_equal. lia.
Qed.

Lemma slice_file_bytes (w : world) (isec offset c : Z) :
  0 <= offset -> c <= BLOCK_SECTOR_SIZE - offset mod BLOCK_SECTOR_SIZE ->
  slice (store w (owner w isec (data_role offset)))
    (offset mod BLOCK_SECTOR_SIZE) c
  = file_bytes w isec offset c.
Proof.
  try clear stack_buff; try clear wild.
  intros Hoff Hc. unfold slice, file_bytes. apply map_ext_in.
  intros j Hj. apply in_seq in Hj. unfold file_byte.
  assert (Hsame : (offset + Z.of_nat j) / BLOCK_SECTOR_SIZE
                  = offset / BLOCK_SECTOR_SIZE
                  /\ (offset + Z.of_nat j) mod BLOCK_SECTOR_SIZE
                     = offset mod BLOCK_SECTOR_SIZE + Z.of_nat j).
  { unfold BLOCK_SECTOR_SIZE in *. zdiv. }
  destruct Hsame as [H1 H2].
  rewrite (data_role_same_sector _ _ H1), H2. reflexivity.
Qed.

Lemma file_bytes_length (w : world) (isec offset size : Z) :
  List.length (file_bytes w isec offset size) = Z.to_nat size.
Proof. unfold file_bytes. rewrite length_map, length_seq. reflexivity. Qed.

(** The loop of [inode_read_at] over bytes that lie within the file
    and whose pointers are all set: it copies them all and allocates
    nothing. *)
Lemma read_loop_exact (i : inode) (w : world) (fuel : nat) :
  forall size offset out,
    (Z.to_nat size <= fuel)%nat ->
    0 <= offset -> 0 <= size ->
    offset + size <= inode_length i w ->
    (forall pos,
        offset <= pos < offset + size ->
        present w (i_sector i) pos
        /\ owner w (i_sector i) (data_role pos) <> NO_SECTOR) ->
    read_loop fuel i size offset out w
    = (out ++ file_bytes w (i_sector i) offset size, offset + size, w).
Proof.
  pose proof (disk_length_range (store w (i_sector i))) as Hlen.
  fold (inode_length i w) in Hlen.
  induction fuel as [|fuel IH]; intros size offset out Hfuel Hoff Hsize Hin Hp.
  - assert (size = 0) by lia. subst size. cbn [read_loop].
    unfold file_bytes. cbn. rewrite app_nil_r, Z.add_0_r. reflexivity.
  - rewrite read_loop_S. destruct (Z.gtb_spec size 0) as [Hpos|Hz].
    + destruct (Hp offset ltac:(lia)) as [Hpr Hns].
      rewrite byte_to_sector_present by (try exact Hpr; lia).
      apply Z.eqb_neq in Hns. rewrite Hns. cbv zeta.
      rewrite rem_ofs by exact Hoff.
      set (c := Z.min size
                  (Z.min (inode_length i w - offset)
                     (BLOCK_SECTOR_SIZE - offset mod BLOCK_SECTOR_SIZE))).
      assert (Hc : 0 < c /\ c <= size
                   /\ c <= BLOCK_SECTOR_SIZE - offset mod BLOCK_SECTOR_SIZE).
      { subst c. unfold BLOCK_SECTOR_SIZE in *. zdiv. }
      destruct (Z.leb_spec c 0) as [Hc0|_]; [lia|].
      rewrite IH; try lia.
      * rewrite slice_file_bytes by lia.
        replace size with (c + (size - c)) at 3 by lia.
        rewrite file_bytes_split by lia.
        rewrite <- app_assoc. f_equal. f_equal. lia.
      * intros pos Hpos'. apply Hp. lia.
    + assert (size = 0) by lia. subst size.
      unfold file_bytes. cbn. rewrite app_nil_r, Z.add_0_r. reflexivity.
Qed.

Lemma inode_read_at_exact (i : inode) (size offset : Z) (w : world) :
  0 <= offset -> 0 <= size ->
  offset + size <= inode_length i w ->
  (forall pos,
      offset <= pos < offset + size ->
      present w (i_sector i) pos
      /\ owner w (i_sector i) (data_role pos) <> NO_SECTOR) ->
  inode_read_at i size offset w
  = (file_bytes w (i_sector i) offset size,
     if offset >=? inode_length i w then w
     else start_read_ahead i (offset + size) w).
Proof.
  intros Hoff Hsize Hin Hp. unfold inode_read_at.
  destruct (Z.geb_spec offset (inode_length i w)) as [Hge|Hlt].
  - assert (size = 0) by lia. subst size. reflexivity.
  - rewrite read_loop_exact; auto.
Qed.

(** The file has every sector in place, as far as its length goes. *)
Definition readable (w : world) (isec : Z) (len : Z) : Prop :=
  forall pos,
    0 <= pos <= len ->
    present w isec pos /\ owner w isec (data_role pos) <> NO_SECTOR.

Lemma inode_read_at_readable (i : inode) (size offset : Z) (w : world) :
  readable w (i_sector i) (inode_length i w) ->
  0 <= offset -> 0 <= size ->
  offset + size <= inode_length i w ->
  inode_read_at i size offset w
  = (file_bytes w (i_sector i) offset size, w).
Proof.
  intros Hr Hoff Hsize Hin.
  rewrite inode_read_at_exact; auto; [|intros pos Hpos; apply Hr; lia].
  f_equal. destruct (offset >=? inode_length i w); [reflexivity|].
  unfold start_read_ahead.
  destruct (Z.ltb_spec (offset + size + BLOCK_SECTOR_SIZE - 1)
              (inode_length i w)) as [Hra|Hra]; [|reflexivity].
  pose proof (disk_length_range (store w (i_sector i))) as Hlen.
  fold (inode_length i w) in Hlen. unfold BLOCK_SECTOR_SIZE in *.
  rewrite byte_to_sector_present; [reflexivity|lia|apply Hr; lia].
Qed.

(** ** Removal of a directory that is not empty *)

Lemma store_release_direct (i : inode) (w : world) :
  store (release_direct i w) = store w.
Proof.
  unfold release_direct. generalize (seq 0 (Z.to_nat DIRECT_BLOCKS)).
  intros l. revert w. induction l as [|k l IH]; intros w; cbn [fold_left];
    [reflexivity|].
  rewrite IH. destruct (_ =? 0); reflexivity.
Qed.

Lemma store_free_map_release (s : Z) (w : world) :
  store (free_map_release s w) = store w.
Proof. reflexivity. Qed.

Lemma store_release_blocks (i : inode) (w w' : world) :
  release_blocks i w = Some w' -> store w' = store w.
Proof.
  unfold release_blocks.
  destruct (disk_sectors (store w (i_sector i)) DIRECT_BLOCKS =? 0);
    [|discriminate].
  intros H. apply some_inj in H. rewrite <- H. apply store_release_direct.
Qed.

Lemma store_inode_close (p : option nat) (w w' : world) :
  inode_close p w = Some w' -> store w' = store w.
Proof.
  unfold inode_close. destruct p as [a|];
    [|intros H; apply some_inj in H; rewrite <- H; reflexivity].
  destruct (find_inode a w) as [i|];
    [|intros H; apply some_inj in H; rewrite <- H; reflexivity].
  destruct (open_cnt i - 1 =? 0);
    [|intros H; apply some_inj in H; rewrite <- H; reflexivity].
  destruct (removed i);
    [|intros H; apply some_inj in H; rewrite <- H; reflexivity].
  intros H. rewrite (store_release_blocks _ _ _ H). reflexivity.
Qed.

(** The scan of [is_empty_dir] stops at the first entry in use, at
    the latest at entry [j]. *)
Lemma is_empty_loop_finds (i : inode) (w : world) (j : Z) :
  readable w (i_sector i) (inode_length i w) ->
  DIR_ENTRY_SIZE * (j + 1) <= inode_length i w ->
  e_in_use (file_bytes w (i_sector i) (DIR_ENTRY_SIZE * j) DIR_ENTRY_SIZE)
  = true ->
  forall (n : nat) (fuel : nat) (k : Z),
    0 <= k -> k + Z.of_nat n = j -> (n < fuel)%nat ->
    is_empty_loop fuel i (DIR_ENTRY_SIZE * k) w = Some (false, w).
Proof.
  intros Hr Hlen Huse. unfold DIR_ENTRY_SIZE in *.
  induction n as [|n IH]; intros fuel k Hk Hj Hfuel;
    (destruct fuel as [|fuel]; [lia|]); cbn [is_empty_loop];
    unfold bind, lift; unfold DIR_ENTRY_SIZE;
    rewrite inode_read_at_readable by (auto; lia);
    rewrite file_bytes_length; change (Z.of_nat (Z.to_nat 20) =? 20) with true;
    cbv iota.
  - replace k with j by lia. rewrite Huse. reflexivity.
  - destruct (e_in_use (file_bytes w (i_sector i) (20 * k) 20));
      [reflexivity|].
    replace (20 * k + 20) with (20 * (k + 1)) by lia.
    apply IH; lia.
Qed.

(** ** The free map hands out sectors that are free *)

Lemma bitmap_scan_free (b : bitmap) (n : nat) :
  bitmap_scan b = Some n -> (n < List.length b)%nat /\ nth n b false = false.
Proof.
  revert n. induction b as [|used r IH]; intros n; cbn [bitmap_scan];
    [discriminate|].
  destruct used.
  - destruct (bitmap_scan r) as [m|]; cbn [option_map]; [|discriminate].
    intros H. inversion H; subst. destruct (IH m eq_refl) as [H1 H2].
    cbn [List.length nth]. split; [lia|exact H2].
  - intros H. inversion H; subst. cbn [List.length nth]. split; [lia|reflexivity].
Qed.

Lemma bitmap_set_length (b : bitmap) (n : nat) (v : bool) :
  List.length (bitmap_set b n v) = List.length b.
Proof.
  revert n. induction b as [|x r IH]; intros n; [reflexivity|].
  destruct n; cbn [bitmap_set List.length]; [reflexivity|].
  rewrite IH. reflexivity.
Qed.

Lemma bitmap_set_nth (b : bitmap) (n : nat) (v : bool) (m : nat) :
  (n < List.length b)%nat ->
  nth m (bitmap_set b n v) false = if Nat.eqb m n then v else nth m b false.
Proof.
  revert n m. induction b as [|x r IH]; intros n m Hn;
    cbn [List.length] in Hn; [lia|].
  destruct n as [|n]; destruct m as [|m]; cbn [bitmap_set nth Nat.eqb];
    try reflexivity.
  apply IH. lia.
Qed.

Lemma bitmap_test_bound (b : bitmap) (x : Z) :
  bitmap_test b x = true -> 0 <= x < Z.of_nat (List.length b).
Proof.
  unfold bitmap_test. intros H. apply andb_true_iff in H.
  destruct H as [H0 H1]. apply Z.leb_le in H0.
  destruct (Nat.lt_ge_cases (Z.to_nat x) (List.length b)) as [Hlt|Hge];
    [lia|].
  rewrite nth_overflow in H1 by exact Hge. discriminate.
Qed.

Lemma free_map_allocate_some (w w1 : world) (s : Z) :
  free_map_allocate w = (Some s, w1) ->
  bitmap_test (free_map w) s = false
  /\ 0 <= s < Z.of_nat (List.length (free_map w))
  /\ (forall x,
         bitmap_test (free_map w1) x
         = if x =? s then true else bitmap_test (free_map w) x)
  /\ List.length (free_map w1) = List.length (free_map w)
  /\ store w1 = store w
  /\ fm_log w1 = FmAlloc s :: fm_log w.
Proof.
  unfold free_map_allocate.
  destruct (bitmap_scan (free_map w)) as [n|] eqn:E; [|discriminate].
  intros H. inversion H; subst; clear H. cbn [free_map store fm_log].
  destruct (bitmap_scan_free _ _ E) as [Hn Hfree].
  split; [|split; [lia|split; [|split; [apply bitmap_set_length|auto]]]].
  - unfold bitmap_test. rewrite Nat2Z.id, Hfree. apply andb_false_r.
  - intros x. unfold bitmap_test.
    destruct (Z.leb_spec 0 x) as [H0|H0].
    + rewrite bitmap_set_nth by exact Hn. cbn [andb].
      destruct (Z.eqb_spec x (Z.of_nat n)) as [Ex|Ex].
      * subst x. rewrite Nat2Z.id, Nat.eqb_refl. reflexivity.
      * destruct (Nat.eqb_spec (Z.to_nat x) n); [lia|reflexivity].
    + cbn [andb]. destruct (Z.eqb_spec x (Z.of_nat n)); [lia|reflexivity].
Qed.

Lemma free_map_allocate_none (w w1 : world) :
  free_map_allocate w = (None, w1) ->
  alloc_failures w1 = S (alloc_failures w).
Proof.
  unfold free_map_allocate.
  destruct (bitmap_scan (free_map w)); [discriminate|].
  intros H. inversion H; subst. reflexivity.
Qed.

(** ** One step of the walk: a pointer is read, and set if it is 0 *)

(** What both walkers do with word [k] of sector [p]: when it is 0 a
    sector is allocated, stored there and zeroed. *)
Definition ensure (p k : Z) (w : world) : Z * world :=
  let c := get_word (store w p) k in
  if c =? 0 then
    match free_map_allocate w with
    | (None, w1) => (0, w1)
    | (Some s, w1) =>
        (s,
         write_sector (write_sector w1 p (set_word (store w1 p) k s)) s
           zero_sector)
    end
  else (c, w).

Lemma extends_ensure (p k : Z) (w : world) : extends w (snd (ensure p k w)).
Proof.
  unfold ensure. cbv zeta. destruct (_ =? 0); [|apply extends_refl].
  pose proof (extends_allocate w) as H.
  destruct (free_map_allocate w) as [[s|] w1]; cbn [snd] in *; [|exact H].
  eapply extends_trans; [exact H|].
  eapply extends_trans; apply extends_write_sector.
Qed.

Lemma indirect_as_ensure (buff : bool) (i : inode) (idx : Z) (w : world) :
  alloc_failures (snd (byte_to_indirect_sector buff i idx w))
  = alloc_failures w ->
  byte_to_indirect_sector buff i idx w
  = (buff,
     Some (fst (ensure (i_sector i)
                  (2 + (if idx >=? DIRECT_BLOCKS then DIRECT_BLOCKS else idx))
                  w)),
     fst (ensure (i_sector i)
            (2 + (if idx >=? DIRECT_BLOCKS then DIRECT_BLOCKS else idx)) w),
     snd (ensure (i_sector i)
            (2 + (if idx >=? DIRECT_BLOCKS then DIRECT_BLOCKS else idx)) w)).
Proof.
  unfold byte_to_indirect_sector, ensure, disk_sectors, set_disk_sectors.
  cbv zeta. destruct (_ =? 0) eqn:E; [|reflexivity].
  destruct (free_map_allocate w) as [[s|] w1] eqn:Ea; [reflexivity|].
  cbn [snd]. intros H. apply free_map_allocate_none in Ea. lia.
Qed.

Lemma double_as_ensure (p k : Z) (w : world) :
  0 <= k < 128 ->
  alloc_failures (snd (byte_to_double_indirect_sec true (Some p) p k w))
  = alloc_failures w ->
  byte_to_double_indirect_sec true (Some p) p k w
  = (Some (fst (ensure p k w)), fst (ensure p k w), snd (ensure p k w)).
Proof.
  intros Hk. unfold byte_to_double_indirect_sec, ensure, load, poke.
  cbv zeta. destruct (Z.ltb_spec k 128) as [_|]; [|lia].
  destruct (_ =? 0) eqn:E; [|reflexivity].
  destruct (free_map_allocate w) as [[s|] w1] eqn:Ea.
  - intros _. apply free_map_allocate_some in Ea.
    destruct Ea as (_ & _ & _ & _ & Hst & _). reflexivity.
  - cbn [snd]. intros H. apply free_map_allocate_none in Ea. lia.
Qed.

(** ** The block tree stays well formed under the walk *)

Lemma role_eq_dec (r1 r2 : role) : {r1 = r2} + {r1 <> r2}.
Proof. decide equality; apply Z.eq_dec. Defined.

(** [link rp k rc]: word [k] of the sector in role [rp] is the pointer
    to the sector in role [rc]. *)
Inductive link : role -> Z -> role -> Prop :=
| LDirect (k j : Z) :
    0 <= k < DIRECT_BLOCKS -> j = 2 + k -> link RInode j (RDirect k)
| LRoot (j : Z) : j = 2 + DIRECT_BLOCKS -> link RInode j RRoot
| LOuter (o : Z) : 0 <= o < 126 -> link RRoot o (ROuter o)
| LLeaf (o n : Z) :
    0 <= o < 126 -> 0 <= n < BLOCKS_PER_SECTOR ->
    link (ROuter o) n (RLeaf o n).

Lemma owner_link (w : world) (isec : Z) (rp rc : role) (k : Z) :
  link rp k rc -> owner w isec rc = child w (owner w isec rp) k.
Proof. intros H. destruct H; subst; reflexivity. Qed.

Lemma link_valid (rp rc : role) (k : Z) :
  link rp k rc -> valid_role rp /\ valid_role rc /\ 0 <= k < 128.
Proof.
  intros H. destruct H; cbn [valid_role];
    unfold DIRECT_BLOCKS, BLOCKS_PER_SECTOR in *; repeat split; lia.
Qed.

Lemma link_parent (rq rp r : role) (j k : Z) :
  link rq j r -> link rp k r -> rq = rp /\ j = k.
Proof.
  intros H1 H2. destruct H1; inversion H2; subst; auto.
Qed.

Lemma link_child (rp r r' : role) (k : Z) :
  link rp k r -> link rp k r' -> r = r'.
Proof.
  intros H1 H2. destruct H1; inversion H2; subst; auto;
    unfold DIRECT_BLOCKS in *; try (f_equal; lia); exfalso; lia.
Qed.

Lemma link_not_self (rp : role) (k : Z) : ~ link rp k rp.
Proof. intros H. inversion H. Qed.

Lemma link_not_inode (rp : role) (k : Z) : ~ link rp k RInode.
Proof. intros H. inversion H. Qed.

Lemma wf_in_use_bound (w : world) (isec : Z) (r : role) :
  wf w isec -> valid_role r -> owner w isec r <> 0 ->
  0 < owner w isec r < NO_SECTOR.
Proof.
  intros (_ & _ & Hlen & Huse & _) Hv Hne.
  pose proof (bitmap_test_bound _ _ (Huse r Hv Hne)). lia.
Qed.

(** The state once sector [s] is stored in word [k] of sector [p] and
    zeroed. *)
Definition install (w : world) (p k s : Z) : world :=
  write_sector (write_sector w p (set_word (store w p) k s)) s zero_sector.

Lemma store_install (w : world) (p k s x : Z) :
  store (install w p k s) x
  = if x =? s then zero_sector
    else if x =? p then set_word (store w p) k s else store w x.
Proof. reflexivity. Qed.

Lemma child_store_eq (w w' : world) (p k : Z) :
  store w' p = store w p -> child w' p k = child w p k.
Proof. intros H. unfold child. rewrite H. reflexivity. Qed.

Lemma child_install (w : world) (p k s q j : Z) :
  p <> 0 -> s <> 0 -> s <> p -> 0 <= s < 2 ^ 32 ->
  child (install w p k s) q j
  = if q =? s then 0
    else if (q =? p) && (j =? k) then s else child w q j.
Proof.
  try clear stack_buff; try clear wild.
  intros Hp Hs Hsp Hrange. unfold child at 1. rewrite store_install.
  destruct (Z.eqb_spec q 0) as [E0|E0].
  - subst q. destruct (Z.eqb_spec 0 s); [lia|].
    destruct (Z.eqb_spec 0 p); [lia|]. cbn [andb]. reflexivity.
  - destruct (Z.eqb_spec q s) as [Es|Es]; [apply get_word_zero|].
    destruct (Z.eqb_spec q p) as [Ep|Ep]; cbn [andb].
    + subst q. destruct (Z.eqb_spec j k) as [Ej|Ej].
      * subst j. apply get_set_word_same. exact Hrange.
      * rewrite get_set_word_other by auto. symmetry. apply child_of. exact Hp.
    + symmetry. apply child_of. exact E0.
Qed.

Lemma install_owner (w : world) (isec : Z) (rp rc : role) (p k s : Z) :
  wf w isec -> link rp k rc ->
  owner w isec rp = p -> p <> 0 -> owner w isec rc = 0 ->
  bitmap_test (free_map w) s = false ->
  0 < s < NO_SECTOR ->
  forall r,
    valid_role r ->
    owner (install w p k s) isec r
    = if role_eq_dec r rc then s else owner w isec r.
Proof.
  try clear stack_buff; try clear wild.
  intros Hwf Hlink Hp Hpne Hrc Hfree Hs.
  pose proof Hwf as (Hi & H0 & Hlen & Huse & Hinj).
  destruct (link_valid _ _ _ Hlink) as (Hvp & Hvc & Hk).
  assert (Hsp : s <> p).
  { intros E. subst s. rewrite <- Hp in Hfree.
    rewrite Huse in Hfree; [discriminate|exact Hvp|congruence]. }
  assert (Hrange : 0 <= s < 2 ^ 32) by (unfold NO_SECTOR in Hs; lia).
  assert (Hsne : s <> 0) by lia.
  assert (Hnot_s : forall r, valid_role r -> owner w isec r <> s).
  { intros r Hv E. destruct (Z.eq_dec (owner w isec r) 0) as [Ez|Ez]; [lia|].
    rewrite <- E, (Huse r Hv Ez) in Hfree. discriminate. }
  assert (Hstep : forall rq j r,
             link rq j r ->
             owner (install w p k s) isec rq
             = (if role_eq_dec rq rc then s else owner w isec rq) ->
             owner (install w p k s) isec r
             = if role_eq_dec r rc then s else owner w isec r).
  { intros rq j r Hl Hparent.
    destruct (link_valid _ _ _ Hl) as (Hvq & Hvr & Hj).
    rewrite (owner_link (install w p k s) isec rq r j Hl), Hparent.
    rewrite (owner_link w isec rq r j Hl).
    rewrite child_install by assumption.
    destruct (role_eq_dec rq rc) as [Eq|Eq].
    - subst rq. rewrite Z.eqb_refl. rewrite Hrc.
      destruct (role_eq_dec r rc) as [Er|Er].
      + subst r. exfalso. exact (link_not_self _ _ Hl).
      + unfold child. rewrite Z.eqb_refl. reflexivity.
    - destruct (Z.eqb_spec (owner w isec rq) s) as [Es|Es];
        [exfalso; exact (Hnot_s rq Hvq Es)|].
      destruct (Z.eqb_spec (owner w isec rq) p) as [Ep|Ep]; cbn [andb].
      + assert (rp = rq).
        { apply Hinj; auto; congruence. }
        subst rq.
        destruct (Z.eqb_spec j k) as [Ej|Ej].
        * subst j. rewrite (link_child _ _ _ _ Hl Hlink).
          destruct (role_eq_dec rc rc); [reflexivity|tauto].
        * destruct (role_eq_dec r rc) as [Er|Er]; [|reflexivity].
          subst r. destruct (link_parent _ _ _ _ _ Hl Hlink). tauto.
      + destruct (role_eq_dec r rc) as [Er|Er]; [|reflexivity].
        subst r. destruct (link_parent _ _ _ _ _ Hl Hlink) as [E1 _].
        subst rq. tauto. }
  assert (HI : owner (install w p k s) isec RInode
               = if role_eq_dec RInode rc then s else owner w isec RInode).
  { destruct (role_eq_dec RInode rc) as [E|E]; [|reflexivity].
    subst rc. exfalso. exact (link_not_inode _ _ Hlink). }
  assert (HR : owner (install w p k s) isec RRoot
               = if role_eq_dec RRoot rc then s else owner w isec RRoot).
  { apply (Hstep RInode (2 + DIRECT_BLOCKS)); [constructor; reflexivity|exact HI]. }
  intros r Hv. destruct r as [|k0| |o|o n]; cbn [valid_role] in Hv.
  - exact HI.
  - apply (Hstep RInode (2 + k0)); [constructor; auto|exact HI].
  - exact HR.
  - apply (Hstep RRoot o); [constructor; auto|exact HR].
  - apply (Hstep (ROuter o) n); [constructor; tauto|].
    apply (Hstep RRoot o); [constructor; tauto|exact HR].
Qed.

Lemma owner_store_eq (w w' : world) (isec : Z) (r : role) :
  store w' = store w -> owner w' isec r = owner w isec r.
Proof.
  intros H. destruct r; cbn [owner]; unfold child; rewrite ?H; reflexivity.
Qed.

(** A step of the walk from a sector of the tree keeps the tree well
    formed; it returns the sector in the role below, sets no pointer
    that was set, and writes to no sector in use but the one it
    started from, where it changes the one word. *)
Lemma ensure_wf (w : world) (isec : Z) (rp rc : role) (p k c : Z)
    (w' : world) :
  wf w isec -> link rp k rc -> owner w isec rp = p -> p <> 0 ->
  ensure p k w = (c, w') ->
  alloc_failures w' = alloc_failures w ->
  wf w' isec
  /\ c = owner w' isec rc /\ c <> 0
  /\ (forall r, valid_role r -> owner w isec r <> 0 ->
      owner w' isec r = owner w isec r)
  /\ (forall x, x <> p -> bitmap_test (free_map w) x = true ->
      store w' x = store w x)
  /\ (forall j, j <> k -> get_word (store w' p) j = get_word (store w p) j).
Proof.
  try clear stack_buff; try clear wild.
  intros Hwf Hlink Hp Hpne He Hfail.
  pose proof Hwf as (Hi & H0 & Hlen & Huse & Hinj).
  destruct (link_valid _ _ _ Hlink) as (Hvp & Hvc & Hk).
  assert (Hrc : owner w isec rc = get_word (store w p) k).
  { rewrite (owner_link w isec rp rc k Hlink), Hp. apply child_of. exact Hpne. }
  unfold ensure in He. cbv zeta in He.
  destruct (Z.eqb_spec (get_word (store w p) k) 0) as [Ez|Ez].
  - destruct (free_map_allocate w) as [[s|] w1] eqn:Ea.
    + inversion He; subst c w'; clear He.
      destruct (free_map_allocate_some _ _ _ Ea)
        as (Hfree & Hs & Hbits & Hlen1 & Hst & _).
      assert (Hs0 : 0 < s < NO_SECTOR).
      { split; [|lia]. destruct (Z.eq_dec s 0) as [E|E]; [|lia].
        subst s. rewrite H0 in Hfree. discriminate. }
      fold (install w1 p k s).
      assert (Hstore : store (install w1 p k s) = store (install w p k s)).
      { unfold install, write_sector, set_store. cbn [store]. rewrite Hst.
        reflexivity. }
      assert (HA : forall r, valid_role r ->
                 owner (install w1 p k s) isec r
                 = if role_eq_dec r rc then s else owner w isec r).
      { intros r Hv. rewrite (owner_store_eq _ _ isec r Hstore).
        apply (install_owner w isec rp rc p k s); auto. congruence. }
      assert (Hfm : free_map (install w1 p k s) = free_map w1)
        by reflexivity.
      assert (Hnot_s : forall r, valid_role r -> owner w isec r <> 0 ->
                 owner w isec r <> s).
      { intros r Hv Hne E. rewrite <- E, (Huse r Hv Hne) in Hfree.
        discriminate. }
      split; [|split; [|split; [|split; [|split]]]].
      * split; [exact Hi|]. rewrite Hfm.
        split; [rewrite Hbits, H0; destruct (0 =? s); reflexivity|].
        split; [rewrite Hlen1; exact Hlen|]. split.
        -- intros r Hv. rewrite (HA r Hv), Hbits.
           destruct (role_eq_dec r rc) as [E|E].
           ++ rewrite Z.eqb_refl. reflexivity.
           ++ intros Hne. rewrite (Huse r Hv Hne).
              destruct (_ =? s); reflexivity.
        -- intros r1 r2 Hv1 Hv2. rewrite (HA r1 Hv1), (HA r2 Hv2).
           destruct (role_eq_dec r1 rc) as [E1|E1];
             destruct (role_eq_dec r2 rc) as [E2|E2]; intros Hne E.
           ++ congruence.
           ++ exfalso. apply (Hnot_s r2 Hv2); congruence.
           ++ exfalso. apply (Hnot_s r1 Hv1); congruence.
           ++ apply Hinj; assumption.
      * rewrite (HA rc Hvc). destruct (role_eq_dec rc rc); [reflexivity|tauto].
      * lia.
      * intros r Hv Hne. rewrite (HA r Hv).
        destruct (role_eq_dec r rc) as [E|E]; [|reflexivity].
        subst r. congruence.
      * intros x Hx Hin. rewrite Hstore, store_install.
        destruct (Z.eqb_spec x s) as [E|E];
          [subst x; rewrite Hin in Hfree; discriminate|].
        destruct (Z.eqb_spec x p); [tauto|reflexivity].
      * intros j Hj. rewrite Hstore, store_install.
        assert (Hps : p <> s).
        { intros E. apply (Hnot_s rp Hvp); congruence. }
        destruct (Z.eqb_spec p s); [tauto|]. rewrite Z.eqb_refl.
        apply get_set_word_other. auto.
    + inversion He; subst c w'; clear He.
      apply free_map_allocate_none in Ea. lia.
  - inversion He; subst c w'; clear He.
    split; [exact Hwf|]. split; [congruence|]. split; [exact Ez|].
    repeat split; auto.
Qed.

Definition is_data (r : role) : Prop :=
  match r with
  | RDirect _ | RLeaf _ _ => True
  | _ => False
  end.

(** What a step of a write leaves in place: the tree stays well
    formed, the pointers that were set and the data sectors they name
    keep their content, and so does the length of the inode. *)
Definition keeps (w w' : world) (isec : Z) : Prop :=
  wf w' isec
  /\ (forall r, valid_role r -> owner w isec r <> 0 ->
      owner w' isec r = owner w isec r)
  /\ (forall r, valid_role r -> is_data r -> owner w isec r <> 0 ->
      store w' (owner w isec r) = store w (owner w isec r))
  /\ get_word (store w' isec) 0 = get_word (store w isec) 0.

Lemma keeps_refl (w : world) (isec : Z) : wf w isec -> keeps w w isec.
Proof.
  intros H. split; [exact H|]. split; [auto|]. split; [auto|reflexivity].
Qed.

Lemma keeps_trans (w1 w2 w3 : world) (isec : Z) :
  keeps w1 w2 isec -> keeps w2 w3 isec -> keeps w1 w3 isec.
Proof.
  intros (Hwf2 & Ho2 & Hs2 & Hl2) (Hwf3 & Ho3 & Hs3 & Hl3).
  split; [exact Hwf3|]. split; [|split].
  - intros r Hv Hne. rewrite <- (Ho2 r Hv Hne). apply Ho3; auto.
    rewrite (Ho2 r Hv Hne). exact Hne.
  - intros r Hv Hd Hne. rewrite <- (Hs2 r Hv Hd Hne).
    rewrite <- (Ho2 r Hv Hne). apply Hs3; auto.
    rewrite (Ho2 r Hv Hne). exact Hne.
  - congruence.
Qed.

Lemma link_parent_not_data (rp rc : role) (k : Z) :
  link rp k rc -> ~ is_data rp.
Proof.
  try clear stack_buff; try clear wild. intros H. destruct H; cbn [is_data]; tauto. Qed.

Lemma link_inode_slot (rc : role) (k : Z) : link RInode k rc -> k <> 0.
Proof.
  intros H. inversion H; subst; unfold DIRECT_BLOCKS in *; lia.
Qed.

Lemma ensure_keeps (w : world) (isec : Z) (rp rc : role) (p k c : Z)
    (w' : world) :
  wf w isec -> link rp k rc -> owner w isec rp = p -> p <> 0 ->
  ensure p k w = (c, w') ->
  alloc_failures w' = alloc_failures w ->
  keeps w w' isec /\ c = owner w' isec rc /\ 0 < c < NO_SECTOR.
Proof.
  try clear stack_buff; try clear wild.
  intros Hwf Hlink Hp Hpne He Hfail.
  destruct (ensure_wf w isec rp rc p k c w' Hwf Hlink Hp Hpne He Hfail)
    as (Hwf' & Hc & Hcne & Hown & Hst & Hword).
  pose proof Hwf as (Hi & H0 & Hlen & Huse & Hinj).
  destruct (link_valid _ _ _ Hlink) as (Hvp & Hvc & Hk).
  split; [|split; [exact Hc|]].
  - split; [exact Hwf'|]. split; [exact Hown|]. split.
    + intros r Hv Hd Hne. apply Hst; [|apply Huse; assumption].
      intros E. assert (r = rp) by (apply Hinj; auto; congruence).
      subst r. exact (link_parent_not_data _ _ _ Hlink Hd).
    + destruct (role_eq_dec rp RInode) as [E|E].
      * subst rp. cbn [owner] in Hp. subst p. apply Hword.
        apply not_eq_sym. exact (link_inode_slot _ _ Hlink).
      * f_equal. apply Hst.
        -- intros Ei. apply E. symmetry. apply (Hinj RInode rp); cbn [valid_role owner]; auto.
           cbn [owner]. congruence.
        -- apply (Huse RInode); cbn [valid_role owner]; auto.
  - rewrite Hc. apply wf_in_use_bound; [exact Hwf'|exact Hvc|congruence].
Qed.

Lemma data_role_valid (pos : Z) :
  0 <= pos < MAX_FILE_SIZE -> valid_role (data_role pos).
Proof.
  try clear stack_buff; try clear wild.
  intros H. unfold data_role. cbv zeta.
  unfold MAX_FILE_SIZE, BLOCK_SECTOR_SIZE, DIRECT_BLOCKS, BLOCKS_PER_SECTOR in *.
  destruct (Z.ltb_spec (pos / 512) 124); cbn [valid_role];
    unfold DIRECT_BLOCKS, BLOCKS_PER_SECTOR; zdiv.
Qed.

(** The walk to a byte of a well-formed tree, when no allocation
    fails: the tree stays well formed and the sector returned is the
    data sector of the byte. *)
Lemma byte_to_sector_wf (i : inode) (pos : Z) (w : world) (s : Z)
    (w' : world) :
  wf w (i_sector i) -> stack_buff = true ->
  0 <= pos < MAX_FILE_SIZE ->
  byte_to_sector i pos w = (s, w') ->
  alloc_failures w' = alloc_failures w ->
  keeps w w' (i_sector i)
  /\ s = owner w' (i_sector i) (data_role pos)
  /\ 0 < s < NO_SECTOR.
Proof.
  intros Hwf Hbuff Hpos Hb Hfail.
  pose proof Hwf as (Hi & _).
  assert (Hpos31 : 0 <= pos < 2 ^ 31)
    by (unfold MAX_FILE_SIZE in Hpos; change (2 ^ 31) with 2147483648; lia).
  unfold byte_to_sector in Hb. cbv zeta in Hb.
  rewrite quot_idx, Hbuff in Hb by exact Hpos31.
  pose proof (extends_indirect true i (pos / BLOCK_SECTOR_SIZE) w) as Hx1.
  pose proof (indirect_as_ensure true i (pos / BLOCK_SECTOR_SIZE) w) as Hi1.
  destruct (byte_to_indirect_sector true i (pos / BLOCK_SECTOR_SIZE) w)
    as [[[bf bd] sec] w1].
  cbn [snd] in Hx1, Hi1. apply failures_extends in Hx1.
  destruct (Z.ltb_spec (pos / BLOCK_SECTOR_SIZE) DIRECT_BLOCKS) as [Hd|Hd].
  - assert (Hge : (pos / BLOCK_SECTOR_SIZE >=? DIRECT_BLOCKS) = false).
    { rewrite Z.geb_leb. apply Z.leb_gt. exact Hd. }
    rewrite Hge in Hb, Hi1.
    assert (Hsw : sec = s /\ w1 = w').
    { destruct (sec =? NO_SECTOR); inversion Hb; auto. }
    destruct Hsw; subst sec w1. specialize (Hi1 Hfail).
    rewrite data_role_direct by exact Hd.
    apply (ensure_keeps w (i_sector i) RInode
             (RDirect (pos / BLOCK_SECTOR_SIZE)) (i_sector i)
             (2 + pos / BLOCK_SECTOR_SIZE)); auto.
    + constructor; [|reflexivity].
      unfold BLOCK_SECTOR_SIZE in *. split; [zdiv|exact Hd].
    + rewrite (surjective_pairing (ensure _ _ _)). congruence.
  - assert (Hge : (pos / BLOCK_SECTOR_SIZE >=? DIRECT_BLOCKS) = true).
    { rewrite Z.geb_leb. apply Z.leb_le. exact Hd. }
    rewrite Hge in Hb, Hi1.
    destruct Hpos31 as [Hp0 Hp31].
    rewrite outer_idx, inner_idx in Hb by assumption.
    set (o := (pos / BLOCK_SECTOR_SIZE - DIRECT_BLOCKS) / BLOCKS_PER_SECTOR) in *.
    set (n := (pos / BLOCK_SECTOR_SIZE - DIRECT_BLOCKS) mod BLOCKS_PER_SECTOR) in *.
    assert (Hon : 0 <= o < 126 /\ 0 <= n < BLOCKS_PER_SECTOR).
    { subst o n.
      unfold MAX_FILE_SIZE, BLOCK_SECTOR_SIZE, DIRECT_BLOCKS,
        BLOCKS_PER_SECTOR in *. zdiv. }
    destruct Hon as [Ho Hn].
    rewrite data_role_leaf by exact Hd. fold o n.
    (* the three steps, with the failures they may have added *)
    assert (Hrest : (alloc_failures w1 <= alloc_failures w')%nat).
    { destruct (sec =? NO_SECTOR); [inversion Hb; subst; lia|].
      pose proof (extends_double bf bd sec o w1) as Hx2.
      destruct (byte_to_double_indirect_sec bf bd sec o w1)
        as [[bd1 sec1] w2].
      cbn [snd] in Hx2. apply failures_extends in Hx2.
      destruct (sec1 =? NO_SECTOR); [inversion Hb; subst; lia|].
      pose proof (extends_double bf bd1 sec1 n w2) as Hx3.
      destruct (byte_to_double_indirect_sec bf bd1 sec1 n w2)
        as [[bd2 sec2] w3].
      cbn [snd] in Hx3. apply failures_extends in Hx3.
      inversion Hb; subst. lia. }
    specialize (Hi1 ltac:(lia)).
    assert (Hbf : bf = true /\ bd = Some sec) by (split; congruence).
    destruct Hbf; subst bf bd.
    destruct (ensure_keeps w (i_sector i) RInode RRoot (i_sector i)
                (2 + DIRECT_BLOCKS) sec w1) as (Hk1 & Hc1 & Hb1); auto.
    { constructor. reflexivity. }
    { rewrite (surjective_pairing (ensure _ _ _)). congruence. }
    { lia. }
    assert (Hne1 : (sec =? NO_SECTOR) = false) by (apply Z.eqb_neq; lia).
    rewrite Hne1 in Hb. clear Hi1.
    pose proof (extends_double true (Some sec) sec o w1) as Hx2.
    pose proof (double_as_ensure sec o w1 ltac:(lia)) as Hi2.
    destruct (byte_to_double_indirect_sec true (Some sec) sec o w1)
      as [[bd1 sec1] w2].
    cbn [snd] in Hx2, Hi2. apply failures_extends in Hx2.
    assert (Hrest2 : (alloc_failures w2 <= alloc_failures w')%nat).
    { destruct (sec1 =? NO_SECTOR); [inversion Hb; subst; lia|].
      pose proof (extends_double true bd1 sec1 n w2) as Hx3.
      destruct (byte_to_double_indirect_sec true bd1 sec1 n w2)
        as [[bd2 sec2] w3].
      cbn [snd] in Hx3. apply failures_extends in Hx3.
      inversion Hb; subst. lia. }
    specialize (Hi2 ltac:(lia)).
    assert (Hbd1 : bd1 = Some sec1) by congruence. subst bd1.
    pose proof Hk1 as (Hwf1 & _).
    destruct (ensure_keeps w1 (i_sector i) RRoot (ROuter o) sec o sec1 w2)
      as (Hk2 & Hc2 & Hb2); auto.
    { constructor. exact Ho. }
    { lia. }
    { rewrite (surjective_pairing (ensure _ _ _)). congruence. }
    { lia. }
    assert (Hne2 : (sec1 =? NO_SECTOR) = false) by (apply Z.eqb_neq; lia).
    rewrite Hne2 in Hb. clear Hi2.
    pose proof (double_as_ensure sec1 n w2
                  ltac:(unfold BLOCKS_PER_SECTOR in Hn; lia)) as Hi3.
    destruct (byte_to_double_indirect_sec true (Some sec1) sec1 n w2)
      as [[bd2 sec2] w3].
    cbn [snd] in Hi3. inversion Hb; subst sec2 w3; clear Hb.
    specialize (Hi3 ltac:(lia)).
    pose proof Hk2 as (Hwf2 & _).
    destruct (ensure_keeps w2 (i_sector i) (ROuter o) (RLeaf o n) sec1 n s w')
      as (Hk3 & Hc3 & Hb3); auto.
    { constructor; assumption. }
    { lia. }
    { rewrite (surjective_pairing (ensure _ _ _)). congruence. }
    { lia. }
    split; [|split; [exact Hc3|exact Hb3]].
    eauto using keeps_trans.
Qed.

(** ** The loop of [inode_write_at] on a well-formed tree *)

Lemma extends_write_loop (i : inode) (buffer : list Z) (fuel : nat) :
  forall size offset written w,
    extends w (snd (write_loop fuel i buffer size offset written w)).
Proof.
  induction fuel as [|fuel IH]; intros size offset written w.
  - apply extends_refl.
  - rewrite write_loop_S. destruct (size >? 0); [|apply extends_refl].
    pose proof (extends_byte_to_sector i offset w) as H.
    destruct (byte_to_sector i offset w) as [s w1]. cbn [snd] in H.
    destruct (s =? NO_SECTOR); [exact H|]. cbv zeta.
    destruct (_ <=? 0); [exact H|].
    eapply extends_trans; [exact H|].
    eapply extends_trans; [apply extends_write_sector|apply IH].
Qed.

Lemma data_role_inj (pos pos' : Z) :
  0 <= pos -> 0 <= pos' -> data_role pos = data_role pos' ->
  pos / BLOCK_SECTOR_SIZE = pos' / BLOCK_SECTOR_SIZE.
Proof.
  try clear stack_buff; try clear wild.
  unfold data_role, BLOCK_SECTOR_SIZE, DIRECT_BLOCKS, BLOCKS_PER_SECTOR.
  cbv zeta. intros H H'.
  destruct (Z.ltb_spec (pos / 512) 124);
    destruct (Z.ltb_spec (pos' / 512) 124); intros E; inversion E; auto.
  zdiv.
Qed.

Lemma data_role_is_data (pos : Z) : is_data (data_role pos).
Proof.
  unfold data_role. cbv zeta. destruct (_ <? _); exact I.
Qed.

(** A write into a data sector changes no pointer. *)
Lemma data_write_owner (w : world) (isec : Z) (rd : role) (d : sector_data) :
  wf w isec -> valid_role rd -> is_data rd -> owner w isec rd <> 0 ->
  forall r,
    valid_role r ->
    owner (write_sector w (owner w isec rd) d) isec r = owner w isec r.
Proof.
  try clear stack_buff; try clear wild.
  intros Hwf Hvd Hd Hne.
  pose proof Hwf as (Hi & H0 & Hlen & Huse & Hinj).
  set (s := owner w isec rd) in *.
  assert (Hchild : forall rq j,
             valid_role rq -> ~ is_data rq ->
             child (write_sector w s d) (owner w isec rq) j
             = child w (owner w isec rq) j).
  { intros rq j Hvq Hnd. unfold child.
    destruct (Z.eqb_spec (owner w isec rq) 0) as [E|E]; [reflexivity|].
    unfold write_sector, set_store, upd. cbn [store].
    destruct (Z.eqb_spec (owner w isec rq) s) as [Es|Es]; [|reflexivity].
    exfalso. assert (rq = rd) by (apply Hinj; auto). subst rq. tauto. }
  assert (HR : owner (write_sector w s d) isec RRoot = owner w isec RRoot).
  { apply (Hchild RInode); cbn [valid_role is_data]; tauto. }
  intros r Hv. destruct r as [|k| |o|o n]; cbn [valid_role] in Hv.
  - reflexivity.
  - apply (Hchild RInode); cbn [valid_role is_data]; tauto.
  - exact HR.
  - change (child (write_sector w s d)
              (owner (write_sector w s d) isec RRoot) o
            = child w (owner w isec RRoot) o).
    rewrite HR. apply (Hchild RRoot); cbn [valid_role is_data]; tauto.
  - change (child (write_sector w s d)
              (child (write_sector w s d)
                 (owner (write_sector w s d) isec RRoot) o) n
            = child w (child w (owner w isec RRoot) o) n).
    rewrite HR.
    rewrite (Hchild RRoot o) by (cbn [valid_role is_data]; tauto).
    apply (Hchild (ROuter o)); cbn [valid_role is_data]; tauto.
Qed.

Lemma data_write_wf (w : world) (isec : Z) (rd : role) (d : sector_data) :
  wf w isec -> valid_role rd -> is_data rd -> owner w isec rd <> 0 ->
  wf (write_sector w (owner w isec rd) d) isec.
Proof.
  try clear stack_buff; try clear wild.
  intros Hwf Hvd Hd Hne.
  pose proof (data_write_owner w isec rd d Hwf Hvd Hd Hne) as Ho.
  destruct Hwf as (Hi & H0 & Hlen & Huse & Hinj).
  split; [exact Hi|]. split; [exact H0|]. split; [exact Hlen|]. split.
  - intros r Hv. rewrite (Ho r Hv). apply Huse. exact Hv.
  - intros r1 r2 Hv1 Hv2. rewrite (Ho r1 Hv1), (Ho r2 Hv2).
    apply Hinj; assumption.
Qed.

(** One chunk copied into the data sector of [offset]. *)
Lemma chunk_write (w : world) (isec offset c written : Z) (buffer : list Z) :
  wf w isec -> 0 <= offset < MAX_FILE_SIZE ->
  0 < c <= BLOCK_SECTOR_SIZE - offset mod BLOCK_SECTOR_SIZE ->
  owner w isec (data_role offset) <> 0 ->
  forall w',
    w' = write_sector w (owner w isec (data_role offset))
           (blit (store w (owner w isec (data_role offset)))
              (offset mod BLOCK_SECTOR_SIZE) buffer written c) ->
    wf w' isec
    /\ (forall r, valid_role r -> owner w' isec r = owner w isec r)
    /\ (forall pos,
           offset <= pos < offset + c ->
           file_byte w' isec pos
           = nth (Z.to_nat (written + (pos - offset))) buffer 0)
    /\ (forall pos,
           0 <= pos < MAX_FILE_SIZE -> ~ (offset <= pos < offset + c) ->
           owner w isec (data_role pos) <> 0 ->
           file_byte w' isec pos = file_byte w isec pos)
    /\ get_word (store w' isec) 0 = get_word (store w isec) 0.
Proof.
  try clear stack_buff; try clear wild.
  intros Hwf Hoff Hc Hne w' Hw'.
  pose proof (data_role_valid offset Hoff) as Hvd.
  pose proof (data_role_is_data offset) as Hd.
  pose proof (data_write_owner w isec _
                (blit (store w (owner w isec (data_role offset)))
                   (offset mod BLOCK_SECTOR_SIZE) buffer written c)
                Hwf Hvd Hd Hne) as Ho.
  pose proof (data_write_wf w isec _
                (blit (store w (owner w isec (data_role offset)))
                   (offset mod BLOCK_SECTOR_SIZE) buffer written c)
                Hwf Hvd Hd Hne) as Hwf'.
  rewrite <- Hw' in Ho, Hwf'.
  pose proof Hwf as (Hi & H0 & Hlen & Huse & Hinj).
  set (s := owner w isec (data_role offset)) in *.
  assert (Hst : forall x, store w' x
                = if x =? s
                  then blit (store w s) (offset mod BLOCK_SECTOR_SIZE) buffer
                         written c
                  else store w x).
  { intros x. subst w'. reflexivity. }
  split; [exact Hwf'|]. split; [exact Ho|]. split; [|split].
  - intros pos Hpos. unfold file_byte.
    assert (Hsame : pos / BLOCK_SECTOR_SIZE = offset / BLOCK_SECTOR_SIZE
                    /\ pos mod BLOCK_SECTOR_SIZE
                       = offset mod BLOCK_SECTOR_SIZE + (pos - offset)).
    { unfold BLOCK_SECTOR_SIZE in *. zdiv. }
    destruct Hsame as [H1 H2].
    rewrite (data_role_same_sector _ _ H1), (Ho _ Hvd). fold s.
    rewrite Hst, Z.eqb_refl. unfold blit.
    destruct (Z.leb_spec (offset mod BLOCK_SECTOR_SIZE)
                (pos mod BLOCK_SECTOR_SIZE)); [|lia].
    destruct (Z.ltb_spec (pos mod BLOCK_SECTOR_SIZE)
                (offset mod BLOCK_SECTOR_SIZE + c)); [|lia].
    cbn [andb]. f_equal. lia.
  - intros pos Hpos Hout Hpne. unfold file_byte.
    rewrite (Ho _ (data_role_valid pos Hpos)), Hst.
    destruct (Z.eqb_spec (owner w isec (data_role pos)) s) as [E|E];
      [|reflexivity].
    assert (Hr : data_role pos = data_role offset).
    { apply Hinj; auto using data_role_valid. }
    apply data_role_inj in Hr; [|lia|lia].
    rewrite E. unfold blit.
    destruct (Z.leb_spec (offset mod BLOCK_SECTOR_SIZE)
                (pos mod BLOCK_SECTOR_SIZE));
      destruct (Z.ltb_spec (pos mod BLOCK_SECTOR_SIZE)
                  (offset mod BLOCK_SECTOR_SIZE + c)); cbn [andb];
      try reflexivity.
    exfalso. apply Hout. unfold BLOCK_SECTOR_SIZE in *. zdiv.
  - rewrite Hst. destruct (Z.eqb_spec isec s) as [E|E]; [|reflexivity].
    exfalso. assert (RInode = data_role offset).
    { apply Hinj; cbn [valid_role owner]; auto. }
    pose proof Hd as Hd'. rewrite <- H in Hd'. exact Hd'.
Qed.

Lemma alloc_failures_write_sector (w : world) (s : Z) (d : sector_data) :
  alloc_failures (write_sector w s d) = alloc_failures w.
Proof. reflexivity. Qed.

(** The loop of [inode_write_at] over bytes below the ceiling, when
    no allocation fails: it copies them all, the tree stays well
    formed, and the bytes of the file outside the range that had a
    sector keep their value. *)
Lemma write_loop_spec (i : inode) (buffer : list Z) (fuel : nat) :
  forall size offset written w wr' off' w',
    wf w (i_sector i) -> stack_buff = true ->
    (Z.to_nat size <= fuel)%nat ->
    0 <= offset -> 0 <= size -> offset + size <= MAX_FILE_SIZE ->
    write_loop fuel i buffer size offset written w = (wr', off', w') ->
    alloc_failures w' = alloc_failures w ->
    wf w' (i_sector i)
    /\ wr' = written + size /\ off' = offset + size
    /\ (forall pos,
           offset <= pos < offset + size ->
           owner w' (i_sector i) (data_role pos) <> 0
           /\ file_byte w' (i_sector i) pos
              = nth (Z.to_nat (written + (pos - offset))) buffer 0)
    /\ (forall pos,
           0 <= pos < MAX_FILE_SIZE -> ~ (offset <= pos < offset + size) ->
           owner w (i_sector i) (data_role pos) <> 0 ->
           owner w' (i_sector i) (data_role pos)
           = owner w (i_sector i) (data_role pos)
           /\ file_byte w' (i_sector i) pos = file_byte w (i_sector i) pos)
    /\ get_word (store w' (i_sector i)) 0 = get_word (store w (i_sector i)) 0.
Proof.
  assert (Hdone : forall size offset written w,
             wf w (i_sector i) -> size = 0 ->
             wf w (i_sector i)
             /\ written = written + size /\ offset = offset + size
             /\ (forall pos,
                    offset <= pos < offset + size ->
                    owner w (i_sector i) (data_role pos) <> 0
                    /\ file_byte w (i_sector i) pos
                       = nth (Z.to_nat (written + (pos - offset))) buffer 0)
             /\ (forall pos,
                    0 <= pos < MAX_FILE_SIZE ->
                    ~ (offset <= pos < offset + size) ->
                    owner w (i_sector i) (data_role pos) <> 0 ->
                    owner w (i_sector i) (data_role pos)
                    = owner w (i_sector i) (data_role pos)
                    /\ file_byte w (i_sector i) pos
                       = file_byte w (i_sector i) pos)
             /\ get_word (store w (i_sector i)) 0
                = get_word (store w (i_sector i)) 0).
  { intros size offset written w Hwf Hz. subst size.
    split; [exact Hwf|]. split; [lia|]. split; [lia|].
    split; [intros; lia|]. split; [tauto|reflexivity]. }
  induction fuel as [|fuel IH];
    intros size offset written w wr' off' w' Hwf Hbuff Hfuel Hoff Hsize Hmax
      Hloop Hfail.
  - cbn [write_loop] in Hloop. inversion Hloop; subst.
    apply Hdone; [exact Hwf|lia].
  - rewrite write_loop_S in Hloop.
    destruct (Z.gtb_spec size 0) as [Hpos|Hz];
      [|inversion Hloop; subst; apply Hdone; [exact Hwf|lia]].
    pose proof (extends_byte_to_sector i offset w) as Hx1.
    destruct (byte_to_sector i offset w) as [s w1] eqn:Eb.
    cbn [snd] in Hx1. apply failures_extends in Hx1.
    assert (Hx2 : (alloc_failures w1 <= alloc_failures w')%nat).
    { destruct (s =? NO_SECTOR); [inversion Hloop; subst; lia|].
      cbv zeta in Hloop. destruct (_ <=? 0); [inversion Hloop; subst; lia|].
      match type of Hloop with
      | write_loop fuel i buffer ?sz ?o ?wr ?w2 = _ =>
          pose proof (extends_write_loop i buffer fuel sz o wr w2) as Hx;
          rewrite Hloop in Hx; cbn [snd] in Hx;
          apply failures_extends in Hx;
          rewrite alloc_failures_write_sector in Hx; exact Hx
      end. }
    destruct (byte_to_sector_wf i offset w s w1 Hwf Hbuff ltac:(lia) Eb
                ltac:(lia)) as (Hk & Hs & Hsb).
    destruct Hk as (Hwf1 & Hown1 & Hst1 & Hlen1).
    assert (Hns : (s =? NO_SECTOR) = false) by (apply Z.eqb_neq; lia).
    rewrite Hns in Hloop. cbv zeta in Hloop.
    rewrite rem_ofs in Hloop by exact Hoff.
    set (c := Z.min size
                (Z.min (MAX_FILE_SIZE - offset)
                   (BLOCK_SECTOR_SIZE - offset mod BLOCK_SECTOR_SIZE))) in *.
    assert (Hc : 0 < c /\ c <= size
                 /\ c <= BLOCK_SECTOR_SIZE - offset mod BLOCK_SECTOR_SIZE).
    { subst c. unfold BLOCK_SECTOR_SIZE in *. zdiv. }
    destruct (Z.leb_spec c 0) as [Hc0|_]; [lia|].
    match type of Hloop with
    | write_loop fuel i buffer _ _ _ ?x = _ => set (w2 := x) in *
    end.
    destruct (chunk_write w1 (i_sector i) offset c written buffer Hwf1
                ltac:(lia) ltac:(lia) ltac:(rewrite <- Hs; lia) w2)
      as (Hwf2 & Hown2 & Hin2 & Hout2 & Hlen2).
    { subst w2. rewrite <- Hs. reflexivity. }
    destruct (IH (size - c) (offset + c) (written + c) w2 wr' off' w' Hwf2
                Hbuff ltac:(lia) ltac:(lia) ltac:(lia) ltac:(lia) Hloop)
      as (Hwf' & Hwr & Hoff' & Hin' & Hout' & Hlen').
    { subst w2. rewrite alloc_failures_write_sector. lia. }
    split; [exact Hwf'|]. split; [lia|]. split; [lia|].
    split; [|split].
    + intros pos Hp.
      destruct (Z.lt_ge_cases pos (offset + c)) as [Hlt|Hge].
      * assert (Hsame : pos / BLOCK_SECTOR_SIZE = offset / BLOCK_SECTOR_SIZE).
        { unfold BLOCK_SECTOR_SIZE in *. zdiv. }
        assert (Ho2 : owner w2 (i_sector i) (data_role pos) = s).
        { rewrite (data_role_same_sector _ _ Hsame).
          rewrite Hown2 by (apply data_role_valid; lia). auto. }
        destruct (Hout' pos ltac:(lia) ltac:(lia) ltac:(lia)) as [E1 E2].
        rewrite E1, E2, Ho2. split; [lia|]. apply Hin2. lia.
      * destruct (Hin' pos ltac:(lia)) as [E1 E2]. split; [exact E1|].
        rewrite E2. f_equal. lia.
    + intros pos Hp Hout Hne.
      assert (Hv : valid_role (data_role pos)) by (apply data_role_valid; lia).
      assert (Ho1 : owner w1 (i_sector i) (data_role pos)
                    = owner w (i_sector i) (data_role pos))
        by (apply Hown1; assumption).
      assert (Ho2 : owner w2 (i_sector i) (data_role pos)
                    = owner w (i_sector i) (data_role pos))
        by (rewrite Hown2; assumption).
      destruct (Hout' pos Hp ltac:(lia) ltac:(congruence)) as [E1 E2].
      split; [congruence|].
      rewrite E2, Hout2; [|exact Hp|lia|congruence].
      unfold file_byte. rewrite Ho1.
      rewrite Hst1; auto using data_role_is_data.
    + congruence.
Qed.

(** ** A write and the read that follows it *)

Lemma wf_present (w : world) (isec pos : Z) :
  wf w isec -> 0 <= pos < MAX_FILE_SIZE ->
  owner w isec (data_role pos) <> 0 ->
  present w isec pos /\ owner w isec (data_role pos) <> NO_SECTOR.
Proof.
  try clear stack_buff; try clear wild.
  intros Hwf Hpos Hne.
  pose proof (data_role_valid pos Hpos) as Hv.
  pose proof (wf_in_use_bound w isec _ Hwf Hv Hne) as Hb.
  split; [|lia]. split; [exact Hne|]. intros Hd.
  rewrite data_role_leaf in Hne, Hv by exact Hd.
  set (o := (pos / BLOCK_SECTOR_SIZE - DIRECT_BLOCKS) / BLOCKS_PER_SECTOR) in *.
  cbn [valid_role] in Hv. cbn [owner] in Hne.
  destruct (child_nonzero _ _ _ Hne) as [Hone _].
  destruct (child_nonzero _ _ _ Hone) as [Hrne _].
  pose proof (wf_in_use_bound w isec RRoot Hwf I Hrne).
  pose proof (wf_in_use_bound w isec (ROuter o) Hwf ltac:(cbn; tauto) Hone).
  repeat split; lia.
Qed.

(** The update of [length] changes no pointer. *)
Lemma set_length_owner (w : world) (isec v : Z) :
  wf w isec ->
  forall r,
    valid_role r ->
    owner (write_sector w isec (set_disk_length (store w isec) v)) isec r
    = owner w isec r.
Proof.
  try clear stack_buff; try clear wild.
  intros Hwf. pose proof Hwf as (Hi & H0 & Hlen & Huse & Hinj).
  set (w' := write_sector w isec (set_disk_length (store w isec) v)).
  assert (Hst : forall x,
             store w' x
             = if x =? isec then set_word (store w isec) 0 v else store w x)
    by reflexivity.
  assert (Htop : forall j, j <> 0 -> child w' isec j = child w isec j).
  { intros j Hj. unfold child. destruct (isec =? 0); [reflexivity|].
    rewrite Hst, Z.eqb_refl. apply get_set_word_other. auto. }
  assert (Hlow : forall rq j,
             valid_role rq -> rq <> RInode ->
             child w' (owner w isec rq) j = child w (owner w isec rq) j).
  { intros rq j Hvq Hq. unfold child.
    destruct (Z.eqb_spec (owner w isec rq) 0) as [E|E]; [reflexivity|].
    rewrite Hst.
    destruct (Z.eqb_spec (owner w isec rq) isec) as [Es|Es]; [|reflexivity].
    exfalso. apply Hq. apply Hinj; cbn [valid_role owner]; auto. }
  assert (HR : owner w' isec RRoot = owner w isec RRoot).
  { apply Htop. unfold DIRECT_BLOCKS. lia. }
  intros r Hv. destruct r as [|k| |o|o n]; cbn [valid_role] in Hv.
  - reflexivity.
  - apply Htop. lia.
  - exact HR.
  - change (child w' (owner w' isec RRoot) o
            = child w (owner w isec RRoot) o).
    rewrite HR. apply Hlow; [exact I|discriminate].
  - change (child w' (child w' (owner w' isec RRoot) o) n
            = child w (child w (owner w isec RRoot) o) n).
    rewrite HR, (Hlow RRoot o) by (try exact I; discriminate).
    apply (Hlow (ROuter o)); [cbn [valid_role]; tauto|discriminate].
Qed.

Lemma set_length_wf (w : world) (isec v : Z) :
  wf w isec ->
  wf (write_sector w isec (set_disk_length (store w isec) v)) isec.
Proof.
  try clear stack_buff; try clear wild.
  intros Hwf. pose proof (set_length_owner w isec v Hwf) as Ho.
  destruct Hwf as (Hi & H0 & Hlen & Huse & Hinj).
  split; [exact Hi|]. split; [exact H0|]. split; [exact Hlen|]. split.
  - intros r Hv. rewrite (Ho r Hv). apply Huse. exact Hv.
  - intros r1 r2 Hv1 Hv2. rewrite (Ho r1 Hv1), (Ho r2 Hv2).
    apply Hinj; assumption.
Qed.

Lemma set_length_file_byte (w : world) (isec v pos : Z) :
  wf w isec -> 0 <= pos < MAX_FILE_SIZE ->
  owner w isec (data_role pos) <> 0 ->
  file_byte (write_sector w isec (set_disk_length (store w isec) v)) isec pos
  = file_byte w isec pos.
Proof.
  try clear stack_buff; try clear wild.
  intros Hwf Hpos Hne. unfold file_byte.
  rewrite (set_length_owner w isec v Hwf _ (data_role_valid pos Hpos)).
  unfold write_sector, set_store, upd. cbn [store].
  destruct (Z.eqb_spec (owner w isec (data_role pos)) isec) as [E|E];
    [|reflexivity].
  exfalso. destruct Hwf as (Hi & _ & _ & _ & Hinj).
  assert (H : data_role pos = RInode).
  { apply Hinj; cbn [valid_role owner]; auto using data_role_valid. }
  pose proof (data_role_is_data pos) as Hd. rewrite H in Hd. exact Hd.
Qed.

Lemma map_nth_seq (l : list Z) :
  map (fun j => nth j l 0) (seq 0 (List.length l)) = l.
Proof.
  induction l as [|a l IH]; [reflexivity|].
  cbn [List.length seq map nth]. f_equal.
  rewrite <- seq_shift, map_map. exact IH.
Qed.

(** X26: a write and the read after it, with the walker's [buff]
    non-null ([stack_buff] is true). On a well-formed block tree a
    write of [n] bytes below the ceiling that is not denied (or not
    empty), that returns [n] and during which no allocation fails
    leaves a length of at least [off + n], and a read of [n] bytes at
    [off] then returns the bytes written; the tree stays well
    formed. *)
Theorem write_then_read (i : inode) (buffer : list Z) (off : Z) (w : world)
    (k : Z) (w' : world) :
  wf w (i_sector i) -> stack_buff = true ->
  0 <= off -> off + Z.of_nat (List.length buffer) <= MAX_FILE_SIZE ->
  0 < Z.of_nat (List.length buffer) \/ deny_write_cnt i = 0 ->
  inode_write_at i buffer (Z.of_nat (List.length buffer)) off w = (k, w') ->
  k = Z.of_nat (List.length buffer) ->
  alloc_failures w' = alloc_failures w ->
  off + k <= inode_length i w'
  /\ fst (inode_read_at i k off w') = buffer
  /\ wf w' (i_sector i).
Proof.
  intros Hwf Hbuff Hoff Hmax Hden Hw Hk Hfail.
  set (n := Z.of_nat (List.length buffer)) in *.
  unfold inode_write_at in Hw.
  destruct (Z.eqb_spec (deny_write_cnt i) 0) as [Hd|Hd]; cbn [negb] in Hw;
    [|inversion Hw; subst; lia].
  destruct (write_loop (Z.to_nat n) i buffer n off 0 w) as [[wr offF] w1]
    eqn:El.
  assert (Hf1 : alloc_failures w1 = alloc_failures w).
  { pose proof (extends_write_loop i buffer (Z.to_nat n) n off 0 w) as Hx.
    rewrite El in Hx. cbn [snd] in Hx. apply failures_extends in Hx.
    assert (alloc_failures w' = alloc_failures w1).
    { inversion Hw. destruct (_ >? _); reflexivity. }
    lia. }
  destruct (write_loop_spec i buffer (Z.to_nat n) n off 0 w wr offF w1 Hwf
              Hbuff ltac:(lia) Hoff ltac:(lia) Hmax El Hf1)
    as (Hwf1 & Hwr & HoffF & Hin & _ & Hlen).
  subst wr offF. rewrite Z.add_0_l in *.
  pose proof (disk_length_range (store w1 (i_sector i))) as Hrange.
  assert (Hfinal : wf w' (i_sector i)
                   /\ off + n <= inode_length i w'
                   /\ forall pos,
                        off <= pos < off + n ->
                        owner w' (i_sector i) (data_role pos) <> 0
                        /\ file_byte w' (i_sector i) pos
                           = nth (Z.to_nat (pos - off)) buffer 0).
  { inversion Hw as [[Hk' Hw']]. clear Hw.
    destruct (Z.gtb_spec (off + n) (disk_length (store w1 (i_sector i))))
      as [Hgt|Hle].
    - split; [apply set_length_wf; exact Hwf1|]. split.
      + unfold inode_length, write_sector, set_store, upd. cbn [store].
        rewrite Z.eqb_refl. unfold disk_length, set_disk_length.
        rewrite get_set_word_same
          by (unfold MAX_FILE_SIZE in Hmax; change (2 ^ 32) with 4294967296;
              lia).
        unfold to_off_t.
        destruct (Z.ltb_spec (off + n) (2 ^ 31)) as [_|Hbig]; [lia|].
        unfold MAX_FILE_SIZE in Hmax. change (2 ^ 31) with 2147483648 in Hbig.
        lia.
      + intros pos Hpos. destruct (Hin pos Hpos) as [H1 H2].
        rewrite set_length_owner by (auto; apply data_role_valid; lia).
        split; [exact H1|].
        rewrite set_length_file_byte by (auto; lia). exact H2.
    - split; [exact Hwf1|]. split; [exact Hle|]. exact Hin. }
  destruct Hfinal as (Hwf' & Hlen' & Hin').
  subst k. split; [exact Hlen'|]. split; [|exact Hwf'].
  rewrite inode_read_at_exact; try lia.
  - cbn [fst]. unfold file_bytes. subst n. rewrite Nat2Z.id.
    rewrite <- (map_nth_seq buffer) at 2. apply map_ext_in.
    intros j Hj. apply in_seq in Hj.
    destruct (Hin' (off + Z.of_nat j) ltac:(lia)) as [_ E].
    rewrite E. f_equal. lia.
  - intros pos Hpos. apply wf_present; [exact Hwf'|lia|apply Hin'; exact Hpos].
Qed.

(** [inode_create] makes a well-formed tree: an inode without
    pointers. *)
Lemma wf_no_pointers (w : world) (isec : Z) :
  isec <> 0 ->
  bitmap_test (free_map w) 0 = true ->
  bitmap_test (free_map w) isec = true ->
  Z.of_nat (List.length (free_map w)) <= NO_SECTOR ->
  (forall k, 0 <= k -> get_word (store w isec) (2 + k) = 0) ->
  wf w isec.
Proof.
  try clear stack_buff; try clear wild.
  intros Hi H0 Huse Hlen Hz.
  assert (Hown : forall r, valid_role r -> r <> RInode -> owner w isec r = 0).
  { intros r Hv Hr. destruct r as [|k| |o|o n]; cbn [valid_role owner] in *.
    - tauto.
    - rewrite child_of by exact Hi. apply Hz. lia.
    - rewrite child_of by exact Hi. apply Hz. unfold DIRECT_BLOCKS. lia.
    - rewrite (child_of w isec) by exact Hi.
      rewrite Hz by (unfold DIRECT_BLOCKS; lia). reflexivity.
    - rewrite (child_of w isec) by exact Hi.
      rewrite Hz by (unfold DIRECT_BLOCKS; lia). reflexivity. }
  split; [exact Hi|]. split; [exact H0|]. split; [exact Hlen|]. split.
  - intros r Hv Hne. destruct (role_eq_dec r RInode) as [E|E].
    + subst r. exact Huse.
    + rewrite Hown in Hne by assumption. tauto.
  - intros r1 r2 Hv1 Hv2 Hne E.
    destruct (role_eq_dec r1 RInode) as [E1|E1];
      [|rewrite Hown in Hne by assumption; tauto].
    destruct (role_eq_dec r2 RInode) as [E2|E2]; [congruence|].
    rewrite (Hown r2) in E by assumption. congruence.
Qed.

Lemma inode_create_some (s len : Z) (dir : bool) (w : world) :
  0 <= len ->
  inode_create s len dir w
  = Some (true, write_sector w s (new_inode_disk len dir)).
Proof.
  try clear stack_buff; try clear wild.
  intros H. unfold inode_create.
  destruct (Z.ltb_spec len 0); [lia|reflexivity].
Qed.

Lemma inode_create_no_pointers (s len : Z) (dir : bool) (w : world) (k : Z) :
  0 <= k ->
  get_word (store (write_sector w s (new_inode_disk len dir)) s) (2 + k) = 0.
Proof.
  intros Hk. unfold new_inode_disk, write_sector, set_store, upd.
  cbn [store]. rewrite Z.eqb_refl. unfold get_word, byte_at.
  repeat match goal with
         | |- context [if ?x =? 4 then _ else _] =>
             destruct (Z.eqb_spec x 4); [lia|]
         end.
  unfold set_disk_length. rewrite !set_word_outside by lia. reflexivity.
Qed.

Lemma inode_create_wf (s len : Z) (dir : bool) (w : world) :
  s <> 0 ->
  bitmap_test (free_map w) 0 = true ->
  bitmap_test (free_map w) s = true ->
  Z.of_nat (List.length (free_map w)) <= NO_SECTOR ->
  wf (write_sector w s (new_inode_disk len dir)) s.
Proof.
  try clear stack_buff; try clear wild.
  intros Hs H0 Huse Hlen. apply wf_no_pointers; auto.
  intros k Hk. apply inode_create_no_pointers. exact Hk.
Qed.

(** ** The loops take no more turns than the bytes asked for *)

Lemma write_loop_fuel (i : inode) (buffer : list Z) (fuel : nat) :
  forall fuel' size offset written w,
    (Z.to_nat size <= fuel)%nat -> (Z.to_nat size <= fuel')%nat ->
    write_loop fuel i buffer size offset written w
    = write_loop fuel' i buffer size offset written w.
Proof.
  induction fuel as [|fuel IH]; intros fuel' size offset written w Hf Hf'.
  - destruct fuel' as [|fuel']; [reflexivity|].
    rewrite write_loop_S. destruct (Z.gtb_spec size 0); [lia|reflexivity].
  - destruct fuel' as [|fuel'].
    + rewrite write_loop_S. destruct (Z.gtb_spec size 0); [lia|reflexivity].
    + rewrite !write_loop_S. destruct (Z.gtb_spec size 0); [|reflexivity].
      destruct (byte_to_sector i offset w) as [s w1].
      destruct (s =? NO_SECTOR); [reflexivity|]. cbv zeta.
      match goal with
      | |- context [if ?c <=? 0 then _ else _] =>
          destruct (Z.leb_spec c 0) as [Hc|Hc]; [reflexivity|]
      end.
      apply IH; lia.
Qed.

Lemma read_loop_fuel (i : inode) (fuel : nat) :
  forall fuel' size offset out w,
    (Z.to_nat size <= fuel)%nat -> (Z.to_nat size <= fuel')%nat ->
    read_loop fuel i size offset out w = read_loop fuel' i size offset out w.
Proof.
  induction fuel as [|fuel IH]; intros fuel' size offset out w Hf Hf'.
  - destruct fuel' as [|fuel']; [reflexivity|].
    rewrite read_loop_S. destruct (Z.gtb_spec size 0); [lia|reflexivity].
  - destruct fuel' as [|fuel'].
    + rewrite read_loop_S. destruct (Z.gtb_spec size 0); [lia|reflexivity].
    + rewrite !read_loop_S. destruct (Z.gtb_spec size 0); [|reflexivity].
      destruct (byte_to_sector i offset w) as [s w1].
      destruct (s =? NO_SECTOR); [reflexivity|]. cbv zeta.
      match goal with
      | |- context [if ?c <=? 0 then _ else _] =>
          destruct (Z.leb_spec c 0) as [Hc|Hc]; [reflexivity|]
      end.
      apply IH; lia.
Qed.

(** ** The loops over a path and over a directory end *)

Lemma skip_slashes_length (path : string) :
  (String.length (skip_slashes path) <= String.length path)%nat.
Proof.
  try clear stack_buff; try clear wild.
  induction path as [|c rest IH]; cbn [skip_slashes String.length]; [lia|].
  destruct (Ascii.eqb c "/"); cbn [String.length]; lia.
Qed.

Lemma component_length (path : string) :
  (String.length (snd (component path)) <= String.length path)%nat.
Proof.
  try clear stack_buff; try clear wild.
  induction path as [|c rest IH]; cbn [component snd String.length]; [lia|].
  destruct (Ascii.eqb c "/"); cbn [snd String.length]; [lia|].
  destruct (component rest) as [name rest']. cbn [snd] in *. lia.
Qed.

Lemma skip_slashes_head (path : string) (c : ascii) (rest : string) :
  skip_slashes path = String c rest -> Ascii.eqb c "/" = false.
Proof.
  try clear stack_buff; try clear wild.
  induction path as [|c0 rest0 IH]; cbn [skip_slashes]; [discriminate|].
  destruct (Ascii.eqb c0 "/") eqn:E; [exact IH|].
  intros H. inversion H; subst. exact E.
Qed.

(** [trace_path] returns a pointer further on in the path. *)
Lemma trace_path_shorter (path rest name : string) (too_long : bool) :
  trace_path path = Some (rest, too_long, name) ->
  (String.length rest < String.length path)%nat.
Proof.
  try clear stack_buff; try clear wild.
  unfold trace_path. destruct path as [|c0 p0]; [discriminate|].
  pose proof (skip_slashes_length (String c0 p0)) as Hs.
  destruct (skip_slashes (String c0 p0)) as [|c p] eqn:E; [discriminate|].
  apply skip_slashes_head in E.
  pose proof (component_length p) as Hc.
  cbn [component]. rewrite E.
  destruct (component p) as [n r]. cbn [snd] in Hc.
  cbn [String.length] in *.
  destruct (_ >? _); intros H; inversion H; subst; lia.
Qed.

(** More turns than the path has characters change nothing. *)
Lemma retrieve_loop_fuel (fuel : nat) :
  forall fuel' d path file_name is_parent w,
    (String.length path < fuel)%nat -> (String.length path < fuel')%nat ->
    retrieve_loop fuel d path file_name is_parent w
    = retrieve_loop fuel' d path file_name is_parent w.
Proof.
  induction fuel as [|fuel IH]; intros fuel' d path file_name is_parent w Hf Hf';
    [lia|].
  destruct fuel' as [|fuel']; [lia|]. cbn [retrieve_loop].
  destruct (trace_path path) as [[[rest too_long] name]|] eqn:E; [|reflexivity].
  apply trace_path_shorter in E.
  destruct too_long; [reflexivity|].
  destruct d as [dd|]; [|reflexivity].
  unfold bind. destruct (deref (d_inode dd) w) as [[i w1]|]; [|reflexivity].
  destruct (removed i); [reflexivity|].
  destruct (is_parent && Nat.eqb (String.length rest) 0); [reflexivity|].
  destruct (dir_lookup dd name w1) as [[temp w2]|]; [|reflexivity].
  destruct (attempt (inode_close (Some (d_inode dd))) w2) as [[u w3]|];
    [|reflexivity].
  destruct temp as [a|]; [|reflexivity].
  apply IH; lia.
Qed.

(** The bytes a read returns are those it advanced by. *)
Lemma slice_length (d : sector_data) (ofs n : Z) :
  List.length (slice d ofs n) = Z.to_nat n.
Proof.
  try clear stack_buff; try clear wild.
  unfold slice. rewrite length_map, length_seq. reflexivity.
Qed.

Lemma read_loop_count (i : inode) (fuel : nat) :
  forall size offset out w out' offset' w',
    read_loop fuel i size offset out w = (out', offset', w') ->
    Z.of_nat (List.length out') = Z.of_nat (List.length out) + (offset' - offset).
Proof.
  induction fuel as [|fuel IH]; intros size offset out w out' offset' w'.
  - cbn [read_loop]. intros H. inversion H; subst. lia.
  - rewrite read_loop_S. destruct (size >? 0);
      [|intros H; inversion H; subst; lia].
    destruct (byte_to_sector i offset w) as [s w1].
    destruct (s =? NO_SECTOR); [intros H; inversion H; subst; lia|].
    cbv zeta.
    match goal with
    | |- context [if ?c <=? 0 then _ else _] =>
        set (chunk := c); destruct (Z.leb_spec chunk 0) as [Hc|Hc]
    end; [intros H; inversion H; subst; lia|].
    intros H. apply IH in H. rewrite length_app, slice_length in H. lia.
Qed.

(** A read on a file whose sectors are in place changes nothing and
    returns no more than what is left of the file. *)
Lemma inode_read_at_short (i : inode) (size offset : Z) (w : world) :
  readable w (i_sector i) (inode_length i w) ->
  0 <= offset ->
  snd (inode_read_at i size offset w) = w
  /\ Z.of_nat (List.length (fst (inode_read_at i size offset w)))
     <= Z.max 0 (inode_length i w - offset).
Proof.
  intros Hr Hoff. split.
  - apply inode_read_at_keeps_world; [exact Hoff|].
    intros pos Hpos. apply Hr. lia.
  - unfold inode_read_at.
    destruct (Z.geb_spec offset (inode_length i w)) as [Hge|Hlt];
      [cbn [fst List.length]; lia|].
    destruct (read_loop_keeps_world i w (Z.to_nat size) size offset [])
      as (out' & off' & E & Hb); [lia|intros pos Hpos; apply Hr; lia|].
    rewrite E. cbn [fst]. apply read_loop_count in E.
    cbn [List.length] in E. lia.
Qed.

(** The scan of [lookup] over a directory whose sectors are in place
    returns, within the turns [scan_fuel] allows, and changes nothing. *)
Lemma lookup_loop_returns (a : nat) (i : inode) (name : list Z) (w : world) :
  find_inode a w = Some i ->
  readable w (i_sector i) (inode_length i w) ->
  forall (fuel : nat) (k : Z),
    0 <= k -> (0 < fuel)%nat ->
    inode_length i w / DIR_ENTRY_SIZE - k < Z.of_nat fuel ->
    exists r, lookup_loop fuel a name (DIR_ENTRY_SIZE * k) w = Some (r, w).
Proof.
  intros Hfind Hr. unfold DIR_ENTRY_SIZE.
  induction fuel as [|fuel IH]; intros k Hk Hpos Hfuel; [lia|].
  cbn [lookup_loop]. unfold read_at. unfold bind, deref, lift.
  rewrite Hfind. unfold DIR_ENTRY_SIZE.
  destruct (inode_read_at_short i 20 (20 * k) w Hr) as [Hw Hn]; [lia|].
  destruct (inode_read_at i 20 (20 * k) w) as [e w1] eqn:E.
  cbn [fst snd] in *. subst w1.
  destruct (Z.eqb_spec (Z.of_nat (List.length e)) 20) as [He|He];
    [|unfold ret; eauto].
  destruct (e_in_use e && bytes_eqb name (e_name e)); [unfold ret; eauto|].
  replace (20 * k + 20) with (20 * (k + 1)) by lia.
  assert (20 * k + 20 <= inode_length i w) by lia.
  assert (k + 1 <= inode_length i w / 20) by zdiv.
  apply IH; lia.
Qed.

(** [lookup] on a directory whose sectors are in place returns. *)
Lemma lookup_returns (d : dir) (i : inode) (name : string) (w : world) :
  find_inode (d_inode d) w = Some i ->
  readable w (i_sector i) (inode_length i w) ->
  exists r, lookup d name w = Some (r, w).
Proof.
  intros Hfind Hr. unfold lookup, scan_fuel. unfold bind, deref.
  rewrite Hfind.
  change (lookup_loop ?f ?a ?n 0) with (lookup_loop f a n (DIR_ENTRY_SIZE * 0)).
  apply (lookup_loop_returns _ i); auto; lia.
Qed.

(** So does the scan of [is_empty_dir]. *)
Lemma is_empty_loop_returns (i : inode) (w : world) :
  readable w (i_sector i) (inode_length i w) ->
  forall (fuel : nat) (k : Z),
    0 <= k -> (0 < fuel)%nat ->
    inode_length i w / DIR_ENTRY_SIZE - k < Z.of_nat fuel ->
    exists r, is_empty_loop fuel i (DIR_ENTRY_SIZE * k) w = Some (r, w).
Proof.
  intros Hr. unfold DIR_ENTRY_SIZE.
  induction fuel as [|fuel IH]; intros k Hk Hpos Hfuel; [lia|].
  cbn [is_empty_loop]. unfold bind, lift, DIR_ENTRY_SIZE.
  destruct (inode_read_at_short i 20 (20 * k) w Hr) as [Hw Hn]; [lia|].
  destruct (inode_read_at i 20 (20 * k) w) as [e w1] eqn:E.
  cbn [fst snd] in *. subst w1.
  destruct (Z.eqb_spec (Z.of_nat (List.length e)) 20) as [He|He];
    [|unfold ret; eauto].
  destruct (e_in_use e); [unfold ret; eauto|].
  replace (20 * k + 20) with (20 * (k + 1)) by lia.
  assert (20 * k + 20 <= inode_length i w) by lia.
  assert (k + 1 <= inode_length i w / 20) by zdiv.
  apply IH; lia.
Qed.

Lemma is_empty_dir_returns (a : nat) (i : inode) (w : world) :
  find_inode a w = Some i ->
  readable w (i_sector i) (inode_length i w) ->
  exists r, is_empty_dir a w = Some (r, w).
Proof.
  intros Hfind Hr. unfold is_empty_dir, bind, scan_fuel, deref. rewrite Hfind.
  unfold bind, deref. rewrite Hfind.
  change (2 * DIR_ENTRY_SIZE) with (DIR_ENTRY_SIZE * 2).
  apply (is_empty_loop_returns i); auto; lia.
Qed.

(** ** The record [inode_create] writes *)

Lemma get_word_ext (d d' : sector_data) (i : Z) :
  (forall k, 4 * i <= k < 4 * i + 4 -> d k = d' k) ->
  get_word d i = get_word d' i.
Proof.
  try clear stack_buff; try clear wild.
  intros H. unfold get_word, byte_at.
  rewrite (H (4 * i)), (H (4 * i + 1)), (H (4 * i + 2)), (H (4 * i + 3)) by lia.
  reflexivity.
Qed.

(** X8: [inode_create] returns true and leaves in the sector an inode
    of the length and the kind asked for, with every block pointer 0;
    no other sector and no bit of the free map changes. *)
Theorem inode_create_record (sector length : Z) (dir : bool) (w : world)
    (i : inode) :
  0 <= length < 2 ^ 31 -> i_sector i = sector ->
  exists w',
    inode_create sector length dir w = Some (true, w')
    /\ inode_length i w' = length
    /\ is_directory i w' = dir
    /\ (forall k, 0 <= k -> disk_sectors (store w' sector) k = 0)
    /\ (forall s, s <> sector -> store w' s = store w s)
    /\ free_map w' = free_map w.
Proof.
  try clear stack_buff; try clear wild.
  intros Hlen Hi. rewrite inode_create_some by lia.
  eexists. split; [reflexivity|].
  assert (Hst : store (write_sector w sector (new_inode_disk length dir)) sector
                = fun k => if k =? 4 then (if dir then 1 else 0)
                           else set_disk_length zero_sector length k).
  { unfold new_inode_disk, write_sector, set_store, upd. cbn [store].
    rewrite Z.eqb_refl. reflexivity. }
  split; [|split; [|split; [|split]]].
  - unfold inode_length. rewrite Hi, Hst. unfold disk_length.
    replace (get_word _ 0) with length.
    + unfold to_off_t. destruct (Z.ltb_spec length (2 ^ 31)); [reflexivity|lia].
    + rewrite (get_word_ext _ (set_word zero_sector 0 length)).
      * symmetry. apply get_set_word_same. change (2 ^ 31) with 2147483648 in Hlen.
        change (2 ^ 32) with 4294967296. lia.
      * intros k Hk. destruct (Z.eqb_spec k 4); [lia|reflexivity].
  - unfold is_directory. rewrite Hi, Hst. unfold disk_is_dir, byte_at.
    cbn [Z.eqb]. destruct dir; reflexivity.
  - intros k Hk. unfold disk_sectors. apply inode_create_no_pointers. exact Hk.
  - intros s Hs. unfold write_sector, set_store, upd.
    cbn [store]. destruct (Z.eqb_spec s sector); [tauto|reflexivity].
  - reflexivity.
Qed.

(** ** Opening and closing *)

(** What the calls on the open table keep: the inodes have addresses
    of their own, handed out before [next_addr], and are open at least
    once. *)
Definition table_ok (w : world) : Prop :=
  NoDup (map i_addr (open_inodes w))
  /\ forall i, In i (open_inodes w) ->
               0 < open_cnt i /\ (i_addr i < next_addr w)%nat.

Lemma next_addr_free_map_release (s : Z) (w : world) :
  next_addr (free_map_release s w) = next_addr w.
Proof. reflexivity. Qed.

Lemma next_addr_release_direct (i : inode) (w : world) :
  next_addr (release_direct i w) = next_addr w.
Proof.
  try clear stack_buff; try clear wild.
  unfold release_direct. generalize (seq 0 (Z.to_nat DIRECT_BLOCKS)).
  intros l. revert w. induction l as [|k l IH]; intros w; cbn [fold_left];
    [reflexivity|].
  rewrite IH. destruct (_ =? 0); reflexivity.
Qed.

Lemma next_addr_release_blocks (i : inode) (w w' : world) :
  release_blocks i w = Some w' -> next_addr w' = next_addr w.
Proof.
  try clear stack_buff; try clear wild.
  unfold release_blocks.
  destruct (disk_sectors (store w (i_sector i)) DIRECT_BLOCKS =? 0);
    [|discriminate].
  intros H. apply some_inj in H. rewrite <- H. apply next_addr_release_direct.
Qed.

Lemma table_ok_update (a : nat) (f : inode -> inode) (w : world) :
  (forall i, i_addr (f i) = i_addr i) ->
  (forall i, In i (open_inodes w) -> i_addr i = a -> 0 < open_cnt (f i)) ->
  table_ok w -> table_ok (update_inode a f w).
Proof.
  try clear stack_buff; try clear wild.
  intros Hf Hc [Hnd Hok]. unfold update_inode, set_open_inodes, table_ok.
  cbn [open_inodes next_addr]. split.
  - rewrite map_map.
    replace (map (fun x => i_addr (if Nat.eqb (i_addr x) a then f x else x))
               (open_inodes w))
      with (map i_addr (open_inodes w)); [exact Hnd|].
    apply map_ext. intros i. destruct (Nat.eqb (i_addr i) a); auto.
  - intros i' Hi'. apply in_map_iff in Hi'. destruct Hi' as (i & E & Hi).
    destruct (Hok i Hi) as [H1 H2].
    destruct (Nat.eqb_spec (i_addr i) a) as [Ea|Ea]; subst i'.
    + rewrite Hf. split; [apply Hc; assumption|exact H2].
    + auto.
Qed.

Lemma find_inode_in (a : nat) (w : world) (i : inode) :
  find_inode a w = Some i -> In i (open_inodes w) /\ i_addr i = a.
Proof.
  try clear stack_buff; try clear wild.
  unfold find_inode. intros H. apply find_some in H.
  destruct H as [H1 H2]. apply Nat.eqb_eq in H2. auto.
Qed.

Lemma NoDup_addr_inj (l : list inode) (i j : inode) :
  NoDup (map i_addr l) -> In i l -> In j l -> i_addr i = i_addr j -> i = j.
Proof.
  try clear stack_buff; try clear wild.
  induction l as [|x l IH]; cbn [map In]; [tauto|].
  intros Hnd Hi Hj E. inversion Hnd as [|y ys Hnin Hnd']; subst.
  destruct Hi as [Hi|Hi]; destruct Hj as [Hj|Hj]; subst; auto.
  - exfalso. apply Hnin. rewrite E. apply in_map. exact Hj.
  - exfalso. apply Hnin. rewrite <- E. apply in_map. exact Hi.
Qed.

Lemma table_ok_step (op : inode_op) (w w' : world) :
  run_inode_op w op = Some w' -> table_ok w -> table_ok w'.
Proof.
  try clear stack_buff; try clear wild.
  intros Hrun Hok. pose proof Hok as [Hnd Hall].
  destruct op as [s|a|a]; cbn [run_inode_op] in Hrun.
  - apply some_inj in Hrun. subst w'.
    unfold inode_open. destruct (find _ (open_inodes w)) as [i|] eqn:E.
    + cbn [inode_reopen snd]. apply table_ok_update; auto.
      intros j Hj _. cbn [open_cnt]. destruct (Hall j Hj). lia.
    + cbn [snd]. unfold table_ok. cbn [open_inodes next_addr map]. split.
      * constructor; [|exact Hnd]. intros Hin. apply in_map_iff in Hin.
        destruct Hin as (j & Ej & Hj). cbn [i_addr] in Ej.
        destruct (Hall j Hj). lia.
      * intros j [Ej|Hj]; [subst j; cbn [open_cnt i_addr]; lia|].
        destruct (Hall j Hj). split; [assumption|lia].
  - apply some_inj in Hrun. subst w'.
    cbn [inode_reopen snd]. apply table_ok_update; auto.
    intros j Hj _. cbn [open_cnt]. destruct (Hall j Hj). lia.
  - cbn [inode_close] in Hrun.
    destruct (find_inode a w) as [i|] eqn:Ef;
      [|apply some_inj in Hrun; subst w'; exact Hok].
    destruct (find_inode_in _ _ _ Ef) as [Hi Ha].
    destruct (Z.eqb_spec (open_cnt i - 1) 0) as [E1|E1].
    + assert (Hfil : table_ok
                       (set_open_inodes w
                          (filter (fun j => negb (Nat.eqb (i_addr j) a))
                             (open_inodes w)))).
      { unfold table_ok, set_open_inodes. cbn [open_inodes next_addr]. split.
        - apply NoDup_map_filter. exact Hnd.
        - intros j Hj. apply filter_In in Hj. apply Hall. tauto. }
      destruct (removed i);
        [|apply some_inj in Hrun; subst w'; exact Hfil].
      unfold table_ok.
      rewrite (open_inodes_release_blocks _ _ _ Hrun),
        (next_addr_release_blocks _ _ _ Hrun). exact Hfil.
    + apply some_inj in Hrun. subst w'. apply table_ok_update; auto.
      intros j Hj Hja. cbn [open_cnt].
      assert (j = i)
        by (apply (NoDup_addr_inj (open_inodes w)); auto; congruence).
      subst j. destruct (Hall i Hi). lia.
Qed.

Lemma table_ok_run (ops : list inode_op) :
  forall w w', run_inode_ops ops w = Some w' -> table_ok w -> table_ok w'.
Proof.
  try clear stack_buff; try clear wild.
  induction ops as [|op ops IH]; intros w w' Hrun H;
    cbn [run_inode_ops] in Hrun.
  - apply some_inj in Hrun. subst w'. exact H.
  - destruct (run_inode_op w op) as [w1|] eqn:E; [|discriminate].
    apply (IH w1 w' Hrun). exact (table_ok_step op w w1 E H).
Qed.

Lemma update_inode_undo (a : nat) (f g : inode -> inode) (w : world) :
  (forall i, i_addr (f i) = i_addr i) ->
  (forall i, g (f i) = i) ->
  open_inodes (update_inode a g (update_inode a f w)) = open_inodes w.
Proof.
  try clear stack_buff; try clear wild.
  intros Hf Hg. unfold update_inode, set_open_inodes. cbn [open_inodes].
  rewrite map_map. rewrite <- (map_id (open_inodes w)) at 2.
  apply map_ext. intros i. destruct (Nat.eqb (i_addr i) a) eqn:E.
  - rewrite Hf, E. apply Hg.
  - rewrite E. reflexivity.
Qed.

Lemma filter_all (l : list inode) (p : inode -> bool) :
  (forall i, In i l -> p i = true) -> filter p l = l.
Proof.
  try clear stack_buff; try clear wild.
  induction l as [|x l IH]; cbn [filter In]; [reflexivity|].
  intros H. rewrite (H x) by auto. f_equal. apply IH. auto.
Qed.

(** What [inode_open] returns, and the [inode_close] that undoes it,
    whatever was done to the sectors in between. *)
Lemma inode_open_facts (s : Z) (w : world) :
  table_ok w ->
  exists a i,
    inode_open s w = (Some a, snd (inode_open s w))
    /\ find_inode a (snd (inode_open s w)) = Some i
    /\ i_sector i = s /\ i_addr i = a
    /\ (forall r, find (has_sector s) (open_inodes w) = Some r ->
                  removed i = removed r
                  /\ deny_write_cnt i = deny_write_cnt r)
    /\ (find (has_sector s) (open_inodes w) = None ->
        removed i = false /\ deny_write_cnt i = 0)
    /\ (forall r, In r (open_inodes w) -> i_addr r = a -> i_sector r = s)
    /\ (next_addr w <= next_addr (snd (inode_open s w)))%nat
    /\ forall W,
         open_inodes W = open_inodes (snd (inode_open s w)) ->
         inode_close (Some a) W = Some (set_open_inodes W (open_inodes w)).
Proof.
  try clear stack_buff; try clear wild.
  intros [Hnd Hall].
  destruct (find (has_sector s) (open_inodes w)) as [t|] eqn:E.
  - pose proof (find_some _ _ E) as [Ht Hts]. unfold has_sector in Hts.
    apply Z.eqb_eq in Hts.
    unfold inode_open. fold (has_sector s). rewrite E.
    cbn [inode_reopen fst snd].
    set (up := fun i0 : inode =>
                 mk_inode (i_addr i0) (i_sector i0) (open_cnt i0 + 1)
                   (removed i0) (deny_write_cnt i0)).
    assert (Hft : find (fun x => Nat.eqb (i_addr x) (i_addr t)) (open_inodes w)
                  = Some t).
    { destruct (find (fun x => Nat.eqb (i_addr x) (i_addr t)) (open_inodes w))
        as [t0|] eqn:E0.
      - pose proof (find_some _ _ E0) as [Ht0 Ha0].
        apply Nat.eqb_eq in Ha0. f_equal.
        apply (NoDup_addr_inj (open_inodes w)); auto.
      - pose proof (find_none _ _ E0 t Ht) as Hn0. cbn in Hn0.
        rewrite Nat.eqb_refl in Hn0. discriminate. }
    assert (Hfu : forall W,
               open_inodes W = open_inodes (update_inode (i_addr t) up w) ->
               find_inode (i_addr t) W = Some (up t)).
    { intros W HW. unfold find_inode. rewrite HW.
      unfold update_inode, set_open_inodes. cbn [open_inodes].
      rewrite (find_map_stable (fun x => Nat.eqb (i_addr x) (i_addr t))
                 (fun x => if Nat.eqb (i_addr x) (i_addr t) then up x else x)).
      - rewrite Hft. cbn [option_map]. rewrite Nat.eqb_refl. reflexivity.
      - intros x. destruct (Nat.eqb (i_addr x) (i_addr t)) eqn:Ex;
          [cbn [up i_addr]; exact Ex|exact Ex]. }
    exists (i_addr t), (up t). split; [reflexivity|].
    split; [apply Hfu; reflexivity|]. split; [exact Hts|].
    split; [reflexivity|]. split; [|split; [|split; [|split]]].
    + intros r Hr. inversion Hr; subst r. cbn [up removed deny_write_cnt].
      auto.
    + discriminate.
    + intros r Hr Ea.
      assert (r = t) by (apply (NoDup_addr_inj (open_inodes w)); auto).
      subst r. exact Hts.
    + cbn [update_inode set_open_inodes next_addr]. lia.
    + intros W HW. cbn [inode_close]. rewrite (Hfu W HW).
      cbn [up open_cnt]. destruct (Hall t Ht) as [Hc _].
      destruct (Z.eqb_spec (open_cnt t + 1 - 1) 0) as [E0|_]; [lia|].
      unfold update_inode at 1. f_equal. f_equal. rewrite HW.
      apply update_inode_undo; [reflexivity|].
      intros x. destruct x. cbn. f_equal. lia.
  - rewrite (inode_open_miss s w E). cbn [fst snd].
    exists (next_addr w), (mk_inode (next_addr w) s 1 false 0).
    split; [reflexivity|]. split.
    { unfold find_inode. cbn [open_inodes find i_addr].
      rewrite Nat.eqb_refl. reflexivity. }
    split; [reflexivity|]. split; [reflexivity|].
    split; [discriminate|]. split; [auto|]. split; [|split].
    + intros r Hr Ea. destruct (Hall r Hr) as [_ Hlt]. lia.
    + cbn [next_addr]. lia.
    + intros W HW. cbn [inode_close]. unfold find_inode. rewrite HW.
      cbn [open_inodes find i_addr]. rewrite Nat.eqb_refl.
      cbn [open_cnt removed]. change (1 - 1 =? 0) with true. cbv iota.
      f_equal. f_equal. cbn [open_inodes filter i_addr].
      rewrite Nat.eqb_refl. cbn [negb].
      apply filter_all. intros x Hx. destruct (Hall x Hx) as [_ Hlt].
      destruct (Nat.eqb_spec (i_addr x) (next_addr w)); [lia|reflexivity].
Qed.

(** X9: the calls of [inode_open], [inode_reopen] and [inode_close]
    that follow [inode_init] all return, and after them an
    [inode_open] and the [inode_close] of the inode it returned leave
    the open table, the sectors and the free map as they were. *)
Theorem inode_open_then_close (ops : list inode_op) (w0 : world) (s : Z) :
  exists w w',
    run_inode_ops ops (inode_init w0) = Some w
    /\ inode_close (fst (inode_open s w)) (snd (inode_open s w)) = Some w'
    /\ open_inodes w' = open_inodes w
    /\ store w' = store w
    /\ fm_log w' = fm_log w.
Proof.
  try clear stack_buff; try clear wild.
  destruct (one_per_sector_run ops (inode_init w0)) as (w & Hrun & _ & _);
    [constructor|intros i []|].
  assert (Hok : table_ok w).
  { apply (table_ok_run ops _ _ Hrun). split; [constructor|intros i []]. }
  destruct (inode_open_facts s w Hok)
    as (a & i & Hopen & _ & _ & _ & _ & _ & _ & _ & Hundo).
  exists w, (set_open_inodes (snd (inode_open s w)) (open_inodes w)).
  split; [exact Hrun|]. split.
  - rewrite Hopen at 1. cbn [fst]. apply Hundo. reflexivity.
  - cbn [set_open_inodes open_inodes store fm_log].
    split; [reflexivity|].
    unfold inode_open. destruct (find _ (open_inodes w)); split; reflexivity.
Qed.

(** ** The last close of a removed inode *)

Lemma bitmap_set_false_nth (b : bitmap) (n m : nat) :
  nth m (bitmap_set b n false) false
  = if Nat.eqb m n then false else nth m b false.
Proof.
  try clear stack_buff; try clear wild.
  revert n m. induction b as [|x r IH]; intros n m.
  - cbn [bitmap_set]. destruct n; destruct (Nat.eqb m _); destruct m; reflexivity.
  - destruct n as [|n]; destruct m as [|m]; cbn [bitmap_set nth Nat.eqb];
      try reflexivity.
    apply IH.
Qed.

Lemma bitmap_test_release (s x : Z) (w : world) :
  0 <= s ->
  bitmap_test (free_map (free_map_release s w)) x
  = if x =? s then false else bitmap_test (free_map w) x.
Proof.
  try clear stack_buff; try clear wild.
  intros Hs. unfold free_map_release, bitmap_test. cbn [free_map].
  destruct (Z.leb_spec 0 s) as [_|]; [|lia].
  rewrite bitmap_set_false_nth.
  destruct (Z.leb_spec 0 x) as [Hx|Hx]; cbn [andb].
  - destruct (Z.eqb_spec x s) as [E|E].
    + subst. rewrite Nat.eqb_refl. reflexivity.
    + destruct (Nat.eqb_spec (Z.to_nat x) (Z.to_nat s)) as [En|En];
        [lia|reflexivity].
  - destruct (Z.eqb_spec x s); [lia|reflexivity].
Qed.

(** The sectors the loop over the direct pointers releases. *)
Definition direct_pointers (d : sector_data) (ks : list nat) : list Z :=
  filter (fun s => negb (s =? 0)) (map (fun k => disk_sectors d (Z.of_nat k)) ks).

Lemma release_direct_fold (i : inode) (ks : list nat) :
  forall w,
    let w' :=
      fold_left
        (fun w k =>
           let s := disk_sectors (store w (i_sector i)) (Z.of_nat k) in
           if s =? 0 then w else free_map_release s w) ks w in
    store w' = store w
    /\ open_inodes w' = open_inodes w
    /\ fm_log w'
       = rev (map FmRelease (direct_pointers (store w (i_sector i)) ks))
         ++ fm_log w
    /\ forall x,
         bitmap_test (free_map w') x
         = if existsb (fun s => x =? s)
                (direct_pointers (store w (i_sector i)) ks)
           then false else bitmap_test (free_map w) x.
Proof.
  try clear stack_buff; try clear wild.
  induction ks as [|k ks IH]; intros w; cbv zeta; cbn [fold_left].
  - unfold direct_pointers. cbn. auto.
  - cbv zeta.
    set (s := disk_sectors (store w (i_sector i)) (Z.of_nat k)).
    unfold direct_pointers. cbn [map filter]. fold s.
    destruct (Z.eqb_spec s 0) as [E|E]; cbn [negb].
    + apply IH.
    + specialize (IH (free_map_release s w)). cbv zeta in IH.
      destruct IH as (H1 & H2 & H3 & H4).
      change (store (free_map_release s w)) with (store w) in *.
      split; [exact H1|]. split; [exact H2|]. split.
      * rewrite H3. cbn [map rev]. rewrite <- app_assoc. reflexivity.
      * intros x. rewrite H4. cbn [existsb].
        fold (direct_pointers (store w (i_sector i)) ks).
        destruct (existsb _ (direct_pointers (store w (i_sector i)) ks));
          [rewrite orb_true_r; reflexivity|].
        rewrite orb_false_r. apply bitmap_test_release.
        pose proof (get_word_range (store w (i_sector i)) (2 + Z.of_nat k)).
        unfold s, disk_sectors. lia.
Qed.

(** X10: the last close of a removed inode whose blocks are all
    direct ones ([sectors[DIRECT_BLOCKS]] is 0). The inode leaves the
    open table and the sectors released to the free map are its
    non-zero direct pointers, each once and in order, and no other:
    the bit of every other sector, that of the inode's own sector
    among them, is as it was. *)
Theorem inode_close_releases_direct_blocks (a : nat) (w : world) (i : inode) :
  find_inode a w = Some i -> open_cnt i = 1 -> removed i = true ->
  disk_sectors (store w (i_sector i)) DIRECT_BLOCKS = 0 ->
  exists w',
    inode_close (Some a) w = Some w'
    /\ find_inode a w' = None
    /\ store w' = store w
    /\ fm_log w'
       = rev (map FmRelease
                (direct_pointers (store w (i_sector i))
                   (seq 0 (Z.to_nat DIRECT_BLOCKS))))
         ++ fm_log w
    /\ (forall k,
           0 <= k < DIRECT_BLOCKS ->
           disk_sectors (store w (i_sector i)) k <> 0 ->
           bitmap_test (free_map w') (disk_sectors (store w (i_sector i)) k)
           = false)
    /\ (forall x,
           (forall k,
               0 <= k < DIRECT_BLOCKS ->
               disk_sectors (store w (i_sector i)) k <> x) ->
           bitmap_test (free_map w') x = bitmap_test (free_map w) x).
Proof.
  try clear stack_buff; try clear wild.
  intros Hfind Hcnt Hrem Hsingle.
  cbn [inode_close]. rewrite Hfind, Hcnt, Hrem.
  change (1 - 1 =? 0) with true. cbv iota.
  set (w1 := set_open_inodes w
               (filter (fun j => negb (Nat.eqb (i_addr j) a)) (open_inodes w))).
  assert (Hrb : release_blocks i w1 = Some (release_direct i w1)).
  { unfold release_blocks. cbv zeta.
    change (store w1) with (store w). rewrite Hsingle. reflexivity. }
  rewrite Hrb. exists (release_direct i w1). split; [reflexivity|].
  unfold release_direct. cbv zeta.
  pose proof (release_direct_fold i (seq 0 (Z.to_nat DIRECT_BLOCKS)) w1) as HF.
  cbv zeta in HF. destruct HF as (H1 & H2 & H3 & H4).
  change (store w1) with (store w) in *.
  change (fm_log w1) with (fm_log w) in *.
  change (free_map w1) with (free_map w) in *.
  split; [|split; [exact H1|split; [exact H3|split]]].
  - unfold find_inode. rewrite H2. unfold w1, set_open_inodes.
    cbn [open_inodes].
    destruct (find _ (filter _ (open_inodes w))) as [j|] eqn:Ej; [|reflexivity].
    apply find_some in Ej. destruct Ej as [Hj Ha].
    apply filter_In in Hj. destruct Hj as [_ Hn]. rewrite Ha in Hn.
    discriminate.
  - intros k Hk Hne. rewrite H4.
    replace (existsb _ _) with true; [reflexivity|].
    symmetry. apply existsb_exists.
    exists (disk_sectors (store w (i_sector i)) k).
    split; [|apply Z.eqb_refl]. unfold direct_pointers. apply filter_In.
    split; [|apply Z.eqb_neq in Hne; rewrite Hne; reflexivity].
    apply in_map_iff. exists (Z.to_nat k). split; [f_equal; lia|].
    apply in_seq. unfold DIRECT_BLOCKS in *. lia.
  - intros x Hx. rewrite H4.
    replace (existsb _ _) with false; [reflexivity|].
    symmetry. apply not_true_is_false. intros Hex.
    apply existsb_exists in Hex. destruct Hex as (s & Hs & Es).
    apply Z.eqb_eq in Es. subst s. unfold direct_pointers in Hs.
    apply filter_In in Hs. destruct Hs as [Hs _].
    apply in_map_iff in Hs. destruct Hs as (k & Ek & Hk).
    apply in_seq in Hk. apply (Hx (Z.of_nat k)); [|exact Ek].
    unfold DIRECT_BLOCKS in *. lia.
Qed.

(** X11: a removed inode keeps its blocks while it is open. After
    [inode_remove], the [inode_close] of an opener that is not the last
    releases nothing and leaves the inode in the table, marked removed
    with one opener less; and the last [inode_close] of an inode that
    was not removed takes it off the table and releases nothing. *)
Theorem inode_close_keeps_blocks_while_open (a : nat) (w : world) (i : inode) :
  find_inode a w = Some i ->
  (1 < open_cnt i ->
   exists w',
     inode_close (Some a) (inode_remove a w) = Some w'
     /\ find_inode a w'
        = Some (mk_inode (i_addr i) (i_sector i) (open_cnt i - 1) true
                  (deny_write_cnt i))
     /\ free_map w' = free_map w
     /\ fm_log w' = fm_log w)
  /\ (open_cnt i = 1 -> removed i = false ->
      exists w',
        inode_close (Some a) w = Some w'
        /\ find_inode a w' = None
        /\ free_map w' = free_map w
        /\ fm_log w' = fm_log w).
Proof.
  try clear stack_buff; try clear wild.
  intros Hfind. destruct (find_inode_in _ _ _ Hfind) as [Hi Ha]. split.
  - intros Hcnt.
    set (mark := fun j : inode =>
                   mk_inode (i_addr j) (i_sector j) (open_cnt j) true
                     (deny_write_cnt j)).
    assert (Hf1 : find_inode a (inode_remove a w) = Some (mark i)).
    { unfold find_inode, inode_remove, update_inode, set_open_inodes.
      cbn [open_inodes].
      rewrite (find_map_stable (fun x => Nat.eqb (i_addr x) a)
                 (fun x => if Nat.eqb (i_addr x) a then mark x else x)).
      - unfold find_inode in Hfind. rewrite Hfind. cbn [option_map].
        rewrite Ha, Nat.eqb_refl. reflexivity.
      - intros x. destruct (Nat.eqb (i_addr x) a) eqn:Ex; exact Ex. }
    cbn [inode_close]. rewrite Hf1. cbn [mark open_cnt].
    destruct (Z.eqb_spec (open_cnt i - 1) 0) as [E|_]; [lia|].
    eexists. split; [reflexivity|].
    split; [|split; reflexivity].
    unfold find_inode, update_inode, set_open_inodes. cbn [open_inodes].
    rewrite (find_map_stable (fun x => Nat.eqb (i_addr x) a)
               (fun x =>
                  if Nat.eqb (i_addr x) a
                  then mk_inode (i_addr x) (i_sector x) (open_cnt x - 1)
                         (removed x) (deny_write_cnt x)
                  else x)).
    + fold (find_inode a (inode_remove a w)). rewrite Hf1. cbn [option_map].
      cbn [mark i_addr]. rewrite Ha, Nat.eqb_refl. reflexivity.
    + intros x. destruct (Nat.eqb (i_addr x) a) eqn:Ex; exact Ex.
  - intros Hcnt Hrem. cbn [inode_close]. rewrite Hfind, Hcnt, Hrem.
    change (1 - 1 =? 0) with true. cbv iota.
    eexists. split; [reflexivity|].
    split; [|split; reflexivity].
    unfold find_inode, set_open_inodes. cbn [open_inodes].
    destruct (find _ (filter _ (open_inodes w))) as [j|] eqn:Ej; [|reflexivity].
    apply find_some in Ej. destruct Ej as [Hj Hja].
    apply filter_In in Hj. destruct Hj as [_ Hn]. rewrite Hja in Hn.
    discriminate.
Qed.

(** ** Denied writes *)

(** X12: [inode_deny_write] on an inode that has fewer denials than
    openers returns, which is what its [ASSERT] asks for; after it a
    write through the inode returns 0 and changes nothing, whatever
    its size and offset, and [inode_allow_write] returns and undoes
    the [inode_deny_write]. *)
Theorem inode_deny_write_blocks_writes (a : nat) (w : world) (i : inode)
    (buffer : list Z) (size offset : Z) :
  find_inode a w = Some i -> 0 <= deny_write_cnt i < open_cnt i ->
  exists w1 w2,
    inode_deny_write a w = Some w1
    /\ write_at a buffer size offset w1 = Some (0, w1)
    /\ inode_allow_write a w1 = Some w2
    /\ open_inodes w2 = open_inodes w.
Proof.
  intros Hfind Hd. destruct (find_inode_in _ _ _ Hfind) as [Hi Ha].
  set (deny := fun j : inode =>
                 mk_inode (i_addr j) (i_sector j) (open_cnt j) (removed j)
                   (deny_write_cnt j + 1)).
  set (w1 := update_inode a deny w).
  assert (Hw1 : inode_deny_write a w = Some w1).
  { unfold inode_deny_write. rewrite Hfind.
    destruct (Z.leb_spec (deny_write_cnt i + 1) (open_cnt i)); [|lia].
    reflexivity. }
  assert (Hf1 : find_inode a w1 = Some (deny i)).
  { unfold find_inode, w1, update_inode, set_open_inodes.
    cbn [open_inodes].
    rewrite (find_map_stable (fun x => Nat.eqb (i_addr x) a)
               (fun x => if Nat.eqb (i_addr x) a then deny x else x)).
    - unfold find_inode in Hfind. rewrite Hfind. cbn [option_map].
      rewrite Ha, Nat.eqb_refl. reflexivity.
    - intros x. destruct (Nat.eqb (i_addr x) a) eqn:Ex; exact Ex. }
  exists w1. eexists. split; [exact Hw1|]. split; [|split].
  - unfold write_at, bind, deref, lift. rewrite Hf1.
    unfold inode_write_at. cbn [deny deny_write_cnt].
    destruct (Z.eqb_spec (deny_write_cnt i + 1) 0) as [E|_]; [lia|].
    reflexivity.
  - unfold inode_allow_write. rewrite Hf1. cbn [deny deny_write_cnt open_cnt].
    destruct (Z.gtb_spec (deny_write_cnt i + 1) 0); [|lia].
    destruct (Z.leb_spec (deny_write_cnt i + 1) (open_cnt i)); [|lia].
    reflexivity.
  - unfold w1. apply update_inode_undo; [reflexivity|].
    intros x. destruct x. cbn. f_equal. lia.
Qed.

(** ** Reads at the end of the file *)

Lemma read_loop_advance (i : inode) (fuel : nat) :
  forall size offset out w out' offset' w',
    read_loop fuel i size offset out w = (out', offset', w') ->
    offset <= offset' <= offset + Z.max 0 size.
Proof.
  induction fuel as [|fuel IH]; intros size offset out w out' offset' w'.
  - cbn [read_loop]. intros H. inversion H; subst. lia.
  - rewrite read_loop_S. destruct (Z.gtb_spec size 0) as [Hpos|Hz];
      [|intros H; inversion H; subst; lia].
    destruct (byte_to_sector i offset w) as [s w1].
    destruct (s =? NO_SECTOR); [intros H; inversion H; subst; lia|].
    cbv zeta.
    match goal with
    | |- context [if ?c <=? 0 then _ else _] =>
        set (chunk := c); destruct (Z.leb_spec chunk 0) as [Hc|Hc]
    end; [intros H; inversion H; subst; lia|].
    assert (Hcs : chunk <= size) by (subst chunk; lia).
    intros H. apply IH in H. lia.
Qed.

(** The loop of [inode_read_at] when the bytes asked for reach the end
    of a file whose pointers are set: it copies the bytes up to the
    end and stops there. *)
Lemma read_loop_to_end (i : inode) (w : world) (fuel : nat) :
  forall size offset out,
    (Z.to_nat size <= fuel)%nat ->
    0 <= offset <= inode_length i w ->
    inode_length i w - offset <= size ->
    (forall pos,
        offset <= pos <= inode_length i w ->
        present w (i_sector i) pos
        /\ owner w (i_sector i) (data_role pos) <> NO_SECTOR) ->
    read_loop fuel i size offset out w
    = (out ++ file_bytes w (i_sector i) offset (inode_length i w - offset),
       inode_length i w, w).
Proof.
  pose proof (disk_length_range (store w (i_sector i))) as Hlen.
  fold (inode_length i w) in Hlen.
  assert (Hdone : forall offset out,
             offset = inode_length i w ->
             (out, offset, w)
             = (out ++ file_bytes w (i_sector i) offset
                         (inode_length i w - offset),
                inode_length i w, w)).
  { intros offset out E. subst offset. rewrite Z.sub_diag.
    unfold file_bytes. cbn. rewrite app_nil_r. reflexivity. }
  induction fuel as [|fuel IH]; intros size offset out Hfuel Hoff Hsize Hp.
  - cbn [read_loop]. apply Hdone. lia.
  - rewrite read_loop_S. destruct (Z.gtb_spec size 0) as [Hpos|Hz];
      [|apply Hdone; lia].
    destruct (Hp offset ltac:(lia)) as [Hpr Hns].
    rewrite byte_to_sector_present by (try exact Hpr; lia).
    apply Z.eqb_neq in Hns. rewrite Hns. cbv zeta.
    rewrite rem_ofs by lia.
    set (c := Z.min size
                (Z.min (inode_length i w - offset)
                   (BLOCK_SECTOR_SIZE - offset mod BLOCK_SECTOR_SIZE))).
    assert (Hc : c <= size /\ c <= inode_length i w - offset
                 /\ c <= BLOCK_SECTOR_SIZE - offset mod BLOCK_SECTOR_SIZE
                 /\ (inode_length i w - offset > 0 -> 0 < c)).
    { subst c. unfold BLOCK_SECTOR_SIZE in *. zdiv. }
    destruct (Z.leb_spec c 0) as [Hc0|Hc0]; [apply Hdone; lia|].
    rewrite IH; try lia.
    + rewrite slice_file_bytes by lia.
      assert (E : file_bytes w (i_sector i) offset (inode_length i w - offset)
                  = file_bytes w (i_sector i) offset c
                    ++ file_bytes w (i_sector i) (offset + c)
                         (inode_length i w - (offset + c))).
      { rewrite <- file_bytes_split by lia. f_equal. lia. }
      rewrite E, <- app_assoc. reflexivity.
    + intros pos Hpos'. apply Hp. lia.
Qed.

(** X13: [inode_read_at] never returns more bytes than asked for; and
    on a file whose pointers are set, a read that reaches or crosses
    the end returns the bytes from [offset] to the end, none when
    [offset] is at or past the end, and changes nothing. *)
Theorem inode_read_at_end_of_file (i : inode) (size offset : Z) (w : world) :
  Z.of_nat (List.length (fst (inode_read_at i size offset w))) <= Z.max 0 size
  /\ (readable w (i_sector i) (inode_length i w) ->
      0 <= offset -> inode_length i w - offset <= size ->
      inode_read_at i size offset w
      = (file_bytes w (i_sector i) offset (inode_length i w - offset), w)).
Proof.
  split.
  - unfold inode_read_at. destruct (_ >=? _); [cbn [fst List.length]; lia|].
    destruct (read_loop (Z.to_nat size) i size offset [] w) as [[out off'] w1]
      eqn:E.
    cbn [fst]. pose proof (read_loop_count _ _ _ _ _ _ _ _ _ E) as Hc.
    pose proof (read_loop_advance _ _ _ _ _ _ _ _ _ E) as Ha.
    cbn [List.length] in Hc. lia.
  - intros Hr Hoff Hsize. unfold inode_read_at.
    destruct (Z.geb_spec offset (inode_length i w)) as [Hge|Hlt].
    + unfold file_bytes.
      replace (Z.to_nat (inode_length i w - offset)) with 0%nat by lia.
      reflexivity.
    + rewrite (read_loop_to_end i w) by (auto; try lia; intros; apply Hr; lia).
      cbn [app]. f_equal. unfold start_read_ahead.
      destruct (Z.ltb_spec (inode_length i w + BLOCK_SECTOR_SIZE - 1)
                  (inode_length i w)) as [Hra|Hra]; [|reflexivity].
      unfold BLOCK_SECTOR_SIZE in Hra. lia.
Qed.

(** ** The walk to a sector, twice *)

(** X14: on a well-formed block tree a walk of [byte_to_sector] during
    which no allocation fails returns a sector that is neither 0 nor
    [NO_SECTOR] and is marked in use, keeps the tree well formed, and
    has allocated all there was to allocate: the same walk again
    returns the same sector and changes nothing. *)
Theorem byte_to_sector_stable (i : inode) (pos : Z) (w : world) (s : Z)
    (w' : world) :
  wf w (i_sector i) -> stack_buff = true ->
  0 <= pos < MAX_FILE_SIZE ->
  byte_to_sector i pos w = (s, w') ->
  alloc_failures w' = alloc_failures w ->
  wf w' (i_sector i)
  /\ 0 < s < NO_SECTOR
  /\ bitmap_test (free_map w') s = true
  /\ byte_to_sector i pos w' = (s, w').
Proof.
  intros Hwf Hbuff Hpos Hb Hfail.
  destruct (byte_to_sector_wf i pos w s w' Hwf Hbuff Hpos Hb Hfail)
    as ((Hwf' & _) & Hs & Hrange).
  split; [exact Hwf'|]. split; [exact Hrange|].
  pose proof (data_role_valid pos Hpos) as Hv.
  pose proof Hwf' as (_ & _ & _ & Huse & _).
  split.
  - rewrite Hs. apply Huse; [exact Hv|]. rewrite <- Hs. lia.
  - rewrite Hs. apply byte_to_sector_present.
    + unfold MAX_FILE_SIZE in Hpos. change (2 ^ 31) with 2147483648. lia.
    + apply wf_present; auto. rewrite <- Hs. lia.
Qed.

(** ** What reads and writes leave alone *)

(** Every step of the walker, and so of a read or a write, is a store
    into a sector or a call on the free map. A relation between states
    that these two keep is kept by all of them. *)
Section Frame.

Variable R : world -> world -> Prop.
Hypothesis R_refl : forall w, R w w.
Hypothesis R_trans : forall w1 w2 w3, R w1 w2 -> R w2 w3 -> R w1 w3.
Hypothesis R_write_sector : forall w s d, R w (write_sector w s d).
Hypothesis R_allocate : forall w, R w (snd (free_map_allocate w)).

Lemma frame_poke (w : world) (bd : option Z) (idx v : Z) :
  R w (poke w bd idx v).
Proof.
  unfold poke. destruct bd as [s|]; [|apply R_refl].
  destruct (idx <? 128); [apply R_write_sector|apply R_refl].
Qed.

Lemma frame_indirect (buff : bool) (i : inode) (idx : Z) (w : world) :
  R w (snd (byte_to_indirect_sector buff i idx w)).
Proof.
  unfold byte_to_indirect_sector. cbv zeta.
  destruct (_ =? 0); [|apply R_refl].
  pose proof (R_allocate w) as H.
  destruct (free_map_allocate w) as [[s|] w1]; cbn [snd] in *; [|exact H].
  eapply R_trans; [exact H|].
  eapply R_trans; apply R_write_sector.
Qed.

Lemma frame_double (buff : bool) (bd : option Z) (sector idx : Z)
    (w : world) :
  R w (snd (byte_to_double_indirect_sec buff bd sector idx w)).
Proof.
  unfold byte_to_double_indirect_sec. cbv zeta.
  destruct (_ =? 0); [|apply R_refl].
  pose proof (R_allocate w) as H.
  destruct (free_map_allocate w) as [[s|] w1]; cbn [snd] in *; [|exact H].
  eapply R_trans; [exact H|].
  eapply R_trans; [|apply R_write_sector].
  destruct buff; [apply frame_poke|apply R_refl].
Qed.

Lemma frame_byte_to_sector (i : inode) (pos : Z) (w : world) :
  R w (snd (byte_to_sector i pos w)).
Proof.
  unfold byte_to_sector. cbv zeta.
  match goal with
  | |- context [byte_to_indirect_sector ?b ?i ?x ?w] =>
      pose proof (frame_indirect b i x w) as H1;
      destruct (byte_to_indirect_sector b i x w) as [[[bf bd] sec] w1]
  end.
  cbn [snd] in H1. destruct (sec =? NO_SECTOR); [exact H1|].
  destruct (_ >=? DIRECT_BLOCKS); [|exact H1].
  match goal with
  | |- context [byte_to_double_indirect_sec ?b ?d ?s ?x ?w] =>
      pose proof (frame_double b d s x w) as H2;
      destruct (byte_to_double_indirect_sec b d s x w) as [[bd1 sec1] w2]
  end.
  cbn [snd] in H2. destruct (sec1 =? NO_SECTOR); [eauto|].
  match goal with
  | |- context [byte_to_double_indirect_sec ?b ?d ?s ?x ?w] =>
      pose proof (frame_double b d s x w) as H3;
      destruct (byte_to_double_indirect_sec b d s x w) as [[bd2 sec2] w3]
  end.
  cbn [snd] in *. eauto.
Qed.

Lemma frame_read_loop (i : inode) (fuel : nat) :
  forall size offset out w,
    R w (snd (read_loop fuel i size offset out w)).
Proof.
  induction fuel as [|fuel IH]; intros size offset out w.
  - apply R_refl.
  - rewrite read_loop_S. destruct (size >? 0); [|apply R_refl].
    pose proof (frame_byte_to_sector i offset w) as H.
    destruct (byte_to_sector i offset w) as [s w1]. cbn [snd] in H.
    destruct (s =? NO_SECTOR); [exact H|]. cbv zeta.
    destruct (_ <=? 0); [exact H|].
    eapply R_trans; [exact H|apply IH].
Qed.

Lemma frame_inode_read_at (i : inode) (size offset : Z) (w : world) :
  R w (snd (inode_read_at i size offset w)).
Proof.
  unfold inode_read_at. destruct (offset >=? inode_length i w);
    [apply R_refl|].
  pose proof (frame_read_loop i (Z.to_nat size) size offset [] w) as H.
  destruct (read_loop (Z.to_nat size) i size offset [] w) as [[out off'] w1].
  cbn [snd] in *. eapply R_trans; [exact H|].
  unfold start_read_ahead. destruct (_ <? _); [|apply R_refl].
  apply frame_byte_to_sector.
Qed.

Lemma frame_write_loop (i : inode) (buffer : list Z) (fuel : nat) :
  forall size offset written w,
    R w (snd (write_loop fuel i buffer size offset written w)).
Proof.
  induction fuel as [|fuel IH]; intros size offset written w.
  - apply R_refl.
  - rewrite write_loop_S. destruct (size >? 0); [|apply R_refl].
    pose proof (frame_byte_to_sector i offset w) as H.
    destruct (byte_to_sector i offset w) as [s w1]. cbn [snd] in H.
    destruct (s =? NO_SECTOR); [exact H|]. cbv zeta.
    destruct (_ <=? 0); [exact H|].
    eapply R_trans; [exact H|].
    eapply R_trans; [apply R_write_sector|apply IH].
Qed.

Lemma frame_inode_write_at (i : inode) (buffer : list Z) (size offset : Z)
    (w : world) :
  R w (snd (inode_write_at i buffer size offset w)).
Proof.
  unfold inode_write_at. destruct (negb _); [apply R_refl|].
  pose proof (frame_write_loop i buffer (Z.to_nat size) size offset 0 w) as H.
  destruct (write_loop (Z.to_nat size) i buffer size offset 0 w)
    as [[wr off'] w1].
  cbn [snd] in *. destruct (_ >? _); [|exact H].
  eapply R_trans; [exact H|apply R_write_sector].
Qed.

End Frame.

(** The open table, [malloc] and the working directory. *)
Definition same_table (w w' : world) : Prop :=
  open_inodes w' = open_inodes w /\ next_addr w' = next_addr w
  /\ curr_inode w' = curr_inode w.

Lemma same_table_refl (w : world) : same_table w w.
Proof. repeat split. Qed.

Lemma same_table_trans (w1 w2 w3 : world) :
  same_table w1 w2 -> same_table w2 w3 -> same_table w1 w3.
Proof.
  intros (A1 & B1 & C1) (A2 & B2 & C2). repeat split; congruence.
Qed.

Lemma same_table_write_sector (w : world) (s : Z) (d : sector_data) :
  same_table w (write_sector w s d).
Proof. repeat split. Qed.

Lemma same_table_allocate (w : world) :
  same_table w (snd (free_map_allocate w)).
Proof.
  unfold free_map_allocate. destruct (bitmap_scan (free_map w)); repeat split.
Qed.

Lemma same_table_inode_read_at (i : inode) (size offset : Z) (w : world) :
  same_table w (snd (inode_read_at i size offset w)).
Proof.
  apply frame_inode_read_at;
    auto using same_table_refl, same_table_write_sector, same_table_allocate.
  exact same_table_trans.
Qed.

Lemma same_table_inode_write_at (i : inode) (buffer : list Z) (size offset : Z)
    (w : world) :
  same_table w (snd (inode_write_at i buffer size offset w)).
Proof.
  apply frame_inode_write_at;
    auto using same_table_refl, same_table_write_sector, same_table_allocate.
  exact same_table_trans.
Qed.

(** X15: reads and writes of file data never touch the table of open
    inodes: after [inode_read_at] and after [inode_write_at], whatever
    they allocate, the open inodes, their counts and flags and the
    working directory are as before. *)
Theorem data_io_keeps_open_table (i : inode) (buffer : list Z)
    (size offset : Z) (w : world) :
  same_table w (snd (inode_read_at i size offset w))
  /\ same_table w (snd (inode_write_at i buffer size offset w)).
Proof.
  split; [apply same_table_inode_read_at|apply same_table_inode_write_at].
Qed.

(** ** A write on a well-formed tree *)

(** [inode_write_at] below the ceiling, when it is not denied and no
    allocation fails. *)
Lemma inode_write_at_spec (i : inode) (buffer : list Z) (n off : Z) (w : world)
    (k : Z) (w' : world) :
  wf w (i_sector i) -> stack_buff = true ->
  0 <= off -> 0 <= n -> off + n <= MAX_FILE_SIZE ->
  deny_write_cnt i = 0 ->
  inode_write_at i buffer n off w = (k, w') ->
  alloc_failures w' = alloc_failures w ->
  k = n
  /\ wf w' (i_sector i)
  /\ inode_length i w' = Z.max (inode_length i w) (off + n)
  /\ (forall pos,
         off <= pos < off + n ->
         owner w' (i_sector i) (data_role pos) <> 0
         /\ file_byte w' (i_sector i) pos = nth (Z.to_nat (pos - off)) buffer 0)
  /\ (forall pos,
         0 <= pos < MAX_FILE_SIZE -> ~ (off <= pos < off + n) ->
         owner w (i_sector i) (data_role pos) <> 0 ->
         owner w' (i_sector i) (data_role pos)
         = owner w (i_sector i) (data_role pos)
         /\ file_byte w' (i_sector i) pos = file_byte w (i_sector i) pos).
Proof.
  intros Hwf Hbuff Hoff Hn Hmax Hd Hw Hfail.
  unfold inode_write_at in Hw. rewrite Hd in Hw.
  change (negb (0 =? 0)) with false in Hw. cbv iota in Hw.
  destruct (write_loop (Z.to_nat n) i buffer n off 0 w) as [[wr offF] w1]
    eqn:El.
  assert (Hf1 : alloc_failures w1 = alloc_failures w).
  { pose proof (extends_write_loop i buffer (Z.to_nat n) n off 0 w) as Hx.
    rewrite El in Hx. cbn [snd] in Hx. apply failures_extends in Hx.
    assert (alloc_failures w' = alloc_failures w1).
    { inversion Hw. destruct (_ >? _); reflexivity. }
    lia. }
  destruct (write_loop_spec i buffer (Z.to_nat n) n off 0 w wr offF w1 Hwf
              Hbuff ltac:(lia) Hoff Hn Hmax El Hf1)
    as (Hwf1 & Hwr & HoffF & Hin & Hout & Hlen).
  subst wr offF. rewrite Z.add_0_l in *.
  assert (Hkn : k = n) by (inversion Hw; reflexivity). subst k.
  inversion Hw as [Hw']. clear Hw. split; [reflexivity|].
  assert (Hl1 : inode_length i w1 = inode_length i w)
    by (unfold inode_length, disk_length; rewrite Hlen; reflexivity).
  fold (inode_length i w1). rewrite Hl1.
  destruct (Z.gtb_spec (off + n) (inode_length i w)) as [Hgt|Hle].
  - split; [apply set_length_wf; exact Hwf1|]. split; [|split].
    + unfold inode_length at 1, write_sector, set_store, upd. cbn [store].
      rewrite Z.eqb_refl. unfold disk_length, set_disk_length.
      rewrite get_set_word_same
        by (unfold MAX_FILE_SIZE in Hmax; change (2 ^ 32) with 4294967296;
            lia).
      unfold to_off_t. unfold MAX_FILE_SIZE in Hmax.
      destruct (Z.ltb_spec (off + n) (2 ^ 31)) as [Hsm|Hbig];
        change (2 ^ 31) with 2147483648 in *; lia.
    + intros pos Hpos. destruct (Hin pos Hpos) as [H1 H2].
      rewrite set_length_owner by (auto; apply data_role_valid; lia).
      split; [exact H1|].
      rewrite set_length_file_byte by (auto; lia).
      exact H2.
    + intros pos Hpos Hnot Hne. destruct (Hout pos Hpos Hnot Hne) as [H1 H2].
      rewrite set_length_owner by (auto; apply data_role_valid; lia).
      split; [exact H1|].
      rewrite set_length_file_byte by (auto; try lia; congruence).
      exact H2.
  - split; [exact Hwf1|]. split; [|split].
    + rewrite Hl1. lia.
    + intros pos Hpos. destruct (Hin pos Hpos) as [H1 H2].
      split; [exact H1|]. exact H2.
    + exact Hout.
Qed.

(** X16: with the walker's [buff] non-null ([stack_buff] is true), a
    write on a well-formed block tree, below the ceiling, that is not
    denied and during which no allocation fails writes all its
    bytes, leaves the length at the larger of the old length and the
    end of the write, and changes no byte of the file outside the
    range written; the tree stays well formed. *)
Theorem inode_write_at_frame (i : inode) (buffer : list Z) (n off : Z)
    (w : world) (k : Z) (w' : world) :
  wf w (i_sector i) -> stack_buff = true ->
  0 <= off -> 0 <= n -> off + n <= MAX_FILE_SIZE ->
  deny_write_cnt i = 0 ->
  inode_write_at i buffer n off w = (k, w') ->
  alloc_failures w' = alloc_failures w ->
  k = n
  /\ wf w' (i_sector i)
  /\ inode_length i w' = Z.max (inode_length i w) (off + n)
  /\ (forall pos,
         0 <= pos < MAX_FILE_SIZE -> ~ (off <= pos < off + n) ->
         owner w (i_sector i) (data_role pos) <> 0 ->
         file_byte w' (i_sector i) pos = file_byte w (i_sector i) pos).
Proof.
  intros Hwf Hbuff Hoff Hn Hmax Hd Hw Hfail.
  destruct (inode_write_at_spec i buffer n off w k w' Hwf Hbuff Hoff Hn Hmax
              Hd Hw Hfail) as (Hk & Hwf' & Hlen & _ & Hout).
  split; [exact Hk|]. split; [exact Hwf'|]. split; [exact Hlen|].
  intros pos Hpos Hnot Hne. apply (Hout pos Hpos Hnot Hne).
Qed.

(** ** Directories: the entries of a directory *)

(** The file of the inode in sector [isec] is a table of [n] entries,
    all of them in sectors that are allocated. *)
Definition entries (w : world) (isec : Z) (n : Z) : Prop :=
  0 <= n
  /\ disk_length (store w isec) = DIR_ENTRY_SIZE * n
  /\ DIR_ENTRY_SIZE * n <= MAX_FILE_SIZE
  /\ forall pos,
       0 <= pos < DIR_ENTRY_SIZE * n -> owner w isec (data_role pos) <> 0.

(** Entry [k] of the directory, read without the walker. *)
Definition entry (w : world) (isec : Z) (k : Z) : list Z :=
  file_bytes w isec (DIR_ENTRY_SIZE * k) DIR_ENTRY_SIZE.

(** The test of [lookup] on an entry. *)
Definition names (name : list Z) (e : list Z) : bool :=
  e_in_use e && bytes_eqb name (e_name e).

Lemma entry_length (w : world) (isec k : Z) :
  List.length (entry w isec k) = 20%nat.
Proof.
  try clear stack_buff; try clear wild.
  unfold entry. rewrite file_bytes_length. reflexivity.
Qed.

(** The read of entry [k]: the entry when there is one, nothing past
    the last; the state does not change. *)
Lemma read_entry (i : inode) (w : world) (n k : Z) :
  wf w (i_sector i) -> entries w (i_sector i) n -> 0 <= k ->
  inode_read_at i DIR_ENTRY_SIZE (DIR_ENTRY_SIZE * k) w
  = (if k <? n then entry w (i_sector i) k else [], w).
Proof.
  intros Hwf (Hn & Hlen & Hmax & Hown) Hk. unfold DIR_ENTRY_SIZE in *.
  assert (Hl : inode_length i w = 20 * n) by exact Hlen.
  assert (Hp : forall pos, 0 <= pos < 20 * n ->
               present w (i_sector i) pos
               /\ owner w (i_sector i) (data_role pos) <> NO_SECTOR).
  { intros pos Hpos. apply wf_present; auto. lia. }
  destruct (Z.ltb_spec k n) as [Hlt|Hge].
  - rewrite (inode_read_at_exact i 20 (20 * k) w);
      [|lia|lia|lia|intros pos Hpos; apply Hp; lia].
    unfold entry, DIR_ENTRY_SIZE. f_equal.
    destruct (Z.geb_spec (20 * k) (inode_length i w)); [reflexivity|].
    unfold start_read_ahead.
    destruct (Z.ltb_spec (20 * k + 20 + BLOCK_SECTOR_SIZE - 1)
                (inode_length i w)) as [Hra|Hra]; [|reflexivity].
    unfold MAX_FILE_SIZE, BLOCK_SECTOR_SIZE in *.
    rewrite byte_to_sector_present; [reflexivity| |apply Hp; lia].
    change (2 ^ 31) with 2147483648. lia.
  - apply inode_read_at_past_end. lia.
Qed.

(** The entry [lookup] stops at, from entry [k] on: the first that is
    in use under the name. *)
Fixpoint find_entry (w : world) (isec : Z) (name : list Z) (k : Z)
    (cnt : nat) : option (list Z * Z) :=
  match cnt with
  | O => None
  | S cnt' =>
      if names name (entry w isec k)
      then Some (entry w isec k, DIR_ENTRY_SIZE * k)
      else find_entry w isec name (k + 1) cnt'
  end.

Lemma find_entry_none (w : world) (isec : Z) (name : list Z) (cnt : nat) :
  forall k,
    find_entry w isec name k cnt = None
    <-> forall j, k <= j < k + Z.of_nat cnt ->
                  names name (entry w isec j) = false.
Proof.
  try clear stack_buff; try clear wild.
  induction cnt as [|cnt IH]; intros k; cbn [find_entry].
  - split; [intros _ j Hj; lia|reflexivity].
  - destruct (names name (entry w isec k)) eqn:E.
    + split; [discriminate|]. intros H. rewrite (H k) in E by lia.
      discriminate.
    + rewrite IH. split.
      * intros H j Hj. destruct (Z.eq_dec j k) as [->|Hne]; [exact E|].
        apply H. lia.
      * intros H j Hj. apply H. lia.
Qed.

Lemma find_entry_some (w : world) (isec : Z) (name : list Z) (cnt : nat) :
  forall k e ofs,
    find_entry w isec name k cnt = Some (e, ofs)
    <-> exists j,
          k <= j < k + Z.of_nat cnt /\ ofs = DIR_ENTRY_SIZE * j
          /\ e = entry w isec j /\ names name e = true
          /\ forall j', k <= j' < j -> names name (entry w isec j') = false.
Proof.
  try clear stack_buff; try clear wild.
  induction cnt as [|cnt IH]; intros k e ofs; cbn [find_entry].
  - split; [discriminate|]. intros (j & Hj & _). lia.
  - destruct (names name (entry w isec k)) eqn:E.
    + split.
      * intros H. inversion H; subst. exists k.
        split; [lia|]. split; [reflexivity|]. split; [reflexivity|].
        split; [exact E|]. intros j' Hj'. lia.
      * intros (j & Hj & Ho & He & Hm & Hfirst).
        destruct (Z.eq_dec j k) as [->|Hne]; [subst; reflexivity|].
        rewrite (Hfirst k) in E by lia. discriminate.
    + rewrite IH. split.
      * intros (j & Hj & Ho & He & Hm & Hfirst). exists j.
        split; [lia|]. split; [exact Ho|]. split; [exact He|].
        split; [exact Hm|]. intros j' Hj'.
        destruct (Z.eq_dec j' k) as [->|Hne]; [exact E|]. apply Hfirst. lia.
      * intros (j & Hj & Ho & He & Hm & Hfirst).
        destruct (Z.eq_dec j k) as [->|Hne];
          [subst e; rewrite Hm in E; discriminate|].
        exists j. split; [lia|]. split; [exact Ho|]. split; [exact He|].
        split; [exact Hm|]. intros j' Hj'. apply Hfirst. lia.
Qed.

Lemma lookup_loop_find (a : nat) (i : inode) (name : list Z) (w : world)
    (n : Z) :
  find_inode a w = Some i ->
  wf w (i_sector i) -> entries w (i_sector i) n ->
  forall (fuel : nat) (k : Z),
    0 <= k <= n -> n - k < Z.of_nat fuel ->
    lookup_loop fuel a name (DIR_ENTRY_SIZE * k) w
    = Some (find_entry w (i_sector i) name k (Z.to_nat (n - k)), w).
Proof.
  intros Hfind Hwf Hent.
  induction fuel as [|fuel IH]; intros k Hk Hfuel; [lia|].
  cbn [lookup_loop]. unfold read_at. unfold bind, deref, lift.
  rewrite Hfind. rewrite (read_entry i w n k Hwf Hent) by lia.
  destruct (Z.ltb_spec k n) as [Hlt|Hge].
  - rewrite entry_length. change (Z.of_nat 20 =? DIR_ENTRY_SIZE) with true.
    cbv iota.
    replace (Z.to_nat (n - k)) with (S (Z.to_nat (n - (k + 1)))) by lia.
    cbn [find_entry]. fold (names name (entry w (i_sector i) k)).
    destruct (names name (entry w (i_sector i) k)); [reflexivity|].
    replace (DIR_ENTRY_SIZE * k + DIR_ENTRY_SIZE)
      with (DIR_ENTRY_SIZE * (k + 1)) by (unfold DIR_ENTRY_SIZE; lia).
    apply IH; lia.
  - cbn [List.length]. change (Z.of_nat 0 =? DIR_ENTRY_SIZE) with false.
    cbv iota. replace (Z.to_nat (n - k)) with 0%nat by lia. reflexivity.
Qed.

(** [lookup] on a table of [n] entries. *)
Lemma lookup_find (d : dir) (i : inode) (name : string) (w : world) (n : Z) :
  find_inode (d_inode d) w = Some i ->
  wf w (i_sector i) -> entries w (i_sector i) n ->
  lookup d name w
  = Some (find_entry w (i_sector i) (name_bytes name) 0 (Z.to_nat n), w).
Proof.
  intros Hfind Hwf Hent. unfold lookup, scan_fuel. unfold bind, deref.
  rewrite Hfind.
  change (lookup_loop ?f ?a ?nm 0) with (lookup_loop f a nm (DIR_ENTRY_SIZE * 0)).
  pose proof Hent as (Hn & Hlen & _).
  rewrite (lookup_loop_find _ i _ w n Hfind Hwf Hent); [|lia|].
  - rewrite Z.sub_0_r. reflexivity.
  - unfold inode_length. rewrite Hlen. unfold DIR_ENTRY_SIZE.
    rewrite Z.mul_comm, Z.div_mul by lia. lia.
Qed.

(** X17: [lookup] on a directory that is a table of entries in
    allocated sectors returns the first entry in use that carries the
    name, with its offset, and nothing when no entry does; it changes
    nothing. *)
Theorem lookup_first_entry (d : dir) (i : inode) (name : string) (w : world)
    (n : Z) :
  find_inode (d_inode d) w = Some i ->
  wf w (i_sector i) -> entries w (i_sector i) n ->
  exists r,
    lookup d name w = Some (r, w)
    /\ (r = None
        <-> forall j, 0 <= j < n ->
                      names (name_bytes name) (entry w (i_sector i) j) = false)
    /\ forall e ofs,
         r = Some (e, ofs)
         <-> exists j,
               0 <= j < n /\ ofs = DIR_ENTRY_SIZE * j
               /\ e = entry w (i_sector i) j
               /\ names (name_bytes name) e = true
               /\ forall j', 0 <= j' < j ->
                    names (name_bytes name) (entry w (i_sector i) j') = false.
Proof.
  intros Hfind Hwf Hent. pose proof Hent as (Hn & _).
  eexists. split; [apply (lookup_find d i name w n); assumption|]. split.
  - rewrite find_entry_none. split; intros H j Hj; apply H; lia.
  - intros e ofs. rewrite find_entry_some.
    split; intros (j & Hj & Hrest); exists j; (split; [lia|exact Hrest]).
Qed.

Lemma is_empty_loop_scan (i : inode) (w : world) (n : Z) :
  wf w (i_sector i) -> entries w (i_sector i) n ->
  forall (fuel : nat) (k : Z),
    0 <= k -> (0 < fuel)%nat -> n - k < Z.of_nat fuel ->
    exists b,
      is_empty_loop fuel i (DIR_ENTRY_SIZE * k) w = Some (b, w)
      /\ (b = true
          <-> forall j, k <= j < n -> e_in_use (entry w (i_sector i) j) = false).
Proof.
  intros Hwf Hent.
  induction fuel as [|fuel IH]; intros k Hk Hpos Hfuel; [lia|].
  cbn [is_empty_loop]. unfold bind, lift.
  rewrite (read_entry i w n k Hwf Hent) by lia.
  destruct (Z.ltb_spec k n) as [Hlt|Hge].
  - rewrite entry_length. change (Z.of_nat 20 =? DIR_ENTRY_SIZE) with true.
    cbv iota. destruct (e_in_use (entry w (i_sector i) k)) eqn:E.
    + exists false. split; [reflexivity|]. split; [discriminate|].
      intros H. rewrite (H k) in E by lia. discriminate.
    + replace (DIR_ENTRY_SIZE * k + DIR_ENTRY_SIZE)
        with (DIR_ENTRY_SIZE * (k + 1)) by (unfold DIR_ENTRY_SIZE; lia).
      destruct (IH (k + 1)) as (b & Hb & Hiff); [lia|lia|lia|].
      exists b. split; [exact Hb|]. rewrite Hiff. split.
      * intros H j Hj. destruct (Z.eq_dec j k) as [->|Hne]; [exact E|].
        apply H. lia.
      * intros H j Hj. apply H. lia.
  - cbn [List.length]. change (Z.of_nat 0 =? DIR_ENTRY_SIZE) with false.
    cbv iota. exists true. split; [reflexivity|].
    split; [intros _ j Hj; lia|reflexivity].
Qed.

(** X18: [is_empty_dir] on a directory that is a table of entries
    returns true exactly when no entry after the first two is in use,
    and changes nothing. *)
Theorem is_empty_dir_exact (a : nat) (i : inode) (w : world) (n : Z) :
  find_inode a w = Some i ->
  wf w (i_sector i) -> entries w (i_sector i) n ->
  exists b,
    is_empty_dir a w = Some (b, w)
    /\ (b = true
        <-> forall j, 2 <= j < n -> e_in_use (entry w (i_sector i) j) = false).
Proof.
  intros Hfind Hwf Hent. unfold is_empty_dir, bind, deref, scan_fuel.
  rewrite Hfind. unfold bind, deref. rewrite Hfind.
  change (2 * DIR_ENTRY_SIZE) with (DIR_ENTRY_SIZE * 2).
  pose proof Hent as (Hn & Hlen & _).
  apply (is_empty_loop_scan i w n Hwf Hent); [lia|lia|].
  unfold inode_length. rewrite Hlen. unfold DIR_ENTRY_SIZE.
  rewrite Z.mul_comm, Z.div_mul by lia. lia.
Qed.

(** ** Directories: the entry [dir_add] writes *)

Lemma length_put (e : list Z) (ofs : nat) (src : list Z) :
  (ofs + List.length src <= List.length e)%nat ->
  List.length (put e ofs src) = List.length e.
Proof.
  try clear stack_buff; try clear wild.
  intros H. unfold put. rewrite !length_app, length_firstn, length_skipn. lia.
Qed.

Lemma nth_put (e : list Z) (ofs : nat) (src : list Z) (k : nat) :
  (ofs + List.length src <= List.length e)%nat ->
  nth k (put e ofs src) 0
  = if (ofs <=? k)%nat && (k <? ofs + List.length src)%nat
    then nth (k - ofs) src 0 else nth k e 0.
Proof.
  try clear stack_buff; try clear wild.
  intros H. unfold put.
  assert (Hf : List.length (firstn ofs e) = ofs)
    by (rewrite length_firstn; lia).
  destruct (Nat.leb_spec ofs k) as [Hle|Hgt]; cbn [andb].
  - rewrite app_nth2 by lia. rewrite Hf.
    destruct (Nat.ltb_spec k (ofs + List.length src)) as [Hlt|Hge].
    + apply app_nth1. lia.
    + rewrite app_nth2 by lia. rewrite nth_skipn. f_equal. lia.
  - rewrite app_nth1 by lia. rewrite nth_firstn.
    destruct (Nat.ltb_spec k ofs); [reflexivity|lia].
Qed.






Lemma bytes_eqb_eq (a b : list Z) : bytes_eqb a b = true -> a = b.
Proof.
  try clear stack_buff; try clear wild.
  revert b. induction a as [|x a IH]; intros [|y b]; cbn [bytes_eqb];
    try discriminate; [reflexivity|].
  intros H. apply andb_prop in H. destruct H as [H1 H2].
  apply Z.eqb_eq in H1. f_equal; auto.
Qed.





Lemma entry_frame (w w' : world) (isec j : Z) :
  (forall pos,
      DIR_ENTRY_SIZE * j <= pos < DIR_ENTRY_SIZE * j + DIR_ENTRY_SIZE ->
      file_byte w' isec pos = file_byte w isec pos) ->
  0 <= j -> entry w' isec j = entry w isec j.
Proof.
  try clear stack_buff; try clear wild.
  intros H Hj. unfold entry, file_bytes. apply map_ext_in.
  intros k Hk. apply in_seq in Hk. apply H. unfold DIR_ENTRY_SIZE in *. lia.
Qed.

Lemma entry_written (w : world) (isec j : Z) (e : list Z) :
  List.length e = 20%nat -> 0 <= j ->
  (forall pos,
      DIR_ENTRY_SIZE * j <= pos < DIR_ENTRY_SIZE * j + DIR_ENTRY_SIZE ->
      file_byte w isec pos = nth (Z.to_nat (pos - DIR_ENTRY_SIZE * j)) e 0) ->
  entry w isec j = e.
Proof.
  try clear stack_buff; try clear wild.
  intros He Hj H. unfold entry, file_bytes.
  rewrite <- (map_nth_seq e) at 1. rewrite He.
  change (Z.to_nat DIR_ENTRY_SIZE) with 20%nat.
  apply map_ext_in. intros k Hk. apply in_seq in Hk.
  rewrite H by (unfold DIR_ENTRY_SIZE; lia). f_equal. lia.
Qed.



(** X20: what [dir_add] refuses. An empty name and a name of more
    than [NAME_MAX] characters are refused before the directory is
    looked at; a name that an entry in use carries is refused after
    the [lookup]. In each case [dir_add] returns false and changes
    nothing. *)
Theorem dir_add_refuses (d : dir) (name : string) (inode_sector : Z)
    (w : world) :
  (String.length name = 0%nat \/ (14 < String.length name)%nat ->
   dir_add d name inode_sector w = Some (false, w))
  /\ (forall i n j,
         find_inode (d_inode d) w = Some i ->
         wf w (i_sector i) -> entries w (i_sector i) n ->
         0 <= j < n ->
         names (name_bytes name) (entry w (i_sector i) j) = true ->
         dir_add d name inode_sector w = Some (false, w)).
Proof.
  assert (Hbad : String.length name = 0%nat \/ (14 < String.length name)%nat ->
                 dir_add d name inode_sector w = Some (false, w)).
  { intros H. unfold dir_add.
    destruct (Nat.eqb_spec (String.length name) 0) as [E0|E0];
      [reflexivity|].
    destruct (Z.gtb_spec (Z.of_nat (String.length name)) NAME_MAX) as [E1|E1];
      [reflexivity|].
    unfold NAME_MAX in E1. lia. }
  split; [exact Hbad|].
  intros i n j Hfind Hwf Hent Hj Hm.
  destruct (Nat.eq_dec (String.length name) 0) as [E0|E0]; [auto|].
  destruct (le_lt_dec (String.length name) 14) as [E1|E1]; [|auto].
  unfold dir_add.
  destruct (Nat.eqb_spec (String.length name) 0) as [|_]; [lia|].
  destruct (Z.gtb_spec (Z.of_nat (String.length name)) NAME_MAX) as [E2|_];
    [unfold NAME_MAX in E2; lia|].
  cbn [orb]. unfold bind.
  rewrite (lookup_find d i name w n Hfind Hwf Hent).
  destruct (find_entry w (i_sector i) (name_bytes name) 0 (Z.to_nat n))
    as [[e ofs]|] eqn:E; [reflexivity|].
  exfalso. rewrite find_entry_none in E. rewrite (E j) in Hm by lia.
  discriminate.
Qed.

(** ** Directories: the entry [dir_remove] clears *)

(** A write over bytes that have their sectors: the walker finds
    every sector, nothing is asked of the free map, and only the
    bytes written change. *)
Lemma write_loop_present (i : inode) (buffer : list Z) (fuel : nat) :
  forall size offset written w,
    wf w (i_sector i) -> (Z.to_nat size <= fuel)%nat ->
    0 <= offset -> 0 <= size -> offset + size <= MAX_FILE_SIZE ->
    (forall pos,
        offset <= pos < offset + size ->
        owner w (i_sector i) (data_role pos) <> 0) ->
    exists w',
      write_loop fuel i buffer size offset written w
      = (written + size, offset + size, w')
      /\ wf w' (i_sector i)
      /\ fm_log w' = fm_log w /\ free_map w' = free_map w
      /\ same_table w w'
      /\ (forall r, valid_role r ->
                    owner w' (i_sector i) r = owner w (i_sector i) r)
      /\ (forall pos,
             offset <= pos < offset + size ->
             file_byte w' (i_sector i) pos
             = nth (Z.to_nat (written + (pos - offset))) buffer 0)
      /\ (forall pos,
             0 <= pos < MAX_FILE_SIZE -> ~ (offset <= pos < offset + size) ->
             owner w (i_sector i) (data_role pos) <> 0 ->
             file_byte w' (i_sector i) pos = file_byte w (i_sector i) pos)
      /\ get_word (store w' (i_sector i)) 0 = get_word (store w (i_sector i)) 0
      /\ (forall x,
             (forall pos,
                 offset <= pos < offset + size ->
                 owner w (i_sector i) (data_role pos) <> x) ->
             store w' x = store w x).
Proof.
  assert (Hdone : forall size offset written w,
             wf w (i_sector i) -> size = 0 ->
             exists w',
               (written, offset, w) = (written + size, offset + size, w')
               /\ wf w' (i_sector i)
               /\ fm_log w' = fm_log w /\ free_map w' = free_map w
               /\ same_table w w'
               /\ (forall r, valid_role r ->
                             owner w' (i_sector i) r = owner w (i_sector i) r)
               /\ (forall pos,
                      offset <= pos < offset + size ->
                      file_byte w' (i_sector i) pos
                      = nth (Z.to_nat (written + (pos - offset))) buffer 0)
               /\ (forall pos,
                      0 <= pos < MAX_FILE_SIZE ->
                      ~ (offset <= pos < offset + size) ->
                      owner w (i_sector i) (data_role pos) <> 0 ->
                      file_byte w' (i_sector i) pos
                      = file_byte w (i_sector i) pos)
               /\ get_word (store w' (i_sector i)) 0
                  = get_word (store w (i_sector i)) 0
               /\ (forall x,
                      (forall pos,
                          offset <= pos < offset + size ->
                          owner w (i_sector i) (data_role pos) <> x) ->
                      store w' x = store w x)).
  { intros size offset written w Hwf Hz. subst size. exists w.
    rewrite !Z.add_0_r. split; [reflexivity|]. split; [exact Hwf|].
    split; [reflexivity|]. split; [reflexivity|].
    split; [apply same_table_refl|]. split; [reflexivity|].
    split; [intros; lia|]. split; [reflexivity|].
    split; reflexivity. }
  induction fuel as [|fuel IH]; intros size offset written w Hwf Hfuel Hoff
    Hsize Hmax Hown.
  - cbn [write_loop]. apply Hdone; [exact Hwf|lia].
  - rewrite write_loop_S. destruct (Z.gtb_spec size 0) as [Hpos|Hz];
      [|apply Hdone; [exact Hwf|lia]].
    assert (Hp : 0 <= offset < MAX_FILE_SIZE) by lia.
    destruct (wf_present w (i_sector i) offset Hwf Hp (Hown offset ltac:(lia)))
      as [Hpr Hns].
    rewrite byte_to_sector_present;
      [|unfold MAX_FILE_SIZE in *; change (2 ^ 31) with 2147483648; lia
       |exact Hpr].
    apply Z.eqb_neq in Hns. rewrite Hns. cbv zeta.
    rewrite rem_ofs by exact Hoff.
    set (c := Z.min size
                (Z.min (MAX_FILE_SIZE - offset)
                   (BLOCK_SECTOR_SIZE - offset mod BLOCK_SECTOR_SIZE))).
    assert (Hc : 0 < c /\ c <= size
                 /\ c <= BLOCK_SECTOR_SIZE - offset mod BLOCK_SECTOR_SIZE).
    { subst c. unfold BLOCK_SECTOR_SIZE in *. zdiv. }
    destruct (Z.leb_spec c 0) as [Hc0|_]; [lia|].
    match goal with
    | |- exists _, write_loop fuel i buffer _ _ _ ?x = _ /\ _ => set (w2 := x)
    end.
    destruct (chunk_write w (i_sector i) offset c written buffer Hwf Hp
                ltac:(lia) (Hown offset ltac:(lia)) w2 eq_refl)
      as (Hwf2 & Hown2 & Hin2 & Hout2 & Hlen2).
    destruct (IH (size - c) (offset + c) (written + c) w2 Hwf2 ltac:(lia)
                ltac:(lia) ltac:(lia) ltac:(lia))
      as (w' & El & Hwf' & Hlog' & Hmap' & Htab' & Hown' & Hin' & Hout' & Hlen'
          & Hst').
    { intros pos Hin. rewrite Hown2 by (apply data_role_valid; lia).
      apply Hown. lia. }
    exists w'. split; [rewrite El; f_equal; f_equal; lia|].
    split; [exact Hwf'|]. split; [rewrite Hlog'; reflexivity|].
    split; [rewrite Hmap'; reflexivity|].
    split; [eapply same_table_trans; [|exact Htab'];
            apply same_table_write_sector|].
    split; [intros r Hv; rewrite Hown', Hown2; auto|].
    split; [|split].
    + intros pos Hin.
      destruct (Z.lt_ge_cases pos (offset + c)) as [Hlt|Hge].
      * rewrite Hout'; [apply Hin2; lia|lia|lia|].
        rewrite Hown2 by (apply data_role_valid; lia). apply Hown. lia.
      * rewrite Hin' by lia. f_equal. lia.
    + intros pos Hpp Hnot Hne.
      rewrite Hout'; [apply Hout2; auto; lia|exact Hpp|lia|].
      rewrite Hown2 by (apply data_role_valid; lia). exact Hne.
    + split; [congruence|]. intros x Hx. rewrite Hst'.
      * unfold w2, write_sector, set_store, upd. cbn [store].
        destruct (Z.eqb_spec x (owner w (i_sector i) (data_role offset)))
          as [E|_]; [|reflexivity].
        exfalso. apply (Hx offset); [lia|]. symmetry. exact E.
      * intros pos Hin. rewrite Hown2 by (apply data_role_valid; lia).
        apply Hx. lia.
Qed.

(** [inode_write_at] within the file, over bytes that have their
    sectors. *)
Lemma inode_write_at_present (i : inode) (buffer : list Z) (n off : Z)
    (w : world) :
  wf w (i_sector i) -> deny_write_cnt i = 0 ->
  0 <= off -> 0 <= n -> off + n <= inode_length i w ->
  off + n <= MAX_FILE_SIZE ->
  (forall pos,
      off <= pos < off + n -> owner w (i_sector i) (data_role pos) <> 0) ->
  exists w',
    inode_write_at i buffer n off w = (n, w')
    /\ wf w' (i_sector i)
    /\ fm_log w' = fm_log w /\ free_map w' = free_map w
    /\ same_table w w'
    /\ (forall r, valid_role r ->
                  owner w' (i_sector i) r = owner w (i_sector i) r)
    /\ (forall pos,
           off <= pos < off + n ->
           file_byte w' (i_sector i) pos = nth (Z.to_nat (pos - off)) buffer 0)
    /\ (forall pos,
           0 <= pos < MAX_FILE_SIZE -> ~ (off <= pos < off + n) ->
           owner w (i_sector i) (data_role pos) <> 0 ->
           file_byte w' (i_sector i) pos = file_byte w (i_sector i) pos)
    /\ inode_length i w' = inode_length i w
    /\ (forall x,
           (forall pos,
               off <= pos < off + n ->
               owner w (i_sector i) (data_role pos) <> x) ->
           store w' x = store w x).
Proof.
  intros Hwf Hd Hoff Hn Hlen Hmax Hown. unfold inode_write_at. rewrite Hd.
  change (negb (0 =? 0)) with false. cbv iota.
  destruct (write_loop_present i buffer (Z.to_nat n) n off 0 w Hwf ltac:(lia)
              Hoff Hn Hmax Hown)
    as (w' & El & Hwf' & Hlog & Hmap & Htab & Hown' & Hin & Hout & Hword
        & Hst).
  rewrite El. rewrite Z.add_0_l.
  assert (Hl : inode_length i w' = inode_length i w)
    by (unfold inode_length, disk_length; rewrite Hword; reflexivity).
  fold (inode_length i w'). rewrite Hl.
  destruct (Z.gtb_spec (off + n) (inode_length i w)) as [Hgt|_]; [lia|].
  exists w'. split; [reflexivity|]. split; [exact Hwf'|].
  split; [exact Hlog|]. split; [exact Hmap|]. split; [exact Htab|].
  split; [exact Hown'|]. split; [|split; [exact Hout|split; [exact Hl|exact Hst]]].
  intros pos Hpos. rewrite Hin by exact Hpos. reflexivity.
Qed.

(** [dir_open], [inode_open] and the like change the open table
    only. *)
Definition same_disk (w w' : world) : Prop :=
  store w' = store w /\ free_map w' = free_map w /\ fm_log w' = fm_log w.

Lemma same_disk_wf (w w' : world) (isec : Z) :
  same_disk w w' -> wf w isec -> wf w' isec.
Proof.
  try clear stack_buff; try clear wild.
  intros (Hs & Hf & _) (Hi & H0 & Hlen & Huse & Hinj).
  assert (Ho : forall r, owner w' isec r = owner w isec r).
  { intros r. destruct r; cbn [owner]; unfold child; rewrite ?Hs; reflexivity. }
  split; [exact Hi|]. split; [rewrite Hf; exact H0|].
  split; [rewrite Hf; exact Hlen|]. split.
  - intros r Hv. rewrite Ho, Hf. apply Huse. exact Hv.
  - intros r1 r2 Hv1 Hv2. rewrite !Ho. apply Hinj; assumption.
Qed.

Lemma same_disk_entries (w w' : world) (isec n : Z) :
  same_disk w w' -> entries w isec n -> entries w' isec n.
Proof.
  try clear stack_buff; try clear wild.
  intros (Hs & _) (Hn & Hlen & Hmax & Hown).
  assert (Ho : forall r, owner w' isec r = owner w isec r).
  { intros r. destruct r; cbn [owner]; unfold child; rewrite ?Hs; reflexivity. }
  split; [exact Hn|]. split; [rewrite Hs; exact Hlen|]. split; [exact Hmax|].
  intros pos Hpos. rewrite Ho. apply Hown. exact Hpos.
Qed.

Lemma store_entry (w w' : world) (isec j : Z) :
  store w' = store w -> entry w' isec j = entry w isec j.
Proof.
  try clear stack_buff; try clear wild.
  intros Hs. unfold entry, file_bytes. apply map_ext. intros k.
  unfold file_byte. destruct (data_role _); cbn [owner]; unfold child;
    rewrite ?Hs; reflexivity.
Qed.

Lemma same_disk_inode_open (s : Z) (w : world) :
  same_disk w (snd (inode_open s w)).
Proof.
  try clear stack_buff; try clear wild.
  unfold inode_open. destruct (find _ (open_inodes w)); repeat split.
Qed.

(** The inode behind a pointer after an [inode_open]: the same sector
    and the same count of denials. *)
Lemma find_inode_after_open (s : Z) (w : world) (a : nat) (i : inode) :
  table_ok w -> find_inode a w = Some i ->
  exists i',
    find_inode a (snd (inode_open s w)) = Some i'
    /\ i_sector i' = i_sector i /\ deny_write_cnt i' = deny_write_cnt i
    /\ i_addr i' = i_addr i.
Proof.
  try clear stack_buff; try clear wild.
  intros [Hnd Hall] Hfind. destruct (find_inode_in _ _ _ Hfind) as [Hi Ha].
  unfold inode_open. destruct (find _ (open_inodes w)) as [t|] eqn:E.
  - cbn [inode_reopen snd]. unfold find_inode, update_inode, set_open_inodes.
    cbn [open_inodes].
    rewrite (find_map_stable (fun x => Nat.eqb (i_addr x) a)).
    + unfold find_inode in Hfind. rewrite Hfind. cbn [option_map].
      destruct (Nat.eqb (i_addr i) (i_addr t)); eexists; split;
        try reflexivity; cbn; auto.
    + intros x. destruct (Nat.eqb (i_addr x) (i_addr t)); reflexivity.
  - cbn [snd]. unfold find_inode. cbn [open_inodes find i_addr].
    destruct (Nat.eqb_spec (next_addr w) a) as [En|En].
    + exfalso. destruct (Hall i Hi). lia.
    + unfold find_inode in Hfind. rewrite Hfind. eauto.
Qed.

Lemma in_use_cleared (e : list Z) :
  List.length e = 20%nat ->
  List.length (put e 19 [0]) = 20%nat /\ e_in_use (put e 19 [0]) = false
  /\ forall name, names name (put e 19 [0]) = false.
Proof.
  try clear stack_buff; try clear wild.
  intros He.
  assert (H : e_in_use (put e 19 [0]) = false).
  { unfold e_in_use. rewrite nth_put by (cbn [List.length]; lia).
    reflexivity. }
  split; [rewrite length_put; cbn [List.length]; lia|]. split; [exact H|].
  intros name. unfold names. rewrite H. reflexivity.
Qed.

(** The steps of [dir_remove] on a name that entry [j] is the first
    to carry, up to the [inode_close] that ends it. *)
Lemma dir_remove_steps (d : dir) (i : inode) (name : string) (w : world)
    (n j : Z) :
  find_inode (d_inode d) w = Some i ->
  table_ok w -> wf w (i_sector i) -> entries w (i_sector i) n ->
  deny_write_cnt i = 0 ->
  0 <= j < n ->
  names (name_bytes name) (entry w (i_sector i) j) = true ->
  (forall j', 0 <= j' < j ->
              names (name_bytes name) (entry w (i_sector i) j') = false) ->
  exists a w2 w3,
    inode_open (e_inode_sector (entry w (i_sector i) j)) w = (Some a, w2)
    /\ dir_remove d name w
       = match inode_close (Some a) (inode_remove a w3) with
         | Some w' => Some (true, w')
         | None => None
         end
    /\ open_inodes w3 = open_inodes w2
    /\ free_map w3 = free_map w /\ fm_log w3 = fm_log w
    /\ e_in_use (entry w3 (i_sector i) j) = false
    /\ (forall j', 0 <= j' < n -> j' <> j ->
                   entry w3 (i_sector i) j' = entry w (i_sector i) j')
    /\ (forall x,
           (forall pos, 0 <= pos < DIR_ENTRY_SIZE * n ->
                        owner w (i_sector i) (data_role pos) <> x) ->
           store w3 x = store w x).
Proof.
  intros Hfind Hok Hwf Hent Hdeny Hj Hm Hfirst.
  pose proof Hent as (Hn & Hlen & Hmax & Hown).
  unfold dir_remove. unfold bind at 1.
  rewrite (lookup_find d i name w n Hfind Hwf Hent).
  assert (E : find_entry w (i_sector i) (name_bytes name) 0 (Z.to_nat n)
              = Some (entry w (i_sector i) j, DIR_ENTRY_SIZE * j)).
  { apply find_entry_some. exists j. split; [lia|].
    split; [reflexivity|]. split; [reflexivity|]. split; [exact Hm|].
    intros j' Hj'. apply Hfirst. lia. }
  rewrite E. clear E.
  set (e := entry w (i_sector i) j).
  set (s := e_inode_sector e).
  unfold bind at 1. unfold lift at 1.
  pose proof (same_disk_inode_open s w) as Hsd.
  destruct (find_inode_after_open s w (d_inode d) i Hok Hfind)
    as (i2 & Hfind2 & Hsec2 & Hdeny2 & Haddr2).
  destruct (inode_open_facts s w Hok) as (a & t2 & Hopen & _).
  set (w2 := snd (inode_open s w)) in *.
  rewrite Hopen.
  assert (Hwf2 : wf w2 (i_sector i2))
    by (rewrite Hsec2; exact (same_disk_wf _ _ _ Hsd Hwf)).
  assert (Hent2 : entries w2 (i_sector i2) n)
    by (rewrite Hsec2; exact (same_disk_entries _ _ _ _ Hsd Hent)).
  pose proof Hent2 as (_ & Hlen2 & _ & Hown2).
  destruct (in_use_cleared e (entry_length _ _ _)) as (Hl0 & Huse0 & Hnm0).
  unfold DIR_ENTRY_SIZE in *.
  destruct (inode_write_at_present i2 (put e 19 [0]) 20 (20 * j) w2 Hwf2
              ltac:(congruence) ltac:(lia) ltac:(lia)
              ltac:(unfold inode_length; rewrite Hlen2; lia) ltac:(lia))
    as (w3 & Ew & Hwf3 & Hlog3 & Hmap3 & Htab3 & Hown3 & Hin3 & Hout3 & Hlen3
        & Hst3).
  { intros pos Hpos. apply Hown2. lia. }
  unfold bind at 1. unfold write_at at 1. unfold bind at 1.
  unfold deref at 1. rewrite Hfind2. unfold lift at 1. rewrite Ew.
  change (negb (20 =? 20)) with false. cbv iota.
  unfold bind at 1. unfold modify at 1. unfold bind at 1. unfold attempt at 1.
  exists a, w2, w3. split; [reflexivity|]. split.
  { destruct (inode_close (Some a) (inode_remove a w3)); reflexivity. }
  destruct Hsd as (Hs2 & Hf2 & Hl2). rewrite Hsec2 in *.
  split; [apply Htab3|]. split; [congruence|]. split; [congruence|].
  split; [|split].
  - rewrite (entry_written w3 (i_sector i) j (put e 19 [0]));
      [exact Huse0|exact Hl0|lia|].
    intros pos Hpos. unfold DIR_ENTRY_SIZE in *. apply Hin3. lia.
  - intros j' Hj' Hne.
    rewrite <- (store_entry w w2) by exact Hs2.
    apply entry_frame; [|lia].
    intros pos Hpos. unfold DIR_ENTRY_SIZE in *.
    apply Hout3; [lia|lia|apply Hown2; lia].
  - intros x Hx. rewrite Hst3; [rewrite Hs2; reflexivity|].
    intros pos Hpos.
    rewrite (owner_store_eq w w2 (i_sector i) (data_role pos) Hs2).
    apply Hx. lia.
Qed.

(** X21: [dir_remove] on a directory that is a table of entries. Of
    a name that no entry in use carries it returns false and changes
    nothing. Of a name that an entry in use carries, when the inode
    of the first such entry is open, it returns true, that entry is no
    longer in use and every other entry is as it was, and the inode is
    marked removed, keeps its count of openers, and the free map has
    released nothing yet; when that inode is not open, has no
    indirect block ([sectors[DIRECT_BLOCKS]] is 0) and its sector is
    no data sector of the directory, it returns true, the entry is no
    longer in use, every other entry is as it was and the open table
    is as it was. *)
Theorem dir_remove_clears_entry (d : dir) (i : inode) (name : string)
    (w : world) (n : Z) :
  find_inode (d_inode d) w = Some i ->
  table_ok w -> wf w (i_sector i) -> entries w (i_sector i) n ->
  deny_write_cnt i = 0 ->
  ((forall j, 0 <= j < n ->
              names (name_bytes name) (entry w (i_sector i) j) = false) ->
   dir_remove d name w = Some (false, w))
  /\ (forall j,
         0 <= j < n ->
         names (name_bytes name) (entry w (i_sector i) j) = true ->
         (forall j', 0 <= j' < j ->
                     names (name_bytes name) (entry w (i_sector i) j') = false) ->
         (forall t,
             find (has_sector (e_inode_sector (entry w (i_sector i) j)))
               (open_inodes w) = Some t ->
             exists w',
               dir_remove d name w = Some (true, w')
               /\ e_in_use (entry w' (i_sector i) j) = false
               /\ (forall j', 0 <= j' < n -> j' <> j ->
                              entry w' (i_sector i) j'
                              = entry w (i_sector i) j')
               /\ find_inode (i_addr t) w'
                  = Some (mk_inode (i_addr t) (i_sector t) (open_cnt t) true
                            (deny_write_cnt t))
               /\ free_map w' = free_map w /\ fm_log w' = fm_log w)
         /\ (find (has_sector (e_inode_sector (entry w (i_sector i) j)))
               (open_inodes w) = None ->
             disk_sectors
               (store w (e_inode_sector (entry w (i_sector i) j)))
               DIRECT_BLOCKS = 0 ->
             (forall pos,
                 0 <= pos < DIR_ENTRY_SIZE * n ->
                 owner w (i_sector i) (data_role pos)
                 <> e_inode_sector (entry w (i_sector i) j)) ->
             exists w',
               dir_remove d name w = Some (true, w')
               /\ e_in_use (entry w' (i_sector i) j) = false
               /\ (forall j', 0 <= j' < n -> j' <> j ->
                              entry w' (i_sector i) j'
                              = entry w (i_sector i) j')
               /\ open_inodes w' = open_inodes w)).
Proof.
  intros Hfind Hok Hwf Hent Hdeny.
  split.
  - intros Hnone. unfold dir_remove, bind.
    rewrite (lookup_find d i name w n Hfind Hwf Hent).
    assert (E : find_entry w (i_sector i) (name_bytes name) 0 (Z.to_nat n)
                = None)
      by (apply find_entry_none; intros j Hj; apply Hnone; lia).
    rewrite E. reflexivity.
  - intros j Hj Hm Hfirst.
    destruct (dir_remove_steps d i name w n j Hfind Hok Hwf Hent Hdeny Hj Hm
                Hfirst)
      as (a & w2 & w3 & Eopen & Hrem & Htab3 & Hmap3 & Hlog3 & Huse3 & Hfr3
          & Hst3).
    set (s := e_inode_sector (entry w (i_sector i) j)) in *.
    set (up := fun i0 : inode =>
                 mk_inode (i_addr i0) (i_sector i0) (open_cnt i0 + 1)
                   (removed i0) (deny_write_cnt i0)).
    set (mark := fun j0 : inode =>
                   mk_inode (i_addr j0) (i_sector j0) (open_cnt j0) true
                     (deny_write_cnt j0)).
    assert (Hmarkf : forall W t0,
               find_inode a W = Some t0 ->
               find_inode a (inode_remove a W) = Some (mark t0)).
    { intros W t0 Ht0. destruct (find_inode_in _ _ _ Ht0) as [_ Ha0].
      unfold find_inode, inode_remove, update_inode, set_open_inodes.
      cbn [open_inodes].
      rewrite (find_map_stable (fun x => Nat.eqb (i_addr x) a)
                 (fun x => if Nat.eqb (i_addr x) a then mark x else x)).
      - unfold find_inode in Ht0. rewrite Ht0. cbn [option_map].
        rewrite Ha0, Nat.eqb_refl. reflexivity.
      - intros x. destruct (Nat.eqb (i_addr x) a) eqn:Ex; exact Ex. }
    split.
    + intros t Et.
      assert (Hat : a = i_addr t
                    /\ w2 = snd (inode_reopen (Some (i_addr t)) w)).
      { unfold inode_open in Eopen. fold (has_sector s) in Eopen.
        rewrite Et in Eopen. cbn [inode_reopen] in Eopen.
        inversion Eopen; subst. auto. }
      destruct Hat as [Hat Hw2]. cbn [inode_reopen snd] in Hw2.
      pose proof (find_some _ _ Et) as [Ht _].
      assert (Hft : find_inode a w = Some t).
      { unfold find_inode.
        destruct (find (fun x => Nat.eqb (i_addr x) a) (open_inodes w))
          as [t0|] eqn:E0.
        - pose proof (find_some _ _ E0) as [Ht0 Ha0].
          apply Nat.eqb_eq in Ha0. f_equal.
          apply (NoDup_addr_inj (open_inodes w)); auto; [apply Hok|congruence].
        - pose proof (find_none _ _ E0 t Ht) as Hn0. cbn in Hn0.
          rewrite Hat, Nat.eqb_refl in Hn0. discriminate. }
      assert (Hf3 : find_inode a w3 = Some (up t)).
      { unfold find_inode. rewrite Htab3.
        rewrite Hw2. unfold update_inode, set_open_inodes. cbn [open_inodes].
        rewrite <- Hat.
        rewrite (find_map_stable (fun x => Nat.eqb (i_addr x) a)
                   (fun x => if Nat.eqb (i_addr x) a then up x else x)).
        - unfold find_inode in Hft. rewrite Hft. cbn [option_map].
          rewrite <- Hat, Nat.eqb_refl. reflexivity.
        - intros x. destruct (Nat.eqb (i_addr x) a) eqn:Ex; exact Ex. }
      pose proof (Hmarkf w3 _ Hf3) as Hf4.
      destruct (proj2 Hok t Ht) as [Hcnt _].
      rewrite Hrem. cbn [inode_close]. rewrite Hf4. cbn [mark up open_cnt].
      destruct (Z.eqb_spec (open_cnt t + 1 - 1) 0) as [E0|_]; [lia|].
      eexists. split; [reflexivity|].
      split; [exact Huse3|]. split; [exact Hfr3|]. split; [|split].
      * unfold find_inode, update_inode, set_open_inodes. cbn [open_inodes].
        rewrite (find_map_stable (fun x => Nat.eqb (i_addr x) (i_addr t))).
        -- rewrite <- Hat. fold (find_inode a (inode_remove a w3)).
           rewrite Hf4. cbn [option_map mark up i_addr].
           rewrite <- Hat, Nat.eqb_refl. unfold mark, up.
           cbn [i_sector open_cnt removed deny_write_cnt]. f_equal. f_equal. lia.
        -- intros x. rewrite <- Hat.
           destruct (Nat.eqb (i_addr x) a) eqn:Ex; [cbn [i_addr]|];
             rewrite ?Hat in *; exact Ex.
      * exact Hmap3.
      * exact Hlog3.
    + intros Enone Hsingle Hout.
      rewrite (inode_open_miss s w Enone) in Eopen.
      injection Eopen as Ha Hw2. subst a.
      set (fresh := mk_inode (next_addr w) s 1 false 0) in *.
      assert (Hf3 : find_inode (next_addr w) w3 = Some fresh).
      { unfold find_inode. rewrite Htab3, <- Hw2. cbn [open_inodes find].
        cbn [fresh i_addr]. rewrite Nat.eqb_refl. reflexivity. }
      pose proof (Hmarkf w3 _ Hf3) as Hf4.
      rewrite Hrem. cbn [inode_close]. rewrite Hf4.
      cbn [mark fresh open_cnt removed]. change (1 - 1 =? 0) with true.
      cbv iota. unfold release_blocks. cbv zeta.
      cbn [mark fresh i_sector set_open_inodes store].
      change (store (inode_remove (next_addr w) w3)) with (store w3).
      rewrite (Hst3 s Hout), Hsingle. change (0 =? 0) with true. cbv iota.
      eexists. split; [reflexivity|].
      assert (Hst : forall isec k, entry (release_direct (mark fresh)
                                     (set_open_inodes (inode_remove (next_addr w) w3)
                                        (filter
                                           (fun j0 =>
                                              negb (Nat.eqb (i_addr j0) (next_addr w)))
                                           (open_inodes (inode_remove (next_addr w) w3)))))
                                 isec k
                               = entry w3 isec k).
      { intros isec k. apply store_entry. rewrite store_release_direct.
        reflexivity. }
      rewrite !Hst. split; [exact Huse3|]. split.
      * intros j' Hj' Hne. rewrite Hst. apply Hfr3; assumption.
      * rewrite open_inodes_release_direct. cbn [set_open_inodes open_inodes].
        unfold inode_remove, update_inode, set_open_inodes. cbn [open_inodes].
        rewrite Htab3, <- Hw2. cbn [open_inodes map filter].
        cbn [fresh i_addr]. rewrite Nat.eqb_refl. cbn [i_addr negb].
        rewrite Nat.eqb_refl. cbn [negb].
        assert (Hlt : forall x, In x (open_inodes w) ->
                                Nat.eqb (i_addr x) (next_addr w) = false).
        { intros x Hx. destruct (proj2 Hok x Hx) as [_ Hlt].
          apply Nat.eqb_neq. lia. }
        revert Hlt. generalize (open_inodes w) as l.
        induction l as [|x l IH]; intros Hlt; [reflexivity|].
        cbn [map filter]. rewrite (Hlt x (or_introl eq_refl)).
        rewrite (Hlt x (or_introl eq_refl)). cbn [negb]. f_equal.
        apply IH. intros y Hy. apply Hlt. right. exact Hy.
Qed.

(** ** Paths: the component [trace_path] takes *)

(** No character of [s] is a separator. *)
Fixpoint no_slash (s : string) : bool :=
  match s with
  | EmptyString => true
  | String c r => negb (Ascii.eqb c "/") && no_slash r
  end.

(** [s] is at its end or at a separator. *)
Definition at_separator (s : string) : Prop :=
  s = EmptyString \/ exists r, s = String "/" r.

Lemma append_empty (s : string) : (s ++ "")%string = s.
Proof.
  try clear stack_buff; try clear wild.
  induction s as [|c s IH]; cbn [append]; [reflexivity|].
  rewrite IH. reflexivity.
Qed.

Lemma append_assoc (a b c : string) :
  ((a ++ b) ++ c)%string = (a ++ (b ++ c))%string.
Proof.
  try clear stack_buff; try clear wild.
  induction a as [|x a IH]; cbn [append]; [reflexivity|].
  rewrite IH. reflexivity.
Qed.

Lemma length_append (a b : string) :
  String.length (a ++ b) = (String.length a + String.length b)%nat.
Proof.
  try clear stack_buff; try clear wild.
  induction a as [|x a IH]; cbn [append String.length]; [reflexivity|].
  rewrite IH. reflexivity.
Qed.

Lemma skip_slashes_split (path : string) :
  exists pre, path = (pre ++ skip_slashes path)%string
              /\ only_slashes pre = true.
Proof.
  try clear stack_buff; try clear wild.
  induction path as [|c rest [pre [IH1 IH2]]]; cbn [skip_slashes].
  - exists EmptyString. split; reflexivity.
  - destruct (Ascii.eqb c "/") eqn:E.
    + exists (String c pre). cbn [append only_slashes]. rewrite E, IH2.
      split; [f_equal; exact IH1|reflexivity].
    + exists EmptyString. split; reflexivity.
Qed.

Lemma component_split (p : string) :
  p = (fst (component p) ++ snd (component p))%string
  /\ no_slash (fst (component p)) = true
  /\ at_separator (snd (component p)).
Proof.
  try clear stack_buff; try clear wild.
  induction p as [|c rest (IH1 & IH2 & IH3)]; cbn [component].
  - cbn. split; [reflexivity|]. split; [reflexivity|]. left. reflexivity.
  - destruct (Ascii.eqb c "/") eqn:E.
    + cbn [fst snd append no_slash]. split; [reflexivity|].
      split; [reflexivity|]. right. exists rest.
      apply Ascii.eqb_eq in E. subst c. reflexivity.
    + destruct (component rest) as [name rest']. cbn [fst snd] in *.
      cbn [append no_slash]. rewrite E, IH2. split; [f_equal; exact IH1|].
      split; [reflexivity|exact IH3].
Qed.

Lemma length_substring_0 (n : nat) (s : string) :
  (n <= String.length s)%nat -> String.length (substring 0 n s) = n.
Proof.
  try clear stack_buff; try clear wild.
  revert s. induction n as [|n IH]; intros s Hn.
  - destruct s; reflexivity.
  - destruct s as [|c s]; cbn [String.length] in Hn; [lia|].
    cbn [substring String.length]. rewrite IH by lia. reflexivity.
Qed.

Lemma no_slash_substring_0 (n : nat) (s : string) :
  no_slash s = true -> no_slash (substring 0 n s) = true.
Proof.
  try clear stack_buff; try clear wild.
  revert s. induction n as [|n IH]; intros s Hs.
  - destruct s; reflexivity.
  - destruct s as [|c s]; [reflexivity|].
    cbn [substring no_slash] in *. apply andb_true_iff in Hs as [H1 H2].
    rewrite H1, (IH s H2). reflexivity.
Qed.

Lemma trace_path_split (path : string) :
  match trace_path path with
  | None => only_slashes path = true
  | Some (rest, too_long, name) =>
      exists pre comp,
        path = (pre ++ comp ++ rest)%string
        /\ only_slashes pre = true
        /\ (0 < String.length comp)%nat /\ no_slash comp = true
        /\ at_separator rest
        /\ too_long = (Z.of_nat (String.length comp) >? NAME_MAX)
        /\ name = (if too_long then substring 0 (Z.to_nat NAME_MAX) comp
                   else comp)
        /\ (0 < String.length name <= Z.to_nat NAME_MAX)%nat
        /\ no_slash name = true
  end.
Proof.
  try clear stack_buff; try clear wild.
  destruct (skip_slashes_split path) as (pre & Hpre & Hs).
  unfold trace_path. destruct path as [|c0 p0]; [reflexivity|].
  destruct (skip_slashes (String c0 p0)) as [|c p] eqn:E.
  - rewrite append_empty in Hpre. rewrite Hpre. exact Hs.
  - pose proof (skip_slashes_head _ _ _ E) as Hc.
    destruct (component_split (String c p)) as (H1 & H2 & H3).
    destruct (component (String c p)) as [name rest] eqn:Ec.
    cbn [fst snd] in *.
    assert (Hlen : (0 < String.length name)%nat).
    { cbn [component] in Ec. rewrite Hc in Ec.
      destruct (component p) as [n' r']. inversion Ec; subst.
      cbn [String.length]. lia. }
    unfold NAME_MAX in *. change (Z.to_nat 14) with 14%nat.
    pose proof (Z.gtb_spec (Z.of_nat (String.length name)) 14) as Hl.
    destruct (Z.of_nat (String.length name) >? 14) eqn:Eg; inversion Hl.
    + exists pre, name. rewrite <- H1.
      split; [exact Hpre|]. split; [exact Hs|]. split; [exact Hlen|].
      split; [exact H2|]. split; [exact H3|]. split; [symmetry; exact Eg|].
      split; [reflexivity|]. rewrite length_substring_0 by lia.
      split; [lia|apply no_slash_substring_0; exact H2].
    + exists pre, name. rewrite <- H1.
      split; [exact Hpre|]. split; [exact Hs|]. split; [exact Hlen|].
      split; [exact H2|]. split; [exact H3|]. split; [symmetry; exact Eg|].
      split; [reflexivity|]. split; [lia|exact H2].
Qed.

(** X22: [trace_path]. It returns null exactly for a path of
    separators only (the empty path among them). Otherwise the path is
    some separators, a component that is not empty and holds no
    separator, and the rest, which is returned and is empty or begins
    with a separator; [too_long] tells whether the component has more
    than [NAME_MAX] characters; the name copied out is the component,
    cut to its first [NAME_MAX] characters when too long, so it is
    never empty, never longer than [NAME_MAX] and holds no separator. *)
Theorem trace_path_component (path : string) :
  match trace_path path with
  | None => only_slashes path = true
  | Some (rest, too_long, name) =>
      exists pre comp,
        path = (pre ++ comp ++ rest)%string
        /\ only_slashes pre = true
        /\ (0 < String.length comp)%nat /\ no_slash comp = true
        /\ at_separator rest
        /\ too_long = (Z.of_nat (String.length comp) >? NAME_MAX)
        /\ name = (if too_long then substring 0 (Z.to_nat NAME_MAX) comp
                   else comp)
        /\ (0 < String.length name <= Z.to_nat NAME_MAX)%nat
        /\ no_slash name = true
  end.
Proof. exact (trace_path_split path). Qed.

(** ** Paths: the leaf name of a parent resolution *)

Lemma only_slashes_end (pre : string) :
  only_slashes pre = true ->
  pre = EmptyString \/ exists p, pre = (p ++ "/")%string.
Proof.
  try clear stack_buff; try clear wild.
  induction pre as [|c pre IH]; [left; reflexivity|].
  cbn [only_slashes]. intros H. apply andb_true_iff in H as [Hc Hp].
  apply Ascii.eqb_eq in Hc. subst c. right.
  destruct (IH Hp) as [E|[p E]].
  - subst pre. exists EmptyString. reflexivity.
  - exists (String "/" p). cbn [append]. rewrite <- E. reflexivity.
Qed.

Lemma retrieve_loop_parent_leaf (fuel : nat) :
  forall d path fn0 w dd fn w',
    retrieve_loop fuel d path fn0 true w = Some ((Some dd, fn), w') ->
    exists pre,
      path = (pre ++ fn)%string
      /\ (pre = EmptyString \/ exists p, pre = (p ++ "/")%string)
      /\ (0 < String.length fn <= Z.to_nat NAME_MAX)%nat
      /\ no_slash fn = true.
Proof.
  induction fuel as [|fuel IH]; intros d path fn0 w dd fn w' H;
    cbn [retrieve_loop] in H; [discriminate|].
  pose proof (trace_path_split path) as Ht.
  destruct (trace_path path) as [[[rest too_long] name]|];
    [|inversion H].
  destruct Ht as (pre & comp & Hp & Hpre & Hlen & Hns & Hsep & Hlong & Hname
                  & Hnl & Hnn).
  destruct too_long; [inversion H|]. subst name.
  destruct d as [dd0|]; [|discriminate].
  unfold bind at 1 in H. unfold deref in H.
  destruct (find_inode (d_inode dd0) w) as [i0|]; [|discriminate].
  destruct (removed i0); [inversion H|]. cbn [andb] in H.
  destruct (Nat.eqb (String.length rest) 0) eqn:Er.
  - inversion H; subst. apply Nat.eqb_eq in Er.
    destruct rest; [|discriminate]. rewrite append_empty.
    exists pre. split; [reflexivity|].
    split; [apply only_slashes_end; exact Hpre|]. split; assumption.
  - unfold bind at 1 in H.
    destruct (dir_lookup dd0 comp w) as [[temp w1]|]; [|discriminate].
    unfold bind at 1 in H. unfold attempt at 1 in H.
    destruct (inode_close (Some (d_inode dd0)) w1) as [w2|]; [|discriminate].
    destruct temp as [a|]; [|inversion H].
    apply IH in H. destruct H as (pre' & Hr & Hend & Hfl & Hfn).
    destruct Hend as [E|[p E]].
    + subst pre'. cbn [append] in Hr. subst rest.
      destruct Hsep as [E|[r E]].
      * subst fn. cbn [String.length] in Hfl. lia.
      * subst fn. cbn in Hfn. discriminate.
    + exists (pre ++ comp ++ p ++ "/")%string. subst pre'. subst rest.
      split; [rewrite Hp, !append_assoc; reflexivity|].
      split; [|split; assumption].
      right. exists (pre ++ comp ++ p)%string.
      rewrite !append_assoc. reflexivity.
Qed.

(** X23: [retrieve_dir_from_location] asked for the parent. A
    directory comes back only with the last component of the path as
    the leaf name: the path ends with that name, which is not empty,
    has at most [NAME_MAX] characters and holds no separator, and what
    stands before it is empty or ends with a separator. So a path that
    ends with a separator, or whose last component is too long, never
    yields a parent. *)
Theorem parent_resolution_leaf (path : string) (w w' : world) (dd : dir)
    (fn : string) :
  retrieve_dir_from_location path true w = Some ((Some dd, fn), w') ->
  exists pre,
    path = (pre ++ fn)%string
    /\ (pre = EmptyString \/ exists p, pre = (p ++ "/")%string)
    /\ (0 < String.length fn <= Z.to_nat NAME_MAX)%nat
    /\ no_slash fn = true.
Proof.
  unfold retrieve_dir_from_location. destruct path as [|c p]; [discriminate|].
  unfold bind at 1.
  match goal with
  | |- context [match ?m w with _ => _ end] => destruct (m w) as [[d w1]|]
  end; [|discriminate].
  apply retrieve_loop_parent_leaf.
Qed.

(** ** The entry points on a name in the root directory *)

Lemma find_inode_open_other (s : Z) (w : world) (a : nat) (i : inode) :
  table_ok w -> find_inode a w = Some i -> i_sector i <> s ->
  find_inode a (snd (inode_open s w)) = Some i.
Proof.
  try clear stack_buff; try clear wild.
  intros [Hnd Hall] Hfind Hs. destruct (find_inode_in _ _ _ Hfind) as [Hi Ha].
  unfold inode_open. fold (has_sector s).
  destruct (find (has_sector s) (open_inodes w)) as [t|] eqn:E.
  - pose proof (find_some _ _ E) as [Ht Hts]. unfold has_sector in Hts.
    apply Z.eqb_eq in Hts.
    cbn [inode_reopen snd]. unfold find_inode, update_inode, set_open_inodes.
    cbn [open_inodes]. rewrite find_map_stable.
    + unfold find_inode in Hfind. rewrite Hfind. cbn [option_map].
      destruct (Nat.eqb_spec (i_addr i) (i_addr t)) as [Ea|Ea]; [|reflexivity].
      assert (i = t) by (apply (NoDup_addr_inj (open_inodes w)); auto).
      subst i. congruence.
    + intros x. destruct (Nat.eqb (i_addr x) (i_addr t)) eqn:Ex;
        reflexivity.
  - cbn [snd]. unfold find_inode. cbn [open_inodes find i_addr].
    destruct (Nat.eqb_spec (next_addr w) a) as [Ea|Ea].
    + destruct (Hall i Hi) as [_ Hlt]. lia.
    + exact Hfind.
Qed.

Lemma inode_close_other (a b : nat) (W : world) (ib : inode) :
  find_inode b W = Some ib -> removed ib = false -> a <> b ->
  exists W',
    inode_close (Some b) W = Some W'
    /\ find_inode a W' = find_inode a W
    /\ same_disk W W'.
Proof.
  try clear stack_buff; try clear wild.
  intros Hb Hr Hab. cbn [inode_close]. rewrite Hb, Hr.
  destruct (open_cnt ib - 1 =? 0).
  - eexists. split; [reflexivity|]. split; [|repeat split].
    unfold find_inode, set_open_inodes. cbn [open_inodes].
    induction (open_inodes W) as [|x l IH]; [reflexivity|].
    cbn [filter find].
    destruct (Nat.eqb_spec (i_addr x) b) as [Eb|Eb]; cbn [negb find].
    + destruct (Nat.eqb_spec (i_addr x) a) as [Ea|Ea]; [congruence|exact IH].
    + destruct (Nat.eqb (i_addr x) a); [reflexivity|exact IH].
  - eexists. split; [reflexivity|]. split; [|repeat split].
    unfold find_inode, update_inode, set_open_inodes. cbn [open_inodes].
    induction (open_inodes W) as [|x l IH]; [reflexivity|].
    cbn [map find].
    destruct (Nat.eqb_spec (i_addr x) b) as [Eb|Eb].
    + cbn [i_addr].
      destruct (Nat.eqb_spec (i_addr x) a) as [Ea|Ea]; [congruence|exact IH].
    + destruct (Nat.eqb (i_addr x) a); [reflexivity|exact IH].
Qed.

Lemma skip_slashes_no_slash (name : string) :
  no_slash name = true -> skip_slashes name = name.
Proof.
  try clear stack_buff; try clear wild.
  destruct name as [|c r]; [reflexivity|]. cbn [no_slash skip_slashes].
  intros H. apply andb_true_iff in H as [Hc _].
  apply negb_true_iff in Hc. rewrite Hc. reflexivity.
Qed.

Lemma component_no_slash (name : string) :
  no_slash name = true -> component name = (name, EmptyString).
Proof.
  try clear stack_buff; try clear wild.
  induction name as [|c r IH]; [reflexivity|]. cbn [no_slash component].
  intros H. apply andb_true_iff in H as [Hc Hr].
  apply negb_true_iff in Hc. rewrite Hc, (IH Hr). reflexivity.
Qed.

Lemma trace_path_name (name : string) :
  no_slash name = true -> (0 < String.length name <= 14)%nat ->
  trace_path (String "/" name) = Some (EmptyString, false, name).
Proof.
  try clear stack_buff; try clear wild.
  intros Hn Hl. unfold trace_path.
  change (skip_slashes (String "/" name)) with (skip_slashes name).
  rewrite (skip_slashes_no_slash name Hn).
  destruct name as [|c r]; [cbn [String.length] in Hl; lia|].
  rewrite (component_no_slash _ Hn).
  destruct (Z.gtb_spec (Z.of_nat (String.length (String c r))) NAME_MAX)
    as [Hg|Hg]; [unfold NAME_MAX in Hg; lia|reflexivity].
Qed.

Lemma last_char_no_slash (name : string) :
  no_slash name = true -> (0 < String.length name)%nat ->
  exists c, last_char (String "/" name) = Some c /\ Ascii.eqb c "/" = false.
Proof.
  try clear stack_buff; try clear wild.
  intros Hn Hl. destruct name as [|c0 r]; [cbn [String.length] in Hl; lia|].
  change (last_char (String "/" (String c0 r)))
    with (last_char (String c0 r)).
  clear Hl. revert c0 Hn. induction r as [|c1 r IH]; intros c0 Hn.
  - exists c0. cbn [no_slash] in Hn. apply andb_true_iff in Hn as [Hc _].
    apply negb_true_iff in Hc. split; [reflexivity|exact Hc].
  - cbn [no_slash] in Hn. apply andb_true_iff in Hn as [_ Hr].
    change (last_char (String c0 (String c1 r)))
      with (last_char (String c1 r)). apply IH. exact Hr.
Qed.


Lemma same_disk_trans (w1 w2 w3 : world) :
  same_disk w1 w2 -> same_disk w2 w3 -> same_disk w1 w3.
Proof.
  try clear stack_buff; try clear wild.
  intros (A1 & A2 & A3) (B1 & B2 & B3). repeat split; congruence.
Qed.

(** The resolution of "/name" for the leaf: the [dir_lookup] in the
    root, which is then closed. *)
Lemma retrieve_root_leaf (name : string) (w w1 : world) (a : nat)
    (i : inode) :
  no_slash name = true -> (0 < String.length name <= 14)%nat ->
  inode_open ROOT_DIR_SECTOR w = (Some a, w1) ->
  find_inode a w1 = Some i -> removed i = false ->
  retrieve_dir_from_location (String "/" name) false w
  = match dir_lookup (mk_dir a 0) name w1 with
    | Some (Some a2, w2) =>
        match inode_close (Some a) w2 with
        | Some w3 => Some ((Some (mk_dir a2 0), name), w3)
        | None => None
        end
    | Some (None, w2) =>
        match inode_close (Some a) w2 with
        | Some w3 => Some ((None, name), w3)
        | None => None
        end
    | None => None
    end.
Proof.
  intros Hn Hl Hopen Hfind Hrem. unfold retrieve_dir_from_location.
  change (Ascii.eqb "/" "/") with true. cbv iota.
  unfold bind at 1. unfold bind at 1. unfold lift at 1. rewrite Hopen.
  cbn [dir_open]. unfold ret at 1.
  cbn [retrieve_loop String.length]. rewrite (trace_path_name name Hn Hl).
  unfold bind at 1. unfold deref at 1. cbn [d_inode]. rewrite Hfind, Hrem.
  cbn [andb]. unfold bind at 1.
  destruct (dir_lookup (mk_dir a 0) name w1) as [[[a2|] w2]|]; [| |reflexivity].
  - unfold bind at 1. unfold attempt at 1. cbn [d_inode].
    destruct (inode_close (Some a) w2); [|reflexivity].
    cbn [d_pos trace_path]. reflexivity.
  - unfold bind at 1. unfold attempt at 1. cbn [d_inode].
    destruct (inode_close (Some a) w2); reflexivity.
Qed.

(** [filesys_open] of "/name". *)
Lemma filesys_open_root_name (name : string) (w : world) (n : Z) :
  table_ok w -> wf w ROOT_DIR_SECTOR -> entries w ROOT_DIR_SECTOR n ->
  (forall r, find (has_sector ROOT_DIR_SECTOR) (open_inodes w) = Some r ->
             removed r = false) ->
  no_slash name = true -> (0 < String.length name <= 14)%nat ->
  ((forall j, 0 <= j < n ->
              names (name_bytes name) (entry w ROOT_DIR_SECTOR j) = false) ->
   exists w',
     filesys_open (String "/" name) w = Some (None, w')
     /\ same_disk w w' /\ open_inodes w' = open_inodes w)
  /\ (forall j,
         0 <= j < n ->
         names (name_bytes name) (entry w ROOT_DIR_SECTOR j) = true ->
         (forall j', 0 <= j' < j ->
                     names (name_bytes name) (entry w ROOT_DIR_SECTOR j')
                     = false) ->
         e_inode_sector (entry w ROOT_DIR_SECTOR j) <> ROOT_DIR_SECTOR ->
         exists a w' i,
           filesys_open (String "/" name) w = Some (Some a, w')
           /\ same_disk w w'
           /\ find_inode a w' = Some i
           /\ i_sector i = e_inode_sector (entry w ROOT_DIR_SECTOR j)).
Proof.
  intros Hok Hwf Hent Hroot Hn Hl.
  destruct (inode_open_facts ROOT_DIR_SECTOR w Hok)
    as (a & i & Hopen & Hfind & Hsec & Haddr & Hhit & Hmiss & Hoth & Hnext
        & Hundo).
  assert (Hrem : removed i = false).
  { destruct (find (has_sector ROOT_DIR_SECTOR) (open_inodes w)) as [r|] eqn:E.
    - destruct (Hhit r eq_refl) as [Hr _]. rewrite Hr. apply Hroot.
      reflexivity.
    - apply Hmiss. reflexivity. }
  pose proof (same_disk_inode_open ROOT_DIR_SECTOR w) as Hsd.
  pose proof (table_ok_step (Open ROOT_DIR_SECTOR) w
                (snd (inode_open ROOT_DIR_SECTOR w)) eq_refl Hok) as Hok1.
  set (w1 := snd (inode_open ROOT_DIR_SECTOR w)) in *.
  assert (Hwf1 : wf w1 (i_sector i))
    by (rewrite Hsec; exact (same_disk_wf _ _ _ Hsd Hwf)).
  assert (Hent1 : entries w1 (i_sector i) n)
    by (rewrite Hsec; exact (same_disk_entries _ _ _ _ Hsd Hent)).
  assert (Hentry : forall j, entry w1 (i_sector i) j
                             = entry w ROOT_DIR_SECTOR j)
    by (intros j; rewrite Hsec; apply store_entry; apply Hsd).
  pose proof (lookup_find (mk_dir a 0) i name w1 n Hfind Hwf1 Hent1) as Hlook.
  pose proof (retrieve_root_leaf name w w1 a i Hn Hl Hopen Hfind Hrem) as Hres.
  unfold dir_lookup in Hres. unfold bind at 1 in Hres. rewrite Hlook in Hres.
  split.
  - intros Hnone. unfold filesys_open. unfold bind at 1. rewrite Hres.
    assert (E : find_entry w1 (i_sector i) (name_bytes name) 0 (Z.to_nat n)
                = None).
    { apply find_entry_none. intros j Hj. rewrite Hentry. apply Hnone. lia. }
    rewrite E. unfold ret at 1. rewrite (Hundo w1 eq_refl).
    cbn [fst]. unfold ret.
    eexists. split; [reflexivity|]. split; [|reflexivity].
    destruct Hsd as (A & B & C). repeat split; assumption.
  - intros j Hj Hm Hfirst Hnot. unfold filesys_open. unfold bind at 1.
    rewrite Hres.
    assert (E : find_entry w1 (i_sector i) (name_bytes name) 0 (Z.to_nat n)
                = Some (entry w1 (i_sector i) j, DIR_ENTRY_SIZE * j)).
    { apply find_entry_some. exists j. split; [lia|].
      split; [reflexivity|]. split; [reflexivity|].
      split; [rewrite Hentry; exact Hm|].
      intros j' Hj'. rewrite Hentry. apply Hfirst. lia. }
    rewrite E. rewrite Hentry. unfold lift at 1.
    set (s := e_inode_sector (entry w ROOT_DIR_SECTOR j)) in *.
    destruct (inode_open_facts s w1 Hok1)
      as (a2 & i2 & Hopen2 & Hfind2 & Hsec2 & Haddr2 & _ & _ & Hoth2 & _ & _).
    pose proof (same_disk_inode_open s w1) as Hsd2.
    assert (Hroot2 : find_inode a (snd (inode_open s w1)) = Some i)
      by (apply find_inode_open_other; [exact Hok1|exact Hfind|congruence]).
    assert (Hne : a2 <> a).
    { intros Ea. destruct (find_inode_in _ _ _ Hfind) as [Hin Hia].
      apply Hnot. rewrite <- Hsec. symmetry.
      apply Hoth2; [exact Hin|congruence]. }
    destruct (inode_close_other a2 a (snd (inode_open s w1)) i Hroot2 Hrem Hne)
      as (w3 & Hclose & Hkeep & Hsd3).
    rewrite Hopen2. cbn [snd]. rewrite Hclose. cbn [fst].
    destruct (last_char_no_slash name Hn ltac:(lia)) as (c & Hc & Hcs).
    rewrite Hc, Hcs. unfold file_open, ret. cbn [d_inode].
    exists a2, w3, i2.
    split; [reflexivity|]. split; [|split].
    + apply (same_disk_trans _ w1); [exact Hsd|].
      apply (same_disk_trans _ (snd (inode_open s w1))); assumption.
    + rewrite Hkeep. exact Hfind2.
    + exact Hsec2.
Qed.




(** X24: [filesys_open] of "/name", a name with no separator and at
    most [NAME_MAX] characters, on a root directory that is a table of
    entries in allocated sectors and is not removed. When no entry in
    use carries the name it returns null, with the open table and the
    disk as they were. When one does, and its sector is not the
    root's, it returns a handle on the inode of the sector the first
    such entry names; the disk is as it was. *)
Theorem filesys_open_by_name (name : string) (w : world) (n : Z) :
  table_ok w -> wf w ROOT_DIR_SECTOR -> entries w ROOT_DIR_SECTOR n ->
  (forall r, find (has_sector ROOT_DIR_SECTOR) (open_inodes w) = Some r ->
             removed r = false) ->
  no_slash name = true -> (0 < String.length name <= 14)%nat ->
  ((forall j, 0 <= j < n ->
              names (name_bytes name) (entry w ROOT_DIR_SECTOR j) = false) ->
   exists w',
     filesys_open (String "/" name) w = Some (None, w')
     /\ same_disk w w' /\ open_inodes w' = open_inodes w)
  /\ (forall j,
         0 <= j < n ->
         names (name_bytes name) (entry w ROOT_DIR_SECTOR j) = true ->
         (forall j', 0 <= j' < j ->
                     names (name_bytes name) (entry w ROOT_DIR_SECTOR j')
                     = false) ->
         e_inode_sector (entry w ROOT_DIR_SECTOR j) <> ROOT_DIR_SECTOR ->
         exists a w' i,
           filesys_open (String "/" name) w = Some (Some a, w')
           /\ same_disk w w'
           /\ find_inode a w' = Some i
           /\ i_sector i = e_inode_sector (entry w ROOT_DIR_SECTOR j)).
Proof. exact (filesys_open_root_name name w n). Qed.


(** ** [filesys_remove] of a directory that is not empty *)

Lemma table_ok_same_table (w w' : world) :
  same_table w w' -> table_ok w -> table_ok w'.
Proof.
  try clear stack_buff; try clear wild.
  intros (Ht & Hn & _) H. unfold table_ok. rewrite Ht, Hn. exact H.
Qed.

Lemma lookup_loop_same_table (fuel : nat) :
  forall a name ofs w r w',
    lookup_loop fuel a name ofs w = Some (r, w') -> same_table w w'.
Proof.
  induction fuel as [|fuel IH]; intros a name ofs w r w' H;
    cbn [lookup_loop] in H; [discriminate|].
  unfold bind at 1 in H. unfold read_at in H. unfold bind at 1 in H.
  unfold deref in H. destruct (find_inode a w) as [i|]; [|discriminate].
  unfold lift in H.
  pose proof (same_table_inode_read_at i DIR_ENTRY_SIZE ofs w) as Hs.
  destruct (inode_read_at i DIR_ENTRY_SIZE ofs w) as [e w1]. cbn [snd] in Hs.
  destruct (Z.of_nat (List.length e) =? DIR_ENTRY_SIZE).
  - destruct (e_in_use e && bytes_eqb name (e_name e)).
    + unfold ret in H. inversion H; subst. exact Hs.
    + apply IH in H. exact (same_table_trans _ _ _ Hs H).
  - unfold ret in H. inversion H; subst. exact Hs.
Qed.

(** What [dir_lookup] does to the open table: nothing, or the
    [inode_open] of the sector found. *)
Lemma dir_lookup_inv (d : dir) (name : string) (w w' : world)
    (r : option nat) :
  dir_lookup d name w = Some (r, w') ->
  exists w0,
    same_table w w0
    /\ ((r = None /\ w' = w0) \/ exists s, inode_open s w0 = (r, w')).
Proof.
  unfold dir_lookup, lookup, scan_fuel, bind, deref.
  destruct (find_inode (d_inode d) w) as [i|]; [|discriminate].
  destruct (lookup_loop _ _ _ _ w) as [[r0 w0]|] eqn:E; [|discriminate].
  apply lookup_loop_same_table in E. intros H. exists w0.
  split; [exact E|].
  destruct r0 as [[e ofs]|].
  - right. exists (e_inode_sector e). unfold lift in H.
    apply some_inj in H. exact H.
  - left. unfold ret in H. inversion H; subst. auto.
Qed.

Lemma dir_lookup_table_ok (d : dir) (name : string) (w w' : world)
    (r : option nat) :
  dir_lookup d name w = Some (r, w') -> table_ok w -> table_ok w'.
Proof.
  intros H Hok. destruct (dir_lookup_inv d name w w' r H) as (w0 & Hs & Hr).
  pose proof (table_ok_same_table w w0 Hs Hok) as Hok0.
  destruct Hr as [[_ E]|[s E]]; [subst w'; exact Hok0|].
  apply (table_ok_step (Open s) w0 w'); [|exact Hok0].
  cbn [run_inode_op]. rewrite E. reflexivity.
Qed.

Lemma retrieve_loop_table_ok (fuel : nat) :
  forall d path fn b w r w',
    retrieve_loop fuel d path fn b w = Some (r, w') ->
    table_ok w -> table_ok w'.
Proof.
  induction fuel as [|fuel IH]; intros d path fn b w r w' H Hok;
    cbn [retrieve_loop] in H; [discriminate|].
  destruct (trace_path path) as [[[rest too_long] name]|];
    [|unfold ret in H; inversion H; subst; exact Hok].
  destruct too_long; [unfold ret in H; inversion H; subst; exact Hok|].
  destruct d as [dd0|]; [|discriminate].
  unfold bind at 1 in H. unfold deref in H.
  destruct (find_inode (d_inode dd0) w) as [i0|]; [|discriminate].
  destruct (removed i0); [unfold ret in H; inversion H; subst; exact Hok|].
  destruct (b && Nat.eqb (String.length rest) 0);
    [unfold ret in H; inversion H; subst; exact Hok|].
  unfold bind at 1 in H.
  destruct (dir_lookup dd0 name w) as [[temp w1]|] eqn:El; [|discriminate].
  unfold bind at 1 in H. unfold attempt at 1 in H.
  destruct (inode_close (Some (d_inode dd0)) w1) as [w2|] eqn:Ec;
    [|discriminate].
  pose proof (dir_lookup_table_ok _ _ _ _ _ El Hok) as Hok1.
  pose proof (table_ok_step (Close (d_inode dd0)) w1 w2 Ec Hok1) as Hok2.
  destruct temp as [a|]; [|unfold ret in H; inversion H; subst; exact Hok2].
  exact (IH _ _ _ _ _ _ _ H Hok2).
Qed.

Lemma retrieve_table_ok (path : string) (b : bool) (w w' : world)
    (r : option dir * string) :
  retrieve_dir_from_location path b w = Some (r, w') ->
  table_ok w -> table_ok w'.
Proof.
  unfold retrieve_dir_from_location. destruct path as [|c p];
    [unfold ret; intros H Hok; inversion H; subst; exact Hok|].
  unfold bind at 1. intros H Hok.
  destruct (Ascii.eqb c "/").
  - unfold bind at 1 in H. unfold lift at 1 in H.
    pose proof (table_ok_step (Open ROOT_DIR_SECTOR) w _ eq_refl Hok) as Hok1.
    destruct (inode_open ROOT_DIR_SECTOR w) as [p0 w1]. cbn [snd] in Hok1.
    destruct p0 as [a|]; cbn [dir_open] in H.
    + unfold ret at 1 in H.
      exact (retrieve_loop_table_ok _ _ _ _ _ _ _ _ H Hok1).
    + unfold bind at 1 in H. unfold attempt at 1 in H.
      cbn [inode_close] in H. unfold ret at 1 in H.
      exact (retrieve_loop_table_ok _ _ _ _ _ _ _ _ H Hok1).
  - unfold bind at 1 in H. unfold bind at 1 in H. unfold lift at 1 in H.
    destruct (curr_inode w) as [a|].
    + pose proof (table_ok_step (Reopen a) w _ eq_refl Hok) as Hok1.
      cbn [inode_reopen dir_open snd] in H, Hok1. unfold ret at 1 in H.
      exact (retrieve_loop_table_ok _ _ _ _ _ _ _ _ H Hok1).
    + cbn [inode_reopen dir_open] in H.
      unfold bind at 1 in H. unfold attempt at 1 in H.
      cbn [inode_close] in H. unfold ret at 1 in H.
      exact (retrieve_loop_table_ok _ _ _ _ _ _ _ _ H Hok).
Qed.

(** The directory that comes back as the parent is open and is not
    marked removed. *)
Lemma retrieve_loop_parent_open (fuel : nat) :
  forall d path fn0 w dd fn w',
    retrieve_loop fuel d path fn0 true w = Some ((Some dd, fn), w') ->
    exists i0, find_inode (d_inode dd) w' = Some i0 /\ removed i0 = false.
Proof.
  induction fuel as [|fuel IH]; intros d path fn0 w dd fn w' H;
    cbn [retrieve_loop] in H; [discriminate|].
  destruct (trace_path path) as [[[rest too_long] name]|];
    [|inversion H].
  destruct too_long; [inversion H|].
  destruct d as [dd0|]; [|discriminate].
  unfold bind at 1 in H. unfold deref in H.
  destruct (find_inode (d_inode dd0) w) as [i0|] eqn:Ef; [|discriminate].
  destruct (removed i0) eqn:Er; [inversion H|]. cbn [andb] in H.
  destruct (Nat.eqb (String.length rest) 0).
  - unfold ret in H. inversion H; subst. exists i0. auto.
  - unfold bind at 1 in H.
    destruct (dir_lookup dd0 name w) as [[temp w1]|]; [|discriminate].
    unfold bind at 1 in H. unfold attempt at 1 in H.
    destruct (inode_close (Some (d_inode dd0)) w1) as [w2|]; [|discriminate].
    destruct temp as [a|]; [|inversion H].
    exact (IH _ _ _ _ _ _ _ H).
Qed.

Lemma retrieve_parent_open (path : string) (w w' : world) (dd : dir)
    (fn : string) :
  retrieve_dir_from_location path true w = Some ((Some dd, fn), w') ->
  exists i0, find_inode (d_inode dd) w' = Some i0 /\ removed i0 = false.
Proof.
  unfold retrieve_dir_from_location. destruct path as [|c p]; [discriminate|].
  unfold bind at 1.
  match goal with
  | |- context [match ?m w with _ => _ end] => destruct (m w) as [[d w1]|]
  end; [|discriminate].
  apply retrieve_loop_parent_open.
Qed.

(** C7: a directory that has an entry in use beyond its first two is
    not removed. From an open table in order (addresses distinct,
    counts positive, as [inode_open], [inode_reopen] and [inode_close]
    keep it), when the path resolves to a directory [f] whose file has
    its sectors in place and whose entry [j], [2 <= j], is in use,
    [filesys_remove] returns false, and no sector differs from what it
    held when the entry of [f] was found in its parent. *)
Theorem filesys_remove_keeps_nonempty_dir (name : string) (w : world)
    (dd : dir) (file_name : string) (w1 : world) (f : nat) (w2 : world)
    (i : inode) (j : Z) :
  table_ok w ->
  retrieve_dir_from_location name true w = Some ((Some dd, file_name), w1) ->
  dir_lookup dd file_name w1 = Some (Some f, w2) ->
  find_inode f w2 = Some i ->
  is_directory i w2 = true ->
  readable w2 (i_sector i) (inode_length i w2) ->
  2 <= j ->
  DIR_ENTRY_SIZE * (j + 1) <= inode_length i w2 ->
  e_in_use (file_bytes w2 (i_sector i) (DIR_ENTRY_SIZE * j) DIR_ENTRY_SIZE)
  = true ->
  exists w',
    filesys_remove name w = Some (false, w') /\ store w' = store w2.
Proof.
  intros Hok Hres Hlook Hfind Hdir Hr Hj Hlen Huse.
  pose proof (retrieve_table_ok _ _ _ _ _ Hres Hok) as Hok1.
  destruct (retrieve_parent_open _ _ _ _ _ Hres) as (i0 & Hf0 & Hr0).
  destruct (dir_lookup_inv _ _ _ _ _ Hlook) as (w0 & Hs0 & Hopen).
  destruct Hopen as [[E _]|[s Hopen]]; [discriminate|].
  pose proof (table_ok_same_table _ _ Hs0 Hok1) as Hok0.
  destruct (inode_open_facts s w0 Hok0)
    as (a & t & Hopen' & _ & _ & _ & _ & _ & _ & _ & Hundo).
  rewrite Hopen in Hopen', Hundo. cbn [snd] in Hundo.
  injection Hopen' as Ea. subst a.
  assert (Hclose : inode_close (Some f) w2
                   = Some (set_open_inodes w2 (open_inodes w0)))
    by (apply Hundo; reflexivity).
  set (w3 := set_open_inodes w2 (open_inodes w0)) in *.
  destruct (inode_close_kept (d_inode dd) w3) as (l & Hclose2 & _).
  { intros i1 Hi1. unfold find_inode, w3 in Hi1.
    cbn [set_open_inodes open_inodes] in Hi1.
    rewrite (proj1 Hs0) in Hi1. fold (find_inode (d_inode dd) w1) in Hi1.
    congruence. }
  unfold filesys_remove. unfold bind at 1. rewrite Hres.
  unfold bind at 1. rewrite Hlook.
  unfold bind at 1. unfold deref at 1. rewrite Hfind.
  unfold bind at 1. rewrite Hdir.
  unfold bind at 1.
  assert (Hempty : is_empty_dir f w2 = Some (false, w2)).
  { unfold is_empty_dir, bind, deref, scan_fuel. rewrite Hfind.
    unfold bind, deref. rewrite Hfind.
    change (2 * DIR_ENTRY_SIZE) with (DIR_ENTRY_SIZE * 2).
    apply (is_empty_loop_finds i w2 j Hr Hlen Huse (Z.to_nat (j - 2))); try lia.
    unfold DIR_ENTRY_SIZE in *.
    assert (j + 1 <= inode_length i w2 / 20) by zdiv. lia. }
  rewrite Hempty. cbn [andb negb].
  unfold bind at 1. unfold attempt at 1. rewrite Hclose.
  unfold bind at 1. cbn [dir_close]. unfold attempt at 1. rewrite Hclose2.
  unfold ret. eexists. split; [reflexivity|]. reflexivity.
Qed.

End Filesys.

(** ** The buffer cache: a dirty slot is written back before it is reused *)

(** What a pass of [find_buffer] leaves of a slot: all but [accessed]. *)
Definition same_slot (c c' : cache) : Prop :=
  c_id c' = c_id c /\ c_data c' = c_data c
  /\ disk_sector c' = disk_sector c /\ is_available c' = is_available c
  /\ is_dirty c' = is_dirty c.

(** Every slot of [l'] is a slot of [l] with the sector it held. *)
Definition keeps_sectors (l l' : list cache) : Prop :=
  forall c', In c' l' ->
    exists c, In c l /\ c_id c = c_id c' /\ disk_sector c = disk_sector c'.

Lemma same_slot_refl (c : cache) : same_slot c c.
Proof. unfold same_slot. tauto. Qed.

Lemma same_slot_trans (a b c : cache) :
  same_slot a b -> same_slot b c -> same_slot a c.
Proof.
  unfold same_slot. intros (?&?&?&?&?) (?&?&?&?&?).
  repeat split; congruence.
Qed.

Lemma Forall2_same_refl (l : list cache) : Forall2 same_slot l l.
Proof. induction l; constructor; auto using same_slot_refl. Qed.

Lemma Forall2_same_trans (l1 l2 l3 : list cache) :
  Forall2 same_slot l1 l2 -> Forall2 same_slot l2 l3 ->
  Forall2 same_slot l1 l3.
Proof.
  intros H. revert l3. induction H as [|a b l1 l2 Hab H IH]; intros l3 H3;
    inversion H3; subst; constructor; eauto using same_slot_trans.
Qed.

Lemma scan_same (sector : Z) (l : list cache) :
  forall temp_buf, Forall2 same_slot l (fst (scan sector l temp_buf)).
Proof.
  induction l as [|buf rest IH]; intros temp_buf; cbn [scan fst];
    [constructor|].
  destruct (sector =? disk_sector buf); [apply Forall2_same_refl|].
  destruct (is_available buf) eqn:Ea; [destruct (accessed buf)|].
  - specialize (IH temp_buf). destruct (scan sector rest temp_buf) as [r x].
    cbn [fst] in *. constructor; [|exact IH]. unfold same_slot.
    cbn [c_id c_data disk_sector is_available is_dirty]. rewrite Ea. tauto.
  - match goal with
    | |- context [scan sector rest ?t] =>
        specialize (IH t); destruct (scan sector rest t) as [r x]
    end.
    cbn [fst] in *. constructor; [apply same_slot_refl|exact IH].
  - specialize (IH temp_buf). destruct (scan sector rest temp_buf) as [r x].
    cbn [fst] in *. constructor; [apply same_slot_refl|exact IH].
Qed.

Lemma find_buffer_same (sector : Z) (l l' : list cache) (b : nat) :
  find_buffer sector l = Some (b, l') -> Forall2 same_slot l l'.
Proof.
  unfold find_buffer. intros H.
  pose proof (scan_same sector l None) as H1.
  destruct (scan sector l None) as [l1 [[m|] t]]; cbn [fst] in H1.
  - inversion H; subst. exact H1.
  - destruct t as [t|]; [inversion H; subst; exact H1|].
    pose proof (scan_same sector l1 None) as H2.
    destruct (scan sector l1 None) as [l2 [[m2|] [t2|]]]; cbn [fst] in H2;
      inversion H; subst; eauto using Forall2_same_trans.
Qed.

Lemma Forall2_same_ids (l l' : list cache) :
  Forall2 same_slot l l' -> map c_id l' = map c_id l.
Proof.
  induction 1 as [|a b l l' Hab H IH]; cbn [map]; [reflexivity|].
  destruct Hab as [E _]. rewrite E, IH. reflexivity.
Qed.

Lemma Forall2_same_in_r (l l' : list cache) (c' : cache) :
  Forall2 same_slot l l' -> In c' l' -> exists c, In c l /\ same_slot c c'.
Proof.
  induction 1 as [|a b l l' Hab H IH]; cbn [In]; [tauto|].
  intros [E|Hin]; [subst; eauto|].
  destruct (IH Hin) as (c & Hc & Hs). eauto.
Qed.

Lemma NoDup_ids_inj (l : list cache) (c c' : cache) :
  NoDup (map c_id l) -> In c l -> In c' l -> c_id c = c_id c' -> c = c'.
Proof.
  induction l as [|x l IH]; cbn [map In]; [tauto|].
  intros Hnd Hc Hc' E. inversion Hnd as [|y ys Hnin Hnd']; subst.
  destruct Hc as [Hc|Hc]; destruct Hc' as [Hc'|Hc']; subst; auto.
  - exfalso. apply Hnin. rewrite E. apply in_map. exact Hc'.
  - exfalso. apply Hnin. rewrite <- E. apply in_map. exact Hc.
Qed.

Lemma same_slot_of_id (l l' : list cache) (c c' : cache) :
  Forall2 same_slot l l' -> NoDup (map c_id l) ->
  In c l -> In c' l' -> c_id c' = c_id c -> same_slot c c'.
Proof.
  intros HF Hnd Hc Hc' E.
  destruct (Forall2_same_in_r l l' c' HF Hc') as (c0 & Hc0 & Hs).
  assert (c0 = c).
  { apply (NoDup_ids_inj l); auto. destruct Hs as [E0 _]. congruence. }
  subst. exact Hs.
Qed.

Lemma in_update_slot (b : nat) (f : cache -> cache) (l : list cache)
    (c' : cache) :
  In c' (update_slot b f l) ->
  exists c, In c l /\ c' = if Nat.eqb (c_id c) b then f c else c.
Proof.
  unfold update_slot. intros H. apply in_map_iff in H.
  destruct H as (c & E & Hc). eauto.
Qed.

Lemma ids_update_slot (b : nat) (f : cache -> cache) (l : list cache) :
  (forall c, c_id (f c) = c_id c) ->
  map c_id (update_slot b f l) = map c_id l.
Proof.
  intros Hf. unfold update_slot. rewrite map_map. apply map_ext.
  intros c. destruct (Nat.eqb (c_id c) b); [apply Hf|reflexivity].
Qed.

Lemma find_slot_some (b : nat) (l : list cache) (buf : cache) :
  find_slot b l = Some buf -> In buf l /\ c_id buf = b.
Proof.
  unfold find_slot. intros H. apply find_some in H.
  destruct H as [H1 H2]. apply Nat.eqb_eq in H2. auto.
Qed.

Lemma keeps_sectors_refl (l : list cache) : keeps_sectors l l.
Proof. intros c Hc. eauto. Qed.

Lemma keeps_sectors_trans (l1 l2 l3 : list cache) :
  keeps_sectors l1 l2 -> keeps_sectors l2 l3 -> keeps_sectors l1 l3.
Proof.
  intros H12 H23 c3 H3. destruct (H23 c3 H3) as (c2 & H2 & E1 & E2).
  destruct (H12 c2 H2) as (c1 & H1 & E3 & E4).
  exists c1. repeat split; congruence.
Qed.

Lemma keeps_sectors_update (b : nat) (f : cache -> cache) (l : list cache) :
  (forall c, c_id (f c) = c_id c) ->
  (forall c, disk_sector (f c) = disk_sector c) ->
  keeps_sectors l (update_slot b f l).
Proof.
  intros Hid Hsec c' Hc'. apply in_update_slot in Hc'.
  destruct Hc' as (c & Hc & E). exists c. split; [exact Hc|].
  subst c'. destruct (Nat.eqb (c_id c) b); auto.
Qed.

Lemma keeps_sectors_deallocate (b : nat) (dirty : bool) (st st' : cache_state) :
  deallocate_buffer b dirty st = Some st' ->
  keeps_sectors (cache_list st) (cache_list st').
Proof.
  unfold deallocate_buffer. destruct (find_slot b (cache_list st)) as [buf|] eqn:E;
    [|discriminate].
  intros H. inversion H; subst; clear H. cbn [cache_list].
  apply find_slot_some in E. destruct E as [Hin Hb].
  intros c' Hc'. apply in_app_or in Hc'. destruct Hc' as [Hc'|[Hc'|[]]].
  - apply filter_In in Hc'. destruct Hc' as [Hc' _]. eauto.
  - subst c'. exists buf. cbn. auto.
Qed.

Lemma NoDup_snoc {A : Type} (l : list A) (x : A) :
  NoDup l -> ~ In x l -> NoDup (l ++ [x]).
Proof.
  induction l as [|y l IH]; cbn [app]; intros Hnd Hnin.
  - constructor; [tauto|constructor].
  - inversion Hnd; subst. constructor.
    + intros Hin. apply in_app_or in Hin. cbn [In] in *.
      destruct Hin as [Hin|[Hin|[]]]; [tauto|subst; tauto].
    + apply IH; [assumption|]. cbn [In] in Hnin. tauto.
Qed.

Lemma NoDup_deallocate (b : nat) (dirty : bool) (st st' : cache_state) :
  NoDup (map c_id (cache_list st)) ->
  deallocate_buffer b dirty st = Some st' ->
  NoDup (map c_id (cache_list st')).
Proof.
  unfold deallocate_buffer. intros Hnd.
  destruct (find_slot b (cache_list st)) as [buf|] eqn:E; [|discriminate].
  intros H. inversion H; subst; clear H. cbn [cache_list].
  apply find_slot_some in E. destruct E as [Hin Hb]. subst b.
  rewrite map_app. cbn [map c_id]. apply NoDup_snoc.
  - clear Hin. induction (cache_list st) as [|x l IH]; cbn [filter map];
      [constructor|].
    cbn [map] in Hnd. inversion Hnd as [|y ys Hnin Hnd']; subst.
    destruct (negb (Nat.eqb (c_id x) (c_id buf))); cbn [map]; auto.
    constructor; auto. intros Hi. apply Hnin.
    apply in_map_iff in Hi. destruct Hi as (z & Ez & Hz).
    apply filter_In in Hz. apply in_map_iff. exists z. tauto.
  - intros Hi. apply in_map_iff in Hi. destruct Hi as (z & Ez & Hz).
    apply filter_In in Hz. destruct Hz as [_ Hz].
    rewrite Ez, Nat.eqb_refl in Hz. discriminate.
Qed.

Lemma write_dirty_loop_keeps (fuel : nat) :
  forall st st',
    NoDup (map c_id (cache_list st)) ->
    write_dirty_loop fuel st = Some st' ->
    keeps_sectors (cache_list st) (cache_list st')
    /\ NoDup (map c_id (cache_list st')).
Proof.
  induction fuel as [|fuel IH]; intros st st' Hnd; cbn [write_dirty_loop];
    destruct (first_dirty (cache_list st)) as [buf|];
    try discriminate;
    try (intros H; inversion H; subst; split;
         [apply keeps_sectors_refl|exact Hnd]).
  destruct (is_available buf); [|discriminate].
  match goal with
  | |- context [deallocate_buffer ?b ?d ?s] =>
      set (st1 := s); destruct (deallocate_buffer b d st1) as [st2|] eqn:E
  end; [|discriminate].
  intros H.
  assert (Hk1 : keeps_sectors (cache_list st) (cache_list st1))
    by (apply keeps_sectors_update; reflexivity).
  assert (Hn1 : NoDup (map c_id (cache_list st1))).
  { subst st1. cbn [cache_list]. rewrite ids_update_slot; auto. }
  pose proof (keeps_sectors_deallocate _ _ _ _ E) as Hk2.
  pose proof (NoDup_deallocate _ _ _ _ Hn1 E) as Hn2.
  destruct (IH st2 st' Hn2 H) as [Hk3 Hn3].
  split; [|exact Hn3].
  eauto using keeps_sectors_trans.
Qed.

Lemma allocate_buffer_ids (sector : Z) (st st' : cache_state) (b : nat) :
  allocate_buffer sector st = Some (b, st') ->
  map c_id (cache_list st') = map c_id (cache_list st).
Proof.
  unfold allocate_buffer.
  destruct (find_buffer sector (cache_list st)) as [[b0 l]|] eqn:EF;
    [|discriminate].
  destruct (find_slot b0 l) as [buf|]; [|discriminate].
  pose proof (Forall2_same_ids _ _ (find_buffer_same _ _ _ _ EF)) as Hids.
  destruct (sector =? disk_sector buf).
  - destruct (is_available buf); [|discriminate].
    intros H. inversion H; subst. cbn [cache_list].
    rewrite ids_update_slot; auto.
  - intros H. inversion H; subst. cbn [cache_list].
    rewrite ids_update_slot; auto.
Qed.

Lemma run_op_NoDup (op : cache_op) (st st' : cache_state) :
  NoDup (map c_id (cache_list st)) ->
  run_op op st = Some st' ->
  NoDup (map c_id (cache_list st')).
Proof.
  intros Hnd. destruct op as [s|b dirty|b d|]; cbn [run_op].
  - destruct (allocate_buffer s st) as [[b st1]|] eqn:E; [|discriminate].
    cbn [option_map snd]. intros H. inversion H; subst.
    rewrite (allocate_buffer_ids _ _ _ _ E). exact Hnd.
  - apply NoDup_deallocate. exact Hnd.
  - unfold store_data. destruct (find_slot b (cache_list st)); [|discriminate].
    intros H. inversion H; subst. cbn [cache_list].
    rewrite ids_update_slot; auto.
  - unfold write_dirty_to_disk. intros H.
    apply (write_dirty_loop_keeps _ _ _ Hnd H).
Qed.

Lemma run_ops_NoDup (ops : list cache_op) :
  forall st st',
    NoDup (map c_id (cache_list st)) ->
    run_ops ops st = Some st' ->
    NoDup (map c_id (cache_list st')).
Proof.
  induction ops as [|op ops IH]; intros st st' Hnd; cbn [run_ops].
  - intros H. inversion H; subst. exact Hnd.
  - destruct (run_op op st) as [st1|] eqn:E; [|discriminate].
    apply IH. exact (run_op_NoDup _ _ _ Hnd E).
Qed.

Lemma init_cache_NoDup (junk : nat -> cache) (d : Z -> sector_data) :
  NoDup (map c_id (cache_list (init_cache junk d))).
Proof.
  unfold init_cache. cbn [cache_list]. rewrite map_map. cbn [c_id].
  rewrite map_id. apply seq_NoDup.
Qed.

(** A sector held by a slot changes in [allocate_buffer] only, and
    there a dirty slot is written to the device before the new sector
    is read into it. *)
Lemma writeback_before_reuse (op : cache_op) (st st' : cache_state)
    (c c' : cache) :
  NoDup (map c_id (cache_list st)) ->
  run_op op st = Some st' ->
  In c (cache_list st) -> In c' (cache_list st') ->
  c_id c' = c_id c -> is_dirty c = true ->
  disk_sector c' <> disk_sector c ->
  dev_log st'
  = BlockRead (disk_sector c') :: BlockWrite (disk_sector c) (c_data c)
      :: dev_log st.
Proof.
  intros Hnd Hrun Hc Hc' Eid Hdirty Hsec.
  assert (Hkeep : keeps_sectors (cache_list st) (cache_list st') -> False).
  { intros Hk. destruct (Hk c' Hc') as (c0 & Hc0 & E1 & E2).
    assert (c0 = c) by (apply (NoDup_ids_inj (cache_list st)); auto; congruence).
    subst. congruence. }
  destruct op as [s|b dirty|b d|]; cbn [run_op] in Hrun.
  - destruct (allocate_buffer s st) as [[b st1]|] eqn:E; [|discriminate].
    cbn [option_map snd] in Hrun. inversion Hrun; subst st1; clear Hrun.
    unfold allocate_buffer in E.
    destruct (find_buffer s (cache_list st)) as [[b0 l]|] eqn:EF;
      [|discriminate].
    pose proof (find_buffer_same _ _ _ _ EF) as HF.
    destruct (find_slot b0 l) as [buf|] eqn:ES; [|discriminate].
    apply find_slot_some in ES. destruct ES as [Hbuf Hb0].
    destruct (s =? disk_sector buf).
    + destruct (is_available buf); [|discriminate].
      inversion E; subst; clear E. cbn [cache_list] in Hc'.
      apply in_update_slot in Hc'. destruct Hc' as (c1 & Hc1 & E1).
      assert (Hs : same_slot c c1).
      { apply (same_slot_of_id _ _ _ _ HF Hnd Hc Hc1).
        subst c'. destruct (Nat.eqb (c_id c1) (c_id buf)); cbn in Eid; auto. }
      destruct Hs as (_ & _ & Hs & _). exfalso. apply Hsec. subst c'.
      destruct (Nat.eqb (c_id c1) (c_id buf)); cbn; auto.
    + inversion E; subst; clear E. cbn [cache_list dev_log] in *.
      apply in_update_slot in Hc'. destruct Hc' as (c1 & Hc1 & E1).
      destruct (Nat.eqb (c_id c1) (c_id buf)) eqn:Eb.
      * apply Nat.eqb_eq in Eb. subst c'.
        cbn [c_id disk_sector] in *.
        assert (Hs : same_slot c buf).
        { apply (same_slot_of_id _ _ _ _ HF Hnd Hc Hbuf). congruence. }
        destruct Hs as (_ & Hd & Hs & _ & Hdi).
        rewrite Hdi, Hdirty, Hd, Hs. reflexivity.
      * subst c'.
        assert (Hs : same_slot c c1)
          by (apply (same_slot_of_id _ _ _ _ HF Hnd Hc Hc1); auto).
        destruct Hs as (_ & _ & Hs & _). congruence.
  - exfalso. apply Hkeep. eapply keeps_sectors_deallocate. exact Hrun.
  - exfalso. apply Hkeep. unfold store_data in Hrun.
    destruct (find_slot b (cache_list st)); [|discriminate].
    inversion Hrun; subst. cbn [cache_list].
    apply keeps_sectors_update; reflexivity.
  - exfalso. apply Hkeep. unfold write_dirty_to_disk in Hrun.
    apply (write_dirty_loop_keeps _ _ _ Hnd Hrun).
Qed.

(** C9: in every run of buffer-cache operations that starts from
    [init_cache], when an operation changes the sector a slot holds
    and the slot was dirty, the operation is an [allocate_buffer] that
    first wrote the slot's data to the sector it held ([block_write])
    and only then read the new sector into it. *)
Theorem dirty_slot_written_before_reuse (junk : nat -> cache)
    (d : Z -> sector_data) (ops : list cache_op) (op : cache_op)
    (st st' : cache_state) (c c' : cache) :
  run_ops ops (init_cache junk d) = Some st ->
  run_op op st = Some st' ->
  In c (cache_list st) -> In c' (cache_list st') ->
  c_id c' = c_id c -> is_dirty c = true ->
  disk_sector c' <> disk_sector c ->
  dev_log st'
  = BlockRead (disk_sector c') :: BlockWrite (disk_sector c) (c_data c)
      :: dev_log st
  /\ (exists s, op = Allocate s).
Proof.
  intros Hops Hop Hc Hc' Eid Hdirty Hsec.
  assert (Hnd : NoDup (map c_id (cache_list st)))
    by (eapply run_ops_NoDup; [apply init_cache_NoDup|exact Hops]).
  pose proof (writeback_before_reuse op st st' c c' Hnd Hop Hc Hc' Eid Hdirty
                Hsec) as Hlog.
  split; [exact Hlog|].
  destruct op as [s|b dirty|b dd|]; [eauto| | |]; exfalso.
  - cbn [run_op] in Hop. unfold deallocate_buffer in Hop.
    destruct (find_slot b (cache_list st)); [|discriminate].
    inversion Hop; subst. cbn [dev_log] in Hlog.
    apply (f_equal (@List.length dev_event)) in Hlog. cbn [List.length] in Hlog. lia.
  - cbn [run_op] in Hop. unfold store_data in Hop.
    destruct (find_slot b (cache_list st)); [|discriminate].
    inversion Hop; subst. cbn [dev_log] in Hlog.
    apply (f_equal (@List.length dev_event)) in Hlog. cbn [List.length] in Hlog. lia.
  - cbn [run_op] in Hop. unfold write_dirty_to_disk in Hop.
    destruct (write_dirty_loop_keeps _ _ _ Hnd Hop) as [Hk _].
    destruct (Hk c' Hc') as (c0 & Hc0 & E1 & E2).
    assert (c0 = c) by (apply (NoDup_ids_inj (cache_list st)); auto; congruence).
    subst. congruence.
Qed.

(** ** The buffer cache: its calls return *)

(** No slot is held by a caller. *)
Definition all_available (l : list cache) : Prop :=
  Forall (fun c => is_available c = true) l.

Lemma all_available_same (l l' : list cache) :
  Forall2 same_slot l l' -> all_available l -> all_available l'.
Proof.
  induction 1 as [|a b l l' Hab H IH]; intros Ha; [constructor|].
  inversion Ha; subst. constructor; [|apply IH; assumption].
  destruct Hab as (_ & _ & _ & E & _). congruence.
Qed.

(** A pass that starts with [temp_buf] set ends with it set. *)
Lemma scan_keeps_temp (sector : Z) (l : list cache) (t : nat) :
  snd (snd (scan sector l (Some t))) = Some t.
Proof.
  induction l as [|buf rest IH]; cbn [scan snd]; [reflexivity|].
  destruct (sector =? disk_sector buf); [reflexivity|].
  destruct (is_available buf); [destruct (accessed buf)|];
    destruct (scan sector rest (Some t)) as [r x]; exact IH.
Qed.

(** A pass over available slots that finds nothing has cleared every
    [accessed] bit. *)
Lemma scan_clears (sector : Z) (l : list cache) :
  all_available l ->
  snd (scan sector l None) = (None, None) ->
  Forall (fun c => accessed c = false) (fst (scan sector l None)).
Proof.
  induction l as [|buf rest IH]; intros Ha; cbn [scan fst snd];
    [constructor|].
  inversion Ha as [|x xs Hb Hr]; subst.
  destruct (sector =? disk_sector buf); [discriminate|].
  rewrite Hb. destruct (accessed buf) eqn:Eacc.
  - destruct (scan sector rest None) as [r x] eqn:E. cbn [fst snd] in *.
    intros Hx. constructor; [reflexivity|]. apply IH; assumption.
  - pose proof (scan_keeps_temp sector rest (c_id buf)) as Hk.
    destruct (scan sector rest (Some (c_id buf))) as [r [m t]].
    cbn [fst snd] in *. intros Hx. inversion Hx; subst. discriminate.
Qed.

(** A pass over available slots whose [accessed] bits are clear finds
    a slot. *)
Lemma scan_finds (sector : Z) (l : list cache) :
  l <> [] -> all_available l -> Forall (fun c => accessed c = false) l ->
  snd (scan sector l None) <> (None, None).
Proof.
  destruct l as [|buf rest]; [congruence|]. intros _ Ha Hc.
  inversion Ha as [|x xs Hb Hr]; subst. inversion Hc as [|y ys Hacc Hcr]; subst.
  cbn [scan]. destruct (sector =? disk_sector buf); [cbn; congruence|].
  rewrite Hb, Hacc.
  pose proof (scan_keeps_temp sector rest (c_id buf)) as Hk.
  destruct (scan sector rest (Some (c_id buf))) as [r [m t]].
  cbn [fst snd] in *. subst t. congruence.
Qed.

(** The slot a pass names is one of the slots. *)
Lemma scan_names_slot (sector : Z) (l : list cache) :
  forall t,
    (forall b, fst (snd (scan sector l t)) = Some b ->
               In b (map c_id (fst (scan sector l t))))
    /\ (forall b, snd (snd (scan sector l t)) = Some b ->
                  t = Some b \/ In b (map c_id (fst (scan sector l t)))).
Proof.
  induction l as [|buf rest IH]; intros t; cbn [scan fst snd].
  - split; [discriminate|auto].
  - destruct (sector =? disk_sector buf).
    + cbn [fst snd map In]. split; [|auto].
      intros b H. inversion H. auto.
    + destruct (is_available buf); [destruct (accessed buf)|].
      * destruct (IH t) as [H1 H2].
        destruct (scan sector rest t) as [r [m x]]. cbn [fst snd map In c_id] in *.
        split; [auto|]. intros b Hb. destruct (H2 b Hb); auto.
      * match goal with
        | |- context [scan sector rest ?t'] =>
            destruct (IH t') as [H1 H2];
            destruct (scan sector rest t') as [r [m x]]
        end.
        cbn [fst snd map In] in *. split; [auto|].
        intros b Hb. destruct (H2 b Hb) as [E|Hin]; [|auto].
        destruct t as [t0|]; [left; exact E|].
        inversion E. auto.
      * destruct (IH t) as [H1 H2].
        destruct (scan sector rest t) as [r [m x]]. cbn [fst snd map In] in *.
        split; [auto|]. intros b Hb. destruct (H2 b Hb); auto.
Qed.

Lemma Forall2_same_nonempty (l l' : list cache) :
  Forall2 same_slot l l' -> l <> [] -> l' <> [].
Proof. intros H. inversion H; subst; congruence. Qed.

(** [find_buffer] returns when no slot is held: the second pass at the
    latest finds a slot. *)
Lemma find_buffer_returns (sector : Z) (l : list cache) :
  l <> [] -> all_available l ->
  exists b l', find_buffer sector l = Some (b, l') /\ In b (map c_id l').
Proof.
  intros Hne Ha. unfold find_buffer.
  pose proof (scan_same sector l None) as HS1.
  pose proof (scan_clears sector l Ha) as HC1.
  pose proof (scan_names_slot sector l None) as [HN1 HT1].
  destruct (scan sector l None) as [l1 [[m|] t]]; cbn [fst snd] in *.
  - exists m, l1. auto.
  - destruct t as [t|].
    + exists t, l1. split; [reflexivity|].
      destruct (HT1 t eq_refl); [discriminate|assumption].
    + pose proof (scan_finds sector l1 (Forall2_same_nonempty _ _ HS1 Hne)
                    (all_available_same _ _ HS1 Ha) (HC1 eq_refl)) as HF.
      pose proof (scan_names_slot sector l1 None) as [HN2 HT2].
      destruct (scan sector l1 None) as [l2 [[m2|] [t2|]]]; cbn [fst snd] in *.
      * exists m2, l2. auto.
      * exists m2, l2. auto.
      * exists t2, l2. split; [reflexivity|].
        destruct (HT2 t2 eq_refl); [discriminate|assumption].
      * congruence.
Qed.

Lemma find_slot_of_id (b : nat) (l : list cache) :
  In b (map c_id l) -> exists buf, find_slot b l = Some buf.
Proof.
  unfold find_slot. induction l as [|c l IH]; cbn [map In find]; [tauto|].
  intros [E|Hin].
  - subst. rewrite Nat.eqb_refl. eauto.
  - destruct (Nat.eqb (c_id c) b); eauto.
Qed.

Lemma all_available_update (b : nat) (f : cache -> cache) (l : list cache) :
  (forall c, is_available c = true -> is_available (f c) = true) ->
  all_available l -> all_available (update_slot b f l).
Proof.
  intros Hf Ha. unfold update_slot, all_available in *.
  rewrite Forall_forall in Ha.
  apply Forall_forall. intros c' Hc'. apply in_map_iff in Hc'.
  destruct Hc' as (c & E & Hc). subst c'.
  destruct (Nat.eqb (c_id c) b); auto.
Qed.

(** [allocate_buffer] returns when no slot is held, and holds none
    afterwards. *)
Lemma allocate_buffer_returns (sector : Z) (st : cache_state) :
  cache_list st <> [] -> all_available (cache_list st) ->
  exists b st',
    allocate_buffer sector st = Some (b, st')
    /\ In b (map c_id (cache_list st'))
    /\ all_available (cache_list st').
Proof.
  intros Hne Ha. unfold allocate_buffer.
  destruct (find_buffer_returns sector (cache_list st) Hne Ha)
    as (b & l' & EF & Hb).
  rewrite EF.
  pose proof (all_available_same _ _ (find_buffer_same _ _ _ _ EF) Ha) as Ha'.
  destruct (find_slot_of_id b l' Hb) as (buf & ES). rewrite ES.
  destruct (find_slot_some _ _ _ ES) as [Hin _].
  assert (Hav : is_available buf = true)
    by (unfold all_available in Ha'; rewrite Forall_forall in Ha'; auto).
  destruct (sector =? disk_sector buf).
  - rewrite Hav. eexists _, _. split; [reflexivity|]. cbn [cache_list]. split.
    + rewrite ids_update_slot; auto.
    + apply all_available_update; auto.
  - eexists _, _. split; [reflexivity|]. cbn [cache_list]. split.
    + rewrite ids_update_slot; auto.
    + apply all_available_update; auto.
Qed.

(** [deallocate_buffer] returns on a slot of the cache. *)
Lemma deallocate_buffer_returns (b : nat) (dirty : bool) (st : cache_state) :
  In b (map c_id (cache_list st)) -> all_available (cache_list st) ->
  exists st',
    deallocate_buffer b dirty st = Some st'
    /\ cache_list st' <> [] /\ all_available (cache_list st').
Proof.
  intros Hb Ha. unfold deallocate_buffer.
  destruct (find_slot_of_id b _ Hb) as (buf & ES). rewrite ES.
  eexists. split; [reflexivity|]. cbn [cache_list]. split.
  - intros E. apply app_eq_nil in E. destruct E as [_ E]. discriminate.
  - unfold all_available in *. apply Forall_app. split.
    + rewrite Forall_forall in *. intros c Hc. apply filter_In in Hc.
      apply Ha. tauto.
    + constructor; [reflexivity|constructor].
Qed.

(** The slots still to be written by [write_dirty_to_disk]. *)
Definition dirty_count (l : list cache) : nat :=
  List.length (filter is_dirty l).

Lemma dirty_count_le (l : list cache) : (dirty_count l <= List.length l)%nat.
Proof.
  unfold dirty_count. induction l as [|c l IH]; cbn [filter List.length];
    [lia|].
  destruct (is_dirty c); cbn [List.length]; lia.
Qed.

(** One turn of [write_dirty_to_disk] leaves fewer dirty slots. *)
Lemma dirty_count_written (buf : cache) (l : list cache) :
  first_dirty l = Some buf ->
  let l1 :=
    update_slot (c_id buf)
      (fun c =>
         mk_cache (c_id c) (c_data c) (disk_sector c) (accessed c) false false)
      l in
  (dirty_count (filter (fun c => negb (Nat.eqb (c_id c) (c_id buf))) l1)
   < dirty_count l)%nat
  /\ (forall c, find_slot (c_id buf) l1 = Some c -> is_dirty c = false)
  /\ In (c_id buf) (map c_id l1).
Proof.
  intros Hf. cbv zeta. unfold first_dirty in Hf.
  apply find_some in Hf. destruct Hf as [Hin Hd].
  split; [|split].
  - unfold dirty_count, update_slot.
    induction l as [|c l IH]; cbn [In] in Hin; [tauto|].
    cbn [map filter].
    assert (Hle :
      (List.length
         (filter is_dirty
            (filter (fun c => negb (Nat.eqb (c_id c) (c_id buf)))
               (map
                  (fun c =>
                     if Nat.eqb (c_id c) (c_id buf)
                     then mk_cache (c_id c) (c_data c) (disk_sector c)
                            (accessed c) false false
                     else c) l)))
       <= List.length (filter is_dirty l))%nat).
    { clear. induction l as [|x l IH]; cbn [map filter List.length]; [lia|].
      destruct (Nat.eqb (c_id x) (c_id buf)) eqn:E.
      - cbn [c_id]. rewrite E. cbn [negb].
        destruct (is_dirty x); cbn [List.length]; lia.
      - rewrite E. cbn [negb filter].
        destruct (is_dirty x); cbn [List.length]; lia. }
    destruct Hin as [E|Hin'].
    + subst c. rewrite Nat.eqb_refl. cbn [c_id]. rewrite Nat.eqb_refl.
      cbn [negb]. rewrite Hd. cbn [List.length]. lia.
    + specialize (IH Hin').
      destruct (Nat.eqb (c_id c) (c_id buf)) eqn:E.
      * cbn [c_id]. rewrite E. cbn [negb].
        destruct (is_dirty c); cbn [List.length]; lia.
      * rewrite E. cbn [negb filter].
        destruct (is_dirty c); cbn [List.length]; lia.
  - intros c Hc. apply find_slot_some in Hc. destruct Hc as [Hc Eid].
    apply in_update_slot in Hc. destruct Hc as (c0 & Hc0 & E).
    subst c. destruct (Nat.eqb (c_id c0) (c_id buf)) eqn:E0; [reflexivity|].
    apply Nat.eqb_neq in E0. congruence.
  - rewrite ids_update_slot by reflexivity. apply in_map. exact Hin.
Qed.

Lemma dirty_count_zero (l : list cache) :
  dirty_count l = 0%nat -> first_dirty l = None.
Proof.
  unfold dirty_count, first_dirty. induction l as [|c l IH];
    cbn [filter find]; [reflexivity|].
  destruct (is_dirty c); cbn [List.length]; [discriminate|exact IH].
Qed.

(** [write_dirty_to_disk] returns when no slot is held, and leaves no
    slot dirty. *)
Lemma write_dirty_loop_returns (fuel : nat) :
  forall st,
    all_available (cache_list st) ->
    (dirty_count (cache_list st) <= fuel)%nat ->
    exists st',
      write_dirty_loop fuel st = Some st'
      /\ first_dirty (cache_list st') = None
      /\ all_available (cache_list st').
Proof.
  induction fuel as [|fuel IH]; intros st Ha Hcount.
  - assert (E : first_dirty (cache_list st) = None)
      by (apply dirty_count_zero; lia).
    cbn [write_dirty_loop]. rewrite E. eauto.
  - cbn [write_dirty_loop].
    destruct (first_dirty (cache_list st)) as [buf|] eqn:Ef; [|eauto].
    assert (Hav : is_available buf = true).
    { unfold first_dirty in Ef. apply find_some in Ef.
      unfold all_available in Ha. rewrite Forall_forall in Ha.
      apply Ha. tauto. }
    rewrite Hav.
    destruct (dirty_count_written buf (cache_list st) Ef) as (Hlt & Hclean & Hid).
    unfold deallocate_buffer. cbn [cache_list].
    destruct (find_slot_of_id _ _ Hid) as (c & Ec). rewrite Ec.
    cbn [disk dev_log].
    apply IH; cbn [cache_list].
    + unfold all_available in *. apply Forall_app. split.
      * rewrite Forall_forall in *. intros x Hx. apply filter_In in Hx.
        destruct Hx as [Hx Hne]. apply in_update_slot in Hx.
        destruct Hx as (x0 & Hx0 & E). subst x.
        destruct (Nat.eqb (c_id x0) (c_id buf)) eqn:E0; [|auto].
        cbn [c_id] in Hne. rewrite E0 in Hne. discriminate.
      * constructor; [reflexivity|constructor].
    + unfold dirty_count in *. rewrite filter_app, length_app.
      cbn [filter is_dirty]. rewrite (Hclean c Ec). cbn [List.length]. lia.
Qed.

Lemma write_dirty_to_disk_returns (st : cache_state) :
  all_available (cache_list st) ->
  exists st',
    write_dirty_to_disk st = Some st'
    /\ first_dirty (cache_list st') = None
    /\ all_available (cache_list st').
Proof.
  intros Ha. apply write_dirty_loop_returns; [exact Ha|apply dirty_count_le].
Qed.

Lemma init_cache_available (junk : nat -> cache) (d : Z -> sector_data) :
  cache_list (init_cache junk d) <> []
  /\ all_available (cache_list (init_cache junk d)).
Proof.
  unfold init_cache. cbn [cache_list]. split; [discriminate|].
  unfold all_available. apply Forall_forall. intros c Hc.
  apply in_map_iff in Hc. destruct Hc as (k & E & _). subst c. reflexivity.
Qed.

(** [set_inode_data] and [set_block_data] acquire a slot and release
    it at once; between such calls no slot is held, and both calls
    return. *)
Lemma acquire_release_returns (sector : Z) (dirty : bool) (st : cache_state) :
  cache_list st <> [] -> all_available (cache_list st) ->
  exists b st1 st2,
    allocate_buffer sector st = Some (b, st1)
    /\ deallocate_buffer b dirty st1 = Some st2
    /\ cache_list st2 <> [] /\ all_available (cache_list st2).
Proof.
  intros Hne Ha.
  destruct (allocate_buffer_returns sector st Hne Ha) as (b & st1 & E1 & Hb & Ha1).
  destruct (deallocate_buffer_returns b dirty st1 Hb Ha1) as (st2 & E2 & H2).
  exists b, st1, st2. auto.
Qed.

(** ** The buffer cache: what a run keeps *)

(** [UINT_MAX] (limits.h), the sector [init_cache] gives every slot. *)
Definition UINT_MAX : Z := 2 ^ 32 - 1.

(** No two slots hold the same sector, the marker of [init_cache]
    apart. *)
Definition one_slot_per_sector (l : list cache) : Prop :=
  forall c1 c2,
    In c1 l -> In c2 l -> disk_sector c1 = disk_sector c2 ->
    disk_sector c1 <> UINT_MAX -> c_id c1 = c_id c2.

Lemma Forall2_same_in_l (l l' : list cache) (c : cache) :
  Forall2 same_slot l l' -> In c l -> exists c', In c' l' /\ same_slot c c'.
Proof.
  induction 1 as [|a b l l' Hab H IH]; cbn [In]; [tauto|].
  intros [E|Hin]; [subst; eauto|].
  destruct (IH Hin) as (c' & Hc & Hs). eauto.
Qed.

Lemma Forall2_same_length (l l' : list cache) :
  Forall2 same_slot l l' -> List.length l' = List.length l.
Proof. induction 1; cbn [List.length]; congruence. Qed.

Lemma one_slot_per_sector_same (l l' : list cache) :
  Forall2 same_slot l l' -> one_slot_per_sector l -> one_slot_per_sector l'.
Proof.
  intros HF H c1 c2 H1 H2 E Hne.
  destruct (Forall2_same_in_r _ _ _ HF H1) as (d1 & Hd1 & (I1 & _ & S1 & _)).
  destruct (Forall2_same_in_r _ _ _ HF H2) as (d2 & Hd2 & (I2 & _ & S2 & _)).
  rewrite I1, I2. apply H; auto; congruence.
Qed.

(** What a pass of [find_buffer] reports: a slot that holds the
    sector when there is one, and else the first slot that is
    available and was not accessed. *)
Lemma scan_hit (sector : Z) (l : list cache) :
  forall t m,
    fst (snd (scan sector l t)) = Some m ->
    exists c, In c l /\ c_id c = m /\ disk_sector c = sector.
Proof.
  induction l as [|buf rest IH]; intros t m; cbn [scan fst snd];
    [discriminate|].
  destruct (Z.eqb_spec sector (disk_sector buf)) as [E|E].
  - cbn [fst snd]. intros H. inversion H; subst. exists buf. cbn [In]. auto.
  - destruct (is_available buf); [destruct (accessed buf)|];
      match goal with
      | |- context [scan sector rest ?t'] =>
          specialize (IH t' m); destruct (scan sector rest t') as [r [x y]]
      end; cbn [fst snd] in *; intros H; destruct (IH H) as (c & Hc & Hr);
      exists c; cbn [In]; auto.
Qed.

Lemma scan_miss (sector : Z) (l : list cache) :
  forall t,
    fst (snd (scan sector l t)) = None ->
    forall c, In c l -> disk_sector c <> sector.
Proof.
  induction l as [|buf rest IH]; intros t; cbn [scan fst snd];
    [intros _ c []|].
  destruct (Z.eqb_spec sector (disk_sector buf)) as [E|E];
    [cbn [fst snd]; discriminate|].
  destruct (is_available buf); [destruct (accessed buf)|];
    match goal with
    | |- context [scan sector rest ?t'] =>
        specialize (IH t'); destruct (scan sector rest t') as [r [x y]]
    end; cbn [fst snd] in *; intros H c [Hc|Hc]; subst; auto.
Qed.

Lemma scan_victim (sector : Z) (l : list cache) :
  forall t b,
    snd (snd (scan sector l t)) = Some b ->
    t = Some b
    \/ exists c, In c l /\ c_id c = b /\ is_available c = true
                 /\ accessed c = false.
Proof.
  induction l as [|buf rest IH]; intros t b; cbn [scan fst snd]; [auto|].
  destruct (sector =? disk_sector buf); [cbn [snd]; auto|].
  destruct (is_available buf) eqn:Ea; [destruct (accessed buf) eqn:Ec|].
  - specialize (IH t b). destruct (scan sector rest t) as [r [x y]].
    cbn [fst snd] in *. intros H. destruct (IH H) as [E|(c & Hc & Hr)];
      [auto|right; exists c; cbn [In]; auto].
  - match goal with
    | |- context [scan sector rest ?t'] =>
        specialize (IH t' b); destruct (scan sector rest t') as [r [x y]]
    end.
    cbn [fst snd] in *. intros H. destruct (IH H) as [E|(c & Hc & Hr)].
    + destruct t as [t0|]; [auto|]. inversion E; subst.
      right. exists buf. cbn [In]. auto.
    + right. exists c. cbn [In]. auto.
  - specialize (IH t b). destruct (scan sector rest t) as [r [x y]].
    cbn [fst snd] in *. intros H. destruct (IH H) as [E|(c & Hc & Hr)];
      [auto|right; exists c; cbn [In]; auto].
Qed.

(** [find_buffer]: the slot returned holds the sector, or no slot
    does and the slot is an available one. *)
Lemma find_buffer_spec (sector : Z) (l l' : list cache) (b : nat) :
  find_buffer sector l = Some (b, l') ->
  Forall2 same_slot l l'
  /\ ((exists c, In c l /\ c_id c = b /\ disk_sector c = sector)
      \/ ((forall c, In c l -> disk_sector c <> sector)
          /\ exists c, In c l /\ c_id c = b /\ is_available c = true)).
Proof.
  intros H. split; [exact (find_buffer_same _ _ _ _ H)|].
  unfold find_buffer in H.
  pose proof (scan_same sector l None) as HS1.
  pose proof (scan_hit sector l None) as HH1.
  pose proof (scan_miss sector l None) as HM1.
  pose proof (scan_victim sector l None) as HV1.
  destruct (scan sector l None) as [l1 [[m|] t]]; cbn [fst snd] in *.
  - inversion H; subst. left. apply HH1. reflexivity.
  - destruct t as [t|].
    + inversion H; subst. right. split; [apply HM1; reflexivity|].
      destruct (HV1 b eq_refl) as [E|(c & Hc & Hi & Ha & _)]; [discriminate|].
      eauto.
    + pose proof (scan_hit sector l1 None) as HH2.
      pose proof (scan_victim sector l1 None) as HV2.
      destruct (scan sector l1 None) as [l2 [[m2|] [t2|]]]; cbn [fst snd] in *;
        try discriminate.
      * inversion H; subst. exfalso.
        destruct (HH2 b eq_refl) as (c & Hc & _ & Hs).
        destruct (Forall2_same_in_r _ _ _ HS1 Hc) as (c0 & Hc0 & (_ & _ & S & _)).
        apply (HM1 eq_refl c0 Hc0). congruence.
      * inversion H; subst. exfalso.
        destruct (HH2 b eq_refl) as (c & Hc & _ & Hs).
        destruct (Forall2_same_in_r _ _ _ HS1 Hc) as (c0 & Hc0 & (_ & _ & S & _)).
        apply (HM1 eq_refl c0 Hc0). congruence.
      * inversion H; subst. right. split; [apply HM1; reflexivity|].
        destruct (HV2 b eq_refl) as [E|(c & Hc & Hi & Ha & _)]; [discriminate|].
        destruct (Forall2_same_in_r _ _ _ HS1 Hc)
          as (c0 & Hc0 & (I0 & _ & _ & A0 & _)).
        exists c0. repeat split; congruence.
Qed.

Lemma Forall2_in_r {A : Type} (R : A -> A -> Prop) (l l' : list A) (y : A) :
  Forall2 R l l' -> In y l' -> exists x, In x l /\ R x y.
Proof.
  induction 1 as [|a b l l' Hab H IH]; cbn [In]; [tauto|].
  intros [E|Hin]; [subst; eauto|].
  destruct (IH Hin) as (x & Hx & Hr). eauto.
Qed.

Lemma Forall2_in_l {A : Type} (R : A -> A -> Prop) (l l' : list A) (x : A) :
  Forall2 R l l' -> In x l -> exists y, In y l' /\ R x y.
Proof.
  induction 1 as [|a b l l' Hab H IH]; cbn [In]; [tauto|].
  intros [E|Hin]; [subst; eauto|].
  destruct (IH Hin) as (y & Hy & Hr). eauto.
Qed.

Lemma Forall2_update_slot (R : cache -> cache -> Prop) (b : nat)
    (f : cache -> cache) (l l1 : list cache) :
  Forall2 same_slot l l1 ->
  (forall c c1, same_slot c c1 ->
                R c (if Nat.eqb (c_id c1) b then f c1 else c1)) ->
  Forall2 R l (update_slot b f l1).
Proof.
  intros HF HR. unfold update_slot.
  induction HF as [|c c1 l l1 Hs HF IH]; cbn [map]; constructor; auto.
Qed.

(** What [allocate_buffer] does to a slot [c]: [c'] is the slot
    afterwards. On a hit only [accessed] may differ; on a miss the slot
    returned holds the sector read from the device, clean. *)
Definition after_allocate (b : nat) (hit : bool) (d : sector_data) (sector : Z)
    (c c' : cache) : Prop :=
  if Nat.eqb (c_id c) b then
    if hit then same_slot c c' /\ accessed c' = true
    else c' = mk_cache b d sector true true false
  else same_slot c c'.

Lemma allocate_buffer_spec (sector : Z) (st st' : cache_state) (b : nat) :
  NoDup (map c_id (cache_list st)) ->
  allocate_buffer sector st = Some (b, st') ->
  exists buf,
    In buf (cache_list st) /\ c_id buf = b /\ is_available buf = true
    /\ ((disk_sector buf = sector
         /\ disk st' = disk st /\ dev_log st' = dev_log st
         /\ Forall2 (after_allocate b true (c_data buf) sector)
              (cache_list st) (cache_list st'))
        \/ ((forall c, In c (cache_list st) -> disk_sector c <> sector)
            /\ disk st'
               = (if is_dirty buf
                  then upd (disk st) (disk_sector buf) (c_data buf)
                  else disk st)
            /\ dev_log st'
               = BlockRead sector
                   :: (if is_dirty buf
                       then BlockWrite (disk_sector buf) (c_data buf)
                              :: dev_log st
                       else dev_log st)
            /\ Forall2 (after_allocate b false (disk st' sector) sector)
                 (cache_list st) (cache_list st'))).
Proof.
  intros Hnd. unfold allocate_buffer.
  destruct (find_buffer sector (cache_list st)) as [[b0 l1]|] eqn:EF;
    [|discriminate].
  destruct (find_buffer_spec _ _ _ _ EF) as [HF Hcase].
  destruct (find_slot b0 l1) as [buf1|] eqn:ES; [|discriminate].
  destruct (find_slot_some _ _ _ ES) as [Hin1 Hid1].
  destruct (Forall2_same_in_r _ _ _ HF Hin1)
    as (buf & Hin & (I0 & D0 & S0 & A0 & Y0)).
  destruct (Z.eqb_spec sector (disk_sector buf1)) as [Eh|Em].
  - destruct (is_available buf1) eqn:Ea; [|discriminate].
    intros H. inversion H; subst b st'; clear H. cbn [cache_list disk dev_log].
    exists buf. split; [exact Hin|]. split; [congruence|].
    split; [congruence|]. left. split; [congruence|].
    split; [reflexivity|]. split; [reflexivity|].
    apply Forall2_update_slot; [exact HF|].
    intros c c1 (I1 & D1 & S1 & A1 & Y1). unfold after_allocate.
    rewrite <- I1. destruct (Nat.eqb (c_id c1) b0); unfold same_slot;
      cbn [c_id c_data disk_sector is_available is_dirty accessed]; auto.
    repeat split; auto.
  - intros H. inversion H; subst b st'; clear H. cbn [cache_list disk dev_log].
    assert (Hmiss : (forall c, In c (cache_list st) -> disk_sector c <> sector)
                    /\ is_available buf = true).
    { destruct Hcase as [(c & Hc & Hi & Hs)|[Hm (c & Hc & Hi & Ha)]].
      - exfalso. assert (c = buf)
          by (apply (NoDup_ids_inj (cache_list st)); auto; congruence).
        subst c. congruence.
      - split; [exact Hm|]. assert (c = buf)
          by (apply (NoDup_ids_inj (cache_list st)); auto; congruence).
        subst c. exact Ha. }
    destruct Hmiss as [Hmiss Hav].
    exists buf. split; [exact Hin|]. split; [congruence|].
    split; [exact Hav|]. right.
    split; [exact Hmiss|]. rewrite Y0, S0, D0.
    split; [reflexivity|]. split; [reflexivity|].
    apply Forall2_update_slot; [exact HF|].
    intros c c1 (I1 & D1 & S1 & A1 & Y1). unfold after_allocate.
    rewrite <- I1. destruct (Nat.eqb (c_id c1) b0) eqn:E;
      [|unfold same_slot; auto].
    apply Nat.eqb_eq in E. rewrite E. reflexivity.
Qed.

Lemma one_slot_per_sector_keeps (l l' : list cache) :
  keeps_sectors l l' -> one_slot_per_sector l -> one_slot_per_sector l'.
Proof.
  intros Hk H c1 c2 H1 H2 E Hne.
  destruct (Hk c1 H1) as (d1 & Hd1 & I1 & S1).
  destruct (Hk c2 H2) as (d2 & Hd2 & I2 & S2).
  rewrite <- I1, <- I2. apply H; auto; congruence.
Qed.

Lemma after_allocate_id (b : nat) (hit : bool) (d : sector_data) (sector : Z)
    (c c' : cache) :
  after_allocate b hit d sector c c' -> c_id c' = c_id c.
Proof.
  unfold after_allocate. destruct (Nat.eqb (c_id c) b) eqn:E.
  - apply Nat.eqb_eq in E. destruct hit.
    + intros [(I & _) _]. exact I.
    + intros H. subst c'. cbn [c_id]. congruence.
  - intros (I & _). exact I.
Qed.

Lemma after_allocate_ids (b : nat) (hit : bool) (d : sector_data) (sector : Z)
    (l l' : list cache) :
  Forall2 (after_allocate b hit d sector) l l' -> map c_id l' = map c_id l.
Proof.
  induction 1 as [|c c' l l' H HF IH]; cbn [map]; [reflexivity|].
  rewrite IH, (after_allocate_id _ _ _ _ _ _ H). reflexivity.
Qed.

Lemma Forall2_length_eq {A : Type} (R : A -> A -> Prop) (l l' : list A) :
  Forall2 R l l' -> List.length l' = List.length l.
Proof. induction 1; cbn [List.length]; congruence. Qed.

Lemma allocate_one_slot_per_sector (sector : Z) (st st' : cache_state) (b : nat) :
  NoDup (map c_id (cache_list st)) ->
  one_slot_per_sector (cache_list st) ->
  allocate_buffer sector st = Some (b, st') ->
  one_slot_per_sector (cache_list st').
Proof.
  intros Hnd Hone H.
  destruct (allocate_buffer_spec _ _ _ _ Hnd H)
    as (buf & Hin & Hid & Hav & [(Hs & _ & _ & HF)|(Hmiss & _ & _ & HF)]).
  - apply (one_slot_per_sector_keeps (cache_list st)); [|exact Hone].
    intros c' Hc'. destruct (Forall2_in_r _ _ _ _ HF Hc') as (c & Hc & HR).
    exists c. split; [exact Hc|]. unfold after_allocate in HR.
    destruct (Nat.eqb (c_id c) b); [destruct HR as [HR _]|];
      destruct HR as (I & _ & S & _); auto.
  - intros c1' c2' H1 H2 E Hne.
    destruct (Forall2_in_r _ _ _ _ HF H1) as (c1 & Hc1 & R1).
    destruct (Forall2_in_r _ _ _ _ HF H2) as (c2 & Hc2 & R2).
    rewrite (after_allocate_id _ _ _ _ _ _ R1), (after_allocate_id _ _ _ _ _ _ R2).
    unfold after_allocate in R1, R2.
    destruct (Nat.eqb (c_id c1) b) eqn:E1; destruct (Nat.eqb (c_id c2) b) eqn:E2.
    + apply Nat.eqb_eq in E1, E2. congruence.
    + exfalso. subst c1'. cbn [disk_sector] in E.
      destruct R2 as (_ & _ & S2 & _). apply (Hmiss c2 Hc2). congruence.
    + exfalso. subst c2'. cbn [disk_sector] in E.
      destruct R1 as (_ & _ & S1 & _). apply (Hmiss c1 Hc1). congruence.
    + destruct R1 as (_ & _ & S1 & _). destruct R2 as (_ & _ & S2 & _).
      apply Hone; auto; congruence.
Qed.

Lemma allocate_all_available (sector : Z) (st st' : cache_state) (b : nat) :
  NoDup (map c_id (cache_list st)) ->
  all_available (cache_list st) ->
  allocate_buffer sector st = Some (b, st') ->
  all_available (cache_list st').
Proof.
  intros Hnd Ha H. unfold all_available in *. rewrite Forall_forall in *.
  assert (Hs : forall c c', In c (cache_list st) -> same_slot c c' ->
                            is_available c' = true).
  { intros c c' Hc (_ & _ & _ & A & _). rewrite A. auto. }
  destruct (allocate_buffer_spec _ _ _ _ Hnd H)
    as (buf & Hin & Hid & Hav & [(_ & _ & _ & HF)|(_ & _ & _ & HF)]);
    intros c' Hc'; destruct (Forall2_in_r _ _ _ _ HF Hc') as (c & Hc & HR);
    unfold after_allocate in HR; destruct (Nat.eqb (c_id c) b).
  - destruct HR as [HR _]. eauto.
  - eauto.
  - subst c'. reflexivity.
  - eauto.
Qed.

Lemma length_filter_id (l : list cache) (buf : cache) :
  NoDup (map c_id l) -> In buf l ->
  S (List.length (filter (fun c => negb (Nat.eqb (c_id c) (c_id buf))) l))
  = List.length l.
Proof.
  induction l as [|x l IH]; cbn [map In filter List.length]; [tauto|].
  intros Hnd Hin. inversion Hnd as [|y ys Hnin Hnd']; subst.
  destruct Hin as [E|Hin].
  - subst x. rewrite Nat.eqb_refl. cbn [negb]. f_equal.
    clear IH Hnd. induction l as [|z l IH]; cbn [filter List.length];
      [reflexivity|].
    cbn [map In] in Hnin. inversion Hnd' as [|y ys Hz Hl]; subst.
    destruct (Nat.eqb_spec (c_id z) (c_id buf)) as [E|E]; [tauto|].
    cbn [negb List.length]. f_equal. apply IH; tauto.
  - destruct (Nat.eqb_spec (c_id x) (c_id buf)) as [E|E].
    + exfalso. apply Hnin. rewrite E. apply in_map. exact Hin.
    + cbn [negb List.length]. f_equal. apply IH; assumption.
Qed.

Lemma deallocate_length (b : nat) (dirty : bool) (st st' : cache_state) :
  NoDup (map c_id (cache_list st)) ->
  deallocate_buffer b dirty st = Some st' ->
  List.length (cache_list st') = List.length (cache_list st).
Proof.
  intros Hnd. unfold deallocate_buffer.
  destruct (find_slot b (cache_list st)) as [buf|] eqn:E; [|discriminate].
  intros H. inversion H; subst; clear H. cbn [cache_list].
  apply find_slot_some in E. destruct E as [Hin Hb]. subst b.
  rewrite length_app. cbn [List.length].
  rewrite <- (length_filter_id _ buf Hnd Hin). lia.
Qed.

Lemma deallocate_all_available (b : nat) (dirty : bool) (st st' : cache_state) :
  all_available (cache_list st) ->
  deallocate_buffer b dirty st = Some st' ->
  all_available (cache_list st').
Proof.
  intros Ha H.
  assert (Hb : In b (map c_id (cache_list st))).
  { unfold deallocate_buffer in H.
    destruct (find_slot b (cache_list st)) as [buf|] eqn:E; [|discriminate].
    apply find_slot_some in E. destruct E as [Hin Hb]. subst b.
    apply in_map. exact Hin. }
  destruct (deallocate_buffer_returns b dirty st Hb Ha) as (st2 & E & _ & Ha2).
  congruence.
Qed.

Lemma write_dirty_loop_length (fuel : nat) :
  forall st st',
    NoDup (map c_id (cache_list st)) ->
    write_dirty_loop fuel st = Some st' ->
    List.length (cache_list st') = List.length (cache_list st).
Proof.
  induction fuel as [|fuel IH]; intros st st' Hnd; cbn [write_dirty_loop];
    destruct (first_dirty (cache_list st)) as [buf|];
    try discriminate; try (intros H; inversion H; subst; reflexivity).
  destruct (is_available buf); [|discriminate].
  match goal with
  | |- context [deallocate_buffer ?b ?d ?s] =>
      set (st1 := s); destruct (deallocate_buffer b d st1) as [st2|] eqn:E
  end; [|discriminate].
  intros H.
  assert (Hn1 : NoDup (map c_id (cache_list st1))).
  { subst st1. cbn [cache_list]. rewrite ids_update_slot; auto. }
  rewrite (IH st2 st' (NoDup_deallocate _ _ _ _ Hn1 E) H).
  rewrite (deallocate_length _ _ _ _ Hn1 E).
  subst st1. cbn [cache_list]. unfold update_slot. apply length_map.
Qed.

(** What every run from [init_cache] keeps. *)
Definition run_inv (st : cache_state) : Prop :=
  List.length (cache_list st) = CACHE_SIZE
  /\ NoDup (map c_id (cache_list st))
  /\ all_available (cache_list st)
  /\ one_slot_per_sector (cache_list st).

Lemma run_op_inv (op : cache_op) (st st' : cache_state) :
  run_inv st -> run_op op st = Some st' -> run_inv st'.
Proof.
  intros (Hlen & Hnd & Ha & Hone) Hrun.
  pose proof (run_op_NoDup op st st' Hnd Hrun) as Hnd'.
  destruct op as [s|b dirty|b d|]; cbn [run_op] in Hrun.
  - destruct (allocate_buffer s st) as [[b st1]|] eqn:E; [|discriminate].
    cbn [option_map snd] in Hrun. inversion Hrun; subst st1; clear Hrun.
    split; [|split; [exact Hnd'|split]].
    + rewrite <- Hlen.
      rewrite <- (length_map c_id (cache_list st')),
        <- (length_map c_id (cache_list st)).
      rewrite (allocate_buffer_ids _ _ _ _ E). reflexivity.
    + exact (allocate_all_available _ _ _ _ Hnd Ha E).
    + exact (allocate_one_slot_per_sector _ _ _ _ Hnd Hone E).
  - split; [|split; [exact Hnd'|split]].
    + rewrite (deallocate_length _ _ _ _ Hnd Hrun). exact Hlen.
    + exact (deallocate_all_available _ _ _ _ Ha Hrun).
    + exact (one_slot_per_sector_keeps _ _
               (keeps_sectors_deallocate _ _ _ _ Hrun) Hone).
  - unfold store_data in Hrun.
    destruct (find_slot b (cache_list st)); [|discriminate].
    inversion Hrun; subst; clear Hrun. unfold run_inv. cbn [cache_list] in *.
    split; [|split; [exact Hnd'|split]].
    + unfold update_slot. rewrite length_map. exact Hlen.
    + apply all_available_update; auto.
    + apply (one_slot_per_sector_keeps (cache_list st)); [|exact Hone].
      apply keeps_sectors_update; reflexivity.
  - unfold write_dirty_to_disk in Hrun.
    split; [|split; [exact Hnd'|split]].
    + rewrite (write_dirty_loop_length _ _ _ Hnd Hrun). exact Hlen.
    + destruct (write_dirty_loop_returns (List.length (cache_list st)) st Ha
                  (dirty_count_le _)) as (st2 & E & _ & Ha2).
      congruence.
    + exact (one_slot_per_sector_keeps _ _
               (proj1 (write_dirty_loop_keeps _ _ _ Hnd Hrun)) Hone).
Qed.

Lemma run_ops_inv (ops : list cache_op) :
  forall st st', run_inv st -> run_ops ops st = Some st' -> run_inv st'.
Proof.
  induction ops as [|op ops IH]; intros st st' Hinv; cbn [run_ops].
  - intros H. inversion H; subst. exact Hinv.
  - destruct (run_op op st) as [st1|] eqn:E; [|discriminate].
    apply IH. exact (run_op_inv _ _ _ Hinv E).
Qed.

Lemma init_cache_inv (junk : nat -> cache) (d : Z -> sector_data) :
  run_inv (init_cache junk d).
Proof.
  split; [|split; [apply init_cache_NoDup|split]].
  - unfold init_cache. cbn [cache_list]. rewrite length_map, length_seq.
    reflexivity.
  - apply init_cache_available.
  - intros c1 c2 H1 _ _ Hne. exfalso. apply Hne.
    unfold init_cache in H1. cbn [cache_list] in H1.
    apply in_map_iff in H1. destruct H1 as (k & E & _). subst c1. reflexivity.
Qed.

(** ** The cache as its callers see it *)

(** [set_block_data (sector, block_data, is_dirty, is_data)] of inode.c
    on the cache: the slot of [sector] is acquired and released at
    once, and the caller is left with a pointer into it, here the
    slot. [set_inode_data (inode, is_dirty)] does the same with the
    sector of the inode. *)
Definition set_block_data (sector : Z) (is_dirty : bool) (st : cache_state)
    : option (nat * cache_state) :=
  match allocate_buffer sector st with
  | Some (buff, st1) =>
      match deallocate_buffer buff is_dirty st1 with
      | Some st2 => Some (buff, st2)
      | None => None
      end
  | None => None
  end.

Definition set_inode_data (inode_sector : Z) (is_dirty : bool)
    (st : cache_state) : option (nat * cache_state) :=
  set_block_data inode_sector is_dirty st.

(** The content of a sector as the file system sees it: what the slot
    that holds the sector has, and what the device has when no slot
    holds it. *)
Definition holds (s : Z) (c : cache) : bool := disk_sector c =? s.

Definition view (st : cache_state) (s : Z) : sector_data :=
  match find (holds s) (cache_list st) with
  | Some c => c_data c
  | None => disk st s
  end.

(** A slot that is not dirty has what the device has. *)
Definition clean_agree (st : cache_state) : Prop :=
  forall c,
    In c (cache_list st) -> is_dirty c = false -> disk_sector c <> UINT_MAX ->
    c_data c = disk st (disk_sector c).

Lemma view_holder (st : cache_state) (c : cache) :
  NoDup (map c_id (cache_list st)) -> one_slot_per_sector (cache_list st) ->
  In c (cache_list st) -> disk_sector c <> UINT_MAX ->
  view st (disk_sector c) = c_data c.
Proof.
  intros Hnd Hone Hc Hne. unfold view.
  destruct (find (holds (disk_sector c)) (cache_list st)) as [c0|] eqn:E.
  - apply find_some in E. destruct E as [Hc0 Hs]. unfold holds in Hs.
    apply Z.eqb_eq in Hs.
    assert (c0 = c); [|congruence].
    apply (NoDup_ids_inj (cache_list st)); auto. apply Hone; auto; congruence.
  - exfalso. pose proof (find_none _ _ E c Hc) as Hn. unfold holds in Hn.
    rewrite Z.eqb_refl in Hn. discriminate.
Qed.

Lemma view_absent (st : cache_state) (s : Z) :
  (forall c, In c (cache_list st) -> disk_sector c <> s) ->
  view st s = disk st s.
Proof.
  intros H. unfold view.
  destruct (find (holds s) (cache_list st)) as [c0|] eqn:E; [|reflexivity].
  apply find_some in E. destruct E as [Hc0 Hs]. unfold holds in Hs.
  apply Z.eqb_eq in Hs. exfalso. exact (H c0 Hc0 Hs).
Qed.

Lemma holder_dec (l : list cache) (s : Z) :
  (exists c, In c l /\ disk_sector c = s)
  \/ (forall c, In c l -> disk_sector c <> s).
Proof.
  destruct (find (holds s) l) as [c0|] eqn:E.
  - apply find_some in E. destruct E as [Hc0 Hs]. unfold holds in Hs.
    apply Z.eqb_eq in Hs. eauto.
  - right. intros c Hc Hs. pose proof (find_none _ _ E c Hc) as Hn.
    unfold holds in Hn. apply Z.eqb_neq in Hn. tauto.
Qed.

(** The states of a run in which every store into a slot is followed
    or preceded by a release that marks it dirty. *)
Definition cache_inv (st : cache_state) : Prop :=
  run_inv st /\ clean_agree st.

(** Two lists have the same slots when each slot of one is in the
    other with its sector and its data, whatever the order and the
    flags. *)
Definition same_content (c c' : cache) : Prop :=
  c_id c' = c_id c /\ c_data c' = c_data c /\ disk_sector c' = disk_sector c.

Definition same_contents (l l' : list cache) : Prop :=
  (forall c, In c l -> exists c', In c' l' /\ same_content c c')
  /\ (forall c', In c' l' -> exists c, In c l /\ same_content c c').

Lemma same_slot_content (c c' : cache) : same_slot c c' -> same_content c c'.
Proof. intros (I & D & S & _). repeat split; assumption. Qed.

Lemma view_same_contents (st st' : cache_state) (s : Z) :
  run_inv st -> run_inv st' ->
  same_contents (cache_list st) (cache_list st') ->
  ((forall c, In c (cache_list st) -> disk_sector c <> s) ->
   disk st' s = disk st s) ->
  s <> UINT_MAX ->
  view st' s = view st s.
Proof.
  intros (_ & Hnd & _ & Hone) (_ & Hnd' & _ & Hone') [H1 H2] Hd Hs.
  destruct (holder_dec (cache_list st) s) as [(c & Hc & E)|Hno].
  - destruct (H1 c Hc) as (c' & Hc' & (_ & D & S)).
    subst s. rewrite (view_holder st c) by auto.
    rewrite <- S. rewrite (view_holder st' c') by (auto; congruence).
    exact D.
  - rewrite (view_absent st s Hno), (view_absent st' s); [exact (Hd Hno)|].
    intros c' Hc' E. destruct (H2 c' Hc') as (c & Hc & (_ & _ & S)).
    apply (Hno c Hc). congruence.
Qed.

Lemma same_slot_sym_fields (c c' : cache) :
  same_slot c c' ->
  c_id c' = c_id c /\ c_data c' = c_data c /\ disk_sector c' = disk_sector c
  /\ is_dirty c' = is_dirty c.
Proof. intros (I & D & S & _ & Y). auto. Qed.

(** [allocate_buffer] as its caller sees it. *)
Lemma allocate_view (sector : Z) (st st' : cache_state) (b : nat) :
  cache_inv st ->
  allocate_buffer sector st = Some (b, st') ->
  cache_inv st'
  /\ (forall s, s <> UINT_MAX -> view st' s = view st s)
  /\ exists c',
       In c' (cache_list st') /\ c_id c' = b /\ disk_sector c' = sector
       /\ accessed c' = true
       /\ (sector <> UINT_MAX -> c_data c' = view st sector).
Proof.
  intros [Hinv Hclean] H.
  assert (Hinv' : run_inv st').
  { apply (run_op_inv (Allocate sector) st); [exact Hinv|].
    cbn [run_op]. rewrite H. reflexivity. }
  pose proof Hinv as (_ & Hnd & _ & Hone).
  pose proof Hinv' as (_ & Hnd' & _ & Hone').
  destruct (allocate_buffer_spec _ _ _ _ Hnd H)
    as (buf & Hin & Hid & Hav
        & [(Hs & Hd & _ & HF)|(Hmiss & Hd & _ & HF)]).
  - (* a hit *)
    assert (Hsame : forall c', In c' (cache_list st') ->
                    exists c, In c (cache_list st) /\ same_slot c c').
    { intros c' Hc'. destruct (Forall2_in_r _ _ _ _ HF Hc') as (c & Hc & HR).
      exists c. split; [exact Hc|]. unfold after_allocate in HR.
      destruct (Nat.eqb (c_id c) b); tauto. }
    assert (Hsame' : forall c, In c (cache_list st) ->
                     exists c', In c' (cache_list st') /\ same_slot c c').
    { intros c Hc. destruct (Forall2_in_l _ _ _ _ HF Hc) as (c' & Hc' & HR).
      exists c'. split; [exact Hc'|]. unfold after_allocate in HR.
      destruct (Nat.eqb (c_id c) b); tauto. }
    split; [split; [exact Hinv'|]|split].
    + intros c' Hc' Hcl Hne. destruct (Hsame c' Hc') as (c & Hc & HS).
      destruct (same_slot_sym_fields _ _ HS) as (_ & D & S & Y).
      rewrite D, S, Hd. apply Hclean; congruence.
    + intros s Hne. apply view_same_contents; auto.
      * split.
        -- intros c Hc. destruct (Hsame' c Hc) as (c' & Hc' & HS).
           eauto using same_slot_content.
        -- intros c' Hc'. destruct (Hsame c' Hc') as (c & Hc & HS).
           eauto using same_slot_content.
      * intros _. rewrite Hd. reflexivity.
    + destruct (Forall2_in_l _ _ _ _ HF Hin) as (c' & Hc' & HR).
      unfold after_allocate in HR. rewrite Hid, Nat.eqb_refl in HR.
      destruct HR as [HS Hacc].
      destruct (same_slot_sym_fields _ _ HS) as (I & D & S & _).
      exists c'. split; [exact Hc'|]. split; [congruence|].
      split; [congruence|]. split; [exact Hacc|].
      intros Hne. rewrite D, <- Hs. symmetry. apply view_holder; auto.
      congruence.
  - (* a miss *)
    set (new := mk_cache b (disk st' sector) sector true true false).
    assert (F1 : forall c', In c' (cache_list st') ->
                 c' = new
                 \/ exists c, In c (cache_list st) /\ c_id c <> b
                              /\ same_slot c c').
    { intros c' Hc'. destruct (Forall2_in_r _ _ _ _ HF Hc') as (c & Hc & HR).
      unfold after_allocate in HR.
      destruct (Nat.eqb_spec (c_id c) b); [left; exact HR|right; eauto]. }
    assert (F2 : forall c, In c (cache_list st) -> c_id c <> b ->
                 exists c', In c' (cache_list st') /\ same_slot c c').
    { intros c Hc Hne. destruct (Forall2_in_l _ _ _ _ HF Hc) as (c' & Hc' & HR).
      unfold after_allocate in HR.
      destruct (Nat.eqb_spec (c_id c) b); [tauto|eauto]. }
    assert (F3 : In new (cache_list st')).
    { destruct (Forall2_in_l _ _ _ _ HF Hin) as (c' & Hc' & HR).
      unfold after_allocate in HR. rewrite Hid, Nat.eqb_refl in HR.
      subst c'. exact Hc'. }
    assert (F4 : forall x, x <> disk_sector buf -> disk st' x = disk st x).
    { intros x Hx. rewrite Hd. destruct (is_dirty buf); [|reflexivity].
      unfold upd. destruct (Z.eqb_spec x (disk_sector buf)); tauto. }
    assert (F5 : disk_sector buf <> UINT_MAX ->
                 disk st' (disk_sector buf) = c_data buf).
    { intros Hne. rewrite Hd. destruct (is_dirty buf) eqn:Ey.
      - unfold upd. rewrite Z.eqb_refl. reflexivity.
      - symmetry. apply Hclean; auto. }
    assert (F6 : forall c, In c (cache_list st) -> c_id c <> b ->
                 disk_sector c <> UINT_MAX ->
                 disk_sector c <> disk_sector buf).
    { intros c Hc Hne Hm E. apply Hne. rewrite <- Hid. apply Hone; auto. }
    split; [split; [exact Hinv'|]|split].
    + intros c' Hc' Hcl Hne. destruct (F1 c' Hc') as [E|(c & Hc & Hb & HS)].
      * subst c'. reflexivity.
      * destruct (same_slot_sym_fields _ _ HS) as (_ & D & S & Y).
        rewrite D, S. rewrite F4 by (apply F6; auto; congruence).
        apply Hclean; congruence.
    + intros s Hne.
      destruct (holder_dec (cache_list st) s) as [(c & Hc & E)|Hno].
      * subst s. rewrite (view_holder st c) by auto.
        destruct (Nat.eq_dec (c_id c) b) as [Eb|Eb].
        -- assert (c = buf)
             by (apply (NoDup_ids_inj (cache_list st)); auto; congruence).
           subst c. rewrite view_absent; [apply F5; exact Hne|].
           intros c'' Hc'' E.
           destruct (F1 c'' Hc'') as [En|(c2 & Hc2 & Hb2 & HS)].
           ++ subst c''. unfold new in E. cbn [disk_sector] in E.
              apply (Hmiss buf Hin). congruence.
           ++ destruct (same_slot_sym_fields _ _ HS) as (_ & _ & S & _).
              apply (F6 c2 Hc2 Hb2); congruence.
        -- destruct (F2 c Hc Eb) as (c' & Hc' & HS).
           destruct (same_slot_sym_fields _ _ HS) as (_ & D & S & _).
           rewrite <- S, (view_holder st' c') by (auto; congruence).
           exact D.
      * rewrite (view_absent st s Hno).
        assert (Hsb : s <> disk_sector buf)
          by (intros E; apply (Hno buf Hin); congruence).
        destruct (Z.eq_dec s sector) as [Es|Es].
        -- subst s. change sector with (disk_sector new) at 1.
           rewrite (view_holder st' new) by auto.
           cbn [c_data new]. apply F4. exact Hsb.
        -- rewrite view_absent; [apply F4; exact Hsb|].
           intros c'' Hc'' E.
           destruct (F1 c'' Hc'') as [En|(c2 & Hc2 & Hb2 & HS)].
           ++ subst c''. unfold new in E. cbn [disk_sector] in E. congruence.
           ++ destruct (same_slot_sym_fields _ _ HS) as (_ & _ & S & _).
              apply (Hno c2 Hc2). congruence.
    + exists new. split; [exact F3|]. cbn [c_id disk_sector accessed c_data].
      repeat split. intros Hne. rewrite (view_absent st sector Hmiss).
      apply F4. intros E. apply (Hmiss buf Hin). congruence.
Qed.

Lemma deallocate_buffer_spec (b : nat) (dirty : bool) (st st' : cache_state) :
  deallocate_buffer b dirty st = Some st' ->
  exists buf,
    In buf (cache_list st) /\ c_id buf = b
    /\ cache_list st'
       = filter (fun c => negb (Nat.eqb (c_id c) b)) (cache_list st)
         ++ [mk_cache (c_id buf) (c_data buf) (disk_sector buf) (accessed buf)
               true (if dirty then true else is_dirty buf)]
    /\ disk st' = disk st /\ dev_log st' = dev_log st.
Proof.
  unfold deallocate_buffer.
  destruct (find_slot b (cache_list st)) as [buf|] eqn:E; [|discriminate].
  intros H. inversion H; subst; clear H. cbn [cache_list disk dev_log].
  apply find_slot_some in E. destruct E as [Hin Hb]. eauto 6.
Qed.

(** [deallocate_buffer] as its caller sees it. *)
Lemma deallocate_view (b : nat) (dirty : bool) (st st' : cache_state) :
  cache_inv st ->
  deallocate_buffer b dirty st = Some st' ->
  cache_inv st'
  /\ (forall s, s <> UINT_MAX -> view st' s = view st s)
  /\ disk st' = disk st
  /\ forall c,
       In c (cache_list st) -> c_id c = b ->
       exists c',
         In c' (cache_list st') /\ same_content c c'
         /\ is_dirty c' = (if dirty then true else is_dirty c).
Proof.
  intros [Hinv Hclean] H.
  assert (Hinv' : run_inv st')
    by (apply (run_op_inv (Deallocate b dirty) st); assumption).
  pose proof Hinv as (_ & Hnd & _ & Hone).
  destruct (deallocate_buffer_spec _ _ _ _ H) as (buf & Hin & Hid & Hl & Hd & _).
  set (rel := mk_cache (c_id buf) (c_data buf) (disk_sector buf) (accessed buf)
                true (if dirty then true else is_dirty buf)) in *.
  assert (F1 : forall c', In c' (cache_list st') ->
               c' = rel \/ (In c' (cache_list st) /\ c_id c' <> b)).
  { intros c' Hc'. rewrite Hl in Hc'. apply in_app_or in Hc'.
    destruct Hc' as [Hc'|[Hc'|[]]]; [right|left; auto].
    apply filter_In in Hc'. destruct Hc' as [Hc' Hn].
    split; [exact Hc'|]. intros E. rewrite E, Nat.eqb_refl in Hn.
    discriminate. }
  assert (F2 : forall c, In c (cache_list st) -> c_id c <> b ->
               In c (cache_list st')).
  { intros c Hc Hn. rewrite Hl. apply in_or_app. left. apply filter_In.
    split; [exact Hc|]. apply Nat.eqb_neq in Hn. rewrite Hn. reflexivity. }
  assert (F3 : In rel (cache_list st')).
  { rewrite Hl. apply in_or_app. right. left. reflexivity. }
  assert (Hrel : same_content buf rel) by (repeat split).
  assert (Hrefl : forall c, same_content c c) by (repeat split).
  split; [split; [exact Hinv'|]|split; [|split; [exact Hd|]]].
  - intros c' Hc' Hcl Hne. rewrite Hd.
    destruct (F1 c' Hc') as [E|[Hc Hn]]; [|apply Hclean; assumption].
    subst c'. unfold rel in *. cbn [c_data disk_sector is_dirty] in *.
    destruct dirty; [discriminate|]. apply Hclean; assumption.
  - intros s Hne. apply view_same_contents; auto.
    + split.
      * intros c Hc. destruct (Nat.eq_dec (c_id c) b) as [E|E].
        -- assert (c = buf)
             by (apply (NoDup_ids_inj (cache_list st)); auto; congruence).
           subst c. eauto.
        -- eauto.
      * intros c' Hc'. destruct (F1 c' Hc') as [E|[Hc Hn]];
          [subst c'; eauto|eauto].
    + intros _. rewrite Hd. reflexivity.
  - intros c Hc Hcb.
    assert (c = buf)
      by (apply (NoDup_ids_inj (cache_list st)); auto; congruence).
    subst c. exists rel. split; [exact F3|]. split; [exact Hrel|reflexivity].
Qed.

(** A store into a slot that was released dirty. *)
Lemma store_view (b : nat) (d : sector_data) (st st' : cache_state) (c : cache) :
  cache_inv st ->
  In c (cache_list st) -> c_id c = b -> is_dirty c = true ->
  disk_sector c <> UINT_MAX ->
  store_data b d st = Some st' ->
  cache_inv st'
  /\ disk st' = disk st
  /\ forall s,
       s <> UINT_MAX ->
       view st' s = if s =? disk_sector c then d else view st s.
Proof.
  intros [Hinv Hclean] Hc Hid Hdirty Hne H.
  assert (Hinv' : run_inv st')
    by (apply (run_op_inv (StoreData b d) st); assumption).
  pose proof Hinv as (_ & Hnd & _ & Hone).
  pose proof Hinv' as (_ & Hnd' & _ & Hone').
  unfold store_data in H.
  destruct (find_slot b (cache_list st)) as [found|]; [|discriminate].
  inversion H; subst st'; clear H found. cbn [cache_list disk] in *.
  set (f := fun c0 : cache =>
              mk_cache (c_id c0) d (disk_sector c0) (accessed c0)
                (is_available c0) (is_dirty c0)) in *.
  set (st' := {| cache_list := update_slot b f (cache_list st);
                 disk := disk st; dev_log := dev_log st |}) in *.
  assert (F1 : forall c', In c' (cache_list st') ->
               (c' = f c) \/ (In c' (cache_list st) /\ c_id c' <> b)).
  { intros c' Hc'. apply in_update_slot in Hc'.
    destruct Hc' as (c0 & Hc0 & E). destruct (Nat.eqb_spec (c_id c0) b) as [Eb|Eb].
    - left. assert (c0 = c)
        by (apply (NoDup_ids_inj (cache_list st)); auto; congruence).
      congruence.
    - right. subst c'. auto. }
  assert (F2 : forall c0, In c0 (cache_list st) -> c_id c0 <> b ->
               In c0 (cache_list st')).
  { intros c0 Hc0 Hn. unfold st'. cbn [cache_list]. unfold update_slot.
    apply in_map_iff. exists c0. apply Nat.eqb_neq in Hn. rewrite Hn. auto. }
  assert (F3 : In (f c) (cache_list st')).
  { unfold st'. cbn [cache_list]. unfold update_slot. apply in_map_iff.
    exists c. rewrite Hid, Nat.eqb_refl. auto. }
  split; [split; [exact Hinv'|]|split; [reflexivity|]].
  - intros c' Hc' Hcl Hn. destruct (F1 c' Hc') as [E|[Hc0 Hb]].
    + subst c'. unfold f in Hcl. cbn [is_dirty] in Hcl. congruence.
    + apply Hclean; assumption.
  - intros s Hs. destruct (Z.eqb_spec s (disk_sector c)) as [E|E].
    + subst s. change (disk_sector c) with (disk_sector (f c)).
      rewrite (view_holder st' (f c)); auto.
    + destruct (holder_dec (cache_list st) s) as [(c0 & Hc0 & E0)|Hno].
      * subst s. assert (Hb : c_id c0 <> b).
        { intros Eb. apply E. f_equal.
          apply (NoDup_ids_inj (cache_list st)); auto; congruence. }
        rewrite (view_holder st c0), (view_holder st' c0); auto.
      * rewrite (view_absent st s Hno), view_absent; [reflexivity|].
        intros c' Hc' E'. destruct (F1 c' Hc') as [Ef|[Hc0 Hb]].
        -- subst c'. unfold f in E'. cbn [disk_sector] in E'. congruence.
        -- exact (Hno c' Hc0 E').
Qed.

(** The whole of a read through the cache: [set_block_data] with
    [is_dirty] false returns a slot that shows the sector as the file
    system saw it, and no sector looks different afterwards. *)
Lemma set_block_data_view (sector : Z) (dirty : bool) (st : cache_state) :
  cache_inv st ->
  exists b st',
    set_block_data sector dirty st = Some (b, st')
    /\ cache_inv st'
    /\ (forall s, s <> UINT_MAX -> view st' s = view st s)
    /\ exists c,
         In c (cache_list st') /\ c_id c = b /\ disk_sector c = sector
         /\ (dirty = true -> is_dirty c = true)
         /\ (sector <> UINT_MAX -> c_data c = view st sector).
Proof.
  intros Hinv. pose proof Hinv as [(Hlen & Hnd & Ha & Hone) Hclean].
  assert (Hne : cache_list st <> []).
  { intros E. rewrite E in Hlen. discriminate. }
  destruct (allocate_buffer_returns sector st Hne Ha)
    as (b & st1 & E1 & Hb & Ha1).
  destruct (allocate_view _ _ _ _ Hinv E1)
    as (Hinv1 & Hv1 & (c1 & Hc1 & Hid1 & Hs1 & _ & Hd1)).
  destruct (deallocate_buffer_returns b dirty st1 Hb Ha1) as (st2 & E2 & _).
  destruct (deallocate_view _ _ _ _ Hinv1 E2) as (Hinv2 & Hv2 & _ & Hrel).
  destruct (Hrel c1 Hc1 Hid1) as (c2 & Hc2 & (I2 & D2 & S2) & Y2).
  exists b, st2. unfold set_block_data. rewrite E1, E2.
  split; [reflexivity|]. split; [exact Hinv2|]. split.
  - intros s Hs. rewrite Hv2, Hv1; auto.
  - exists c2. split; [exact Hc2|]. split; [congruence|]. split; [congruence|].
    split.
    + intros Ed. rewrite Y2, Ed. reflexivity.
    + intros Hs. rewrite D2. auto.
Qed.

(** One turn of [write_dirty_to_disk]: the first dirty slot is written
    to the device and released clean. *)
Lemma write_dirty_step (st : cache_state) (buf : cache) :
  cache_inv st ->
  first_dirty (cache_list st) = Some buf ->
  exists st2,
    deallocate_buffer (c_id buf) false
      (mk_cache_state
         (update_slot (c_id buf)
            (fun c =>
               mk_cache (c_id c) (c_data c) (disk_sector c) (accessed c) false
                 false) (cache_list st))
         (upd (disk st) (disk_sector buf) (c_data buf))
         (BlockWrite (disk_sector buf) (c_data buf) :: dev_log st))
    = Some st2
    /\ cache_inv st2
    /\ (forall s, s <> UINT_MAX -> view st2 s = view st s)
    /\ (dirty_count (cache_list st2) < dirty_count (cache_list st))%nat.
Proof.
  intros [Hinv Hclean] Ef.
  pose proof Hinv as (Hlen & Hnd & Ha & Hone).
  destruct (dirty_count_written buf (cache_list st) Ef) as (Hlt & Hcl & Hid).
  pose proof Ef as Ef'. unfold first_dirty in Ef'. apply find_some in Ef'.
  destruct Ef' as [Hin Hdirty].
  set (clr := fun c : cache =>
                mk_cache (c_id c) (c_data c) (disk_sector c) (accessed c) false
                  false) in *.
  set (st1 := mk_cache_state (update_slot (c_id buf) clr (cache_list st))
                (upd (disk st) (disk_sector buf) (c_data buf))
                (BlockWrite (disk_sector buf) (c_data buf) :: dev_log st)).
  assert (Hnd1 : NoDup (map c_id (cache_list st1))).
  { unfold st1. cbn [cache_list]. rewrite ids_update_slot; auto. }
  destruct (find_slot_of_id _ _ Hid) as (x & Ex).
  assert (Hx : x = clr buf).
  { destruct (find_slot_some _ _ _ Ex) as [Hxin Hxid].
    apply in_update_slot in Hxin. destruct Hxin as (x0 & Hx0 & E).
    assert (x0 = buf).
    { apply (NoDup_ids_inj (cache_list st)); auto.
      subst x. destruct (Nat.eqb_spec (c_id x0) (c_id buf)); auto. }
    subst x0. rewrite Nat.eqb_refl in E. exact E. }
  assert (E2 : exists st2, deallocate_buffer (c_id buf) false st1 = Some st2
                           /\ cache_list st2
                              = filter (fun c => negb (Nat.eqb (c_id c) (c_id buf)))
                                  (cache_list st1)
                                ++ [mk_cache (c_id buf) (c_data buf)
                                      (disk_sector buf) (accessed buf) true false]
                           /\ disk st2 = disk st1).
  { unfold deallocate_buffer. unfold st1 at 1. cbn [cache_list]. rewrite Ex.
    eexists. split; [reflexivity|]. cbn [cache_list disk]. subst x.
    split; reflexivity. }
  destruct E2 as (st2 & E2 & Hl2 & Hd2).
  set (rel := mk_cache (c_id buf) (c_data buf) (disk_sector buf) (accessed buf)
                true false) in *.
  exists st2. split; [exact E2|].
  assert (F1 : forall c', In c' (cache_list st2) ->
               c' = rel \/ (In c' (cache_list st) /\ c_id c' <> c_id buf)).
  { intros c' Hc'. rewrite Hl2 in Hc'. apply in_app_or in Hc'.
    destruct Hc' as [Hc'|[Hc'|[]]]; [right|left; auto].
    apply filter_In in Hc'. destruct Hc' as [Hc' Hn].
    assert (Hne : c_id c' <> c_id buf).
    { intros E. rewrite E, Nat.eqb_refl in Hn. discriminate. }
    split; [|exact Hne]. unfold st1 in Hc'. cbn [cache_list] in Hc'.
    apply in_update_slot in Hc'. destruct Hc' as (c0 & Hc0 & E).
    destruct (Nat.eqb_spec (c_id c0) (c_id buf)) as [Eb|Eb].
    - subst c'. cbn [c_id clr] in Hne. tauto.
    - subst c'. exact Hc0. }
  assert (F2 : forall c, In c (cache_list st) -> c_id c <> c_id buf ->
               In c (cache_list st2)).
  { intros c Hc Hn. rewrite Hl2. apply in_or_app. left. apply filter_In.
    apply Nat.eqb_neq in Hn. rewrite Hn. split; [|reflexivity].
    unfold st1. cbn [cache_list]. unfold update_slot. apply in_map_iff.
    exists c. rewrite Hn. auto. }
  assert (F3 : In rel (cache_list st2)).
  { rewrite Hl2. apply in_or_app. right. left. reflexivity. }
  assert (Hinv2 : run_inv st2).
  { split; [|split; [|split]].
    - rewrite (deallocate_length _ _ _ _ Hnd1 E2). unfold st1.
      cbn [cache_list]. unfold update_slot. rewrite length_map. exact Hlen.
    - exact (NoDup_deallocate _ _ _ _ Hnd1 E2).
    - unfold all_available in *. rewrite Forall_forall in *.
      intros c' Hc'. destruct (F1 c' Hc') as [E|[Hc Hn]];
        [subst c'; reflexivity|auto].
    - apply (one_slot_per_sector_keeps (cache_list st)); [|exact Hone].
      intros c' Hc'. destruct (F1 c' Hc') as [E|[Hc Hn]].
      + subst c'. exists buf. auto.
      + exists c'. auto. }
  assert (Hdisk : forall s, s <> disk_sector buf -> disk st2 s = disk st s).
  { intros s Hs. rewrite Hd2. unfold st1. cbn [disk]. unfold upd.
    destruct (Z.eqb_spec s (disk_sector buf)); tauto. }
  assert (Hother : forall c, In c (cache_list st) -> c_id c <> c_id buf ->
                   disk_sector c <> UINT_MAX ->
                   disk_sector c <> disk_sector buf).
  { intros c Hc Hn Hm E. apply Hn. apply Hone; auto. }
  split; [split; [exact Hinv2|]|split].
  - intros c' Hc' Hcl' Hne. destruct (F1 c' Hc') as [E|[Hc Hn]].
    + subst c'. cbn [c_data disk_sector rel]. rewrite Hd2. unfold st1.
      cbn [disk]. unfold upd. rewrite Z.eqb_refl. reflexivity.
    + rewrite Hdisk by (apply Hother; auto). apply Hclean; assumption.
  - intros s Hs. apply view_same_contents; auto.
    + split.
      * intros c Hc. destruct (Nat.eq_dec (c_id c) (c_id buf)) as [E|E].
        -- assert (c = buf)
             by (apply (NoDup_ids_inj (cache_list st)); auto).
           subst c. exists rel. split; [exact F3|]. repeat split.
        -- exists c. split; [auto|]. repeat split.
      * intros c' Hc'. destruct (F1 c' Hc') as [E|[Hc Hn]].
        -- subst c'. exists buf. split; [exact Hin|]. repeat split.
        -- exists c'. split; [exact Hc|]. repeat split.
    + intros Hno. apply Hdisk. intros E. apply (Hno buf Hin). congruence.
  - unfold dirty_count in *. rewrite Hl2, filter_app, length_app.
    unfold rel, st1. cbn [filter is_dirty List.length cache_list]. lia.
Qed.

Lemma write_dirty_loop_view (fuel : nat) :
  forall st,
    cache_inv st ->
    (dirty_count (cache_list st) <= fuel)%nat ->
    exists st',
      write_dirty_loop fuel st = Some st'
      /\ cache_inv st'
      /\ (forall s, s <> UINT_MAX -> view st' s = view st s)
      /\ first_dirty (cache_list st') = None.
Proof.
  induction fuel as [|fuel IH]; intros st Hinv Hcount.
  - assert (E : first_dirty (cache_list st) = None)
      by (apply dirty_count_zero; lia).
    cbn [write_dirty_loop]. rewrite E. eauto.
  - cbn [write_dirty_loop].
    destruct (first_dirty (cache_list st)) as [buf|] eqn:Ef; [|eauto].
    assert (Hav : is_available buf = true).
    { unfold first_dirty in Ef. apply find_some in Ef.
      destruct Hinv as [(_ & _ & Ha & _) _].
      unfold all_available in Ha. rewrite Forall_forall in Ha.
      apply Ha. tauto. }
    rewrite Hav.
    destruct (write_dirty_step st buf Hinv Ef) as (st2 & E2 & Hinv2 & Hv2 & Hlt).
    rewrite E2.
    destruct (IH st2 Hinv2 ltac:(lia)) as (st' & E' & Hinv' & Hv' & Hnone).
    exists st'. split; [exact E'|]. split; [exact Hinv'|].
    split; [|exact Hnone].
    intros s Hs. rewrite Hv', Hv2; auto.
Qed.

Lemma init_cache_cache_inv (junk : nat -> cache) (d : Z -> sector_data) :
  cache_inv (init_cache junk d).
Proof.
  split; [apply init_cache_inv|].
  intros c Hc _ Hne. exfalso. apply Hne.
  unfold init_cache in Hc. cbn [cache_list] in Hc.
  apply in_map_iff in Hc. destruct Hc as (k & E & _). subst c. reflexivity.
Qed.

(** X1: whatever calls follow [init_cache], the cache has its
    [CACHE_SIZE] slots, each once, and every slot is available again
    when a call has returned: nothing keeps a slot that
    [allocate_buffer] handed out from being taken by the next call. *)
Theorem cache_keeps_its_slots (junk : nat -> cache) (d : Z -> sector_data)
    (ops : list cache_op) (st : cache_state) :
  run_ops ops (init_cache junk d) = Some st ->
  List.length (cache_list st) = CACHE_SIZE
  /\ NoDup (map c_id (cache_list st))
  /\ (forall k, (k < CACHE_SIZE)%nat -> In k (map c_id (cache_list st)))
  /\ (forall c, In c (cache_list st) -> is_available c = true).
Proof.
  intros H.
  destruct (run_ops_inv ops _ _ (init_cache_inv junk d) H)
    as (Hlen & Hnd & Ha & _).
  split; [exact Hlen|]. split; [exact Hnd|]. split.
  - assert (Hids : forall ops st st',
               run_ops ops st = Some st' ->
               forall k, In k (map c_id (cache_list st)) ->
                         In k (map c_id (cache_list st'))).
    { clear. induction ops as [|op ops IH]; intros st st'; cbn [run_ops].
      - intros H. inversion H; subst. auto.
      - destruct (run_op op st) as [st1|] eqn:E; [|discriminate].
        intros H k Hk. apply (IH _ _ H).
        destruct op as [s|b dirty|b dd|]; cbn [run_op] in E.
        + destruct (allocate_buffer s st) as [[b st2]|] eqn:E2; [|discriminate].
          cbn [option_map snd] in E. inversion E; subst.
          rewrite (allocate_buffer_ids _ _ _ _ E2). exact Hk.
        + destruct (deallocate_buffer_spec _ _ _ _ E)
            as (buf & Hin & Hid & Hl & _).
          rewrite Hl, map_app. cbn [map c_id]. apply in_or_app.
          destruct (Nat.eq_dec k b) as [Ek|Ek]; [right; left; congruence|].
          left. apply in_map_iff in Hk. destruct Hk as (c & Ec & Hc).
          apply in_map_iff. exists c. split; [exact Ec|]. apply filter_In.
          split; [exact Hc|]. rewrite Ec. apply Nat.eqb_neq in Ek.
          rewrite Ek. reflexivity.
        + unfold store_data in E.
          destruct (find_slot b (cache_list st)); [|discriminate].
          inversion E; subst. cbn [cache_list].
          rewrite ids_update_slot; auto.
        + unfold write_dirty_to_disk in E.
          revert E Hk. generalize (List.length (cache_list st)). intros fuel.
          revert st. induction fuel as [|fuel IHf]; intros st;
            cbn [write_dirty_loop];
            destruct (first_dirty (cache_list st)) as [buf|];
            try discriminate; try (intros E; inversion E; subst; auto; fail).
          destruct (is_available buf); [|discriminate].
          match goal with
          | |- context [deallocate_buffer ?b ?dd ?s] =>
              destruct (deallocate_buffer b dd s) as [st2|] eqn:E2
          end; [|discriminate].
          intros E Hk. apply (IHf st2 E).
          destruct (deallocate_buffer_spec _ _ _ _ E2)
            as (x & Hin & Hid & Hl & _).
          cbn [cache_list] in *.
          rewrite Hl, map_app. cbn [map c_id]. apply in_or_app.
          destruct (Nat.eq_dec k (c_id buf)) as [Ek|Ek];
            [right; left; congruence|].
          left. apply in_map_iff in Hk. destruct Hk as (c & Ec & Hc).
          apply in_map_iff. exists c. split; [exact Ec|]. apply filter_In.
          split.
          * unfold update_slot. apply in_map_iff. exists c.
            rewrite Ec. apply Nat.eqb_neq in Ek. rewrite Ek. auto.
          * rewrite Ec. apply Nat.eqb_neq in Ek. rewrite Ek. reflexivity. }
    intros k Hk. apply (Hids _ _ _ H). unfold init_cache. cbn [cache_list].
    rewrite map_map. cbn [c_id]. rewrite map_id. apply in_seq. lia.
  - unfold all_available in Ha. rewrite Forall_forall in Ha. exact Ha.
Qed.

(** X2: in every run from [init_cache] no two slots hold the same
    sector, the marker [UINT_MAX] that [init_cache] gives every slot
    apart. *)
Theorem cache_one_slot_per_sector (junk : nat -> cache) (d : Z -> sector_data)
    (ops : list cache_op) (st : cache_state) (c1 c2 : cache) :
  run_ops ops (init_cache junk d) = Some st ->
  In c1 (cache_list st) -> In c2 (cache_list st) ->
  disk_sector c1 = disk_sector c2 -> disk_sector c1 <> UINT_MAX ->
  c1 = c2.
Proof.
  intros H H1 H2 E Hne.
  destruct (run_ops_inv ops _ _ (init_cache_inv junk d) H)
    as (_ & Hnd & _ & Hone).
  apply (NoDup_ids_inj (cache_list st)); auto.
Qed.

(** X3: in every run from [init_cache], [allocate_buffer] returns:
    [find_buffer] needs two passes at most and no [cond_wait] is
    reached. The slot returned holds the sector asked for and is marked
    accessed. *)
Theorem allocate_buffer_returns_the_sector (junk : nat -> cache)
    (d : Z -> sector_data) (ops : list cache_op) (st : cache_state)
    (sector : Z) :
  run_ops ops (init_cache junk d) = Some st ->
  exists b st',
    allocate_buffer sector st = Some (b, st')
    /\ exists c,
         In c (cache_list st') /\ c_id c = b /\ disk_sector c = sector
         /\ accessed c = true /\ is_available c = true.
Proof.
  intros H.
  destruct (run_ops_inv ops _ _ (init_cache_inv junk d) H)
    as (Hlen & Hnd & Ha & _).
  assert (Hne : cache_list st <> []).
  { intros E. rewrite E in Hlen. discriminate. }
  destruct (allocate_buffer_returns sector st Hne Ha) as (b & st' & E & _ & _).
  exists b, st'. split; [exact E|].
  destruct (allocate_buffer_spec _ _ _ _ Hnd E)
    as (buf & Hin & Hid & Hav & [(Hs & _ & _ & HF)|(_ & _ & _ & HF)]);
    destruct (Forall2_in_l _ _ _ _ HF Hin) as (c' & Hc' & HR);
    unfold after_allocate in HR; rewrite Hid, Nat.eqb_refl in HR.
  - destruct HR as [(I & _ & S & A & _) Hacc]. exists c'.
    repeat split; congruence.
  - subst c'. eexists. split; [exact Hc'|]. repeat split.
Qed.

(** X4: [allocate_buffer] on a sector that a slot holds leaves the
    device alone and returns that slot with its data; on a sector that
    no slot holds it returns a clean slot with what the device has for
    the sector, read by a [block_read]. *)
Theorem allocate_buffer_hit_and_miss (junk : nat -> cache)
    (d : Z -> sector_data) (ops : list cache_op) (st st' : cache_state)
    (sector : Z) (b : nat) :
  run_ops ops (init_cache junk d) = Some st ->
  allocate_buffer sector st = Some (b, st') ->
  (forall c,
      In c (cache_list st) -> disk_sector c = sector ->
      dev_log st' = dev_log st /\ disk st' = disk st
      /\ exists c0 c',
           In c0 (cache_list st) /\ In c' (cache_list st')
           /\ c_id c0 = b /\ c_id c' = b
           /\ disk_sector c0 = sector /\ disk_sector c' = sector
           /\ c_data c' = c_data c0 /\ is_dirty c' = is_dirty c0)
  /\ ((forall c, In c (cache_list st) -> disk_sector c <> sector) ->
      exists c' log,
        In c' (cache_list st') /\ c_id c' = b /\ disk_sector c' = sector
        /\ c_data c' = disk st' sector /\ is_dirty c' = false
        /\ dev_log st' = BlockRead sector :: log).
Proof.
  intros H E.
  destruct (run_ops_inv ops _ _ (init_cache_inv junk d) H)
    as (_ & Hnd & _ & _).
  destruct (allocate_buffer_spec _ _ _ _ Hnd E)
    as (buf & Hin & Hid & Hav
        & [(Hs & Hd & Hlog & HF)|(Hmiss & Hd & Hlog & HF)]);
    destruct (Forall2_in_l _ _ _ _ HF Hin) as (c' & Hc' & HR);
    unfold after_allocate in HR; rewrite Hid, Nat.eqb_refl in HR.
  - split.
    + intros _ _ _. split; [exact Hlog|]. split; [exact Hd|].
      destruct HR as [(I & D & S & _ & Y) _].
      exists buf, c'. repeat split; congruence.
    + intros Hno. exfalso. exact (Hno buf Hin Hs).
  - split.
    + intros c Hc Hsec. exfalso. exact (Hmiss c Hc Hsec).
    + intros _. subst c'. eexists _, _. split; [exact Hc'|].
      cbn [c_id disk_sector c_data is_dirty]. repeat split. exact Hlog.
Qed.

(** X5: a read through the cache. [set_block_data] that does not mark
    the slot dirty returns, hands back a slot with the content of the
    sector as the file system saw it, and changes the content of no
    sector, whatever slot it evicts on the way. *)
Theorem cache_read_transparent (st : cache_state) (sector : Z) :
  cache_inv st ->
  exists b st',
    set_block_data sector false st = Some (b, st')
    /\ cache_inv st'
    /\ (forall s, s <> UINT_MAX -> view st' s = view st s)
    /\ exists c,
         In c (cache_list st') /\ c_id c = b /\ disk_sector c = sector
         /\ (sector <> UINT_MAX -> c_data c = view st sector).
Proof.
  intros Hinv.
  destruct (set_block_data_view sector false st Hinv)
    as (b & st' & E & Hinv' & Hv & (c & Hc & Hid & Hs & _ & Hd)).
  exists b, st'. split; [exact E|]. split; [exact Hinv'|].
  split; [exact Hv|]. exists c. auto.
Qed.

(** The two steps of a write through the cache. *)
Lemma write_through_cache (st : cache_state) (sector : Z) (d : sector_data) :
  cache_inv st -> sector <> UINT_MAX ->
  exists b st1 st2,
    set_block_data sector true st = Some (b, st1)
    /\ store_data b d st1 = Some st2
    /\ cache_inv st2
    /\ forall s,
         s <> UINT_MAX -> view st2 s = if s =? sector then d else view st s.
Proof.
  intros Hinv Hne.
  destruct (set_block_data_view sector true st Hinv)
    as (b & st1 & E & Hinv1 & Hv1 & (c & Hc & Hid & Hs & Hdirty & _)).
  assert (E2 : exists st2, store_data b d st1 = Some st2).
  { unfold store_data.
    destruct (find_slot_of_id b (cache_list st1)) as (x & Ex);
      [rewrite <- Hid; apply in_map; exact Hc|].
    rewrite Ex. eauto. }
  destruct E2 as (st2 & E2).
  destruct (store_view b d st1 st2 c Hinv1 Hc Hid (Hdirty eq_refl)
              ltac:(congruence) E2) as (Hinv2 & _ & Hv2).
  exists b, st1, st2. split; [exact E|]. split; [exact E2|].
  split; [exact Hinv2|]. intros s Hs'. rewrite Hv2 by exact Hs'.
  rewrite Hs. destruct (s =? sector); [reflexivity|]. apply Hv1. exact Hs'.
Qed.

(** X6: a write through the cache, as [inode_write_at] does it:
    [set_block_data] marks the slot of the sector dirty and the data
    is then copied into the slot. Afterwards the sector shows the data
    copied and every other sector shows what it did. *)
Theorem cache_write_visible (st : cache_state) (sector : Z) (d : sector_data) :
  cache_inv st -> sector <> UINT_MAX ->
  exists b st1 st2,
    set_block_data sector true st = Some (b, st1)
    /\ store_data b d st1 = Some st2
    /\ cache_inv st2
    /\ forall s,
         s <> UINT_MAX -> view st2 s = if s =? sector then d else view st s.
Proof. exact (write_through_cache st sector d). Qed.

(** X7: [write_dirty_to_disk] returns, leaves no slot dirty, changes
    the content of no sector, and afterwards the device has the
    content of every sector. *)
Theorem write_dirty_to_disk_flushes (st : cache_state) :
  cache_inv st ->
  exists st',
    write_dirty_to_disk st = Some st'
    /\ cache_inv st'
    /\ (forall c, In c (cache_list st') -> is_dirty c = false)
    /\ forall s,
         s <> UINT_MAX -> view st' s = view st s /\ disk st' s = view st s.
Proof.
  intros Hinv. unfold write_dirty_to_disk.
  destruct (write_dirty_loop_view (List.length (cache_list st)) st Hinv
              (dirty_count_le _)) as (st' & E & Hinv' & Hv & Hnone).
  exists st'. split; [exact E|]. split; [exact Hinv'|].
  assert (Hclean : forall c, In c (cache_list st') -> is_dirty c = false).
  { intros c Hc. pose proof (find_none _ _ Hnone c Hc) as Hn. exact Hn. }
  split; [exact Hclean|].
  intros s Hs. split; [apply Hv; exact Hs|]. rewrite <- (Hv s Hs).
  destruct Hinv' as [(_ & Hnd & _ & Hone) Hagree].
  destruct (holder_dec (cache_list st') s) as [(c & Hc & Ec)|Hno].
  - subst s. rewrite (view_holder st' c) by auto. symmetry.
    apply Hagree; auto.
  - symmetry. apply view_absent. exact Hno.
Qed.

(** * Runs on a small device *)

(** A device of 64 sectors, freshly formatted ([do_format], then
    [root_dir_init]): sector 0 is the free map's, sector 1 the root
    directory's, which has room for 16 entries. The undefined reads
    find 0 and the stale [buff] of [byte_to_sector] is non-null. *)
Definition no_wild : Z -> Z := fun _ => 0.

Definition blank : world :=
  mk_world (fun _ => zero_sector) (true :: true :: repeat false 62) [] []
    0%nat None.

Definition run {A : Type} (m : M A) (w : option world) : option (A * world) :=
  match w with Some w => m w | None => None end.

Definition state {A : Type} (r : option (A * world)) : option world :=
  option_map snd r.

Definition value {A : Type} (r : option (A * world)) : option A :=
  option_map fst r.

Definition formatted : option world :=
  state
    (run (root_dir_init no_wild true)
       (state (dir_create ROOT_DIR_SECTOR 16 blank))).

(** [filesys_create ("/a", 0)] then [filesys_open ("/a")]. *)
Definition with_a : option (option nat * world) :=
  run (filesys_open no_wild true "/a")
    (state (run (filesys_create no_wild true "/a" 0) formatted)).

Definition w_a : world :=
  match with_a with Some (_, w) => w | None => blank end.

(** The in-memory inode of "/a": the handle [filesys_open] returned
    points to it; it lives in sector 3. *)
Definition file_a : inode :=
  match find_inode 1 w_a with Some i => i | None => mk_inode 0 0 0 false 0 end.

Example with_a_opened :
  value with_a = Some (Some 1%nat)
  /\ file_a = mk_inode 1 3 1 false 0
  /\ inode_length file_a w_a = 0.
Proof. vm_compute. auto. Qed.

(** The state after one byte is written to "/a" at [offset]. *)
Definition written_at (offset : Z) : Z * world :=
  inode_write_at no_wild true file_a [65] 1 offset w_a.

(** "/a" with one byte at [offset], removed by [filesys_remove] while
    its opener holds it, and that opener's [inode_close]. *)
Definition removed_open (offset : Z) : option world :=
  state
    (run (filesys_remove no_wild true "/a") (Some (snd (written_at offset)))).

Definition removed_and_closed (offset : Z) : option world :=
  state (run (attempt (inode_close (Some 1%nat))) (removed_open offset)).

(** C1, the code at offset [(124 + 125) * 512]: one byte written
    there to the fresh file "/a" leaves [sectors[125]] at 0. The walk
    goes through [sectors[124]] instead, which it uses as a
    double-indirect sector: outer slot 1, inner slot 0. At offset
    [124 * 512] alike, slot 0 of the sector at [sectors[124]] holds a
    further pointer sector and not the data sector. *)
Theorem walk_leaves_double_indirect_slot_unused :
  fst (written_at 127488) = 1
  /\ disk_sectors (store (snd (written_at 127488)) 3) 125 = 0
  /\ disk_sectors (store (snd (written_at 127488)) 3) 124 = 4
  /\ get_word (store (snd (written_at 127488)) 4) 1 = 5
  /\ get_word (store (snd (written_at 127488)) 5) 0 = 6
  /\ fst (byte_to_sector no_wild true file_a 127488 (snd (written_at 127488)))
     = 6
  /\ get_word (store (snd (written_at 63488)) 4) 0 = 5
  /\ get_word (store (snd (written_at 63488)) 5) 0 = 6
  /\ fst (byte_to_sector no_wild true file_a 63488 (snd (written_at 63488)))
     = 6.
Proof. vm_compute. repeat split; reflexivity. Qed.

(** C2, the code on a removed file. The last [inode_close] of a
    removed inode whose [sectors[DIRECT_BLOCKS]] is not 0 does not
    return: the loop over that sector stores and reads through
    [block_data], which points nowhere. So with "/a" holding one byte
    at offset [124 * 512], in data sector 6 behind the pointer sectors
    4 and 5, [filesys_remove] leaves the inode marked removed with one
    opener and the sectors 3 to 6 in use, and the close of that opener
    does not return: none of them is released. With the byte at
    offset 0, in the direct block 4, the close returns and releases
    sector 4; the inode's own sector 3 stays in use. *)
Theorem close_stops_at_indirect_block :
  (forall a w i,
      find_inode a w = Some i -> open_cnt i = 1 -> removed i = true ->
      disk_sectors (store w (i_sector i)) DIRECT_BLOCKS <> 0 ->
      inode_close (Some a) w = None)
  /\ fst (byte_to_sector no_wild true file_a 63488 (snd (written_at 63488))) = 6
  /\ option_map
       (fun w =>
          (find_inode 1 w, disk_sectors (store w 3) DIRECT_BLOCKS,
           map (bitmap_test (free_map w)) [3; 4; 5; 6]))
       (removed_open 63488)
     = Some (Some (mk_inode 1 3 1 true 0), 4, [true; true; true; true])
  /\ removed_and_closed 63488 = None
  /\ option_map
       (fun w =>
          (find_inode 1 w, disk_sectors (store w 3) 0,
           disk_sectors (store w 3) DIRECT_BLOCKS,
           map (bitmap_test (free_map w)) [3; 4]))
       (removed_open 0)
     = Some (Some (mk_inode 1 3 1 true 0), 4, 0, [true; true])
  /\ option_map
       (fun w => (find_inode 1 w, map (bitmap_test (free_map w)) [3; 4]))
       (removed_and_closed 0)
     = Some (None, [true; false]).
Proof.
  split.
  - intros a w i Hfind Hcnt Hrem Hsingle. cbn [inode_close].
    rewrite Hfind, Hcnt, Hrem. change (1 - 1 =? 0) with true. cbv iota.
    unfold release_blocks. cbv zeta. cbn [set_open_inodes store].
    destruct (Z.eqb_spec (disk_sectors (store w (i_sector i)) DIRECT_BLOCKS) 0);
      [contradiction|reflexivity].
  - vm_compute. repeat split; reflexivity.
Qed.

(** The root directory right after [do_format]: 16 entries long, no
    sector yet. *)
Definition after_format : world :=
  match dir_create ROOT_DIR_SECTOR 16 blank with
  | Some (_, w) => w
  | None => blank
  end.

Definition root_inode : inode := mk_inode 0 ROOT_DIR_SECTOR 1 false 0.

(** C3 fails: a read of the first entry of the fresh root directory
    allocates sector 2 and stores it in [sectors[0]]. *)
Lemma read_allocates :
  inode_length root_inode after_format = 320
  /\ disk_sectors (store after_format ROOT_DIR_SECTOR) 0 = 0
  /\ disk_sectors
       (store (snd (inode_read_at no_wild true root_inode 20 0 after_format))
          ROOT_DIR_SECTOR) 0 = 2
  /\ bitmap_test (free_map after_format) 2 = false
  /\ bitmap_test
       (free_map (snd (inode_read_at no_wild true root_inode 20 0 after_format)))
       2 = true
  /\ fm_log (snd (inode_read_at no_wild true root_inode 20 0 after_format))
     = [FmAlloc 2].
Proof. vm_compute. repeat split; reflexivity. Qed.

(** C6, the code on a leaf of 16 characters: the resolution of the
    parent returns null, the resolution of the leaf returns the
    directory reached so far, here the root, and [filesys_open]
    returns a handle on it. *)
Theorem long_leaf_opens_directory :
  value
    (run (retrieve_dir_from_location no_wild true "/abcdefghijklmnop" true)
       formatted)
  = Some (None, "abcdefghijklmn"%string)
  /\ value
       (run (retrieve_dir_from_location no_wild true "/abcdefghijklmnop" false)
          formatted)
     = Some (Some (mk_dir 0 0), "abcdefghijklmn"%string)
  /\ value (run (filesys_open no_wild true "/abcdefghijklmnop") formatted)
     = Some (Some 0%nat)
  /\ option_map (fun w => option_map i_sector (find_inode 0 w)) formatted
     = Some (Some ROOT_DIR_SECTOR).
Proof. vm_compute. repeat split; reflexivity. Qed.


(** C10 fails on the root directory: on the freshly formatted device
    [filesys_remove ("/.")] returns true and leaves the root inode
    marked removed, its entry "." no longer in use; the
    [filesys_create ("/zz", 0)] that follows returns false. *)
Lemma root_removed_through_dot :
  value (run (filesys_remove no_wild true "/.") formatted) = Some true
  /\ option_map (fun w => find_inode 0 w) formatted
     = Some (Some (mk_inode 0 ROOT_DIR_SECTOR 1 false 0))
  /\ option_map
       (fun w => (find_inode 0 w, e_in_use (entry w ROOT_DIR_SECTOR 0)))
       (state (run (filesys_remove no_wild true "/.") formatted))
     = Some (Some (mk_inode 0 ROOT_DIR_SECTOR 1 true 0), false)
  /\ value
       (run (filesys_create no_wild true "/zz" 0)
          (state (run (filesys_remove no_wild true "/.") formatted)))
     = Some false
  /\ value (run (filesys_create no_wild true "/zz" 0) formatted) = Some true.
Proof. vm_compute. repeat split; reflexivity. Qed.

Lemma only_slashes_rejected_witness :
  (exists w',
     retrieve_dir_from_location no_wild true "//" true after_format
     = Some ((None, EmptyString), w'))
  /\ (exists w',
        filesys_create no_wild true "//" 0 after_format = Some (false, w'))
  /\ (exists w', filesys_remove no_wild true "//" after_format = Some (false, w')).
Proof. apply only_slashes_rejected. reflexivity. Defined.

(** * A run of the cache *)

(** Slots that come up clean, over a zeroed device. Sector 5 is
    acquired, written to and released dirty; 63 further sectors fill
    the other slots; the sector acquired next evicts sector 5. *)
Definition clean_junk (k : nat) : cache :=
  mk_cache k zero_sector 0 false false false.

Definition fill_ops : list cache_op :=
  [Allocate 5; StoreData 0 (fun _ => 7); Deallocate 0 true]
  ++ flat_map
       (fun k => [Allocate (100 + Z.of_nat k); Deallocate (S k) false])
       (seq 0 63).

Definition cache_start : cache_state :=
  init_cache clean_junk (fun _ => zero_sector).

Definition cache_full : cache_state :=
  match run_ops fill_ops cache_start with
  | Some st => st
  | None => cache_start
  end.

Definition cache_next : cache_state :=
  match run_op (Allocate 200) cache_full with
  | Some st => st
  | None => cache_start
  end.

Definition slot0 (st : cache_state) : cache :=
  match find_slot 0 (cache_list st) with
  | Some c => c
  | None => clean_junk 0
  end.

Lemma dirty_slot_written_before_reuse_witness :
  dev_log cache_next
  = BlockRead (disk_sector (slot0 cache_next))
      :: BlockWrite (disk_sector (slot0 cache_full)) (c_data (slot0 cache_full))
      :: dev_log cache_full
  /\ (exists s, Allocate 200 = Allocate s).
Proof.
  exact (dirty_slot_written_before_reuse clean_junk (fun _ => zero_sector)
           fill_ops (Allocate 200) cache_full cache_next (slot0 cache_full)
           (slot0 cache_next)
           ltac:(vm_compute; reflexivity)
           ltac:(vm_compute; reflexivity)
           (proj1 (find_slot_some 0 (cache_list cache_full) (slot0 cache_full)
                     ltac:(vm_compute; reflexivity)))
           (proj1 (find_slot_some 0 (cache_list cache_next) (slot0 cache_next)
                     ltac:(vm_compute; reflexivity)))
           ltac:(vm_compute; reflexivity)
           ltac:(vm_compute; reflexivity)
           ltac:(vm_compute; discriminate)).
Defined.

Example cache_run :
  (disk_sector (slot0 cache_full), is_dirty (slot0 cache_full),
   c_data (slot0 cache_full) 0, disk_sector (slot0 cache_next),
   is_dirty (slot0 cache_next), disk cache_next 5 0,
   List.length (cache_list cache_next))
  = (5, true, 7, 200, false, 7, 64%nat).
Proof. vm_compute. reflexivity. Qed.

Lemma one_inode_per_sector_witness :
  (exists w',
      run_inode_ops [Open 5; Open 5; Reopen 0; Close 0; Open 7]
        (inode_init blank) = Some w'
      /\ NoDup (map i_sector (open_inodes w')))
  /\ fst (inode_open 3 w_a) = Some (i_addr file_a)
  /\ fst (inode_open 9 w_a) = Some (next_addr w_a).
Proof.
  pose proof one_inode_per_sector as (H1 & H2 & H3).
  split; [exact (H1 _ blank)|]. split.
  - exact (proj1 (H2 3 w_a file_a ltac:(vm_compute; reflexivity))).
  - exact (proj1 (H3 9 w_a ltac:(vm_compute; reflexivity))).
Defined.

Definition w_fmt : world :=
  match formatted with Some w => w | None => blank end.

Lemma root_present (pos : Z) :
  0 <= pos <= 320 -> present w_fmt ROOT_DIR_SECTOR pos.
Proof.
  intros H.
  assert (Hidx : pos / BLOCK_SECTOR_SIZE = 0)
    by (unfold BLOCK_SECTOR_SIZE; Z.div_mod_to_equations; lia).
  split.
  - rewrite data_role_direct by (rewrite Hidx; reflexivity).
    rewrite Hidx. vm_compute. discriminate.
  - rewrite Hidx. unfold DIRECT_BLOCKS. lia.
Qed.

Lemma inode_read_at_allocates_only_holes_witness :
  snd (inode_read_at no_wild true file_a 1 0 w_a) = w_a
  /\ snd (inode_read_at no_wild true root_inode 20 0 w_fmt) = w_fmt
  /\ In (FmAlloc 2)
       (fm_log (snd (inode_read_at no_wild true root_inode 20 0 after_format)))
  /\ In (FmAlloc 7)
       (fm_log
          (snd (inode_read_at no_wild true file_a 1 63488
                  (snd (written_at 127488))))).
Proof.
  split; [|split; [|split]].
  - exact (proj1 (inode_read_at_allocates_only_holes no_wild true file_a 1 0
                    w_a) ltac:(vm_compute; discriminate)).
  - refine (proj1 (proj2 (inode_read_at_allocates_only_holes no_wild true
                            root_inode 20 0 w_fmt)) ltac:(lia) _).
    intros pos Hpos _. apply root_present.
    replace (inode_length root_inode w_fmt) with 320 in Hpos
      by (vm_compute; reflexivity).
    exact Hpos.
  - refine (proj1 (proj2 (proj2 (inode_read_at_allocates_only_holes no_wild
                                   true root_inode 20 0 after_format))) 2
              (snd (free_map_allocate after_format)) _ _ _ _ _).
    + vm_compute. split; [discriminate|reflexivity].
    + reflexivity.
    + vm_compute. reflexivity.
    + vm_compute. reflexivity.
    + vm_compute. reflexivity.
  - refine (proj2 (proj2 (proj2 (inode_read_at_allocates_only_holes no_wild
                                   true file_a 1 63488
                                   (snd (written_at 127488))))) 7
              (snd (free_map_allocate (snd (written_at 127488))))
              _ _ _ _ _ _ _ _ _).
    + vm_compute. split; [discriminate|reflexivity].
    + reflexivity.
    + vm_compute. discriminate.
    + vm_compute. intros H. discriminate H.
    + vm_compute. reflexivity.
    + vm_compute. intros H. discriminate H.
    + vm_compute. intros H. discriminate H.
    + vm_compute. reflexivity.
    + vm_compute. reflexivity.
Defined.

(** * A directory with a file in it *)

(** What a [mkdir ("/d")] does with the functions at hand: a sector is
    allocated, [dir_create] makes a directory of 16 entries there, the
    root gets the entry "d" and the new directory the entries "." and
    "..". Then [filesys_create ("/d/x", 0)]. *)
Definition mkdir_d : M unit :=
  bind (lift free_map_allocate) (fun s =>
  match s with
  | None => crash
  | Some s =>
      bind (dir_create s 16) (fun _ =>
      bind (dir_add no_wild true (mk_dir 0 0) "d" s) (fun _ =>
      bind (lift (inode_open s)) (fun p =>
      match p with
      | None => crash
      | Some a =>
          bind (dir_add no_wild true (mk_dir a 0) "." s) (fun _ =>
          bind (dir_add no_wild true (mk_dir a 0) ".." ROOT_DIR_SECTOR)
            (fun _ => attempt (inode_close (Some a))))
      end)))
  end).

Definition w_d : world :=
  match
    state (run (filesys_create no_wild true "/d/x" 0)
             (state (run mkdir_d formatted)))
  with
  | Some w => w
  | None => blank
  end.

(** The steps of [filesys_remove ("/d")] up to the lookup of "d". *)
Definition d_resolved : option (dir * string * world) :=
  match retrieve_dir_from_location no_wild true "/d" true w_d with
  | Some ((Some dd, file_name), w1) => Some (dd, file_name, w1)
  | _ => None
  end.

Definition d_parent : dir :=
  match d_resolved with Some (dd, _, _) => dd | None => mk_dir 0 0 end.

Definition d_after_resolve : world :=
  match d_resolved with Some (_, _, w1) => w1 | None => blank end.

Definition d_after_lookup : world :=
  match dir_lookup no_wild true d_parent "d" d_after_resolve with
  | Some (_, w2) => w2
  | None => blank
  end.

Definition d_inode_rec : inode := mk_inode 3 3 1 false 0.

Example d_setup :
  value (run (filesys_create no_wild true "/d/x" 0)
           (state (run mkdir_d formatted))) = Some true
  /\ find_inode 3 d_after_lookup = Some d_inode_rec
  /\ inode_length d_inode_rec d_after_lookup = 320
  /\ map e_name
       (map (fun k => file_bytes d_after_lookup 3 (20 * k) 20) [0; 1; 2])
     = map name_bytes ["."; ".."; "x"]%string
  /\ value (filesys_remove no_wild true "/d" w_d) = Some false
  /\ value (run (filesys_remove no_wild true "/d")
              (state (filesys_remove no_wild true "/d/x" w_d))) = Some true.
Proof. vm_compute. repeat split; reflexivity. Qed.

Lemma d_readable :
  readable d_after_lookup (i_sector d_inode_rec)
    (inode_length d_inode_rec d_after_lookup).
Proof.
  replace (inode_length d_inode_rec d_after_lookup) with 320
    by (vm_compute; reflexivity).
  intros pos H.
  assert (Hidx : pos / BLOCK_SECTOR_SIZE = 0)
    by (unfold BLOCK_SECTOR_SIZE; Z.div_mod_to_equations; lia).
  rewrite data_role_direct by (rewrite Hidx; reflexivity).
  unfold present. rewrite data_role_direct by (rewrite Hidx; reflexivity).
  rewrite Hidx. split; [split|].
  - vm_compute. discriminate.
  - unfold DIRECT_BLOCKS. lia.
  - vm_compute. discriminate.
Qed.

Lemma w_d_start_table_ok : table_ok w_d.
Proof.
  split.
  - replace (map i_addr (open_inodes w_d)) with [0%nat]
      by (vm_compute; reflexivity).
    repeat constructor. cbn [In]. tauto.
  - intros i Hi.
    replace (open_inodes w_d) with [mk_inode 0 1 1 false 0] in Hi
      by (vm_compute; reflexivity).
    replace (next_addr w_d) with 3%nat by (vm_compute; reflexivity).
    destruct Hi as [E|[]]; subst i. cbn [open_cnt i_addr]. lia.
Qed.

Lemma filesys_remove_keeps_nonempty_dir_witness :
  exists w',
    filesys_remove no_wild true "/d" w_d = Some (false, w')
    /\ store w' = store d_after_lookup.
Proof.
  exact (filesys_remove_keeps_nonempty_dir no_wild true "/d" w_d d_parent "d"
           d_after_resolve 3 d_after_lookup d_inode_rec 2
           w_d_start_table_ok
           ltac:(vm_compute; reflexivity)
           ltac:(vm_compute; reflexivity)
           ltac:(vm_compute; reflexivity)
           ltac:(vm_compute; reflexivity)
           d_readable
           ltac:(lia)
           ltac:(vm_compute; discriminate)
           ltac:(vm_compute; reflexivity)).
Defined.

(** * A write across the last direct block, and the read after it *)

Lemma w_a_wf : wf w_a (i_sector file_a).
Proof.
  apply wf_no_pointers.
  - vm_compute. intros H. discriminate H.
  - vm_compute. reflexivity.
  - vm_compute. reflexivity.
  - vm_compute. intros H. discriminate H.
  - intros k Hk.
    replace (store w_a (i_sector file_a))
      with (store (write_sector blank 3 (new_inode_disk 0 false)) 3)
      by (vm_compute; reflexivity).
    apply inode_create_no_pointers. exact Hk.
Qed.

(** 600 bytes, written 100 bytes before the end of the direct blocks. *)
Definition payload : list Z := map (fun j => Z.of_nat (j mod 251)) (seq 0 600).

Definition w_payload : world :=
  snd (inode_write_at no_wild true file_a payload
         (Z.of_nat (List.length payload)) 63388 w_a).

Lemma write_then_read_witness :
  63388 + 600 <= inode_length file_a w_payload
  /\ fst (inode_read_at no_wild true file_a 600 63388 w_payload) = payload
  /\ wf w_payload (i_sector file_a).
Proof.
  refine (write_then_read no_wild true file_a payload 63388 w_a 600 w_payload
            w_a_wf eq_refl _ _ _ _ _ _).
  - lia.
  - vm_compute. intros H. discriminate H.
  - right. vm_compute. reflexivity.
  - vm_compute. reflexivity.
  - vm_compute. reflexivity.
  - vm_compute. reflexivity.
Defined.

(** A write of no byte to an inode whose writes are denied: "/a" is
    empty, [inode_deny_write] was called on it once, and a write of no
    byte at offset 1 returns 0, the number of bytes asked for, with no
    allocation failing; the length stays 0, below 1. *)
Definition w_a_denied : world :=
  match inode_deny_write 1 w_a with Some w => w | None => w_a end.

Definition file_a_denied : inode :=
  match find_inode 1 w_a_denied with
  | Some i => i
  | None => file_a
  end.

Example denied_empty_write :
  file_a_denied = mk_inode 1 3 1 false 1
  /\ wf w_a_denied (i_sector file_a_denied)
  /\ fst (inode_write_at no_wild true file_a_denied [] 0 1 w_a_denied) = 0
  /\ alloc_failures
       (snd (inode_write_at no_wild true file_a_denied [] 0 1 w_a_denied))
     = alloc_failures w_a_denied
  /\ inode_length file_a_denied
       (snd (inode_write_at no_wild true file_a_denied [] 0 1 w_a_denied))
     < 1 + 0.
Proof.
  split; [vm_compute; reflexivity|]. split.
  - exact w_a_wf.
  - vm_compute. repeat split; reflexivity.
Qed.

(** * A write behind the direct blocks when [buff] is null *)

(** The device formatted, "/a" created and opened, all with the local
    [buff] of [byte_to_sector] null ([stack_buff] is false). *)
Definition null_a : world :=
  match
    run (filesys_open no_wild false "/a")
      (state
         (run (filesys_create no_wild false "/a" 0)
            (state
               (run (root_dir_init no_wild false)
                  (state (dir_create ROOT_DIR_SECTOR 16 blank))))))
  with
  | Some (_, w) => w
  | None => blank
  end.

(** One byte written to "/a" at offset [124 * 512]. *)
Definition null_written : Z * world :=
  inode_write_at no_wild false file_a [65] 1 63488 null_a.

(** C4, the code when the local [buff] of [byte_to_sector] is null.
    [byte_to_sector] hands [buff] on before anything is assigned to
    it, and [byte_to_double_indirect_sec] skips the store of a new
    pointer when it is null. "/a" is fresh and empty; one byte written
    at offset [124 * 512] is reported written, no allocation fails and
    the length becomes 63489; the read of that byte then returns one
    byte, 0, and not the byte written. The same write with [buff]
    non-null is read back. *)
Theorem write_lost_when_buff_null :
  find_inode 1 null_a = Some file_a
  /\ inode_length file_a null_a = 0
  /\ fst null_written = 1
  /\ alloc_failures (snd null_written) = 0%nat
  /\ 63488 + 1 <= inode_length file_a (snd null_written)
  /\ fst (inode_read_at no_wild false file_a 1 63488 (snd null_written)) = [0]
  /\ fst (inode_read_at no_wild true file_a 1 63488 (snd (written_at 63488)))
     = [65].
Proof. vm_compute. repeat split; try reflexivity; discriminate. Qed.

(** * Runs for the further properties *)

(** A block tree whose only pointer is the first direct one. *)
Lemma wf_first_block (w : world) (isec : Z) :
  isec <> 0 ->
  bitmap_test (free_map w) 0 = true ->
  bitmap_test (free_map w) isec = true ->
  Z.of_nat (List.length (free_map w)) <= NO_SECTOR ->
  get_word (store w isec) 2 <> isec ->
  bitmap_test (free_map w) (get_word (store w isec) 2) = true ->
  (forall k, 1 <= k -> get_word (store w isec) (2 + k) = 0) ->
  wf w isec.
Proof.
  intros Hi H0 Huse Hlen Hne Hb Hz.
  assert (Hown : forall r, valid_role r -> r <> RInode -> r <> RDirect 0 ->
                           owner w isec r = 0).
  { intros r Hv Hr Hd. destruct r as [|k| |o|o n]; cbn [valid_role owner] in *.
    - tauto.
    - rewrite child_of by exact Hi. apply Hz.
      destruct (Z.eq_dec k 0); [subst; tauto|lia].
    - rewrite child_of by exact Hi. apply Hz. unfold DIRECT_BLOCKS. lia.
    - rewrite (child_of w isec) by exact Hi.
      rewrite Hz by (unfold DIRECT_BLOCKS; lia). reflexivity.
    - rewrite (child_of w isec) by exact Hi.
      rewrite Hz by (unfold DIRECT_BLOCKS; lia). reflexivity. }
  assert (Hd0 : owner w isec (RDirect 0) = get_word (store w isec) 2).
  { cbn [owner]. rewrite child_of by exact Hi. reflexivity. }
  split; [exact Hi|]. split; [exact H0|]. split; [exact Hlen|]. split.
  - intros r Hv Hr. destruct (role_eq_dec r RInode) as [E|E];
      [subst r; exact Huse|].
    destruct (role_eq_dec r (RDirect 0)) as [E'|E'].
    + subst r. rewrite Hd0. exact Hb.
    + rewrite Hown in Hr by assumption. tauto.
  - intros r1 r2 Hv1 Hv2 Hr E.
    destruct (role_eq_dec r1 RInode) as [E1|E1];
      destruct (role_eq_dec r2 RInode) as [E2|E2];
      try (subst; reflexivity).
    + subst r1. cbn [owner] in E, Hr.
      destruct (role_eq_dec r2 (RDirect 0)) as [E3|E3].
      * subst r2. rewrite Hd0 in E. congruence.
      * rewrite (Hown r2) in E by assumption. congruence.
    + subst r2. cbn [owner] in E.
      destruct (role_eq_dec r1 (RDirect 0)) as [E3|E3].
      * subst r1. rewrite Hd0 in E. congruence.
      * rewrite (Hown r1) in Hr by assumption. tauto.
    + destruct (role_eq_dec r1 (RDirect 0)) as [E3|E3];
        [|rewrite (Hown r1) in Hr by assumption; tauto].
      destruct (role_eq_dec r2 (RDirect 0)) as [E4|E4]; [congruence|].
      rewrite (Hown r2) in E by assumption. congruence.
Qed.

(** A property checked at every index below [n]. *)
Lemma below_forallb (p : Z -> bool) (n : nat) :
  forallb p (map Z.of_nat (seq 0 n)) = true ->
  forall j, 0 <= j < Z.of_nat n -> p j = true.
Proof.
  intros H j Hj. rewrite forallb_forall in H. apply H.
  apply in_map_iff. exists (Z.to_nat j). split; [lia|].
  apply in_seq. lia.
Qed.

(** The root directory after the format: 16 entries in one block. *)
Lemma w_fmt_wf : wf w_fmt ROOT_DIR_SECTOR.
Proof.
  apply wf_first_block.
  - vm_compute. intros H. discriminate H.
  - vm_compute. reflexivity.
  - vm_compute. reflexivity.
  - vm_compute. intros H. discriminate H.
  - vm_compute. intros H. discriminate H.
  - vm_compute. reflexivity.
  - intros k Hk.
    replace (store w_fmt ROOT_DIR_SECTOR) with
      (set_word
         (store
            (write_sector blank ROOT_DIR_SECTOR
               (new_inode_disk (16 * DIR_ENTRY_SIZE) true))
            ROOT_DIR_SECTOR) 2 2) by (vm_compute; reflexivity).
    rewrite get_set_word_other by lia.
    apply inode_create_no_pointers. lia.
Qed.

(** A directory whose entries lie within its first block. *)
Lemma first_block_entries (w : world) (isec n : Z) :
  isec <> 0 -> 0 <= n ->
  disk_length (store w isec) = DIR_ENTRY_SIZE * n ->
  DIR_ENTRY_SIZE * n <= BLOCK_SECTOR_SIZE ->
  get_word (store w isec) 2 <> 0 ->
  entries w isec n.
Proof.
  intros Hi Hn Hlen Hfit Hp. unfold entries.
  unfold DIR_ENTRY_SIZE, BLOCK_SECTOR_SIZE in *.
  split; [exact Hn|]. split; [exact Hlen|].
  split; [unfold MAX_FILE_SIZE; lia|].
  intros pos Hpos.
  assert (Hidx : pos / BLOCK_SECTOR_SIZE = 0)
    by (unfold BLOCK_SECTOR_SIZE; Z.div_mod_to_equations; lia).
  rewrite data_role_direct by (rewrite Hidx; reflexivity).
  rewrite Hidx. cbn [owner]. rewrite child_of by exact Hi. exact Hp.
Qed.

Lemma w_fmt_entries : entries w_fmt ROOT_DIR_SECTOR 16.
Proof.
  apply first_block_entries.
  - vm_compute. intros H. discriminate H.
  - lia.
  - vm_compute. reflexivity.
  - vm_compute. intros H. discriminate H.
  - vm_compute. intros H. discriminate H.
Qed.

(** The directory "/d" of [w_d], open, with the entry of "x". *)
Lemma w_d_wf : wf d_after_lookup (i_sector d_inode_rec).
Proof.
  apply wf_first_block.
  - vm_compute. intros H. discriminate H.
  - vm_compute. reflexivity.
  - vm_compute. reflexivity.
  - vm_compute. intros H. discriminate H.
  - vm_compute. intros H. discriminate H.
  - vm_compute. reflexivity.
  - intros k Hk.
    replace (store d_after_lookup (i_sector d_inode_rec)) with
      (set_word
         (store (write_sector blank 3 (new_inode_disk (16 * DIR_ENTRY_SIZE) true))
            3) 2 4)
      by (vm_compute; reflexivity).
    rewrite get_set_word_other by lia.
    apply inode_create_no_pointers. lia.
Qed.

Lemma w_d_entries : entries d_after_lookup (i_sector d_inode_rec) 16.
Proof.
  apply first_block_entries.
  - vm_compute. intros H. discriminate H.
  - lia.
  - vm_compute. reflexivity.
  - vm_compute. intros H. discriminate H.
  - vm_compute. intros H. discriminate H.
Qed.

Lemma w_d_table_ok : table_ok d_after_lookup.
Proof.
  split.
  - replace (map i_addr (open_inodes d_after_lookup)) with [3%nat; 0%nat]
      by (vm_compute; reflexivity).
    repeat constructor; cbn [In]; intuition discriminate.
  - intros i Hi.
    replace (open_inodes d_after_lookup)
      with [d_inode_rec; mk_inode 0 1 2 false 0] in Hi
      by (vm_compute; reflexivity).
    replace (next_addr d_after_lookup) with 4%nat by (vm_compute; reflexivity).
    destruct Hi as [E|[E|[]]]; subst i; cbn [open_cnt i_addr d_inode_rec]; lia.
Qed.

(** * The further properties on these runs *)

Lemma cache_keeps_its_slots_witness :
  List.length (cache_list cache_full) = CACHE_SIZE
  /\ NoDup (map c_id (cache_list cache_full))
  /\ (forall k, (k < CACHE_SIZE)%nat -> In k (map c_id (cache_list cache_full)))
  /\ (forall c, In c (cache_list cache_full) -> is_available c = true).
Proof.
  exact (cache_keeps_its_slots clean_junk (fun _ => zero_sector) fill_ops
           cache_full ltac:(vm_compute; reflexivity)).
Defined.

Lemma cache_one_slot_per_sector_witness :
  slot0 cache_full = nth 0 (cache_list cache_full) (clean_junk 0).
Proof.
  exact (cache_one_slot_per_sector clean_junk (fun _ => zero_sector) fill_ops
           cache_full (slot0 cache_full)
           (nth 0 (cache_list cache_full) (clean_junk 0))
           ltac:(vm_compute; reflexivity)
           (proj1 (find_slot_some 0 (cache_list cache_full) (slot0 cache_full)
                     ltac:(vm_compute; reflexivity)))
           (@nth_In cache 0%nat (cache_list cache_full) (clean_junk 0)
              ltac:(replace (List.length (cache_list cache_full)) with 64%nat
                      by (vm_compute; reflexivity); lia))
           ltac:(vm_compute; reflexivity)
           ltac:(vm_compute; discriminate)).
Defined.

Lemma allocate_buffer_returns_the_sector_witness :
  exists b st',
    allocate_buffer 200 cache_full = Some (b, st')
    /\ exists c, In c (cache_list st') /\ c_id c = b /\ disk_sector c = 200
                 /\ accessed c = true /\ is_available c = true.
Proof.
  exact (allocate_buffer_returns_the_sector clean_junk (fun _ => zero_sector)
           fill_ops cache_full 200 ltac:(vm_compute; reflexivity)).
Defined.

Lemma allocate_buffer_hit_and_miss_witness :
  exists c' log,
    In c' (cache_list cache_next) /\ c_id c' = 0%nat /\ disk_sector c' = 200
    /\ c_data c' = disk cache_next 200 /\ is_dirty c' = false
    /\ dev_log cache_next = BlockRead 200 :: log.
Proof.
  refine (proj2 (allocate_buffer_hit_and_miss clean_junk
                   (fun _ => zero_sector) fill_ops cache_full cache_next 200 0
                   ltac:(vm_compute; reflexivity)
                   ltac:(vm_compute; reflexivity)) _).
  intros c Hc.
  assert (H : forallb (fun c => negb (disk_sector c =? 200))
                (cache_list cache_full) = true) by (vm_compute; reflexivity).
  rewrite forallb_forall in H. specialize (H c Hc).
  apply negb_true_iff in H. apply Z.eqb_neq in H. exact H.
Defined.

(** The cache after a write to sector 7 that has not reached the
    device. *)
Definition cache_written : cache_state :=
  match set_block_data 7 true cache_start with
  | Some (b, st1) =>
      match store_data b (fun _ => 9) st1 with
      | Some st2 => st2
      | None => st1
      end
  | None => cache_start
  end.

Lemma cache_written_inv : cache_inv cache_written.
Proof.
  destruct (write_through_cache cache_start 7 (fun _ => 9)
              (init_cache_cache_inv clean_junk (fun _ => zero_sector))
              ltac:(vm_compute; discriminate))
    as (b & st1 & st2 & E1 & E2 & H & _).
  unfold cache_written. rewrite E1, E2. exact H.
Qed.

Example cache_written_run :
  view cache_written 7 0 = 9 /\ disk cache_written 7 0 = 0.
Proof. vm_compute. split; reflexivity. Qed.

Lemma cache_read_transparent_witness :
  exists b st',
    set_block_data 7 false cache_written = Some (b, st')
    /\ cache_inv st'
    /\ (forall s, s <> UINT_MAX -> view st' s = view cache_written s)
    /\ exists c, In c (cache_list st') /\ c_id c = b /\ disk_sector c = 7
                 /\ (7 <> UINT_MAX -> c_data c = view cache_written 7).
Proof.
  exact (cache_read_transparent cache_written 7 cache_written_inv).
Defined.

Lemma cache_write_visible_witness :
  exists b st1 st2,
    set_block_data 7 true cache_start = Some (b, st1)
    /\ store_data b (fun _ => 9) st1 = Some st2
    /\ cache_inv st2
    /\ forall s, s <> UINT_MAX ->
                 view st2 s = if s =? 7 then (fun _ => 9) else view cache_start s.
Proof.
  exact (cache_write_visible cache_start 7 (fun _ => 9)
           (init_cache_cache_inv clean_junk (fun _ => zero_sector))
           ltac:(vm_compute; discriminate)).
Defined.

Lemma write_dirty_to_disk_flushes_witness :
  exists st',
    write_dirty_to_disk cache_written = Some st'
    /\ cache_inv st'
    /\ (forall c, In c (cache_list st') -> is_dirty c = false)
    /\ forall s, s <> UINT_MAX ->
                 view st' s = view cache_written s
                 /\ disk st' s = view cache_written s.
Proof.
  exact (write_dirty_to_disk_flushes cache_written cache_written_inv).
Defined.

Lemma inode_create_record_witness :
  exists w',
    inode_create 3 100 true blank = Some (true, w')
    /\ inode_length (mk_inode 0 3 1 false 0) w' = 100
    /\ is_directory (mk_inode 0 3 1 false 0) w' = true.
Proof.
  destruct (inode_create_record 3 100 true blank (mk_inode 0 3 1 false 0)
              ltac:(lia) eq_refl) as (w' & H1 & H2 & H3 & _).
  exists w'. split; [exact H1|]. split; [exact H2|exact H3].
Defined.

(** "/a" with one byte in its first block, removed, one opener left. *)
Definition w_a_removed : world :=
  inode_remove 1 (snd (inode_write_at no_wild true file_a [65] 1 0 w_a)).

Lemma inode_close_releases_direct_blocks_witness :
  exists w',
    inode_close (Some 1%nat) w_a_removed = Some w'
    /\ find_inode 1 w' = None
    /\ bitmap_test (free_map w_a_removed) 4 = true
    /\ bitmap_test (free_map w') 4 = false.
Proof.
  destruct (inode_close_releases_direct_blocks 1 w_a_removed
              (mk_inode 1 3 1 true 0)
              ltac:(vm_compute; reflexivity) eq_refl eq_refl
              ltac:(vm_compute; reflexivity))
    as (w' & H0 & H1 & _ & _ & H4 & _).
  exists w'. split; [exact H0|]. split; [exact H1|].
  split; [vm_compute; reflexivity|].
  exact (H4 0 ltac:(unfold DIRECT_BLOCKS; lia) ltac:(vm_compute; discriminate)).
Defined.

Lemma inode_close_keeps_blocks_while_open_witness :
  exists w',
    inode_close (Some 1%nat) w_a = Some w'
    /\ find_inode 1 w' = None
    /\ free_map w' = free_map w_a
    /\ fm_log w' = fm_log w_a.
Proof.
  exact (proj2 (inode_close_keeps_blocks_while_open 1 w_a file_a
                  ltac:(vm_compute; reflexivity))
           ltac:(vm_compute; reflexivity) ltac:(vm_compute; reflexivity)).
Defined.

Lemma inode_deny_write_blocks_writes_witness :
  exists w1 w2,
    inode_deny_write 1 w_a = Some w1
    /\ write_at no_wild true 1 [65] 1 0 w1 = Some (0, w1)
    /\ inode_allow_write 1 w1 = Some w2
    /\ open_inodes w2 = open_inodes w_a.
Proof.
  exact (inode_deny_write_blocks_writes no_wild true 1 w_a file_a [65] 1 0
           ltac:(vm_compute; reflexivity)
           ltac:(vm_compute; split; [discriminate|reflexivity])).
Defined.

Lemma byte_to_sector_stable_witness :
  byte_to_sector no_wild true file_a 0
    (snd (byte_to_sector no_wild true file_a 0 w_a))
  = byte_to_sector no_wild true file_a 0 w_a.
Proof.
  pose proof (byte_to_sector_stable no_wild true file_a 0 w_a _ _ w_a_wf
                eq_refl ltac:(unfold MAX_FILE_SIZE; lia)
                (surjective_pairing _) ltac:(vm_compute; reflexivity))
    as (_ & _ & _ & H).
  rewrite H. symmetry. apply surjective_pairing.
Defined.

Lemma inode_write_at_frame_witness :
  fst (written_at 0) = 1
  /\ wf (snd (written_at 0)) (i_sector file_a)
  /\ inode_length file_a (snd (written_at 0))
     = Z.max (inode_length file_a w_a) (0 + 1).
Proof.
  pose proof (inode_write_at_frame no_wild true file_a [65] 1 0 w_a
                (fst (written_at 0)) (snd (written_at 0)) w_a_wf eq_refl
                ltac:(lia) ltac:(lia) ltac:(unfold MAX_FILE_SIZE; lia)
                ltac:(vm_compute; reflexivity)
                (surjective_pairing _)
                ltac:(vm_compute; reflexivity)) as (H0 & H1 & H2 & _).
  split; [exact H0|]. split; [exact H1|exact H2].
Defined.

Lemma lookup_first_entry_witness :
  exists r, lookup no_wild true (mk_dir 0 0) ".." w_fmt = Some (r, w_fmt).
Proof.
  destruct (lookup_first_entry no_wild true (mk_dir 0 0) root_inode ".." w_fmt
              16 ltac:(vm_compute; reflexivity) w_fmt_wf w_fmt_entries)
    as (r & H & _).
  exists r. exact H.
Defined.

Lemma is_empty_dir_exact_witness :
  exists b, is_empty_dir no_wild true 0 w_fmt = Some (b, w_fmt).
Proof.
  destruct (is_empty_dir_exact no_wild true 0 root_inode w_fmt 16
              ltac:(vm_compute; reflexivity) w_fmt_wf w_fmt_entries)
    as (b & H & _).
  exists b. exact H.
Defined.


Lemma dir_remove_clears_entry_witness :
  exists w',
    dir_remove no_wild true (mk_dir 3 0) "x" d_after_lookup = Some (true, w')
    /\ e_in_use (entry w' 3 2) = false
    /\ entry w' 3 0 = entry d_after_lookup 3 0
    /\ open_inodes w' = open_inodes d_after_lookup.
Proof.
  assert (Hfirst : forall j,
             0 <= j < 2 ->
             names (name_bytes "x")
               (entry d_after_lookup (i_sector d_inode_rec) j) = false).
  { intros j Hj. apply (proj1 (negb_true_iff _)).
    apply (below_forallb
             (fun j => negb (names (name_bytes "x")
                               (entry d_after_lookup (i_sector d_inode_rec) j)))
             2); [vm_compute; reflexivity|exact Hj]. }
  destruct (proj2 (proj2 (dir_remove_clears_entry no_wild true (mk_dir 3 0)
                            d_inode_rec "x" d_after_lookup 16
                            ltac:(vm_compute; reflexivity) w_d_table_ok w_d_wf
                            w_d_entries eq_refl) 2 ltac:(lia)
                     ltac:(vm_compute; reflexivity) Hfirst))
    as (w' & H1 & H2 & H3 & H4).
  - vm_compute. reflexivity.
  - vm_compute. reflexivity.
  - intros pos Hpos.
    assert (Hidx : pos / BLOCK_SECTOR_SIZE = 0)
      by (unfold BLOCK_SECTOR_SIZE, DIR_ENTRY_SIZE in *;
          Z.div_mod_to_equations; lia).
    rewrite data_role_direct by (rewrite Hidx; reflexivity).
    rewrite Hidx. vm_compute. intros H. discriminate H.
  - exists w'. split; [exact H1|]. split; [exact H2|].
    split; [exact (H3 0 ltac:(lia) ltac:(lia))|exact H4].
Defined.

Lemma parent_resolution_leaf_witness :
  exists pre,
    "/d"%string = (pre ++ "d")%string
    /\ (pre = EmptyString \/ exists p, pre = (p ++ "/")%string)
    /\ (0 < String.length "d" <= Z.to_nat NAME_MAX)%nat
    /\ no_slash "d" = true.
Proof.
  exact (parent_resolution_leaf no_wild true "/d" w_d d_after_resolve d_parent
           "d" ltac:(vm_compute; reflexivity)).
Defined.

(** The root directory with "/a" in it, and the open tables. *)
Lemma w_a_root_wf : wf w_a ROOT_DIR_SECTOR.
Proof.
  apply wf_first_block.
  - vm_compute. intros H. discriminate H.
  - vm_compute. reflexivity.
  - vm_compute. reflexivity.
  - vm_compute. intros H. discriminate H.
  - vm_compute. intros H. discriminate H.
  - vm_compute. reflexivity.
  - intros k Hk.
    replace (store w_a ROOT_DIR_SECTOR) with
      (set_word
         (store
            (write_sector blank ROOT_DIR_SECTOR
               (new_inode_disk (16 * DIR_ENTRY_SIZE) true))
            ROOT_DIR_SECTOR) 2 2) by (vm_compute; reflexivity).
    rewrite get_set_word_other by lia.
    apply inode_create_no_pointers. lia.
Qed.

Lemma w_a_root_entries : entries w_a ROOT_DIR_SECTOR 16.
Proof.
  apply first_block_entries.
  - vm_compute. intros H. discriminate H.
  - lia.
  - vm_compute. reflexivity.
  - vm_compute. intros H. discriminate H.
  - vm_compute. intros H. discriminate H.
Qed.

Lemma w_a_table_ok : table_ok w_a.
Proof.
  split.
  - replace (map i_addr (open_inodes w_a)) with [1%nat; 0%nat]
      by (vm_compute; reflexivity).
    repeat constructor; cbn [In]; intuition discriminate.
  - intros i Hi.
    replace (open_inodes w_a) with [file_a; root_inode] in Hi
      by (vm_compute; reflexivity).
    replace (next_addr w_a) with 2%nat by (vm_compute; reflexivity).
    destruct Hi as [E|[E|[]]]; subst i.
    + replace file_a with (mk_inode 1 3 1 false 0) by (vm_compute; reflexivity).
      cbn [open_cnt i_addr]. lia.
    + cbn [open_cnt i_addr root_inode]. lia.
Qed.


Lemma filesys_open_by_name_witness :
  exists a w' i,
    filesys_open no_wild true "/a" w_a = Some (Some a, w')
    /\ same_disk w_a w'
    /\ find_inode a w' = Some i
    /\ i_sector i = e_inode_sector (entry w_a ROOT_DIR_SECTOR 2).
Proof.
  refine (proj2 (filesys_open_by_name no_wild true "a" w_a 16 w_a_table_ok
                   w_a_root_wf w_a_root_entries _ eq_refl ltac:(cbn; lia))
            2 ltac:(lia) ltac:(vm_compute; reflexivity) _
            ltac:(vm_compute; discriminate)).
  - intros r Hr.
    replace (find (has_sector ROOT_DIR_SECTOR) (open_inodes w_a))
      with (Some root_inode) in Hr by (vm_compute; reflexivity).
    inversion Hr. reflexivity.
  - intros j Hj. apply (proj1 (negb_true_iff _)).
    apply (below_forallb
             (fun j => negb (names (name_bytes "a")
                               (entry w_a ROOT_DIR_SECTOR j))) 2);
      [vm_compute; reflexivity|exact Hj].
Defined.

